(** * Discrete-structures desktop tools: the algorithms behind the GUIs

    Each tool of the repository is a stand-alone Tkinter script that wraps
    one classic routine.  This development embeds those routines (the
    callbacks' computational cores, with their dictionaries, lists and
    exceptions) and proves the contracts the specification states for
    them. *)

From Stdlib Require Import ZArith Lia List Bool QArith Lqa Ascii.
From stdpp Require Import gmap strings list fin_maps sorting pretty.

Set Warnings "-clear-no-such-hyp".
Open Scope Z_scope.

(** ** Python results: a value or a raised exception *)

Inductive exn : Type :=
| ValueError (msg : string)
| KeyError
| AttributeError
| IndexError
| Error (cls msg : string).

(** [str(e)], as far as the scripts print it: the message of a
    [ValueError] and of the exceptions of the libraries ([Error]). *)
Definition exn_text (e : exn) : string :=
  match e with
  | ValueError msg => msg
  | Error _ msg => msg
  | KeyError => "KeyError"
  | AttributeError => "AttributeError"
  | IndexError => "IndexError"
  end.

(** What a callback does to the screen; the model records it in order. *)
Inductive ui : Type :=
| ShowError (title text : string)
| ShowInfo (title text : string)
| ShowWarning (title text : string)
| Log (text : string)
| Redraw.

Inductive py (A : Type) : Type :=
| Ret (a : A)
| Raise (e : exn).
Arguments Ret {A} a.
Arguments Raise {A} e.

#[global] Instance py_ret : MRet py := fun A a => Ret a.
#[global] Instance py_bind : MBind py := fun A B k m =>
  match m with
  | Ret a => k a
  | Raise e => Raise e
  end.

(** ** Counting Principle Trainer: [nPr] and [nCr] *)

Module Counting.

(** [math.factorial]: defined on the non-negative integers, [ValueError]
    below zero. *)
Fixpoint fact_nat (n : nat) : Z :=
  match n with
  | O => 1
  | S k => Z.of_nat (S k) * fact_nat k
  end.

Definition factorial (n : Z) : Z := fact_nat (Z.to_nat n).

Definition math_factorial (n : Z) : py Z :=
  if n <? 0 then Raise (ValueError "factorial() not defined for negative values")
  else Ret (factorial n).

(** The falling product n (n-1) ... (n-k+1), the way CPython's
    [math.perm] multiplies it out. *)
Fixpoint falling (n : Z) (k : nat) : Z :=
  match k with
  | O => 1
  | S j => n * falling (n - 1) j
  end.

(** The interpreter the script runs on: [math.perm] and [math.comb]
    exist from Python 3.8 on; before that the attribute lookup raises
    [AttributeError], which is what the [except] clauses are for. *)
Record interp : Type := { has_perm : bool; has_comb : bool }.

Definition math_perm (I : interp) (n k : Z) : py Z :=
  if negb (has_perm I) then Raise AttributeError
  else if n <? 0 then Raise (ValueError "n must be a non-negative integer")
  else if k <? 0 then Raise (ValueError "k must be a non-negative integer")
  else if n <? k then Ret 0
  else Ret (falling n (Z.to_nat k)).

Definition math_comb (I : interp) (n k : Z) : py Z :=
  if negb (has_comb I) then Raise AttributeError
  else if n <? 0 then Raise (ValueError "n must be a non-negative integer")
  else if k <? 0 then Raise (ValueError "k must be a non-negative integer")
  else if n <? k then Ret 0
  else Ret (falling n (Z.to_nat k) / factorial k).

(** Python's floor division; the divisor is never zero where the scripts
    use it, [ZeroDivisionError] is therefore not modelled. *)
Definition floordiv (a b : Z) : Z := a / b.

Definition nPr (I : interp) (n r : Z) : py Z :=
  if (r >? n) || (n <? 0) || (r <? 0) then Ret 0
  else
    match math_perm I n r with
    | Raise AttributeError =>
        a ← math_factorial n ;
        b ← math_factorial (n - r) ;
        Ret (floordiv a b)
    | other => other
    end.

Definition nCr (I : interp) (n r : Z) : py Z :=
  if (r >? n) || (n <? 0) || (r <? 0) then Ret 0
  else
    match math_comb I n r with
    | Raise AttributeError =>
        a ← math_factorial n ;
        b ← math_factorial r ;
        c ← math_factorial (n - r) ;
        Ret (floordiv a (b * c))
    | other => other
    end.

(** What the claim promises, written with factorials only. *)
Definition nPr_spec (n r : Z) : Z :=
  if (r >? n) || (n <? 0) || (r <? 0) then 0
  else factorial n / factorial (n - r).

Definition nCr_spec (n r : Z) : Z :=
  if (r >? n) || (n <? 0) || (r <? 0) then 0
  else factorial n / (factorial r * factorial (n - r)).

Lemma fact_nat_pos n : 0 < fact_nat n.
Proof. induction n as [|n IH]; simpl fact_nat; lia. Qed.

Lemma factorial_pos n : 0 < factorial n.
Proof. apply fact_nat_pos. Qed.

Lemma falling_fact (k m : nat) :
  falling (Z.of_nat (k + m)) k * fact_nat m = fact_nat (k + m).
Proof.
  induction k as [|k IH]; simpl falling.
  - simpl. lia.
  - replace (S k + m)%nat with (S (k + m)) by lia.
    replace (Z.of_nat (S (k + m)) - 1) with (Z.of_nat (k + m)) by lia.
    change (fact_nat (S (k + m))) with (Z.of_nat (S (k + m)) * fact_nat (k + m)).
    rewrite <- IH. ring.
Qed.

Lemma falling_factorial (n r : Z) :
  0 ≤ r → r ≤ n →
  falling n (Z.to_nat r) * factorial (n - r) = factorial n.
Proof.
  intros Hr Hn. unfold factorial.
  pose proof (falling_fact (Z.to_nat r) (Z.to_nat (n - r))) as H.
  replace (Z.to_nat r + Z.to_nat (n - r))%nat with (Z.to_nat n) in H by lia.
  replace (Z.of_nat (Z.to_nat n)) with n in H by lia.
  exact H.
Qed.

Lemma falling_quot (n r : Z) :
  0 ≤ r → r ≤ n → falling n (Z.to_nat r) = factorial n / factorial (n - r).
Proof.
  intros Hr Hn. rewrite <- (falling_factorial n r Hr Hn).
  rewrite Z.div_mul; [done|]. pose proof (factorial_pos (n - r)). lia.
Qed.

Lemma comb_quot (n r : Z) :
  0 ≤ r → r ≤ n →
  falling n (Z.to_nat r) / factorial r
  = factorial n / (factorial r * factorial (n - r)).
Proof.
  intros Hr Hn. rewrite <- (falling_factorial n r Hr Hn).
  pose proof (factorial_pos (n - r)). pose proof (factorial_pos r).
  rewrite Z.div_mul_cancel_r; lia.
Qed.


(** *** Beyond the closed forms: the quotients are exact *)

(** Pascal's triangle. *)
Fixpoint choose (n k : nat) : Z :=
  match n, k with
  | _, O => 1
  | O, S _ => 0
  | S n', S k' => choose n' k' + choose n' (S k')
  end.

Lemma choose_fact n : ∀ k m, (k + m = n)%nat →
  choose n k * fact_nat k * fact_nat m = fact_nat n.
Proof.
  induction n as [|n IH]; intros k m Hn.
  - assert (k = 0%nat) as -> by lia. assert (m = 0%nat) as -> by lia. done.
  - destruct k as [|k].
    + assert (m = S n) as -> by lia. cbn [choose]. change (fact_nat 0) with 1. lia.
    + destruct m as [|m].
      * assert (k = n) as -> by lia. cbn [choose].
        pose proof (IH n 0%nat ltac:(lia)) as H1.
        assert (H2 : choose n (S n) = 0).
        { clear. induction n as [|n IHn]; [done|]. cbn [choose].
          assert (Hgen : ∀ a b, (a < b)%nat → choose a b = 0).
          { clear. induction a as [|a IHa]; intros [|b] Hab; try lia; [done|].
            cbn [choose]. rewrite !IHa by lia. done. }
          rewrite !Hgen by lia. done. }
        rewrite H2. change (fact_nat 0) with 1 in *.
        change (fact_nat (S n)) with (Z.of_nat (S n) * fact_nat n). nia.
      * cbn [choose].
        pose proof (IH k (S m) ltac:(lia)) as H1.
        pose proof (IH (S k) m ltac:(lia)) as H2.
        change (fact_nat (S n)) with (Z.of_nat (S n) * fact_nat n).
        change (fact_nat (S k)) with (Z.of_nat (S k) * fact_nat k) in *.
        change (fact_nat (S m)) with (Z.of_nat (S m) * fact_nat m) in *.
        assert (Hs : Z.of_nat (S n) = Z.of_nat (S k) + Z.of_nat (S m)) by lia.
        rewrite Hs. nia.
Qed.

Lemma nCr_spec_choose (n r : Z) :
  0 ≤ r → r ≤ n → nCr_spec n r = choose (Z.to_nat n) (Z.to_nat r).
Proof.
  intros Hr Hn. unfold nCr_spec.
  replace ((r >? n) || (n <? 0) || (r <? 0)) with false by lia.
  pose proof (choose_fact (Z.to_nat n) (Z.to_nat r) (Z.to_nat (n - r)) ltac:(lia)) as H.
  unfold factorial. rewrite <- H.
  pose proof (fact_nat_pos (Z.to_nat r)). pose proof (fact_nat_pos (Z.to_nat (n - r))).
  rewrite <- Z.mul_assoc. rewrite Z.div_mul; [done|nia].
Qed.

Lemma nCr_value (I : interp) (n r : Z) : nCr I n r = Ret (nCr_spec n r).
Proof.
  unfold nCr, nCr_spec.
  destruct ((r >? n) || (n <? 0) || (r <? 0)) eqn:Hguard; [done|].
  unfold math_comb, math_factorial.
  replace (n <? 0) with false by lia. replace (r <? 0) with false by lia.
  replace (n <? r) with false by lia. replace (n - r <? 0) with false by lia.
  destruct (has_comb I); simpl; [|done]. rewrite comb_quot by lia. done.
Qed.

Lemma nPr_value (I : interp) (n r : Z) : nPr I n r = Ret (nPr_spec n r).
Proof.
  unfold nPr, nPr_spec.
  destruct ((r >? n) || (n <? 0) || (r <? 0)) eqn:Hguard; [done|].
  unfold math_perm, math_factorial.
  replace (n <? 0) with false by lia. replace (r <? 0) with false by lia.
  replace (n <? r) with false by lia. replace (n - r <? 0) with false by lia.
  destruct (has_perm I); simpl; [|done]. rewrite falling_quot by lia. done.
Qed.





(** X3.  [nCr] is symmetric for all integers: choosing [r] of [n] and
    choosing [n - r] of [n] give the same result, the guard's zero
    outside [0 <= r <= n] included. *)
Theorem nCr_symmetric (I : interp) (n r : Z) : nCr I n r = nCr I n (n - r).
Proof.
  rewrite !nCr_value. f_equal. unfold nCr_spec.
  destruct (decide (0 ≤ r ∧ r ≤ n)) as [[Hr Hn]|Hout].
  - replace ((r >? n) || (n <? 0) || (r <? 0)) with false by lia.
    replace ((n - r >? n) || (n <? 0) || (n - r <? 0)) with false by lia.
    replace (n - (n - r)) with r by lia. f_equal. lia.
  - replace ((r >? n) || (n <? 0) || (r <? 0)) with true by lia.
    replace ((n - r >? n) || (n <? 0) || (n - r <? 0)) with true by lia. done.
Qed.

End Counting.

(** ** Graph Traversal Visualizer (DFS & BFS) *)

Module Traversal.

Inductive mode_t : Type := NodeMode | EdgeMode.

(** The model behind the canvas: [self.nodes] (a list of positions, the
    index is the node id), [self.edges] (dict: node id -> list of
    neighbours), [self.selected_node] and [self.mode]. *)
Record app : Type := App {
  nodes : list (Z * Z);
  edges : gmap nat (list nat);
  selected_node : option nat;
  mode : option mode_t
}.

Definition init : app :=
  {| nodes := []; edges := ∅; selected_node := None; mode := None |}.

Inductive event : Type :=
| AddNodeMode
| AddEdgeMode
| CanvasClick (x y : Z)
| Reset.

(** [self.nodes[i]]: [IndexError] past the end. *)
Definition nodes_at (a : app) (i : nat) : py (Z * Z) :=
  match nodes a !! i with
  | Some p => Ret p
  | None => Raise IndexError
  end.

(** [self.edges[n]]: [KeyError] on a missing key. *)
Definition edges_at (e : gmap nat (list nat)) (n : nat) : py (list nat) :=
  match e !! n with
  | Some l => Ret l
  | None => Raise KeyError
  end.

(** Drawing touches the model only by reading a position. *)
Definition highlight_node (a : app) (n : nat) : py unit :=
  _ ← nodes_at a n; Ret tt.

Definition draw_edge (a : app) (n1 n2 : nat) : py unit :=
  _ ← nodes_at a n1; _ ← nodes_at a n2; Ret tt.

Fixpoint get_clicked_from (i : nat) (l : list (Z * Z)) (x y : Z) : option nat :=
  match l with
  | [] => None
  | (nx, ny) :: rest =>
      if (nx - x) ^ 2 + (ny - y) ^ 2 <=? 400 then Some i
      else get_clicked_from (S i) rest x y
  end.

Definition get_clicked_node (a : app) (x y : Z) : option nat :=
  get_clicked_from 0 (nodes a) x y.

Definition on_canvas_click (a : app) (x y : Z) : py app :=
  match mode a with
  | Some NodeMode =>
      let node_id := length (nodes a) in
      Ret {| nodes := nodes a ++ [(x, y)];
             edges := <[node_id := []]> (edges a);
             selected_node := selected_node a;
             mode := mode a |}
  | Some EdgeMode =>
      match get_clicked_node a x y with
      | None => Ret a
      | Some clicked =>
          match selected_node a with
          | None =>
              _ ← highlight_node a clicked;
              Ret {| nodes := nodes a; edges := edges a;
                     selected_node := Some clicked; mode := mode a |}
          | Some n1 =>
              let n2 := clicked in
              a' ← (if decide (n1 = n2) then Ret a
                    else
                      l1 ← edges_at (edges a) n1;
                      if decide (n2 ∈ l1) then Ret a
                      else
                        let e1 := <[n1 := l1 ++ [n2]]> (edges a) in
                        l2 ← edges_at e1 n2;
                        let e2 := <[n2 := l2 ++ [n1]]> e1 in
                        let a1 := {| nodes := nodes a; edges := e2;
                                     selected_node := selected_node a;
                                     mode := mode a |} in
                        _ ← draw_edge a1 n1 n2;
                        Ret a1);
              _ ← highlight_node a' n1;
              Ret {| nodes := nodes a'; edges := edges a';
                     selected_node := None; mode := mode a' |}
          end
      end
  | None => Ret a
  end.

Definition reset (a : app) : app :=
  {| nodes := []; edges := ∅; selected_node := None; mode := None |}.

Definition handle (a : app) (ev : event) : py app :=
  match ev with
  | AddNodeMode =>
      Ret {| nodes := nodes a; edges := edges a;
             selected_node := selected_node a; mode := Some NodeMode |}
  | AddEdgeMode =>
      Ret {| nodes := nodes a; edges := edges a;
             selected_node := selected_node a; mode := Some EdgeMode |}
  | CanvasClick x y => on_canvas_click a x y
  | Reset => Ret (reset a)
  end.

Fixpoint run (a : app) (evs : list event) : py app :=
  match evs with
  | [] => Ret a
  | ev :: rest => a' ← handle a ev; run a' rest
  end.

(** The [for neighbor in self.edges[node]] loop of [dfs_visual]; [rec]
    is the recursive call. *)
Fixpoint dfs_neighbors
    (rec : nat → gset nat → list nat → option (py (gset nat * list nat)))
    (nbrs : list nat) (visited : gset nat) (order : list nat)
  : option (py (gset nat * list nat)) :=
  match nbrs with
  | [] => Some (Ret (visited, order))
  | neighbor :: rest =>
      if decide (neighbor ∈ visited) then dfs_neighbors rec rest visited order
      else
        match rec neighbor visited order with
        | Some (Ret (v', o')) => dfs_neighbors rec rest v' o'
        | other => other
        end
  end.

(** [dfs_visual]: the recursion is bounded by [fuel]; [None] means the
    bound was hit.  [order] lists the nodes in the order they are first
    highlighted. *)
Fixpoint dfs_visual (fuel : nat) (a : app) (node : nat)
    (visited : gset nat) (order : list nat)
  : option (py (gset nat * list nat)) :=
  match fuel with
  | O => None
  | S f =>
      let visited := {[node]} ∪ visited in
      match highlight_node a node with
      | Raise e => Some (Raise e)
      | Ret _ =>
          let order := order ++ [node] in
          match edges_at (edges a) node with
          | Raise e => Some (Raise e)
          | Ret nbrs => dfs_neighbors (dfs_visual f a) nbrs visited order
          end
      end
  end.

(** [run_dfs]: a warning and nothing else on an empty graph, otherwise
    the traversal from node 0.  The result is the visiting order. *)
Definition run_dfs (fuel : nat) (a : app) : option (py (list nat)) :=
  match nodes a with
  | [] => Some (Ret [])
  | _ =>
      match dfs_visual fuel a 0%nat ∅ [] with
      | None => None
      | Some (Raise e) => Some (Raise e)
      | Some (Ret (_, order)) => Some (Ret order)
      end
  end.

(** The neighbour loop of [run_bfs]. *)
Fixpoint bfs_neighbors (nbrs : list nat) (visited : gset nat) (queue : list nat)
  : gset nat * list nat :=
  match nbrs with
  | [] => (visited, queue)
  | neighbor :: rest =>
      if decide (neighbor ∈ visited) then bfs_neighbors rest visited queue
      else bfs_neighbors rest ({[neighbor]} ∪ visited) (queue ++ [neighbor])
  end.

(** The [while queue:] loop, one iteration per unit of fuel. *)
Fixpoint bfs_loop (fuel : nat) (a : app) (queue : list nat)
    (visited : gset nat) (order : list nat) : option (py (list nat)) :=
  match queue with
  | [] => Some (Ret order)
  | current :: queue' =>
      match fuel with
      | O => None
      | S f =>
          match highlight_node a current with
          | Raise e => Some (Raise e)
          | Ret _ =>
              match edges_at (edges a) current with
              | Raise e => Some (Raise e)
              | Ret nbrs =>
                  let '(visited', queue'') := bfs_neighbors nbrs visited queue' in
                  bfs_loop f a queue'' visited' (order ++ [current])
              end
          end
      end
  end.

Definition run_bfs (fuel : nat) (a : app) : option (py (list nat)) :=
  match nodes a with
  | [] => Some (Ret [])
  | _ => bfs_loop fuel a [0%nat] {[0%nat]} []
  end.

(** The adjacency invariant of the claim. *)
Definition adjacent (a : app) (n m : nat) : Prop :=
  ∃ l, edges a !! n = Some l ∧ m ∈ l.

Record adjacency_ok (a : app) : Prop := {
  keys_ok : ∀ n, is_Some (edges a !! n) ↔ (n < length (nodes a))%nat;
  symmetric_ok : ∀ n m, adjacent a n m ↔ adjacent a m n;
  irreflexive_ok : ∀ n, ¬ adjacent a n n;
  nodup_ok : ∀ n l, edges a !! n = Some l → NoDup l
}.

(** What the induction over the clicks needs besides: the pending first
    endpoint of an edge is a node. *)
Definition selected_ok (a : app) : Prop :=
  ∀ n, selected_node a = Some n → (n < length (nodes a))%nat.

Lemma get_clicked_from_lt i l x y n :
  get_clicked_from i l x y = Some n → (i ≤ n < i + length l)%nat.
Proof.
  revert i. induction l as [|[nx ny] l IH]; intros i; simpl; [done|].
  destruct (_ <=? 400).
  - intros [= <-]. lia.
  - intros H%IH. lia.
Qed.

Lemma get_clicked_node_lt a x y n :
  get_clicked_node a x y = Some n → (n < length (nodes a))%nat.
Proof. intros H%get_clicked_from_lt. lia. Qed.

Lemma nodes_at_lt a n :
  (n < length (nodes a))%nat → ∃ p, nodes_at a n = Ret p.
Proof.
  intros H. unfold nodes_at.
  destruct (lookup_lt_is_Some_2 (nodes a) n H) as [p ->]. eauto.
Qed.

Lemma highlight_node_lt a n :
  (n < length (nodes a))%nat → highlight_node a n = Ret tt.
Proof. intros [p Hp]%nodes_at_lt. unfold highlight_node. by rewrite Hp. Qed.

(** Adding a node: a fresh key with an empty list. *)
Lemma add_node_ok a x y sel md :
  adjacency_ok a →
  adjacency_ok {| nodes := nodes a ++ [(x, y)];
                  edges := <[length (nodes a) := []]> (edges a);
                  selected_node := sel; mode := md |}.
Proof.
  intros [Hk Hs Hi Hn].
  assert (Hadj : ∀ n m,
    adjacent {| nodes := nodes a ++ [(x, y)];
                edges := <[length (nodes a) := []]> (edges a);
                selected_node := sel; mode := md |} n m
    ↔ adjacent a n m).
  { intros n m. unfold adjacent; simpl. split.
    - intros (l & Hl & Hm). destruct (decide (length (nodes a) = n)) as [<-|Hne].
      + rewrite lookup_insert_eq in Hl. injection Hl as <-. by apply elem_of_nil in Hm.
      + rewrite lookup_insert_ne in Hl by done. eauto.
    - intros (l & Hl & Hm). exists l. split; [|done].
      rewrite lookup_insert_ne; [done|].
      intros <-. assert (is_Some (edges a !! length (nodes a))) as ?%Hk by eauto. lia. }
  split; simpl.
  - intros n. rewrite length_app. simpl. rewrite lookup_insert.
    case_decide as Hd; [subst; split; [lia|eauto]|].
    rewrite Hk. lia.
  - intros n m. rewrite !Hadj. apply Hs.
  - intros n. rewrite Hadj. apply Hi.
  - intros n l. rewrite lookup_insert. case_decide.
    + intros [= <-]. constructor.
    + apply Hn.
Qed.

(** Adding an edge between two distinct, not yet adjacent nodes. *)
Lemma add_edge_ok a n1 n2 l1 l2 sel md :
  adjacency_ok a → n1 ≠ n2 →
  edges a !! n1 = Some l1 → edges a !! n2 = Some l2 → n2 ∉ l1 →
  adjacency_ok {| nodes := nodes a;
                  edges := <[n2 := l2 ++ [n1]]> (<[n1 := l1 ++ [n2]]> (edges a));
                  selected_node := sel; mode := md |}.
Proof.
  intros [Hk Hs Hi Hn] Hne H1 H2 Hnot.
  assert (Hnot' : n1 ∉ l2).
  { intros Hin. apply Hnot.
    assert (adjacent a n2 n1) as (l & Hl & Hm)%Hs by (exists l2; eauto).
    congruence. }
  assert (Hadj : ∀ n m,
    adjacent {| nodes := nodes a;
                edges := <[n2 := l2 ++ [n1]]> (<[n1 := l1 ++ [n2]]> (edges a));
                selected_node := sel; mode := md |} n m
    ↔ adjacent a n m ∨ (n = n1 ∧ m = n2) ∨ (n = n2 ∧ m = n1)).
  { intros n m. unfold adjacent; simpl. split.
    - intros (l & Hl & Hm). rewrite lookup_insert in Hl. case_decide as Hd.
      + injection Hl as <-. subst n. apply elem_of_app in Hm as [Hm|Hm%list_elem_of_singleton].
        * left. eauto.
        * right. right. done.
      + rewrite lookup_insert in Hl. case_decide as Hd'.
        * injection Hl as <-. subst n. apply elem_of_app in Hm as [Hm|Hm%list_elem_of_singleton].
          -- left. eauto.
          -- right. left. done.
        * left. eauto.
    - intros [(l & Hl & Hm)|[[-> ->]|[-> ->]]].
      + destruct (decide (n2 = n)) as [<-|Hd].
        * exists (l2 ++ [n1]). rewrite lookup_insert_eq. split; [done|].
          apply elem_of_app. left. congruence.
        * rewrite lookup_insert_ne by done.
          destruct (decide (n1 = n)) as [<-|Hd'].
          -- exists (l1 ++ [n2]). rewrite lookup_insert_eq. split; [done|].
             apply elem_of_app. left. congruence.
          -- rewrite lookup_insert_ne by done. eauto.
      + exists (l1 ++ [n2]). rewrite lookup_insert_ne by done.
        rewrite lookup_insert_eq. split; [done|]. apply elem_of_app. right. by left.
      + exists (l2 ++ [n1]). rewrite lookup_insert_eq. split; [done|].
        apply elem_of_app. right. by left. }
  split; simpl.
  - intros n. rewrite <- Hk. rewrite !lookup_insert.
    repeat case_decide; subst; split; eauto.
  - intros n m. rewrite !Hadj. rewrite (Hs n m). tauto.
  - intros n. rewrite Hadj. intros [H|[[-> ->]|[-> ->]]]; [by eapply Hi|done|done].
  - intros n l. rewrite !lookup_insert. repeat case_decide.
    + intros [= <-]. apply NoDup_app. split_and!.
      * by eapply Hn.
      * intros z Hz ->%list_elem_of_singleton. done.
      * apply NoDup_singleton.
    + intros [= <-]. apply NoDup_app. split_and!.
      * by eapply Hn.
      * intros z Hz ->%list_elem_of_singleton. done.
      * apply NoDup_singleton.
    + apply Hn.
Qed.

Lemma init_ok : adjacency_ok init ∧ selected_ok init.
Proof.
  split; [split|]; simpl.
  - intros n. rewrite lookup_empty. split; [by intros [? ?]|lia].
  - intros n m. unfold adjacent; simpl. setoid_rewrite lookup_empty.
    split; intros (l & Hl & _); done.
  - intros n (l & Hl & _). simpl in Hl. by rewrite lookup_empty in Hl.
  - intros n l. by rewrite lookup_empty.
  - intros n. done.
Qed.

(** Every handler returns normally and keeps the invariant. *)
Lemma handle_ok a ev :
  adjacency_ok a → selected_ok a →
  ∃ a', handle a ev = Ret a' ∧ adjacency_ok a' ∧ selected_ok a'.
Proof.
  intros Hadj Hsel. destruct ev as [| |x y|]; simpl.
  - eexists. split; [done|]. split; [by destruct Hadj|done].
  - eexists. split; [done|]. split; [by destruct Hadj|done].
  - unfold on_canvas_click. destruct (mode a) as [[|]|] eqn:Hmode.
    + eexists. split; [done|]. split; [by apply add_node_ok|].
      intros n Hn. simpl in *. rewrite length_app. apply Hsel in Hn. lia.
    + destruct (get_clicked_node a x y) as [clicked|] eqn:Hc; [|eauto].
      pose proof (get_clicked_node_lt _ _ _ _ Hc) as Hlt.
      destruct (selected_node a) as [n1|] eqn:Hs.
      * pose proof (Hsel n1 Hs) as Hlt1.
        destruct (decide (n1 = clicked)) as [->|Hne].
        { simpl. rewrite highlight_node_lt by done. simpl.
          eexists. split; [done|]. split; [by destruct Hadj|done]. }
        destruct (proj2 (keys_ok a Hadj n1) Hlt1) as [l1 Hl1].
        destruct (proj2 (keys_ok a Hadj clicked) Hlt) as [l2 Hl2].
        unfold edges_at. rewrite Hl1. simpl.
        destruct (decide (clicked ∈ l1)) as [Hin|Hnin].
        { simpl. rewrite highlight_node_lt by done. simpl.
          eexists. split; [done|]. split; [by destruct Hadj|done]. }
        rewrite lookup_insert_ne by done. rewrite Hl2. simpl.
        unfold draw_edge. simpl.
        destruct (nodes_at_lt a n1 Hlt1) as [p1 Hp1].
        destruct (nodes_at_lt a clicked Hlt) as [p2 Hp2].
        unfold nodes_at in *. simpl. 
        destruct (nodes a !! n1) eqn:E1; [|done].
        destruct (nodes a !! clicked) eqn:E2; [|done]. simpl.
        unfold highlight_node, nodes_at. simpl. rewrite E1. simpl.
        eexists. split; [done|]. split; [|done].
        by apply (add_edge_ok a n1 clicked l1 l2).
      * rewrite highlight_node_lt by done. simpl.
        eexists. split; [done|]. split; [by destruct Hadj|].
        intros n [= <-]. done.
    + eauto.
  - eexists. split; [done|]. apply init_ok.
Qed.

Lemma run_ok evs : ∀ a,
  adjacency_ok a → selected_ok a →
  ∃ a', run a evs = Ret a' ∧ adjacency_ok a' ∧ selected_ok a'.
Proof.
  induction evs as [|ev evs IH]; intros a Hadj Hsel; simpl; [eauto|].
  destruct (handle_ok a ev Hadj Hsel) as (a1 & -> & Hadj1 & Hsel1). simpl.
  by apply IH.
Qed.

(** *** The traversals on a graph that satisfies the invariant *)

(** The bookkeeping of both traversals: [order] lists exactly the
    visited nodes, each once. *)
Definition tracks (visited : gset nat) (order : list nat) : Prop :=
  NoDup order ∧ ∀ x, x ∈ order ↔ x ∈ visited.

Lemma tracks_snoc visited order n :
  tracks visited order → n ∉ visited →
  tracks ({[n]} ∪ visited) (order ++ [n]).
Proof.
  intros [Hnd Hiff] Hn. split.
  - apply NoDup_app. split_and!; [done| |apply NoDup_singleton].
    intros x Hx ->%list_elem_of_singleton. by apply Hn, Hiff.
  - intros x. rewrite elem_of_app, list_elem_of_singleton, Hiff. set_solver.
Qed.

Lemma size_remaining_lt (U visited : gset nat) n :
  n ∈ U → n ∉ visited →
  (size (U ∖ ({[n]} ∪ visited)) < size (U ∖ visited))%nat.
Proof.
  intros HU Hn. apply subset_size. split; [set_solver|].
  intros Hsub. assert (n ∈ U ∖ ({[n]} ∪ visited)) by set_solver. set_solver.
Qed.

Section traversals.
Variable a : app.
Hypothesis Hadj : adjacency_ok a.

Definition universe : gset nat := set_seq 0 (length (nodes a)).
Local Abbreviation U := universe.

Lemma in_universe n : n ∈ U ↔ (n < length (nodes a))%nat.
Proof. unfold U. rewrite elem_of_set_seq. lia. Qed.

Lemma size_universe : size U = length (nodes a).
Proof. apply size_set_seq. Qed.

Lemma neighbors_in_universe n l m :
edges a !! n = Some l → m ∈ l → m ∈ U.
Proof.
intros Hl Hm. apply in_universe, (keys_ok a Hadj).
assert (adjacent a n m) as (l' & Hl' & _)%(symmetric_ok a Hadj) by (exists l; eauto).
eauto.
Qed.

Definition dfs_post (visited : gset nat) (r : option (py (gset nat * list nat))) : Prop :=
∃ v' o', r = Some (Ret (v', o')) ∧ visited ⊆ v' ∧ v' ⊆ U ∧ tracks v' o'.

Lemma dfs_neighbors_ok rec f :
(∀ node visited order,
 node ∈ U → node ∉ visited → visited ⊆ U →
 (size (U ∖ visited) ≤ f)%nat → tracks visited order →
 dfs_post ({[node]} ∪ visited) (rec node visited order)) →
∀ nbrs visited order,
(∀ m, m ∈ nbrs → m ∈ U) → visited ⊆ U →
(size (U ∖ visited) ≤ f)%nat → tracks visited order →
dfs_post visited (dfs_neighbors rec nbrs visited order).
Proof.
intros Hrec. induction nbrs as [|m nbrs IH]; intros visited order Hin Hsub Hsize Htr; simpl.
- exists visited, order. done.
- assert (Hrest : ∀ m', m' ∈ nbrs → m' ∈ U) by (intros; apply Hin; by right).
destruct (decide (m ∈ visited)) as [Hm|Hm]; [by apply IH|].
destruct (Hrec m visited order) as (v1 & o1 & -> & Hsub1 & HU1 & Htr1);
  [apply Hin; by left|done..|].
destruct (IH v1 o1) as (v2 & o2 & -> & Hsub2 & HU2 & Htr2); [done..| |done|].
+ etrans; [|exact Hsize]. apply subseteq_size. set_solver.
+ exists v2, o2. split_and!; [done|set_solver|done..].
Qed.

Lemma dfs_visual_ok fuel : ∀ node visited order,
node ∈ U → node ∉ visited → visited ⊆ U →
(size (U ∖ visited) ≤ fuel)%nat → tracks visited order →
dfs_post ({[node]} ∪ visited) (dfs_visual fuel a node visited order).
Proof.
induction fuel as [|f IH]; intros node visited order HU Hn Hsub Hsize Htr.
- assert (node ∈ U ∖ visited) as Hne by set_solver.
assert (size (U ∖ visited) ≠ 0)%nat; [|lia].
intros Hz%size_empty_iff. set_solver.
- simpl. rewrite highlight_node_lt by by apply in_universe.
destruct (proj2 (keys_ok a Hadj node) (proj1 (in_universe node) HU)) as [l Hl].
unfold edges_at. rewrite Hl.
apply (dfs_neighbors_ok (dfs_visual f a) f IH).
+ intros m Hm. by eapply neighbors_in_universe.
+ set_solver.
+ pose proof (size_remaining_lt U visited node HU Hn). lia.
+ by apply tracks_snoc.
Qed.

Lemma run_dfs_ok fuel :
(length (nodes a) ≤ fuel)%nat →
∃ order, run_dfs fuel a = Some (Ret order) ∧ NoDup order.
Proof.
intros Hfuel. unfold run_dfs.
pose proof size_universe as HsU. pose proof (in_universe 0) as H0U.
destruct (nodes a) as [|p ps] eqn:Hnodes; [exists []; split; [done|constructor]|].
rewrite <- Hnodes in Hfuel.
destruct (dfs_visual_ok fuel 0%nat ∅ []) as (v & o & -> & _ & _ & Hnd & _).
- apply H0U. simpl. lia.
- set_solver.
- set_solver.
- etrans; [|exact Hfuel]. etrans; [apply subseteq_size, subseteq_difference_l; done|].
by rewrite size_universe.
- split; [constructor|]. intros x. set_solver.
- eauto.
Qed.

Lemma bfs_neighbors_ok nbrs : ∀ visited queue order v' q',
bfs_neighbors nbrs visited queue = (v', q') →
(∀ m, m ∈ nbrs → m ∈ U) → visited ⊆ U → tracks visited (order ++ queue) →
v' ⊆ U ∧ tracks v' (order ++ q') ∧
(size (U ∖ v') + length q' = size (U ∖ visited) + length queue)%nat.
Proof.
induction nbrs as [|m nbrs IH]; intros visited queue order v' q' Heq Hin Hsub Htr; simpl in Heq.
- by injection Heq as <- <-.
- assert (Hrest : ∀ m', m' ∈ nbrs → m' ∈ U) by (intros; apply Hin; by right).
destruct (decide (m ∈ visited)) as [Hm|Hm]; [by eapply IH|].
assert (HmU : m ∈ U) by (apply Hin; by left).
destruct (IH _ _ order _ _ Heq) as (HU' & Htr' & Hsz); [done|set_solver| |].
+ rewrite app_assoc. by apply tracks_snoc.
+ split_and!; [done..|]. rewrite Hsz, length_app. simpl.
  assert (HE : U ∖ visited = {[m]} ∪ U ∖ ({[m]} ∪ visited)).
  { apply set_eq. intros x. destruct (decide (x = m)); set_solver. }
  pose proof (size_union ({[m]} : gset nat) (U ∖ ({[m]} ∪ visited))) as Hsu.
  rewrite <- HE, size_singleton in Hsu. specialize (Hsu ltac:(set_solver)). lia.
Qed.

Lemma bfs_loop_ok fuel : ∀ queue visited order,
visited ⊆ U → tracks visited (order ++ queue) →
(size (U ∖ visited) + length queue ≤ fuel)%nat →
∃ order', bfs_loop fuel a queue visited order = Some (Ret order') ∧ NoDup order'.
Proof.
induction fuel as [|f IH]; intros queue visited order Hsub Htr Hsize.
- destruct queue as [|c q]; simpl in *; [|lia].
exists order. split; [done|]. destruct Htr as [Hnd _]. by rewrite app_nil_r in Hnd.
- destruct queue as [|c q]; simpl.
{ exists order. split; [done|]. destruct Htr as [Hnd _]. by rewrite app_nil_r in Hnd. }
assert (HcU : c ∈ U).
{ apply Hsub, Htr. apply elem_of_app. right. by left. }
rewrite highlight_node_lt by by apply in_universe.
destruct (proj2 (keys_ok a Hadj c) (proj1 (in_universe c) HcU)) as [l Hl].
unfold edges_at. rewrite Hl.
destruct (bfs_neighbors l visited q) as [v' q'] eqn:Hb.
destruct (bfs_neighbors_ok l visited q (order ++ [c]) v' q' Hb) as (HU' & Htr' & Hsz).
+ intros m Hm. by eapply neighbors_in_universe.
+ done.
+ by rewrite <- app_assoc.
+ apply (IH q' v' (order ++ [c])); [done..|]. simpl in Hsize. lia.
Qed.

Lemma run_bfs_ok fuel :
(length (nodes a) ≤ fuel)%nat →
∃ order, run_bfs fuel a = Some (Ret order) ∧ NoDup order.
Proof.
intros Hfuel. unfold run_bfs.
pose proof size_universe as HsU. pose proof (in_universe 0) as H0U.
destruct (nodes a) as [|p ps] eqn:Hnodes; [exists []; split; [done|constructor]|].
assert (H0 : (0:nat) ∈ U) by (apply H0U; simpl; lia).
apply bfs_loop_ok.
- set_solver.
- split; [apply NoDup_singleton|]. intros x. simpl. rewrite list_elem_of_singleton. set_solver.
- simpl. pose proof (size_remaining_lt U ∅ 0%nat H0) as Hlt.
rewrite (right_id_L ∅ (∪)) in Hlt.
assert (size (U ∖ ∅) ≤ size U)%nat
  by (apply subseteq_size, subseteq_difference_l; done).
specialize (Hlt ltac:(set_solver)). simpl in *. lia.
Qed.

End traversals.


(** *** What the traversals reach *)

Section reach.
Variable a : app.
Hypothesis Hadj : adjacency_ok a.

Local Abbreviation U := (universe a).

(** Reachable from [n] along the edges drawn. *)
Definition connected_to (n m : nat) : Prop := rtc (adjacent a) n m.

Definition closed_in (visited : gset nat) (x : nat) : Prop :=
  ∀ y, adjacent a x y → y ∈ visited.

Definition dfs_reach (node : nat) (visited : gset nat)
    (r : option (py (gset nat * list nat))) : Prop :=
  ∃ v' o', r = Some (Ret (v', o')) ∧ visited ⊆ v' ∧ v' ⊆ U ∧ tracks v' o' ∧
    (∀ x, x ∈ v' → x ∉ visited → connected_to node x ∧ closed_in v' x).

Lemma dfs_neighbors_reach rec f node :
  (∀ m visited order,
     m ∈ U → m ∉ visited → visited ⊆ U →
     (size (U ∖ visited) ≤ f)%nat → tracks visited order →
     ∃ v' o', rec m visited order = Some (Ret (v', o')) ∧
       {[m]} ∪ visited ⊆ v' ∧ v' ⊆ U ∧ tracks v' o' ∧
       (∃ more, o' = order ++ m :: more) ∧
       (∀ x, x ∈ v' → x ∉ visited → connected_to m x ∧ closed_in v' x)) →
  ∀ nbrs visited order,
  (∀ m, m ∈ nbrs → m ∈ U ∧ adjacent a node m) → visited ⊆ U →
  (size (U ∖ visited) ≤ f)%nat → tracks visited order →
  ∃ v' o', dfs_neighbors rec nbrs visited order = Some (Ret (v', o')) ∧
    visited ⊆ v' ∧ v' ⊆ U ∧ tracks v' o' ∧ (∀ m, m ∈ nbrs → m ∈ v') ∧
    (∃ more, o' = order ++ more) ∧
    (∀ x, x ∈ v' → x ∉ visited → connected_to node x ∧ closed_in v' x).
Proof.
  intros Hrec. induction nbrs as [|m nbrs IH]; intros visited order Hin Hsub Hsize Htr;
    cbn [dfs_neighbors].
  - exists visited, order. split_and!; [done..| | |done].
    + intros m Hm. by apply elem_of_nil in Hm.
    + exists []. by rewrite app_nil_r.
  - assert (Hrest : ∀ m', m' ∈ nbrs → m' ∈ U ∧ adjacent a node m')
      by (intros; apply Hin; by right).
    destruct (Hin m ltac:(by left)) as [HmU Hnm].
    destruct (decide (m ∈ visited)) as [Hm|Hm].
    + destruct (IH visited order Hrest Hsub Hsize Htr)
        as (v' & o' & Hrun & Hsub' & HU' & Htr' & Hall & Hmore & Hnew).
      exists v', o'. split_and!; [done..| |done|done].
      intros m' [->|Hm']%elem_of_cons; [set_solver|auto].
    + destruct (Hrec m visited order HmU Hm Hsub Hsize Htr)
        as (v1 & o1 & -> & Hsub1 & HU1 & Htr1 & [more1 ->] & Hnew1).
      destruct (IH v1 (order ++ m :: more1) Hrest HU1)
        as (v2 & o2 & Hrun & Hsub2 & HU2 & Htr2 & Hall & [more2 ->] & Hnew2).
      { etrans; [|exact Hsize]. apply subseteq_size. set_solver. }
      { done. }
      exists v2, ((order ++ m :: more1) ++ more2).
      split_and!; [done|set_solver|done|done| | |].
      * intros m' [->|Hm']%elem_of_cons; [set_solver|auto].
      * exists ((m :: more1) ++ more2). by rewrite <- app_assoc.
      * intros x Hx Hnx. destruct (decide (x ∈ v1)) as [Hx1|Hx1].
        -- destruct (Hnew1 x Hx1 Hnx) as [Hreach Hclosed]. split.
           ++ eapply rtc_l; [exact Hnm|exact Hreach].
           ++ intros y Hy. apply Hsub2. by apply Hclosed.
        -- by apply Hnew2.
Qed.

Lemma dfs_visual_reach fuel : ∀ node visited order,
  node ∈ U → node ∉ visited → visited ⊆ U →
  (size (U ∖ visited) ≤ fuel)%nat → tracks visited order →
  ∃ v' o', dfs_visual fuel a node visited order = Some (Ret (v', o')) ∧
    {[node]} ∪ visited ⊆ v' ∧ v' ⊆ U ∧ tracks v' o' ∧
    (∃ more, o' = order ++ node :: more) ∧
    (∀ x, x ∈ v' → x ∉ visited → connected_to node x ∧ closed_in v' x).
Proof.
  induction fuel as [|f IH]; intros node visited order HU Hn Hsub Hsize Htr.
  - assert (node ∈ U ∖ visited) as Hne by set_solver.
    assert (size (U ∖ visited) ≠ 0)%nat; [|lia].
    intros Hz%size_empty_iff. set_solver.
  - cbn [dfs_visual]. rewrite highlight_node_lt by by apply in_universe.
    destruct (proj2 (keys_ok a Hadj node) (proj1 (in_universe a node) HU)) as [l Hl].
    unfold edges_at. rewrite Hl.
    destruct (dfs_neighbors_reach (dfs_visual f a) f node IH l ({[node]} ∪ visited)
                (order ++ [node]))
      as (v' & o' & Hrun & Hsub' & HU' & Htr' & Hall & [more ->] & Hnew).
    + intros m Hm. split; [by eapply neighbors_in_universe|]. by exists l.
    + set_solver.
    + pose proof (size_remaining_lt U visited node HU Hn). lia.
    + by apply tracks_snoc.
    + exists v', ((order ++ [node]) ++ more). split_and!; [done..| |].
      { exists more. by rewrite <- app_assoc. }
      intros x Hx Hnx. destruct (decide (x = node)) as [->|Hne].
      * split; [constructor|]. intros y (l' & Hl' & Hy). apply Hall. congruence.
      * apply Hnew; [done|]. set_solver.
Qed.

Lemma closed_reach (visited : gset nat) n :
  n ∈ visited → (∀ x, x ∈ visited → closed_in visited x) →
  ∀ m, connected_to n m → m ∈ visited.
Proof.
  intros Hn Hclosed m Hnm. induction Hnm as [n|n k m Hnk _ IH]; [done|].
  apply IH. by apply (Hclosed n).
Qed.

Lemma run_dfs_reach :
  ∃ order, run_dfs (length (nodes a)) a = Some (Ret order) ∧
    (nodes a = [] → order = []) ∧
    (nodes a ≠ [] → head order = Some 0%nat ∧ ∀ x, x ∈ order ↔ connected_to 0 x).
Proof.
  unfold run_dfs. pose proof (in_universe a 0) as H0U.
  destruct (nodes a) as [|p ps] eqn:Hnodes; [exists []; done|].
  rewrite <- Hnodes.
  destruct (dfs_visual_reach (length (nodes a)) 0%nat ∅ [])
    as (v & o & Hrun & Hsub & HU & [Hnd Htr] & [more ->] & Hnew).
  - apply H0U. cbn. lia.
  - set_solver.
  - set_solver.
  - etrans; [apply subseteq_size, subseteq_difference_l; done|]. by rewrite size_universe.
  - split; [constructor|]. intros x. set_solver.
  - rewrite Hrun. eexists. split_and!; [done|by rewrite Hnodes|]. intros _.
    split; [done|]. intros x. rewrite Htr. split.
    + intros Hx. apply (Hnew x Hx). set_solver.
    + apply closed_reach; [set_solver|]. intros y Hy. apply (Hnew y Hy). set_solver.
Qed.

Lemma bfs_neighbors_reach nbrs : ∀ visited queue v' q',
  bfs_neighbors nbrs visited queue = (v', q') →
  ∃ new, q' = queue ++ new ∧ (∀ x, x ∈ v' ↔ x ∈ visited ∨ x ∈ new) ∧
         (∀ x, x ∈ new → x ∈ nbrs) ∧ (∀ m, m ∈ nbrs → m ∈ v').
Proof.
  induction nbrs as [|m nbrs IH]; intros visited queue v' q' Heq; cbn [bfs_neighbors] in Heq.
  - injection Heq as <- <-. exists []. rewrite app_nil_r. split_and!; [done| | |].
    + intros x. rewrite elem_of_nil. tauto.
    + intros x Hx. by apply elem_of_nil in Hx.
    + intros x Hx. by apply elem_of_nil in Hx.
  - destruct (decide (m ∈ visited)) as [Hm|Hm].
    + destruct (IH _ _ _ _ Heq) as (new & -> & Hv & Hnew & Hall).
      exists new. split_and!; [done|done| |].
      * intros x Hx. right. by apply Hnew.
      * intros x [->|Hx]%elem_of_cons; [apply Hv; by left|auto].
    + destruct (IH _ _ _ _ Heq) as (new & -> & Hv & Hnew & Hall).
      exists (m :: new). split_and!.
      * by rewrite <- app_assoc.
      * intros x. rewrite Hv, elem_of_cons. set_solver.
      * intros x [->|Hx]%elem_of_cons; [by left|]. right. by apply Hnew.
      * intros x [->|Hx]%elem_of_cons; [apply Hv; left; set_solver|auto].
Qed.

Lemma bfs_loop_reach fuel : ∀ queue visited order,
  visited ⊆ U → tracks visited (order ++ queue) →
  (size (U ∖ visited) + length queue ≤ fuel)%nat →
  (∀ x, x ∈ visited → connected_to 0 x) →
  (∀ x, x ∈ visited → x ∈ queue ∨ closed_in visited x) →
  ∃ order', bfs_loop fuel a queue visited order = Some (Ret order') ∧
    (∃ more, order' = order ++ queue ++ more) ∧
    (∀ x, x ∈ order' → connected_to 0 x) ∧
    (∀ x y, x ∈ order' → adjacent a x y → y ∈ order').
Proof.
  induction fuel as [|f IH]; intros queue visited order Hsub Htr Hsize Hreach Hclosed.
  - destruct queue as [|c q]; cbn in *; [|lia].
    exists order. rewrite app_nil_r in Htr. destruct Htr as [_ Htr]. split_and!.
    + done.
    + exists []. by rewrite app_nil_r.
    + intros x Hx. by apply Hreach, Htr.
    + intros x y Hx Hy. apply Htr. apply Htr in Hx.
      destruct (Hclosed x Hx) as [Hin|Hc]; [by apply elem_of_nil in Hin|by apply Hc].
  - destruct queue as [|c q]; cbn [bfs_loop].
    { exists order. rewrite app_nil_r in Htr. destruct Htr as [_ Htr]. split_and!.
      - done.
      - exists []. by rewrite app_nil_r.
      - intros x Hx. by apply Hreach, Htr.
      - intros x y Hx Hy. apply Htr. apply Htr in Hx.
        destruct (Hclosed x Hx) as [Hin|Hc]; [by apply elem_of_nil in Hin|by apply Hc]. }
    assert (Hc : c ∈ visited).
    { apply Htr. apply elem_of_app. right. by left. }
    assert (HcU : c ∈ U) by by apply Hsub.
    rewrite highlight_node_lt by by apply in_universe.
    destruct (proj2 (keys_ok a Hadj c) (proj1 (in_universe a c) HcU)) as [l Hl].
    unfold edges_at. rewrite Hl.
    destruct (bfs_neighbors l visited q) as [v' q'] eqn:Hb.
    destruct (bfs_neighbors_ok a Hadj l visited q (order ++ [c]) v' q' Hb) as (HU' & Htr' & Hsz).
    { intros m Hm. by eapply neighbors_in_universe. }
    { done. }
    { by rewrite <- app_assoc. }
    destruct (bfs_neighbors_reach l visited q v' q' Hb) as (new & -> & Hv & Hnew & Hall).
    destruct (IH (q ++ new) v' (order ++ [c])) as (order' & Hrun & [more ->] & Hr & Hcl).
    + done.
    + done.
    + cbn [length] in Hsize. lia.
    + intros x [Hx|Hx]%Hv; [auto|].
      eapply rtc_r; [apply (Hreach c Hc)|]. exists l. split; [done|]. by apply Hnew.
    + intros x [Hx|Hx]%Hv.
      * destruct (Hclosed x Hx) as [[->|Hin]%elem_of_cons|Hcx].
        -- right. intros y (l' & Hl' & Hy). apply Hall. congruence.
        -- left. apply elem_of_app. by left.
        -- right. intros y Hy. apply Hv. left. by apply Hcx.
      * left. apply elem_of_app. by right.
    + exists ((order ++ [c]) ++ (q ++ new) ++ more). split_and!; [done| |done|done].
      exists (new ++ more). by rewrite <- !app_assoc.
Qed.

Lemma run_bfs_reach :
  ∃ order, run_bfs (length (nodes a)) a = Some (Ret order) ∧
    (nodes a = [] → order = []) ∧
    (nodes a ≠ [] → head order = Some 0%nat ∧ ∀ x, x ∈ order ↔ connected_to 0 x).
Proof.
  unfold run_bfs. pose proof (in_universe a 0) as H0U. pose proof (size_universe a) as HsU.
  destruct (nodes a) as [|p ps] eqn:Hnodes; [exists []; done|].
  rewrite <- Hnodes.
  assert (H0 : (0:nat) ∈ U) by (apply H0U; cbn; lia).
  destruct (bfs_loop_reach (length (nodes a)) [0%nat] {[0%nat]} [])
    as (order & Hrun & [more ->] & Hr & Hcl).
  - set_solver.
  - split; [apply NoDup_singleton|]. intros x. cbn. rewrite list_elem_of_singleton. set_solver.
  - cbn [length]. pose proof (size_remaining_lt U ∅ 0%nat H0) as Hlt.
    rewrite (right_id_L ∅ (∪)) in Hlt.
    assert (size (U ∖ ∅) ≤ size U)%nat
      by (apply subseteq_size, subseteq_difference_l; done).
    specialize (Hlt ltac:(set_solver)). rewrite Hnodes in *. cbn in *. lia.
  - intros x ->%elem_of_singleton. constructor.
  - intros x ->%elem_of_singleton. left. by left.
  - rewrite Hrun. eexists. split_and!; [done|by rewrite Hnodes|]. intros _.
    split; [done|]. intros x. split; [apply Hr|].
    assert (Hstep : ∀ n m, connected_to n m →
              n ∈ [] ++ [0%nat] ++ more → m ∈ [] ++ [0%nat] ++ more).
    { intros n m Hnm. induction Hnm as [n|n k m Hnk _ IHr]; [done|].
      intros Hn. apply IHr. by apply (Hcl n). }
    intros H0x. apply (Hstep 0%nat x H0x). by left.
Qed.
End reach.



Lemma get_clicked_from_first l x y : ∀ i,
  match get_clicked_from i l x y with
  | Some n =>
      ∃ p, l !! (n - i)%nat = Some p ∧ (i ≤ n)%nat ∧
           (p.1 - x) ^ 2 + (p.2 - y) ^ 2 ≤ 400 ∧
           ∀ j q, (j < n - i)%nat → l !! j = Some q →
                  400 < (q.1 - x) ^ 2 + (q.2 - y) ^ 2
  | None => ∀ j q, l !! j = Some q → 400 < (q.1 - x) ^ 2 + (q.2 - y) ^ 2
  end.
Proof.
  induction l as [|[nx ny] l IH]; intros i; cbn [get_clicked_from].
  - intros j q Hq. by rewrite lookup_nil in Hq.
  - destruct ((nx - x) ^ 2 + (ny - y) ^ 2 <=? 400) eqn:Hin.
    + exists (nx, ny). rewrite Nat.sub_diag. split_and!; [done|lia|cbn; lia|].
      intros j q Hj. lia.
    + specialize (IH (S i)). destruct (get_clicked_from (S i) l x y) as [n|].
      * destruct IH as (p & Hp & Hle & Hnear & Hfar). exists p.
        replace (n - i)%nat with (S (n - S i)) by lia.
        split_and!; [done|lia|done|].
        intros [|j] q Hj Hq; [injection Hq as <-; cbn; lia|].
        apply (Hfar j q); [lia|done].
      * intros [|j] q Hq; [injection Hq as <-; cbn; lia|]. by apply (IH j q).
Qed.

(** X6.  A click selects the node with the lowest id among those whose
    centre is within 20 pixels, and none when there is no such node. *)
Theorem get_clicked_node_first (a : app) (x y : Z) :
  match get_clicked_node a x y with
  | Some n =>
      ∃ p, nodes a !! n = Some p ∧ (p.1 - x) ^ 2 + (p.2 - y) ^ 2 ≤ 400 ∧
           ∀ j q, (j < n)%nat → nodes a !! j = Some q →
                  400 < (q.1 - x) ^ 2 + (q.2 - y) ^ 2
  | None => ∀ j q, nodes a !! j = Some q → 400 < (q.1 - x) ^ 2 + (q.2 - y) ^ 2
  end.
Proof.
  unfold get_clicked_node. pose proof (get_clicked_from_first (nodes a) x y 0) as H.
  destruct (get_clicked_from 0 (nodes a) x y) as [n|]; [|done].
  destruct H as (p & Hp & _ & Hnear & Hfar). rewrite Nat.sub_0_r in *. by exists p.
Qed.

(** *** The order of the breadth-first traversal *)

(** Node [x] can be reached from node 0 over [n] edges. *)
Inductive within (a : app) : nat → nat → Prop :=
| within_zero : within a 0 0
| within_step x y n : within a x n → adjacent a x y → within a y (S n).

Definition nondecreasing (f : nat → nat) (l : list nat) : Prop :=
  ∀ i j x y, (i < j)%nat → l !! i = Some x → l !! j = Some y → (f x ≤ f y)%nat.

Lemma nondecreasing_snoc f l z :
  nondecreasing f l → (∀ x, x ∈ l → (f x ≤ f z)%nat) → nondecreasing f (l ++ [z]).
Proof.
  intros Hl Hz i j x y Hij Hi Hj.
  assert (Hjlen : (j < length (l ++ [z]))%nat) by by eapply lookup_lt_Some.
  rewrite length_app in Hjlen. cbn in Hjlen.
  rewrite lookup_app_l in Hi by lia.
  destruct (decide (j < length l)%nat) as [Hlt|Hge].
  - rewrite lookup_app_l in Hj by done. by apply (Hl i j).
  - rewrite lookup_app_r in Hj by lia. replace (j - length l)%nat with 0%nat in Hj by lia.
    injection Hj as <-. apply Hz. by eapply list_elem_of_lookup_2.
Qed.

Lemma nondecreasing_ext f f' l :
  (∀ x, x ∈ l → f' x = f x) → nondecreasing f l → nondecreasing f' l.
Proof.
  intros Hext Hl i j x y Hij Hi Hj.
  rewrite !Hext by by eapply list_elem_of_lookup_2. by apply (Hl i j).
Qed.

Section levels.
Variable a : app.

(** The level of a node in the bookkeeping of the proof. *)
Definition lev (L : gmap nat nat) (x : nat) : nat := default 0%nat (L !! x).

(** The state of [run_bfs] while the neighbors of [c] are gone through:
    [done] has been highlighted, [queue] waits. *)
Record scanning (L : gmap nat nat) (done : list nat) (c : nat) (queue : list nat)
    (visited : gset nat) : Prop := {
  sc_dom : ∀ x, x ∈ visited ↔ is_Some (L !! x);
  sc_seen : ∀ x, x ∈ done ++ c :: queue ↔ x ∈ visited;
  sc_zero : L !! 0%nat = Some 0%nat;
  sc_within : ∀ x, x ∈ visited → within a x (lev L x);
  sc_sorted : nondecreasing (lev L) (done ++ c :: queue);
  sc_done : ∀ x, x ∈ done → (lev L x ≤ lev L c)%nat;
  sc_queue : ∀ x, x ∈ queue → (lev L c ≤ lev L x ≤ S (lev L c))%nat;
  sc_closed : ∀ p y, p ∈ done → adjacent a p y →
                y ∈ visited ∧ (lev L y ≤ S (lev L p))%nat
}.

Lemma lev_insert_ne L nbr l x : x ≠ nbr → lev (<[nbr := l]> L) x = lev L x.
Proof. intros Hne. unfold lev. by rewrite lookup_insert_ne. Qed.

Lemma lev_subseteq L L' x : L ⊆ L' → is_Some (L !! x) → lev L' x = lev L x.
Proof.
  intros Hsub [l Hl]. unfold lev. by rewrite (lookup_weaken _ _ _ _ Hl Hsub), Hl.
Qed.

Lemma scanning_bound L done c queue visited x :
  scanning L done c queue visited → x ∈ visited → (lev L x ≤ S (lev L c))%nat.
Proof.
  intros Hsc Hx. apply (sc_seen _ _ _ _ _ Hsc) in Hx.
  apply elem_of_app in Hx as [Hx|[->|Hx]%elem_of_cons].
  - pose proof (sc_done _ _ _ _ _ Hsc x Hx). lia.
  - lia.
  - pose proof (sc_queue _ _ _ _ _ Hsc x Hx). lia.
Qed.

Lemma scanning_push L done c queue visited nbr :
  scanning L done c queue visited → adjacent a c nbr → nbr ∉ visited →
  scanning (<[nbr := S (lev L c)]> L) done c (queue ++ [nbr]) ({[nbr]} ∪ visited).
Proof.
  intros Hsc Hadj Hnew.
  assert (Hne : ∀ x, x ∈ visited → x ≠ nbr) by (intros x Hx ->; done).
  assert (Hc : c ∈ visited).
  { apply (sc_seen _ _ _ _ _ Hsc). apply elem_of_app. right. by left. }
  assert (Hlist : ∀ x, x ∈ done ++ c :: queue → x ≠ nbr).
  { intros x Hx. by apply Hne, (sc_seen _ _ _ _ _ Hsc). }
  assert (Hcn : c ≠ nbr) by by apply Hne.
  split.
  - intros x. rewrite elem_of_union, elem_of_singleton, lookup_insert_is_Some'.
    rewrite (sc_dom _ _ _ _ _ Hsc x). split; [intros [->|?]|intros [->|?]]; auto.
  - intros x. rewrite app_comm_cons, app_assoc, elem_of_app, list_elem_of_singleton.
    rewrite (sc_seen _ _ _ _ _ Hsc x). set_solver.
  - rewrite lookup_insert_ne; [apply Hsc|]. intros ->. apply Hnew.
    apply (sc_dom _ _ _ _ _ Hsc). rewrite (sc_zero _ _ _ _ _ Hsc). eauto.
  - intros x [->%elem_of_singleton|Hx]%elem_of_union.
    + unfold lev at 1. rewrite lookup_insert_eq. cbn.
      apply (within_step a c); [|done]. by apply (sc_within _ _ _ _ _ Hsc).
    + rewrite lev_insert_ne by by apply Hne. by apply (sc_within _ _ _ _ _ Hsc).
  - rewrite app_comm_cons, app_assoc. apply nondecreasing_snoc.
    + apply (nondecreasing_ext (lev L)); [|apply Hsc].
      intros x Hx. by apply lev_insert_ne, Hlist.
    + intros x Hx. rewrite lev_insert_ne by by apply Hlist.
      unfold lev at 2. rewrite lookup_insert_eq. cbn.
      by apply (scanning_bound L done c queue visited), (sc_seen _ _ _ _ _ Hsc).
  - intros x Hx.
    assert (x ≠ nbr) by (apply Hlist, elem_of_app; by left).
    rewrite !lev_insert_ne by done. by apply (sc_done _ _ _ _ _ Hsc).
  - intros x [Hx| ->%list_elem_of_singleton]%elem_of_app.
    + assert (x ≠ nbr) by (apply Hlist, elem_of_app; right; by right).
      rewrite !lev_insert_ne by done. by apply (sc_queue _ _ _ _ _ Hsc).
    + rewrite (lev_insert_ne L nbr _ c) by done.
      unfold lev. rewrite lookup_insert_eq. cbn. lia.
  - intros p y Hp Hpy. destruct (sc_closed _ _ _ _ _ Hsc p y Hp Hpy) as [Hy Hle].
    split; [set_solver|].
    assert (p ≠ nbr) by (apply Hlist, elem_of_app; by left).
    assert (y ≠ nbr) by by apply Hne.
    by rewrite !lev_insert_ne by done.
Qed.

Lemma bfs_neighbors_levels done c nbrs : ∀ L visited queue v' q',
  bfs_neighbors nbrs visited queue = (v', q') →
  scanning L done c queue visited → (∀ y, y ∈ nbrs → adjacent a c y) →
  ∃ L', scanning L' done c q' v' ∧ L ⊆ L' ∧
        ∀ y, y ∈ nbrs → y ∈ v' ∧ (lev L' y ≤ S (lev L' c))%nat.
Proof.
  induction nbrs as [|nbr rest IH]; intros L visited queue v' q' Hrun Hsc Hadj.
  - injection Hrun as <- <-. exists L. split_and!; [done..|].
    intros y Hy. by apply elem_of_nil in Hy.
  - cbn [bfs_neighbors] in Hrun.
    assert (Hrest : ∀ y, y ∈ rest → adjacent a c y) by (intros y Hy; apply Hadj; by right).
    assert (Hc : c ∈ visited).
    { apply (sc_seen _ _ _ _ _ Hsc). apply elem_of_app. right. by left. }
    destruct (decide (nbr ∈ visited)) as [Hv|Hv].
    + destruct (IH L visited queue v' q' Hrun Hsc Hrest) as (L' & Hsc' & Hsub & Hall).
      exists L'. split_and!; [done..|]. intros y [->|Hy]%elem_of_cons; [|by apply Hall].
      assert (Hnbr : is_Some (L !! nbr)) by by apply (sc_dom _ _ _ _ _ Hsc).
      split.
      * apply (sc_dom _ _ _ _ _ Hsc'). destruct Hnbr as [l Hl].
        rewrite (lookup_weaken _ _ _ _ Hl Hsub). eauto.
      * rewrite !(lev_subseteq L L') by (done || by apply (sc_dom _ _ _ _ _ Hsc)).
        by apply (scanning_bound L done c queue visited).
    + pose proof (scanning_push L done c queue visited nbr Hsc
                    (Hadj nbr ltac:(by left)) Hv) as Hsc1.
      destruct (IH _ _ _ v' q' Hrun Hsc1 Hrest) as (L' & Hsc' & Hsub & Hall).
      assert (HL : L ⊆ L').
      { etrans; [|exact Hsub]. apply insert_subseteq.
        destruct (L !! nbr) eqn:Hl; [|done]. destruct Hv.
        apply (sc_dom _ _ _ _ _ Hsc). eauto. }
      exists L'. split_and!; [done..|]. intros y [->|Hy]%elem_of_cons; [|by apply Hall].
      assert (Hl : L' !! nbr = Some (S (lev L c))).
      { apply (lookup_weaken _ _ _ _ (lookup_insert_eq L nbr _) Hsub). }
      split.
      * apply (sc_dom _ _ _ _ _ Hsc'). eauto.
      * rewrite (lev_subseteq L L' c) by (done || by apply (sc_dom _ _ _ _ _ Hsc)).
        unfold lev at 1. rewrite Hl. done.
Qed.

(** The state of the [while queue:] loop. *)
Record queued (L : gmap nat nat) (done queue : list nat) (visited : gset nat) : Prop := {
  q_dom : ∀ x, x ∈ visited ↔ is_Some (L !! x);
  q_seen : ∀ x, x ∈ done ++ queue ↔ x ∈ visited;
  q_zero : L !! 0%nat = Some 0%nat;
  q_within : ∀ x, x ∈ visited → within a x (lev L x);
  q_sorted : nondecreasing (lev L) (done ++ queue);
  q_head : ∀ c rest, queue = c :: rest →
             (∀ x, x ∈ done → (lev L x ≤ lev L c)%nat) ∧
             (∀ x, x ∈ rest → (lev L x ≤ S (lev L c))%nat);
  q_closed : ∀ p y, p ∈ done → adjacent a p y →
               y ∈ visited ∧ (lev L y ≤ S (lev L p))%nat
}.

Lemma bfs_loop_levels fuel : ∀ L queue visited done order,
  bfs_loop fuel a queue visited done = Some (Ret order) →
  queued L done queue visited →
  ∃ L' visited', queued L' order [] visited'.
Proof.
  induction fuel as [|f IH]; intros L queue visited done order Hrun Hq.
  - destruct queue; [|done]. injection Hrun as <-. by exists L, visited.
  - destruct queue as [|c rest]; [injection Hrun as <-; by exists L, visited|].
    cbn [bfs_loop] in Hrun.
    destruct (highlight_node a c); [|done].
    unfold edges_at in Hrun. destruct (edges a !! c) as [nbrs|] eqn:Hc; [|done].
    destruct (bfs_neighbors nbrs visited rest) as [v1 q1] eqn:Hnb.
    destruct (q_head _ _ _ _ Hq c rest eq_refl) as [Hdone Hrest].
    destruct (bfs_neighbors_levels done c nbrs L visited rest v1 q1 Hnb) as (L1 & Hsc & _ & Hall).
    { split; [apply Hq..| | |apply Hq].
      - done.
      - intros x Hx. split; [|by apply Hrest].
        apply list_elem_of_lookup in Hx as [k Hk].
        apply (q_sorted _ _ _ _ Hq (length done) (length done + S k)%nat); [lia|..].
        + by rewrite list_lookup_middle.
        + rewrite lookup_app_r by lia.
          by replace (length done + S k - length done)%nat with (S k) by lia. }
    { intros y Hy. by exists nbrs. }
    apply (IH L1 q1 v1 (done ++ [c]) order Hrun). split.
    + apply Hsc.
    + intros x. rewrite <- app_assoc. apply Hsc.
    + apply Hsc.
    + apply Hsc.
    + rewrite <- app_assoc. apply Hsc.
    + intros c2 rest2 ->. split.
      * intros x [Hx| ->%list_elem_of_singleton]%elem_of_app.
        -- pose proof (sc_done _ _ _ _ _ Hsc x Hx).
           pose proof (sc_queue _ _ _ _ _ Hsc c2 ltac:(by left)). lia.
        -- pose proof (sc_queue _ _ _ _ _ Hsc c2 ltac:(by left)). lia.
      * intros x Hx. pose proof (sc_queue _ _ _ _ _ Hsc x ltac:(by right)).
        pose proof (sc_queue _ _ _ _ _ Hsc c2 ltac:(by left)). lia.
    + intros p y [Hp| ->%list_elem_of_singleton]%elem_of_app Hpy.
      * by apply (sc_closed _ _ _ _ _ Hsc).
      * destruct Hpy as (l & Hl & Hy). rewrite Hc in Hl. injection Hl as <-. by apply Hall.
Qed.

Lemma queued_start : queued {[0%nat := 0%nat]} [] [0%nat] {[0%nat]}.
Proof.
  split.
  - intros x. rewrite elem_of_singleton. split.
    + intros ->. by rewrite lookup_singleton_eq.
    + intros [l Hl]. by apply lookup_singleton_Some in Hl as [<- _].
  - intros x. cbn. rewrite list_elem_of_singleton. set_solver.
  - by rewrite lookup_singleton_eq.
  - intros x ->%elem_of_singleton. unfold lev. rewrite lookup_singleton_eq. constructor.
  - intros i j x y Hij Hi Hj. apply lookup_lt_Some in Hj. cbn in Hj. lia.
  - intros c rest [= <- <-]. split; intros x Hx; by apply elem_of_nil in Hx.
  - intros p y Hp. by apply elem_of_nil in Hp.
Qed.

Lemma run_bfs_levels order :
  run_bfs (length (nodes a)) a = Some (Ret order) →
  ∃ dist : nat → nat,
    (∀ x, x ∈ order → within a x (dist x) ∧ ∀ n, within a x n → (dist x ≤ n)%nat) ∧
    nondecreasing dist order.
Proof.
  unfold run_bfs. destruct (nodes a) as [|p ps] eqn:Hnodes.
  - intros [= <-]. exists (λ _, 0%nat). split; [by intros x ?%elem_of_nil|].
    intros i j x y _ Hi. by destruct i.
  - rewrite <- Hnodes. intros Hrun.
    destruct (bfs_loop_levels _ _ _ _ _ _ Hrun queued_start) as (L & visited & Hq).
    pose proof (q_seen _ _ _ _ Hq) as Hseen. setoid_rewrite app_nil_r in Hseen.
    assert (Hlow : ∀ x n, within a x n → x ∈ order ∧ (lev L x ≤ n)%nat).
    { intros x n. induction 1 as [|x y n _ [Hx Hle] Hxy].
      - split; [|unfold lev; by rewrite (q_zero _ _ _ _ Hq)].
        apply Hseen, (q_dom _ _ _ _ Hq). rewrite (q_zero _ _ _ _ Hq). eauto.
      - destruct (q_closed _ _ _ _ Hq x y Hx Hxy) as [Hy Hle'].
        split; [by apply Hseen|lia]. }
    exists (lev L). split.
    + intros x Hx. split; [by apply (q_within _ _ _ _ Hq), Hseen|].
      intros n Hn. by apply Hlow.
    + pose proof (q_sorted _ _ _ _ Hq) as Hs. by rewrite app_nil_r in Hs.
Qed.
End levels.


End Traversal.

(** ** Logic Circuit Builder: Kahn's ordering and the evaluation *)

Module Circuit.

Inductive kind : Type := INPUT | OUTPUT | AND | OR | NOT | NAND | NOR | XOR.

(** [Gate]: the fields the evaluation reads and writes. *)
Record gate : Type := Gate {
  g_kind : kind;
  num_inputs : nat;
  output_value : bool
}.

(** [Gate.__init__]'s pin count: one for NOT and OUTPUT, none for INPUT,
    two otherwise. *)
Definition pins_of (k : kind) : nat :=
  match k with
  | NOT | OUTPUT => 1
  | INPUT => 0
  | _ => 2
  end.

(** A wire [{'from': gid, 'to': (gid, pin)}]. *)
Record wire : Type := Wire {
  w_from : string;
  w_to : string * nat
}.

Definition w_dst (w : wire) : string := fst (w_to w).
Definition w_pin (w : wire) : nat := snd (w_to w).

(** [input_values[i]] *)
Definition item (vals : list bool) (i : nat) : py bool :=
  match vals !! i with
  | Some b => Ret b
  | None => Raise IndexError
  end.

Definition evaluate (g : gate) (input_values : list bool) : py bool :=
  match g_kind g with
  | INPUT => Ret (output_value g)
  | OUTPUT =>
      match input_values with
      | [] => Ret false
      | b :: _ => Ret b
      end
  | NOT => b ← item input_values 0; Ret (negb b)
  | k =>
      a ← item input_values 0;
      b ← item input_values 1;
      Ret (match k with
           | AND => a && b
           | OR => a || b
           | XOR => (a && negb b) || (negb a && b)
           | NAND => negb (a && b)
           | NOR => negb (a || b)
           | _ => false
           end)
  end.

(** The circuit: [self.gates] is a dict, that is its keys in insertion
    order together with the lookup; [self.wires] is a list. *)
Record circuit : Type := Circ {
  gate_ids : list string;
  gates : gmap string gate;
  wires : list wire
}.

Definition cycle_message : string :=
  "Cycle detected in circuit. Remove feedback loops before evaluation.".

Abbreviation table := (gmap string (gset string)).

Section kahn.
(** The order in which Python iterates over a set of strings is not
fixed by the language; the ordering routine is therefore taken over
an arbitrary enumeration of each set. *)
Variable set_order : gset string → list string.

(** [{gid: set() for gid in self.gates}] *)
Definition empty_table (ids : list string) : table :=
list_to_map ((λ g, (g, ∅)) <$> ids).

(** One round of the loop over the wires:
[deps[dst].add(src); rev[src].add(dst)]. *)
Definition add_wire (dr : table * table) (w : wire) : py (table * table) :=
let '(deps, rev) := dr in
match deps !! w_dst w with
| None => Raise KeyError
| Some d =>
  let deps := <[w_dst w := {[w_from w]} ∪ d]> deps in
  match rev !! w_from w with
  | None => Raise KeyError
  | Some r => Ret (deps, <[w_from w := {[w_dst w]} ∪ r]> rev)
  end
end.

Fixpoint add_wires (dr : table * table) (ws : list wire) : py (table * table) :=
match ws with
| [] => Ret dr
| w :: rest => dr' ← add_wire dr w; add_wires dr' rest
end.

(** [len(deps[g]) == 0], for a key of [deps]. *)
Definition no_deps (deps : table) (g : string) : bool :=
match deps !! g with
| Some d => bool_decide (d = ∅)
| None => false
end.

(** The body of [for m in list(rev[n])]:
[deps[m].remove(n); rev[n].remove(m); if len(deps[m]) == 0: S.append(m)];
[set.remove] raises [KeyError] on a missing element. *)
Definition release_one (n : string) (st : table * table * list string) (m : string)
: py (table * table * list string) :=
let '(deps, rev, stack) := st in
match deps !! m with
| None => Raise KeyError
| Some d =>
  if decide (n ∈ d) then
    let deps := <[m := d ∖ {[n]}]> deps in
    match rev !! n with
    | None => Raise KeyError
    | Some r =>
        if decide (m ∈ r) then
          let rev := <[n := r ∖ {[m]}]> rev in
          Ret (deps, rev, if no_deps deps m then stack ++ [m] else stack)
        else Raise KeyError
    end
  else Raise KeyError
end.

Fixpoint release (n : string) (st : table * table * list string) (ms : list string)
: py (table * table * list string) :=
match ms with
| [] => Ret st
| m :: rest => st' ← release_one n st m; release n st' rest
end.

(** [S.pop()]: the last element ([stack] is the source's [S]). *)
Definition pop (stack : list string) : option (string * list string) :=
match reverse stack with
| [] => None
| n :: rest => Some (n, reverse rest)
end.

(** The [while S:] loop; one iteration per unit of fuel, [None] when
the fuel runs out first. *)
Fixpoint kahn_loop (fuel : nat) (deps rev : table) (stack L : list string)
: option (py (table * list string)) :=
match pop stack with
| None => Some (Ret (deps, L))
| Some (n, stack') =>
  match fuel with
  | O => None
  | S f =>
      match rev !! n with
      | None => Some (Raise KeyError)
      | Some r =>
          match release n (deps, rev, stack') (set_order r) with
          | Raise e => Some (Raise e)
          | Ret (deps', rev', stack'') => kahn_loop f deps' rev' stack'' (L ++ [n])
          end
      end
  end
end.

Definition topological_order (fuel : nat) (c : circuit) : option (py (list string)) :=
let deps := empty_table (gate_ids c) in
let rev := empty_table (gate_ids c) in
match add_wires (deps, rev) (wires c) with
| Raise e => Some (Raise e)
| Ret (deps, rev) =>
  let stack := filter (λ n, no_deps deps n = true) (gate_ids c) in
  match kahn_loop fuel deps rev stack [] with
  | None => None
  | Some (Raise e) => Some (Raise e)
  | Some (Ret (deps, L)) =>
      if forallb (no_deps deps) (gate_ids c) then Some (Ret L)
      else Some (Raise (ValueError cycle_message))
  end
end.
End kahn.

(** *** Finite graphs: a relation without minimal elements has a cycle *)

Section finite_cycle.
Context {A : Type} `{Countable A}.
Variable E : A → A → Prop.
Variable R : gset A.
Hypothesis has_pred : ∀ x, x ∈ R → ∃ p, p ∈ R ∧ E p x.

(** A backwards chain: the head reaches every element. *)
Definition chain (l : list A) : Prop :=
NoDup l ∧ (∀ x, x ∈ l → x ∈ R) ∧
match l with
| [] => True
| h :: _ => ∀ x, x ∈ l → rtc E h x
end.

Lemma chain_extend l :
l ≠ [] → chain l →
(∃ g, tc E g g) ∨ ∃ p, chain (p :: l).
Proof.
destruct l as [|h l]; [done|]. intros _ (Hnd & HR & Hreach).
destruct (has_pred h) as (p & HpR & Hph); [apply HR; by left|].
destruct (decide (p ∈ h :: l)) as [Hin|Hnin].
- left. exists p. eapply tc_rtc_r; [by apply tc_once|by apply Hreach].
- right. exists p. split_and!.
+ by constructor.
+ intros x [->|Hx]%elem_of_cons; [done|by apply HR].
+ intros x [->|Hx]%elem_of_cons; [done|].
  eapply rtc_l; [exact Hph|by apply Hreach].
Qed.

Lemma chain_grow (x0 : A) n :
x0 ∈ R → (∃ g, tc E g g) ∨ ∃ l, chain l ∧ length l = S n.
Proof.
intros Hx0. induction n as [|n [Hc|(l & Hl & Hlen)]].
- right. exists [x0]. split; [|done]. split_and!.
+ apply NoDup_singleton.
+ by intros x ->%list_elem_of_singleton.
+ by intros x ->%list_elem_of_singleton.
- by left.
- destruct (chain_extend l) as [Hc|(p & Hp)]; [by destruct l|done|by left|].
right. exists (p :: l). split; [done|]. simpl. by rewrite Hlen.
Qed.

Lemma no_minimal_cycle (x0 : A) : x0 ∈ R → ∃ g, tc E g g.
Proof.
intros Hx0. destruct (chain_grow x0 (size R) Hx0) as [Hc|(l & (Hnd & HR & _) & Hlen)]; [done|].
exfalso.
assert (length l ≤ size R)%nat; [|lia].
rewrite <- (size_list_to_set (C:=gset A) l Hnd).
apply subseteq_size. intros x Hx%elem_of_list_to_set. by apply HR.
Qed.
End finite_cycle.

(** *** A topological order rules cycles out *)

Section ordered.
Context {A : Type} `{Countable A}.
Variable E : A → A → Prop.
Variable L : list A.

(** Every element of [L] comes after all its predecessors. *)
Definition topological : Prop :=
∀ l1 g l2, L = l1 ++ g :: l2 → ∀ x, E x g → x ∈ l1.

Definition earlier (x g : A) : Prop :=
∃ i j, L !! i = Some x ∧ L !! j = Some g ∧ (i < j)%nat.

Hypothesis Hnd : NoDup L.
Hypothesis Htop : topological.
Hypothesis Hcod : ∀ x g, E x g → g ∈ L.

Lemma edge_earlier x g : E x g → earlier x g.
Proof.
intros HE. destruct (list_elem_of_split L g (Hcod _ _ HE)) as (l1 & l2 & HL).
pose proof (Htop l1 g l2 HL x HE) as Hx.
apply list_elem_of_lookup in Hx as [i Hi].
exists i, (length l1). split_and!.
- rewrite HL. by apply lookup_app_l_Some.
- rewrite HL. by rewrite list_lookup_middle.
- by eapply lookup_lt_Some.
Qed.

Lemma tc_earlier x g : tc E x g → earlier x g.
Proof.
induction 1 as [x g HE|x y g HE _ (i & j & Hi & Hj & Hij)]; [by apply edge_earlier|].
destruct (edge_earlier x y HE) as (i' & j' & Hi' & Hj' & Hij').
assert (j' = i) as -> by (by eapply NoDup_lookup).
exists i', j. split_and!; [done..|lia].
Qed.

Lemma topological_acyclic g : ¬ tc E g g.
Proof.
intros (i & j & Hi & Hj & Hij)%tc_earlier.
assert (i = j) by (by eapply NoDup_lookup). lia.
Qed.
End ordered.

(** *** Kahn's algorithm on a well-formed circuit *)

Section kahn_correct.
Variable set_order : gset string → list string.
Hypothesis set_order_perm : ∀ s, set_order s ≡ₚ elements s.
Variable c : circuit.
Hypothesis Hnd : NoDup (gate_ids c).
Hypothesis Hwf : ∀ w, w ∈ wires c → w_from w ∈ gate_ids c ∧ w_dst w ∈ gate_ids c.

(** The directed graph over the gates that the wires induce. *)
Definition edge_in (ws : list wire) (n m : string) : Prop :=
∃ w, w ∈ ws ∧ w_from w = n ∧ w_dst w = m.
Definition edge : string → string → Prop := edge_in (wires c).
Definition has_cycle : Prop := ∃ g, tc edge g g.

Definition holds (t : table) (k x : string) : Prop :=
∃ d, t !! k = Some d ∧ x ∈ d.
Definition keys (t : table) : Prop :=
∀ g, is_Some (t !! g) ↔ g ∈ gate_ids c.

Lemma edge_gates n m : edge n m → n ∈ gate_ids c ∧ m ∈ gate_ids c.
Proof. intros (w & Hw & <- & <-). by apply Hwf. Qed.

Lemma empty_table_lookup ids g :
empty_table ids !! g = if decide (g ∈ ids) then Some ∅ else None.
Proof.
unfold empty_table. induction ids as [|i ids IH].
- simpl. rewrite lookup_empty. destruct (decide (g ∈ [])) as [Hin|]; [|done].
by apply elem_of_nil in Hin.
- rewrite fmap_cons. simpl list_to_map. rewrite lookup_insert.
destruct (decide (i = g)) as [->|Hne].
+ destruct (decide (g ∈ g :: ids)) as [|Hn]; [done|]. destruct Hn. by left.
+ rewrite IH. destruct (decide (g ∈ ids)) as [Hin|Hnin].
  * destruct (decide (g ∈ i :: ids)) as [|Hn]; [done|]. destruct Hn. by right.
  * destruct (decide (g ∈ i :: ids)) as [[?|?]%elem_of_cons|]; done.
Qed.

Lemma holds_add t k d x k' x' :
t !! k = Some d →
holds (<[k := {[x]} ∪ d]> t) k' x' ↔ holds t k' x' ∨ (k' = k ∧ x' = x).
Proof.
intros Hk. unfold holds. split.
- intros (d' & Hd' & Hx'). rewrite lookup_insert in Hd'. case_decide as Hdec.
+ injection Hd' as <-. subst. apply elem_of_union in Hx' as [->%elem_of_singleton|?]; eauto.
+ eauto.
- intros [(d' & Hd' & Hx')|[-> ->]].
+ destruct (decide (k = k')) as [<-|Hne].
  * exists ({[x]} ∪ d). rewrite lookup_insert_eq. split; [done|]. set_solver.
  * exists d'. by rewrite lookup_insert_ne.
+ exists ({[x]} ∪ d). rewrite lookup_insert_eq. split; [done|]. set_solver.
Qed.

Lemma holds_remove t k d x k' x' :
t !! k = Some d →
holds (<[k := d ∖ {[x]}]> t) k' x' ↔ holds t k' x' ∧ ¬ (k' = k ∧ x' = x).
Proof.
intros Hk. unfold holds. split.
- intros (d' & Hd' & Hx'). rewrite lookup_insert in Hd'. case_decide as Hdec.
+ injection Hd' as <-. subst. split; [exists d; set_solver|set_solver].
+ split; [eauto|]. intros [-> _]. done.
- intros [(d' & Hd' & Hx') Hne].
destruct (decide (k = k')) as [<-|Hne'].
+ exists (d ∖ {[x]}). rewrite lookup_insert_eq. split; [done|].
  assert (d' = d) as -> by congruence. set_solver.
+ exists d'. by rewrite lookup_insert_ne.
Qed.

Lemma keys_insert t k d : keys t → is_Some (t !! k) → keys (<[k := d]> t).
Proof.
intros Hk Hs g. rewrite lookup_insert. case_decide as Hd; [|apply Hk].
subst. split; [intros _; by apply Hk|eauto].
Qed.

Lemma add_wires_ok ws : ∀ deps rev,
keys deps → keys rev →
(∀ w, w ∈ ws → w_from w ∈ gate_ids c ∧ w_dst w ∈ gate_ids c) →
∃ deps' rev', add_wires (deps, rev) ws = Ret (deps', rev') ∧
keys deps' ∧ keys rev' ∧
(∀ n m, holds deps' m n ↔ holds deps m n ∨ edge_in ws n m) ∧
(∀ n m, holds rev' n m ↔ holds rev n m ∨ edge_in ws n m).
Proof.
induction ws as [|w ws IH]; intros deps rev Hkd Hkr Hws; simpl.
- exists deps, rev. split_and!; [done..| |].
+ intros n m. split; [eauto|]. intros [?|(w & Hw & _)]; [done|]. by apply elem_of_nil in Hw.
+ intros n m. split; [eauto|]. intros [?|(w & Hw & _)]; [done|]. by apply elem_of_nil in Hw.
- destruct (Hws w) as [Hsrc Hdst]; [by left|].
destruct (proj2 (Hkd _) Hdst) as [d Hd]. destruct (proj2 (Hkr _) Hsrc) as [r Hr].
rewrite Hd, Hr. simpl.
destruct (IH (<[w_dst w := {[w_from w]} ∪ d]> deps) (<[w_from w := {[w_dst w]} ∪ r]> rev))
  as (deps' & rev' & -> & Hkd' & Hkr' & Hd' & Hr').
+ apply keys_insert; eauto.
+ apply keys_insert; eauto.
+ intros w' Hw'. apply Hws. by right.
+ exists deps', rev'. split_and!; [done..| |].
  * intros n m. rewrite Hd', (holds_add _ _ _ _ _ _ Hd). unfold edge_in.
    split.
    -- intros [[?|[-> ->]]|(w' & Hw' & ?)]; [by left|right..].
       ++ exists w. split; [by left|done].
       ++ exists w'. split; [by right|done].
    -- intros [?|(w' & [->|Hw']%elem_of_cons & <- & <-)]; [by left; left| |].
       ++ left. by right.
       ++ right. by exists w'.
  * intros n m. rewrite Hr', (holds_add _ _ _ _ _ _ Hr). unfold edge_in.
    split.
    -- intros [[?|[-> ->]]|(w' & Hw' & ?)]; [by left|right..].
       ++ exists w. split; [by left|done].
       ++ exists w'. split; [by right|done].
    -- intros [?|(w' & [->|Hw']%elem_of_cons & <- & <-)]; [by left; left| |].
       ++ left. by right.
       ++ right. by exists w'.
Qed.

Lemma keys_empty_table : keys (empty_table (gate_ids c)).
Proof.
intros g. rewrite empty_table_lookup. case_decide; [split; eauto|].
split; [by intros [? ?]|done].
Qed.

Lemma holds_empty_table k x : ¬ holds (empty_table (gate_ids c)) k x.
Proof.
intros (d & Hd & Hx). rewrite empty_table_lookup in Hd.
case_decide; [|done]. injection Hd as <-. set_solver.
Qed.

Lemma no_deps_true deps g :
no_deps deps g = true ↔ deps !! g = Some ∅.
Proof.
unfold no_deps. destruct (deps !! g) as [d|]; [|done].
rewrite bool_decide_eq_true. split; [by intros ->|by intros [= ->]].
Qed.

Lemma no_deps_holds deps g :
keys deps → g ∈ gate_ids c →
no_deps deps g = true ↔ ∀ x, ¬ holds deps g x.
Proof.
intros Hk Hg. rewrite no_deps_true. split.
- intros Hd x (d & Hd' & Hx). rewrite Hd in Hd'. injection Hd' as <-. set_solver.
- intros Hno. destruct (proj2 (Hk g) Hg) as [d Hd]. rewrite Hd. f_equal.
apply set_eq. intros x. split; [|set_solver]. intros Hx. destruct (Hno x). by exists d.
Qed.

(** The state between two iterations of [while S:]. *)
Record inv (deps rev : table) (stack L : list string) : Prop := {
inv_keys_deps : keys deps;
inv_keys_rev : keys rev;
inv_deps : ∀ n m, holds deps m n ↔ edge n m ∧ n ∉ L;
inv_rev : ∀ n m, holds rev n m ↔ edge n m ∧ n ∉ L;
inv_nodup : NoDup (L ++ stack);
inv_ready : ∀ g, g ∈ L ++ stack ↔ g ∈ gate_ids c ∧ no_deps deps g = true
}.

(** The state inside [for m in list(rev[n])], [todo] still to come;
[L] already ends with [n]. *)
Record mid (n : string) (todo : list string)
(deps rev : table) (stack L : list string) : Prop := {
mid_keys_deps : keys deps;
mid_keys_rev : keys rev;
mid_deps : ∀ x m, holds deps m x ↔ edge x m ∧ (x ∉ L ∨ (x = n ∧ m ∈ todo));
mid_rev : ∀ x m, holds rev x m ↔ edge x m ∧ (x ∉ L ∨ (x = n ∧ m ∈ todo));
mid_nodup : NoDup (L ++ stack);
mid_ready : ∀ g, g ∈ L ++ stack ↔ g ∈ gate_ids c ∧ no_deps deps g = true
}.

Lemma release_one_ok n m rest deps rev stack L :
n ∈ L → edge n m → m ∉ rest →
mid n (m :: rest) deps rev stack L →
∃ deps' rev' stack',
release_one n (deps, rev, stack) m = Ret (deps', rev', stack') ∧
mid n rest deps' rev' stack' L.
Proof.
intros HnL Hedge Hm [Hkd Hkr Hd Hr Hnodup Hready].
assert (holds deps m n) as (d & Hdm & Hnd').
{ apply Hd. split; [done|]. right. split; [done|by left]. }
assert (holds rev n m) as (r & Hrn & Hmr).
{ apply Hr. split; [done|]. right. split; [done|by left]. }
unfold release_one. rewrite Hdm. rewrite decide_True by done.
rewrite Hrn. rewrite decide_True by done.
eexists _, _, _. split; [done|].
assert (Hmg : m ∈ gate_ids c) by (by apply edge_gates in Hedge as [_ ?]).
assert (Hold : no_deps deps m = false).
{ unfold no_deps. rewrite Hdm. apply bool_decide_eq_false. set_solver. }
assert (Hnot : m ∉ L ++ stack).
{ intros [_ Hc]%Hready. congruence. }
assert (Hother : ∀ g, g ≠ m → no_deps (<[m := d ∖ {[n]}]> deps) g = no_deps deps g).
{ intros g Hg. unfold no_deps. by rewrite lookup_insert_ne. }
split.
- apply keys_insert; eauto.
- apply keys_insert; eauto.
- intros x m'. rewrite (holds_remove _ _ _ _ _ _ Hdm), Hd, elem_of_cons.
clear -HnL Hm. naive_solver.
- intros x m'. rewrite (holds_remove _ _ _ _ _ _ Hrn), Hr, elem_of_cons.
clear -HnL Hm. naive_solver.
- destruct (no_deps (<[m := d ∖ {[n]}]> deps) m); [|done].
rewrite app_assoc. apply NoDup_app. split_and!; [done| |apply NoDup_singleton].
intros x Hx ->%list_elem_of_singleton. done.
- intros g. destruct (decide (g = m)) as [->|Hg].
+ destruct (no_deps (<[m := d ∖ {[n]}]> deps) m) eqn:Hnew.
  * split; [done|]. intros _. rewrite app_assoc. apply elem_of_app. right. by left.
  * split; [|by intros [_ ?]]. intros Hin. by destruct Hnot.
+ rewrite (Hother g Hg), <- Hready.
  destruct (no_deps (<[m := d ∖ {[n]}]> deps) m); [|done].
  rewrite app_assoc, elem_of_app, list_elem_of_singleton. split; [|by left].
  intros [?|?]; done.
Qed.

Lemma release_ok n todo : ∀ deps rev stack L,
n ∈ L → (∀ m, m ∈ todo → edge n m) → NoDup todo →
mid n todo deps rev stack L →
∃ deps' rev' stack',
release n (deps, rev, stack) todo = Ret (deps', rev', stack') ∧
mid n [] deps' rev' stack' L.
Proof.
induction todo as [|m rest IH]; intros deps rev stack L HnL Hedges Hnodup Hmid.
- simpl. eauto.
- apply NoDup_cons in Hnodup as [Hm Hrest]. cbn [release].
destruct (release_one_ok n m rest deps rev stack L) as (d1 & r1 & s1 & -> & Hmid1);
  [done|apply Hedges; by left|done..|].
simpl. apply IH; [done| |done..]. intros m' Hm'. apply Hedges. by right.
Qed.

Lemma pop_spec stack :
match pop stack with
| None => stack = []
| Some (n, stack') => stack = stack' ++ [n]
end.
Proof.
unfold pop. destruct (reverse stack) as [|n rest] eqn:Hrev.
- apply (f_equal reverse) in Hrev. by rewrite reverse_involutive in Hrev.
- apply (f_equal reverse) in Hrev. rewrite reverse_involutive, reverse_cons in Hrev. done.
Qed.

Lemma topological_snoc deps rev stack L n :
inv deps rev (stack ++ [n]) L →
topological edge L → topological edge (L ++ [n]).
Proof.
intros [Hkd Hkr Hd Hr Hnodup Hready] Htop l1 g l2 Hsplit x Hxg.
destruct l2 as [|y l2 _] using rev_ind.
- apply app_inj_tail in Hsplit as [<- <-].
destruct (decide (x ∈ L)) as [|Hx]; [done|]. exfalso.
assert (n ∈ gate_ids c ∧ no_deps deps n = true) as [Hng Hno].
{ apply Hready. rewrite app_assoc. apply elem_of_app. right. by left. }
apply (proj1 (no_deps_holds deps n Hkd Hng) Hno x). by apply Hd.
- rewrite app_comm_cons, app_assoc in Hsplit.
apply app_inj_tail in Hsplit as [-> _]. by eapply Htop.
Qed.

Lemma stack_bound deps rev stack L :
inv deps rev stack L → (length L + length stack ≤ length (gate_ids c))%nat.
Proof.
intros [_ _ _ _ Hnodup Hready]. rewrite <- length_app.
apply submseteq_length, NoDup_submseteq; [done|].
intros x Hx. by apply Hready in Hx as [? _].
Qed.

Lemma inv_pop deps rev stack L n r :
inv deps rev (stack ++ [n]) L → rev !! n = Some r →
(n ∉ L) ∧ (∀ m, m ∈ set_order r → edge n m) ∧ NoDup (set_order r) ∧
mid n (set_order r) deps rev stack (L ++ [n]).
Proof.
intros [Hkd Hkr Hd Hr Hnodup Hready] Hrn.
assert (HnL : n ∉ L).
{ intros HnL. apply NoDup_app in Hnodup as (_ & Hdisj & _).
apply (Hdisj n HnL). apply elem_of_app. right. by left. }
assert (Hr_edges : ∀ m, m ∈ set_order r ↔ edge n m).
{ intros m. rewrite set_order_perm, elem_of_elements. split.
- intros Hm. assert (holds rev n m) as [? _]%Hr by (by exists r). done.
- intros He. assert (holds rev n m) as (r' & Hr' & ?) by (by apply Hr). congruence. }
split_and!; [done|by intros m ?%Hr_edges| |].
{ rewrite set_order_perm. apply NoDup_elements. }
split; [done..| | | |].
- intros x m. rewrite Hd, Hr_edges, elem_of_app, list_elem_of_singleton.
clear -HnL. destruct (decide (x = n)) as [->|]; naive_solver.
- intros x m. rewrite Hr, Hr_edges, elem_of_app, list_elem_of_singleton.
clear -HnL. destruct (decide (x = n)) as [->|]; naive_solver.
- rewrite <- app_assoc. eapply NoDup_Permutation_proper; [|exact Hnodup].
apply Permutation_app_head, Permutation_app_comm.
- intros g. rewrite <- Hready. rewrite <- !app_assoc, !elem_of_app.
rewrite !list_elem_of_singleton. tauto.
Qed.

Lemma mid_done n deps rev stack L :
mid n [] deps rev stack L → inv deps rev stack L.
Proof.
intros [Hkd Hkr Hd Hr Hnodup Hready]. split; [done..| | |done|done].
- intros x m. rewrite Hd. split; [|naive_solver].
intros [He [?|[_ Hin]]]; [done|]. by apply elem_of_nil in Hin.
- intros x m. rewrite Hr. split; [|naive_solver].
intros [He [?|[_ Hin]]]; [done|]. by apply elem_of_nil in Hin.
Qed.

Lemma kahn_loop_ok fuel : ∀ deps rev stack L,
inv deps rev stack L → topological edge L →
(length (gate_ids c) ≤ fuel + length L)%nat →
∃ deps' rev' L',
kahn_loop set_order fuel deps rev stack L = Some (Ret (deps', L')) ∧
inv deps' rev' [] L' ∧ topological edge L'.
Proof.
induction fuel as [|f IH]; intros deps rev stack L Hinv Htop Hfuel.
- pose proof (pop_spec stack) as Hpop. pose proof (stack_bound _ _ _ _ Hinv) as Hb.
destruct stack as [|x stack].
+ simpl. eauto 6.
+ simpl in Hb, Hfuel. lia.
- pose proof (pop_spec stack) as Hpop. cbn [kahn_loop].
destruct (pop stack) as [[n stack']|]; [|subst; eauto 6].
subst stack.
assert (Hn : n ∈ gate_ids c).
{ apply (inv_ready _ _ _ _ Hinv). rewrite app_assoc. apply elem_of_app. right. by left. }
destruct (proj2 (inv_keys_rev _ _ _ _ Hinv n) Hn) as [r Hr]. rewrite Hr.
destruct (inv_pop _ _ _ _ _ _ Hinv Hr) as (HnL & Hedges & Hnd' & Hmid).
destruct (release_ok n (set_order r) deps rev stack' (L ++ [n]))
  as (d1 & r1 & s1 & -> & Hmid1); [apply elem_of_app; right; by left|done..|].
apply IH.
+ by eapply mid_done.
+ by eapply topological_snoc.
+ rewrite length_app. simpl. lia.
Qed.

Lemma initial_inv :
∃ deps rev,
add_wires (empty_table (gate_ids c), empty_table (gate_ids c)) (wires c)
  = Ret (deps, rev) ∧
inv deps rev (filter (λ n, no_deps deps n = true) (gate_ids c)) [].
Proof.
destruct (add_wires_ok (wires c) (empty_table (gate_ids c)) (empty_table (gate_ids c)))
as (deps & rev & Heq & Hkd & Hkr & Hd & Hr);
[apply keys_empty_table..|done|].
exists deps, rev. split; [done|]. split; [done..| | | |].
- intros n m. rewrite Hd. split.
+ intros [?%holds_empty_table|?]; [done|]. split; [done|apply not_elem_of_nil].
+ intros [? _]. by right.
- intros n m. rewrite Hr. split.
+ intros [?%holds_empty_table|?]; [done|]. split; [done|apply not_elem_of_nil].
+ intros [? _]. by right.
- simpl. by apply NoDup_filter.
- intros g. simpl. rewrite list_elem_of_filter. tauto.
Qed.

Lemma topological_nil : topological edge [].
Proof. intros l1 g l2 Hsplit. by destruct l1. Qed.

(** The two ways the routine can end. *)
Lemma topological_order_cases :
let result := topological_order set_order (length (gate_ids c)) c in
(has_cycle ∧ result = Some (Raise (ValueError cycle_message))) ∨
(¬ has_cycle ∧ ∃ L, result = Some (Ret L) ∧ L ≡ₚ gate_ids c ∧ topological edge L).
Proof.
unfold topological_order.
destruct initial_inv as (deps & rev & -> & Hinv0).
destruct (kahn_loop_ok (length (gate_ids c)) deps rev _ [] Hinv0 topological_nil)
as (deps' & rev' & L & -> & Hinv & Htop); [simpl; lia|].
destruct Hinv as [Hkd Hkr Hd Hr Hnodup Hready].
rewrite app_nil_r in Hnodup. setoid_rewrite app_nil_r in Hready.
destruct (forallb (no_deps deps') (gate_ids c)) eqn:Hall.
- right.
assert (HL : L ≡ₚ gate_ids c).
{ apply NoDup_Permutation; [done..|]. intros g. rewrite Hready.
  rewrite forallb_forall in Hall. split; [by intros [? _]|].
  intros Hg. split; [done|]. by apply Hall, list_elem_of_In. }
split; [|eauto].
intros [g Hg]. eapply (topological_acyclic edge L); [done..| |exact Hg].
intros x y [_ Hy]%edge_gates. by rewrite HL.
- left. split; [|done].
assert (∃ g0, g0 ∈ gate_ids c ∧ no_deps deps' g0 = false) as (g0 & Hg0 & Hno0).
{ destruct (forallb (no_deps deps') (gate_ids c)) eqn:Hall'; [done|].
  clear -Hall'. induction (gate_ids c) as [|g l IH]; [done|]. simpl in Hall'.
  destruct (no_deps deps' g) eqn:Hg.
  - destruct IH as (g0 & ? & ?); [done|]. exists g0. split; [by right|done].
  - exists g. split; [by left|done]. }
pose (R := (list_to_set (gate_ids c) ∖ list_to_set L : gset string)).
apply (no_minimal_cycle edge R) with (x0 := g0).
+ intros x [HxG HxL]%elem_of_difference.
  rewrite elem_of_list_to_set in HxG, HxL.
  destruct (proj2 (Hkd x) HxG) as [d Hdx].
  destruct (decide (d = ∅)) as [->|Hne].
  { destruct HxL. apply Hready. split; [done|]. by apply no_deps_true. }
  apply set_choose_L in Hne as [p Hp].
  assert (holds deps' x p) as [He HpL]%Hd by (by exists d).
  exists p. split; [|done]. apply elem_of_difference.
  rewrite !elem_of_list_to_set. split; [|done]. by apply edge_gates in He as [? _].
+ apply elem_of_difference. rewrite !elem_of_list_to_set. split; [done|].
  intros [_ Hc]%Hready. congruence.
Qed.

End kahn_correct.

(** A three-gate chain INPUT -> NOT -> OUTPUT, and the same with the
    output fed back. *)
Definition chain3 : circuit :=
  {| gate_ids := ["G1"; "G2"; "G3"];
     gates := {[ "G1" := Gate INPUT 0 true; "G2" := Gate NOT 1 false;
                 "G3" := Gate OUTPUT 1 false ]};
     wires := [Wire "G1" ("G2", 0%nat); Wire "G2" ("G3", 0%nat)] |}.

Definition loop3 : circuit :=
  {| gate_ids := ["G1"; "G2"; "G3"];
     gates := gates chain3;
     wires := [Wire "G1" ("G2", 0%nat); Wire "G2" ("G3", 0%nat);
               Wire "G3" ("G2", 0%nat)] |}.

Example chain3_order :
  topological_order elements 3 chain3 = Some (Ret ["G1"; "G2"; "G3"]).
Proof. vm_compute. reflexivity. Qed.

Example loop3_cycle :
  topological_order elements 3 loop3 = Some (Raise (ValueError cycle_message)).
Proof. vm_compute. reflexivity. Qed.


End Circuit.

(** ** Shortest paths: the two comparison routines and the path finder *)

Module ShortestPaths.

(** A Python float as the routines use it: a finite number or
    [math.inf].  Finite numbers are rationals (every finite float is
    one) and [+] is exact; rounding and overflow are outside the model. *)
Inductive ext : Type :=
| Fin (q : Q)
| Inf.

(** [a < b] on such values. *)
Definition ext_ltb (a b : ext) : bool :=
  match a, b with
  | Fin x, Fin y => negb (Qle_bool y x)
  | Fin _, Inf => true
  | Inf, _ => false
  end.

Abbreviation item := (Q * string)%type.

(** Tuple comparison [(d1, u1) < (d2, u2)]. *)
Definition item_ltb (a b : item) : bool :=
  negb (Qle_bool (fst b) (fst a))
  || (Qeq_bool (fst a) (fst b) && String.ltb (snd a) (snd b)).

(** [heapq]: the heap is a bag of items, [heappush] adds one and
    [heappop] takes a least one out. *)
Definition heappush (heap : list item) (x : item) : list item := heap ++ [x].

Fixpoint extract_min (x : item) (heap : list item) : item * list item :=
  match heap with
  | [] => (x, [])
  | y :: rest =>
      let '(m, r) := extract_min y rest in
      if item_ltb m x then (m, x :: r) else (x, heap)
  end.

Definition heappop (heap : list item) : option (item * list item) :=
  match heap with
  | [] => None
  | x :: rest => Some (extract_min x rest)
  end.

Abbreviation dist_t := (gmap string ext).
Abbreviation prev_t := (gmap string (option string)).

(** [d[k]] on a dict. *)
Definition getitem {V} (d : gmap string V) (k : string) : py V :=
  match d !! k with
  | Some v => Ret v
  | None => Raise KeyError
  end.

Section dijkstra_loop.
(** The [while heap:] loop is the same text in the comparison app and in
the path finder but for two places: how the neighbours of [u] are
read ([graph.adj.get(u, [])] there, [g[u]] here) and the early exit
[if u == target: break] of the path finder. *)
Variable neighbors : string → py (list (string * Q)).
Variable target : option string.

(** [for v, w in ...: nd = d + w; if nd < dist[v]: ...] *)
Fixpoint relax (d : Q) (u : string) (nbrs : list (string * Q))
(st : dist_t * prev_t * list item) : py (dist_t * prev_t * list item) :=
match nbrs with
| [] => Ret st
| (v, w) :: rest =>
  let '(dist, prev, heap) := st in
  let nd := (d + w)%Q in
  dv ← getitem dist v;
  if ext_ltb (Fin nd) dv then
    relax d u rest (<[v := Fin nd]> dist, <[v := Some u]> prev, heappush heap (nd, v))
  else relax d u rest st
end.

Fixpoint dijkstra_loop (fuel : nat) (dist : dist_t) (prev : prev_t) (heap : list item)
: option (py (dist_t * prev_t)) :=
match heappop heap with
| None => Some (Ret (dist, prev))
| Some ((d, u), heap) =>
  match fuel with
  | O => None
  | S f =>
      match getitem dist u with
      | Raise e => Some (Raise e)
      | Ret du =>
          if ext_ltb du (Fin d) then dijkstra_loop f dist prev heap
          else if bool_decide (target = Some u) then Some (Ret (dist, prev))
          else
            match nbrs ← neighbors u; relax d u nbrs (dist, prev, heap) with
            | Raise e => Some (Raise e)
            | Ret (dist, prev, heap) => dijkstra_loop f dist prev heap
            end
      end
  end
end.
End dijkstra_loop.

(** *** Bellman-Ford vs Dijkstra Comparison App *)

(** [class Graph] *)
Record Graph : Type := MkGraph {
  adj : gmap string (list (string * Q));
  nodes_set : gset string;
  edges : list (string * string * Q)
}.

Definition empty_graph : Graph := {| adj := ∅; nodes_set := ∅; edges := [] |}.

(** [self.adj[u].append((v, w))] after [if u not in self.adj: self.adj[u] = []] *)
Definition adj_append (a : gmap string (list (string * Q))) (u v : string) (w : Q)
  : gmap string (list (string * Q)) :=
  <[u := default [] (a !! u) ++ [(v, w)]]> a.

Definition add_edge (g : Graph) (u v : string) (w : Q) (directed : bool) : Graph :=
  let g1 := {| adj := adj_append (adj g) u v w;
               nodes_set := {[v]} ∪ ({[u]} ∪ nodes_set g);
               edges := edges g ++ [(u, v, w)] |} in
  if directed then g1
  else {| adj := adj_append (adj g1) v u w;
          nodes_set := nodes_set g1;
          edges := edges g1 ++ [(v, u, w)] |}.

(** The order of [str]: by code points. *)
Definition str_le (a b : string) : Prop := String.leb a b = true.
#[global] Instance str_le_dec : RelDecision str_le.
Proof. intros a b. unfold str_le. apply _. Defined.

(** [sorted(list(self.nodes_set))] *)
Definition nodes (g : Graph) : list string :=
  merge_sort str_le (elements (nodes_set g)).

(** [{node: x for node in nodes}] *)
Definition dict_of {V} (x : V) (keys : list string) : gmap string V :=
  list_to_map ((λ n, (n, x)) <$> keys).

(** [dijkstra(graph, source)]; the third component of the result, the
    elapsed wall-clock time, is left out. *)
Definition dijkstra (fuel : nat) (graph : Graph) (source : string)
  : option (py (dist_t * prev_t)) :=
  let dist := dict_of Inf (nodes graph) in
  let prev := dict_of None (nodes graph) in
  if bool_decide (source ∈ dom dist) then
    let dist := <[source := Fin 0]> dist in
    dijkstra_loop (λ u, Ret (default [] (adj graph !! u))) None
      fuel dist prev [(0%Q, source)]
  else Some (Ret (dist, prev)).

(** One sweep [for u, v, w in graph.edges: ...] of the relaxation. *)
Fixpoint bf_sweep (es : list (string * string * Q)) (st : dist_t * prev_t * bool)
  : py (dist_t * prev_t * bool) :=
  match es with
  | [] => Ret st
  | (u, v, w) :: rest =>
      let '(dist, prev, updated) := st in
      du ← getitem dist u;
      match du with
      | Inf => bf_sweep rest st
      | Fin x =>
          dv ← getitem dist v;
          if ext_ltb (Fin (x + w)) dv then
            bf_sweep rest (<[v := Fin (x + w)]> dist, <[v := Some u]> prev, true)
          else bf_sweep rest st
      end
  end.

(** [for i in range(n - 1): ...; if not updated: break] *)
Fixpoint bf_rounds (k : nat) (es : list (string * string * Q)) (dist : dist_t) (prev : prev_t)
  : py (dist_t * prev_t) :=
  match k with
  | O => Ret (dist, prev)
  | S k' =>
      st ← bf_sweep es (dist, prev, false);
      let '(dist, prev, updated) := (st : dist_t * prev_t * bool) in
      if updated then bf_rounds k' es dist prev else Ret (dist, prev)
  end.

(** The negative-cycle check after the rounds. *)
Fixpoint bf_check (es : list (string * string * Q)) (dist : dist_t) : py bool :=
  match es with
  | [] => Ret false
  | (u, v, w) :: rest =>
      du ← getitem dist u;
      match du with
      | Inf => bf_check rest dist
      | Fin x =>
          dv ← getitem dist v;
          if ext_ltb (Fin (x + w)) dv then Ret true else bf_check rest dist
      end
  end.

(** [bellman_ford(graph, source)], again without the elapsed time. *)
Definition bellman_ford (graph : Graph) (source : string)
  : py (dist_t * prev_t * bool) :=
  let dist := dict_of Inf (nodes graph) in
  let prev := dict_of None (nodes graph) in
  if bool_decide (source ∈ dom dist) then
    let dist := <[source := Fin 0]> dist in
    let n := length (nodes graph) in
    st ← bf_rounds (n - 1) (edges graph) dist prev;
    let '(dist, prev) := (st : dist_t * prev_t) in
    negative_cycle ← bf_check (edges graph) dist;
    Ret (dist, prev, negative_cycle)
  else Ret (dist, prev, false).

(** *** Shortest Path Between Two Nodes Visualizer *)

(** The adjacency built at the top of the path finder:
    [g[u].append((v, w)); g[v].append((u, w))]. *)
Fixpoint build_adjacency (g : gmap string (list (string * Q)))
    (es : list (string * string * Q)) : py (gmap string (list (string * Q))) :=
  match es with
  | [] => Ret g
  | (u, v, w) :: rest =>
      lu ← getitem g u;
      let g := <[u := lu ++ [(v, w)]]> g in
      lv ← getitem g v;
      let g := <[v := lv ++ [(u, w)]]> g in
      build_adjacency g rest
  end.

(** [while cur is not None: path.append(cur); cur = prev[cur]] *)
Fixpoint walk_back (fuel : nat) (prev : prev_t) (cur : option string) (path : list string)
  : option (py (list string)) :=
  match cur with
  | None => Some (Ret path)
  | Some c =>
      match fuel with
      | O => None
      | S f =>
          match getitem prev c with
          | Raise e => Some (Raise e)
          | Ret p => walk_back f prev p (path ++ [c])
          end
      end
  end.

(** [dijkstra(nodes, edges, source, target)]: [(path, total)] or
    [(None, None)], here [Some (path, total)] or [None]. *)
Definition dijkstra_path (fuel : nat) (nodes : gset string)
    (edges : list (string * string * Q)) (source target : string)
  : option (py (option (list string * Q))) :=
  if negb (bool_decide (source ∈ nodes)) || negb (bool_decide (target ∈ nodes))
  then Some (Ret None)
  else
    match build_adjacency (dict_of [] (elements nodes)) edges with
    | Raise e => Some (Raise e)
    | Ret g =>
        let dist := <[source := Fin 0]> (dict_of Inf (elements nodes)) in
        let prev := dict_of None (elements nodes) in
        match dijkstra_loop (getitem g) (Some target) fuel dist prev [(0%Q, source)] with
        | None => None
        | Some (Raise e) => Some (Raise e)
        | Some (Ret (dist, prev)) =>
            match getitem dist target with
            | Raise e => Some (Raise e)
            | Ret Inf => Some (Ret None)
            | Ret (Fin total) =>
                match walk_back fuel prev (Some target) [] with
                | None => None
                | Some (Raise e) => Some (Raise e)
                | Some (Ret path) => Some (Ret (Some (reverse path, total)))
                end
            end
        end
    end.

(** *** Walks and their lengths *)

Section walks.
Variable arc : string → string → Q → Prop.
Variable s : string.

(** A walk from [s]: the nodes it visits, its end and its length, added
up from the source the way the routines add it up. *)
Inductive walk : list string → string → Q → Prop :=
| walk_nil : walk [s] s 0
| walk_snoc vs u v w l : walk vs u l → arc u v w → walk (vs ++ [v]) v (l + w).

(** What a correct entry of [dist] is: the length of a shortest walk, or
[math.inf] when there is none. *)
Definition shortest (v : string) (r : ext) : Prop :=
match r with
| Fin d => (∃ vs, walk vs v d) ∧ ∀ vs l, walk vs v l → (d <= l)%Q
| Inf => ∀ vs l, ¬ walk vs v l
end.

(** The same with paths, walks that repeat no node. *)
Definition shortest_path (v : string) (r : ext) : Prop :=
match r with
| Fin d => (∃ vs l, walk vs v l ∧ NoDup vs ∧ (l == d)%Q) ∧
         ∀ vs l, walk vs v l → NoDup vs → (d <= l)%Q
| Inf => ∀ vs l, walk vs v l → ¬ NoDup vs
end.

Hypothesis arc_nonneg : ∀ u v w, arc u v w → (0 <= w)%Q.

Lemma walk_nonneg vs v l : walk vs v l → (0 <= l)%Q.
Proof.
induction 1 as [|vs u v w l _ IH Harc]; [lra|].
apply arc_nonneg in Harc. lra.
Qed.

Lemma walk_last vs v l : walk vs v l → ∃ vs', vs = vs' ++ [v].
Proof. destruct 1; [by exists []|eauto]. Qed.

(** Every node on a walk is reached by a prefix that is no longer. *)
Lemma walk_prefix vs v l x :
walk vs v l → x ∈ vs →
∃ vs1 l1, walk vs1 x l1 ∧ vs1 `prefix_of` vs ∧ (l1 <= l)%Q.
Proof.
induction 1 as [|vs u v w l Hw IH Harc]; intros Hx.
- apply list_elem_of_singleton in Hx as ->. exists [s], 0%Q.
split_and!; [constructor|done|lra].
- apply elem_of_app in Hx as [Hx|Hx].
+ destruct (IH Hx) as (vs1 & l1 & Hw1 & Hpre & Hle).
  exists vs1, l1. split_and!; [done|by apply prefix_app_r|].
  apply arc_nonneg in Harc. lra.
+ apply list_elem_of_singleton in Hx as ->.
  exists (vs ++ [v]), (l + w)%Q. split_and!; [by econstructor|done|lra].
Qed.

Lemma NoDup_prefix (l1 l2 : list string) : l1 `prefix_of` l2 → NoDup l2 → NoDup l1.
Proof. intros [k ->] Hnd. by apply NoDup_app in Hnd as [? _]. Qed.

(** Cutting the cycles out of a walk does not make it longer. *)
Lemma walk_simple vs v l :
walk vs v l → ∃ vs' l', walk vs' v l' ∧ NoDup vs' ∧ (l' <= l)%Q.
Proof.
induction 1 as [|vs u v w l Hw (vs' & l' & Hw' & Hnd & Hle) Harc].
- exists [s], 0%Q. split_and!; [constructor|apply NoDup_singleton|lra].
- destruct (decide (v ∈ vs')) as [Hin|Hnin].
+ destruct (walk_prefix _ _ _ v Hw' Hin) as (vs1 & l1 & Hw1 & Hpre & Hle1).
  exists vs1, l1. split_and!; [done|by eapply NoDup_prefix|].
  apply arc_nonneg in Harc. lra.
+ exists (vs' ++ [v]), (l' + w)%Q. split_and!; [by econstructor| |lra].
  apply NoDup_app. split_and!; [done| |apply NoDup_singleton].
  intros x Hx ->%list_elem_of_singleton. done.
Qed.

(** Shortest among the walks is shortest among the paths. *)
Lemma shortest_is_path v r : shortest v r → shortest_path v r.
Proof.
destruct r as [d|]; simpl.
- intros [[vs Hw] Hmin]. split.
+ destruct (walk_simple _ _ _ Hw) as (vs' & l' & Hw' & Hnd & Hle).
  exists vs', l'. split_and!; [done..|]. pose proof (Hmin _ _ Hw'). lra.
+ intros vs' l' Hw' _. by eapply Hmin.
- intros Hno vs l Hw. by destruct (Hno _ _ Hw).
Qed.

(** Two answers for the same node agree. *)
Definition ext_eq (a b : ext) : Prop :=
match a, b with
| Fin x, Fin y => (x == y)%Q
| Inf, Inf => True
| _, _ => False
end.

Lemma shortest_unique v a b : shortest v a → shortest v b → ext_eq a b.
Proof.
destruct a as [x|], b as [y|]; simpl.
- intros [[vs Hx] Hminx] [[vs' Hy] Hminy].
pose proof (Hminx _ _ Hy). pose proof (Hminy _ _ Hx). lra.
- intros [[vs Hx] _] Hno. by destruct (Hno _ _ Hx).
- intros Hno [[vs Hy] _]. by destruct (Hno _ _ Hy).
- done.
Qed.

(** Nodes on a walk are endpoints of arcs or the source. *)
Lemma walk_nodes (N : gset string) vs v l :
s ∈ N → (∀ u v w, arc u v w → v ∈ N) →
walk vs v l → ∀ x, x ∈ vs → x ∈ N.
Proof.
intros Hs Harc. induction 1 as [|vs u v w l Hw IH Ha]; intros x Hx.
- by apply list_elem_of_singleton in Hx as ->.
- apply elem_of_app in Hx as [Hx|Hx]; [by apply IH|].
apply list_elem_of_singleton in Hx as ->. by eapply Harc.
Qed.

Lemma walk_end_in vs v l : walk vs v l → v ∈ vs.
Proof.
intros (vs' & ->)%walk_last. apply elem_of_app. right. by left.
Qed.
End walks.

(** *** The heap *)

Lemma ext_ltb_Fin x y : ext_ltb (Fin x) (Fin y) = true ↔ (x < y)%Q.
Proof.
  simpl. rewrite negb_true_iff. split.
  - intros H. apply Qnot_le_lt. intros Hle%Qle_bool_iff. congruence.
  - intros H. destruct (Qle_bool y x) eqn:E; [|done].
    apply Qle_bool_iff in E. lra.
Qed.

Lemma ext_ltb_Fin_false x y : ext_ltb (Fin x) (Fin y) = false ↔ (y <= x)%Q.
Proof.
  simpl. rewrite negb_false_iff. apply Qle_bool_iff.
Qed.

Lemma item_ltb_le a b : item_ltb a b = true → (fst a <= fst b)%Q.
Proof.
  unfold item_ltb. intros [H|H]%orb_true_iff.
  - apply negb_true_iff in H. destruct (Qlt_le_dec (fst a) (fst b)) as [|Hle]; [lra|].
    apply Qle_bool_iff in Hle. congruence.
  - apply andb_true_iff in H as [H%Qeq_bool_iff _]. lra.
Qed.

Lemma item_ltb_ge a b : item_ltb a b = false → (fst b <= fst a)%Q.
Proof.
  unfold item_ltb. intros [H _]%orb_false_iff.
  apply negb_false_iff in H. by apply Qle_bool_iff.
Qed.

(** [heappop] takes one item out, leaves the others in place, and the
    item it takes has a least key. *)
Lemma extract_min_spec h : ∀ x m r,
  extract_min x h = (m, r) →
  (∃ h1 h2, x :: h = h1 ++ m :: h2 ∧ r = h1 ++ h2) ∧
  ∀ y, y ∈ x :: h → (fst m <= fst y)%Q.
Proof.
  induction h as [|y rest IH]; intros x m r Heq; simpl in Heq.
  - injection Heq as <- <-. split; [by exists [], []|].
    intros y Hy%list_elem_of_singleton. subst. lra.
  - destruct (extract_min y rest) as [m' r'] eqn:Hrec.
    destruct (IH y m' r' Hrec) as [(h1 & h2 & Hsplit & ->) Hmin].
    destruct (item_ltb m' x) eqn:Hlt; injection Heq as <- <-.
    + split.
      * exists (x :: h1), h2. split; [|done]. simpl. by rewrite Hsplit.
      * intros z [->|Hz]%elem_of_cons; [by apply item_ltb_le|by apply Hmin].
    + split; [by exists [], (y :: rest)|].
      apply item_ltb_ge in Hlt.
      intros z [->|Hz]%elem_of_cons; [lra|]. pose proof (Hmin z Hz). lra.
Qed.

Lemma heappop_spec heap :
  match heappop heap with
  | None => heap = []
  | Some (m, r) =>
      (∃ h1 h2, heap = h1 ++ m :: h2 ∧ r = h1 ++ h2) ∧
      ∀ y, y ∈ heap → (fst m <= fst y)%Q
  end.
Proof.
  destruct heap as [|x h]; simpl; [done|].
  destruct (extract_min x h) as [m r] eqn:Heq. by apply extract_min_spec.
Qed.

Lemma dict_of_lookup {V} (x : V) keys k :
  dict_of x keys !! k = if decide (k ∈ keys) then Some x else None.
Proof.
  unfold dict_of. induction keys as [|i keys IH].
  - simpl. rewrite lookup_empty. destruct (decide (k ∈ [])) as [Hin|]; [|done].
    by apply elem_of_nil in Hin.
  - rewrite fmap_cons. simpl list_to_map. rewrite lookup_insert.
    destruct (decide (i = k)) as [->|Hne].
    + destruct (decide (k ∈ k :: keys)) as [|Hn]; [done|]. destruct Hn. by left.
    + rewrite IH. destruct (decide (k ∈ keys)) as [Hin|Hnin].
      * destruct (decide (k ∈ i :: keys)) as [|Hn]; [done|]. destruct Hn. by right.
      * destruct (decide (k ∈ i :: keys)) as [[?|?]%elem_of_cons|]; done.
Qed.

(** *** The loop of Dijkstra's algorithm *)

Section dijkstra_correct.
Variable N : gset string.
Variable arc : string → string → Q → Prop.
Variable neighbors : string → py (list (string * Q)).
Variable target : option string.
Variable s : string.
Hypothesis Hs : s ∈ N.
Hypothesis neighbors_ok :
∀ u, u ∈ N → ∃ l, neighbors u = Ret l ∧ ∀ v w, (v, w) ∈ l ↔ arc u v w.
Hypothesis arc_nodes : ∀ u v w, arc u v w → u ∈ N ∧ v ∈ N.
Hypothesis arc_nonneg : ∀ u v w, arc u v w → (0 <= w)%Q.

Definition deg (u : string) : nat :=
match neighbors u with
| Ret l => length l
| Raise _ => 0
end.

(** The arcs that leave nodes not yet settled: what is left to push. *)
Definition remaining_in (ns X : list string) : nat :=
sum_list (deg <$> filter (λ v, v ∉ X) ns).
Definition remaining (X : list string) : nat := remaining_in (elements N) X.

Lemma remaining_in_skip ns X u :
u ∉ ns → remaining_in ns (u :: X) = remaining_in ns X.
Proof.
unfold remaining_in. induction ns as [|n ns IH]; intros Hu; [done|].
apply not_elem_of_cons in Hu as [Hne Hu].
rewrite !filter_cons.
destruct (decide (n ∉ X)) as [HnX|HnX].
- rewrite (decide_True (P := n ∉ u :: X)).
2:{ rewrite not_elem_of_cons. done. }
rewrite !fmap_cons. simpl. by rewrite IH.
- rewrite (decide_False (P := n ∉ u :: X)).
2:{ rewrite not_elem_of_cons. tauto. }
by apply IH.
Qed.

Lemma remaining_in_cons ns X u :
NoDup ns → u ∈ ns → u ∉ X →
remaining_in ns X = (deg u + remaining_in ns (u :: X))%nat.
Proof.
induction ns as [|n ns IH]; intros Hnd Hin HX.
- by apply elem_of_nil in Hin.
- apply NoDup_cons in Hnd as [Hn Hnd].
destruct (decide (n = u)) as [->|Hne].
+ pose proof (remaining_in_skip ns X u Hn) as Hskip.
  unfold remaining_in in *. rewrite !filter_cons.
  rewrite decide_True by done.
  rewrite decide_False by (intros Hc; apply Hc; by left).
  rewrite fmap_cons. simpl. by rewrite Hskip.
+ apply elem_of_cons in Hin as [->|Hin]; [done|].
  specialize (IH Hnd Hin HX).
  unfold remaining_in in *. rewrite !filter_cons.
  destruct (decide (n ∉ X)) as [HnX|HnX].
  * rewrite (decide_True (P := n ∉ u :: X)).
    2:{ rewrite not_elem_of_cons. done. }
    rewrite !fmap_cons. simpl. rewrite IH. lia.
  * rewrite (decide_False (P := n ∉ u :: X)).
    2:{ rewrite not_elem_of_cons. tauto. }
    done.
Qed.

Lemma remaining_cons X u :
u ∈ N → u ∉ X → remaining X = (deg u + remaining (u :: X))%nat.
Proof.
intros HuN HX. apply remaining_in_cons; [apply NoDup_elements| |done].
by apply elem_of_elements.
Qed.

(** The loop invariant.  [X] lists the settled nodes, last settled
first; [pending] are the arcs of the node being relaxed that the
inner loop has not reached yet. *)
Record inv (pending : string → string → Q → Prop) (X : list string)
(dist : dist_t) (prev : prev_t) (heap : list item) : Prop := {
inv_keys : ∀ v, is_Some (dist !! v) ↔ v ∈ N;
inv_keys_prev : ∀ v, is_Some (prev !! v) ↔ v ∈ N;
inv_source : ∃ x, dist !! s = Some (Fin x) ∧ (x <= 0)%Q;
inv_walk : ∀ v x, dist !! v = Some (Fin x) → ∃ vs, walk arc s vs v x;
inv_heap_walk : ∀ d v, (d, v) ∈ heap → ∃ vs, walk arc s vs v d;
inv_settled : ∀ x, x ∈ X →
∃ dx, dist !! x = Some (Fin dx) ∧
  (∀ vs l, walk arc s vs x l → (dx <= l)%Q) ∧
  (∀ v w, arc x v w →
     pending x v w ∨ ∃ dv, dist !! v = Some (Fin dv) ∧ (dv <= dx + w)%Q);
inv_frontier : ∀ v dv, v ∉ X → dist !! v = Some (Fin dv) → (dv, v) ∈ heap;
inv_heap_dist : ∀ d v, (d, v) ∈ heap →
∃ dv, dist !! v = Some (Fin dv) ∧ (dv <= d)%Q;
inv_heap_settled : ∀ x dx d v,
x ∈ X → dist !! x = Some (Fin dx) → (d, v) ∈ heap → (dx <= d)%Q;
inv_X_nodup : NoDup X;
inv_X_nodes : ∀ x, x ∈ X → x ∈ N;
inv_prev : ∀ l1 x l2 p,
X = l1 ++ x :: l2 → prev !! x = Some (Some p) → p ∈ l2;
inv_prev_settled : ∀ v p, prev !! v = Some (Some p) → p ∈ X
}.

Definition no_pending : string → string → Q → Prop := λ _ _ _, False.

Lemma inv_weaken (P P' : string → string → Q → Prop) X dist prev heap :
(∀ x v w, P x v w → P' x v w) →
inv P X dist prev heap → inv P' X dist prev heap.
Proof.
intros HP [H1 H2 H3 H4 H5 H6 H7 H8 H9 H10 H11 H12 H13].
split; try done.
intros x Hx. destruct (H6 x Hx) as (dx & Hdx & Hopt & Hclean).
exists dx. split_and!; [done..|].
intros v w Ha. destruct (Hclean v w Ha) as [?|?]; [left; by apply HP|by right].
Qed.

(** A walk either ends in a settled node whose entry is no longer than
it, or it passes an item of the heap that is no longer than it. *)
Lemma frontier X dist prev heap :
inv no_pending X dist prev heap →
∀ vs v l, walk arc s vs v l →
(v ∈ X ∧ ∃ dv, dist !! v = Some (Fin dv) ∧ (dv <= l)%Q) ∨
(∃ d y, (d, y) ∈ heap ∧ (d <= l)%Q).
Proof.
intros Hinv. induction 1 as [|vs u v w l Hw IH Harc].
- destruct (inv_source _ _ _ _ _ Hinv) as (x & Hx & Hle).
destruct (decide (s ∈ X)) as [HsX|HsX]; [left; eauto|].
right. exists x, s. split; [|done]. by eapply inv_frontier.
- pose proof (arc_nonneg _ _ _ Harc) as Hw0.
destruct IH as [[HuX (du & Hdu & Hle)]|(d & y & Hin & Hle)].
+ destruct (inv_settled _ _ _ _ _ Hinv u HuX) as (du' & Hdu' & _ & Hclean).
  assert (du' = du) as -> by congruence.
  destruct (Hclean v w Harc) as [[]|(dv & Hdv & Hle')].
  destruct (decide (v ∈ X)) as [HvX|HvX].
  * left. split; [done|]. exists dv. split; [done|lra].
  * right. exists dv, v. split; [by eapply inv_frontier|lra].
+ right. exists d, y. split; [done|lra].
Qed.

(** The state while the arcs of [u], popped with key [d], are relaxed. *)
Record mid (u : string) (d : Q) (todo : list (string * Q)) (X : list string)
(dist : dist_t) (prev : prev_t) (heap : list item) : Prop := {
mid_inv : inv (λ x v w, x = u ∧ (v, w) ∈ todo) X dist prev heap;
mid_key : ∀ x dx, x ∈ X → dist !! x = Some (Fin dx) → (dx <= d)%Q;
mid_walk : ∃ vs, walk arc s vs u d;
mid_u : ∃ du, dist !! u = Some (Fin du) ∧ (du == d)%Q;
mid_uX : u ∈ X;
mid_todo : ∀ v w, (v, w) ∈ todo → arc u v w
}.

Lemma relax_ok u d todo : ∀ X dist prev heap,
mid u d todo X dist prev heap →
∃ dist' prev' heap',
relax d u todo (dist, prev, heap) = Ret (dist', prev', heap') ∧
inv no_pending X dist' prev' heap' ∧
(length heap' ≤ length heap + length todo)%nat.
Proof.
induction todo as [|[v w] rest IH]; intros X dist prev heap Hmid.
- simpl. exists dist, prev, heap. split_and!; [done| |lia].
eapply inv_weaken; [|apply Hmid]. intros x v w [_ Hin]. by apply elem_of_nil in Hin.
- destruct Hmid as [Hinv Hkey [vsu Hwalk] (du & Hdu & Hdu_eq) HuX Htodo].
assert (Harc : arc u v w) by (apply Htodo; by left).
pose proof (arc_nonneg _ _ _ Harc) as Hw0.
assert (HvN : v ∈ N) by (by apply arc_nodes in Harc as [_ ?]).
destruct (proj2 (inv_keys _ _ _ _ _ Hinv v) HvN) as [dv Hdv].
cbn [relax]. unfold getitem. rewrite Hdv. cbn [mbind py_bind].
destruct (ext_ltb (Fin (d + w)) dv) eqn:Hlt.
+ (* the entry of [v] is improved *)
  assert (HvX : v ∉ X).
  { intros HvX. destruct (inv_settled _ _ _ _ _ Hinv v HvX) as (dv' & Hdv' & _).
    rewrite Hdv in Hdv'. injection Hdv' as ->.
    apply ext_ltb_Fin in Hlt. pose proof (Hkey v dv' HvX Hdv). lra. }
  assert (Hvu : v ≠ u) by (intros ->; done).
  assert (Hbelow : ∀ y, dv = Fin y → (d + w < y)%Q).
  { intros y ->. by apply ext_ltb_Fin in Hlt. }
  destruct (IH X (<[v := Fin (d + w)%Q]> dist) (<[v := Some u]> prev)
              (heappush heap ((d + w)%Q, v))) as (dist' & prev' & heap' & Hr & Hinv' & Hlen).
  2:{ exists dist', prev', heap'. split; [exact Hr|]. split; [exact Hinv'|].
      unfold heappush in Hlen. rewrite length_app in Hlen. simpl in *. lia. }
  destruct Hinv as [H1 H2 H3 H4 H5 H6 H7 H8 H9 H10 H11 H12 H13].
  split; [split|..].
  * intros x. rewrite lookup_insert. case_decide as Hd; [|apply H1].
    subst. split; [done|eauto].
  * intros x. rewrite lookup_insert. case_decide as Hd; [|apply H2].
    subst. split; [done|eauto].
  * destruct H3 as (x & Hx & Hle). destruct (decide (v = s)) as [->|Hne].
    -- exists (d + w)%Q. rewrite lookup_insert_eq. split; [done|].
       rewrite Hx in Hdv. injection Hdv as <-. pose proof (Hbelow x eq_refl). lra.
    -- exists x. by rewrite lookup_insert_ne.
  * intros x y. rewrite lookup_insert. case_decide as Hd; [|apply H4].
    intros [= <-]. subst x. exists (vsu ++ [v]). by econstructor.
  * intros d' x [Hin|Hin]%elem_of_app; [by eapply H5|].
    apply list_elem_of_singleton in Hin. injection Hin as -> ->.
    exists (vsu ++ [v]). by econstructor.
  * intros x Hx. destruct (H6 x Hx) as (dx & Hdx & Hopt & Hclean).
    assert (x ≠ v) by (intros ->; done).
    exists dx. rewrite lookup_insert_ne by done. split_and!; [done..|].
    intros v' w' Ha. destruct (Hclean v' w' Ha) as [[-> Hpend]|(dv' & Hdv' & Hle)].
    -- apply elem_of_cons in Hpend as [[= -> ->]|Hpend]; [|left; done].
       right. exists (d + w)%Q. rewrite lookup_insert_eq. split; [done|].
       rewrite Hdu in Hdx. injection Hdx as <-. lra.
    -- right. destruct (decide (v = v')) as [<-|Hne].
       ++ exists (d + w)%Q. rewrite lookup_insert_eq. split; [done|].
          rewrite Hdv in Hdv'. injection Hdv' as ->.
          pose proof (Hbelow dv' eq_refl). lra.
       ++ exists dv'. by rewrite lookup_insert_ne.
  * intros x dx HxX. rewrite lookup_insert. case_decide as Hd.
    -- intros [= <-]. subst x. apply elem_of_app. right. by left.
    -- intros Hdx. apply elem_of_app. left. by eapply H7.
  * intros d' x [Hin|Hin]%elem_of_app.
    -- destruct (H8 d' x Hin) as (dx & Hdx & Hle).
       destruct (decide (v = x)) as [<-|Hne].
       ++ exists (d + w)%Q. rewrite lookup_insert_eq. split; [done|].
          rewrite Hdv in Hdx. injection Hdx as ->.
          pose proof (Hbelow dx eq_refl). lra.
       ++ exists dx. by rewrite lookup_insert_ne.
    -- apply list_elem_of_singleton in Hin. injection Hin as -> ->.
       exists (d + w)%Q. rewrite lookup_insert_eq. split; [done|lra].
  * intros x dx d' y HxX. assert (x ≠ v) by (intros ->; done).
    rewrite lookup_insert_ne by done.
    intros Hdx [Hin|Hin]%elem_of_app; [by eapply H9|].
    apply list_elem_of_singleton in Hin. injection Hin as -> ->.
    pose proof (Hkey x dx HxX Hdx). lra.
  * done.
  * done.
  * intros l1 x l2 p HX. assert (x ≠ v).
    { intros ->. apply HvX. rewrite HX. apply elem_of_app. right. by left. }
    rewrite lookup_insert_ne by done. by eapply H12.
  * intros x p. rewrite lookup_insert. case_decide as Hd; [|apply H13].
    intros [= <-]. done.
  * intros x dx HxX. assert (x ≠ v) by (intros ->; done).
    rewrite lookup_insert_ne by done. by apply Hkey.
  * eauto.
  * exists du. by rewrite lookup_insert_ne.
  * done.
  * intros v' w' Hin. apply Htodo. by right.
+ (* nothing to improve *)
  assert (∃ y, dv = Fin y ∧ (y <= d + w)%Q) as (y & -> & Hle).
  { destruct dv as [y|]; [|done]. exists y. split; [done|].
    by apply ext_ltb_Fin_false in Hlt. }
  destruct (IH X dist prev heap) as (dist' & prev' & heap' & Hr & Hinv' & Hlen).
  2:{ exists dist', prev', heap'. split; [exact Hr|]. split; [exact Hinv'|].
      simpl. lia. }
  split; [|done|eauto|eauto|done|].
  2:{ intros v' w' Hin. apply Htodo. by right. }
  destruct Hinv as [H1 H2 H3 H4 H5 H6 H7 H8 H9 H10 H11 H12 H13].
  split; try done.
  intros x Hx. destruct (H6 x Hx) as (dx & Hdx & Hopt & Hclean).
  exists dx. split_and!; [done..|].
  intros v' w' Ha. destruct (Hclean v' w' Ha) as [[-> Hpend]|?]; [|by right].
  apply elem_of_cons in Hpend as [[= -> ->]|Hpend]; [|left; done].
  right. exists y. split; [done|].
  rewrite Hdu in Hdx. injection Hdx as <-. lra.
Qed.

(** A settled node popped once more has nothing left to improve. *)
Lemma relax_noop u d du todo X dist prev heap :
inv no_pending X dist prev heap →
u ∈ X → dist !! u = Some (Fin du) → (du <= d)%Q →
(∀ v w, (v, w) ∈ todo → arc u v w) →
relax d u todo (dist, prev, heap) = Ret (dist, prev, heap).
Proof.
intros Hinv HuX Hdu Hle. induction todo as [|[v w] rest IH]; intros Htodo; [done|].
destruct (inv_settled _ _ _ _ _ Hinv u HuX) as (du' & Hdu' & _ & Hclean).
assert (du' = du) as -> by congruence.
destruct (Hclean v w) as [[]|(dv & Hdv & Hle')]; [apply Htodo; by left|].
cbn [relax]. unfold getitem. rewrite Hdv. cbn [mbind py_bind].
assert (ext_ltb (Fin (d + w)) (Fin dv) = false) as ->.
{ apply ext_ltb_Fin_false. lra. }
apply IH. intros v' w' Hin. apply Htodo. by right.
Qed.

(** Taking a stale item, or an item of a settled node, out of the heap. *)
Lemma inv_remove P X dist prev h1 d u h2 :
inv P X dist prev (h1 ++ (d, u) :: h2) →
(u ∈ X ∨ ∃ du, dist !! u = Some (Fin du) ∧ (du < d)%Q) →
inv P X dist prev (h1 ++ h2).
Proof.
intros [H1 H2 H3 H4 H5 H6 H7 H8 H9 H10 H11 H12 H13] Hstale.
assert (Hsub : ∀ y, y ∈ h1 ++ h2 → y ∈ h1 ++ (d, u) :: h2).
{ intros y. rewrite !elem_of_app, elem_of_cons. tauto. }
split; try done.
- intros d' v Hin. by apply H5, Hsub.
- intros v dv HvX Hdv. specialize (H7 v dv HvX Hdv).
rewrite elem_of_app, elem_of_cons in H7. rewrite elem_of_app.
destruct H7 as [?|[[= -> ->]|?]]; [by left| |by right].
destruct Hstale as [?|(du & Hdu & Hlt)]; [done|].
rewrite Hdv in Hdu. injection Hdu as <-. lra.
- intros d' v Hin. by apply H8, Hsub.
- intros x dx d' v HxX Hdx Hin. eapply H9; [done..|]. by apply Hsub.
Qed.

(** What is known about [prev] when the loop is left: following it from
any node runs through ever earlier settled nodes. *)
Record chain_ok (prev : prev_t) (X : list string) : Prop := {
chain_keys : ∀ v, is_Some (prev !! v) ↔ v ∈ N;
chain_nodup : NoDup X;
chain_nodes : ∀ x, x ∈ X → x ∈ N;
chain_prev : ∀ l1 x l2 p,
X = l1 ++ x :: l2 → prev !! x = Some (Some p) → p ∈ l2;
chain_settled : ∀ v p, prev !! v = Some (Some p) → p ∈ X
}.

Lemma inv_chain P X dist prev heap : inv P X dist prev heap → chain_ok prev X.
Proof. intros [H1 H2 H3 H4 H5 H6 H7 H8 H9 H10 H11 H12 H13]. by split. Qed.

(** The result of the loop: the entries the caller may rely on (all of
them without a target, the target's with one) are right. *)
Definition post (dist : dist_t) (prev : prev_t) : Prop :=
(∀ v, v ∈ N → target = None ∨ target = Some v →
 ∃ r, dist !! v = Some r ∧ shortest arc s v r) ∧
(∀ v, is_Some (dist !! v) ↔ v ∈ N) ∧
∃ X, chain_ok prev X.

Lemma post_empty X dist prev :
inv no_pending X dist prev [] → post dist prev.
Proof.
intros Hinv. split_and!; [|apply Hinv|exists X; by eapply inv_chain].
intros v HvN _. destruct (proj2 (inv_keys _ _ _ _ _ Hinv v) HvN) as [r Hr].
exists r. split; [done|]. destruct r as [dv|]; simpl.
- split; [by eapply inv_walk|].
destruct (decide (v ∈ X)) as [HvX|HvX].
+ destruct (inv_settled _ _ _ _ _ Hinv v HvX) as (dv' & Hdv' & Hopt & _).
  assert (dv' = dv) as -> by congruence. done.
+ pose proof (inv_frontier _ _ _ _ _ Hinv v dv HvX Hr) as Hin.
  by apply elem_of_nil in Hin.
- intros vs l Hw.
destruct (frontier _ _ _ _ Hinv vs v l Hw) as [[_ (dv & Hdv & _)]|(d & y & Hin & _)].
+ congruence.
+ by apply elem_of_nil in Hin.
Qed.

Lemma inv_settle X dist prev h1 d u h2 du l :
inv no_pending X dist prev (h1 ++ (d, u) :: h2) →
(∀ y, y ∈ h1 ++ (d, u) :: h2 → (d <= fst y)%Q) →
dist !! u = Some (Fin du) → (d <= du)%Q → u ∉ X →
(∀ v w, (v, w) ∈ l ↔ arc u v w) →
mid u d l (u :: X) dist prev (h1 ++ h2).
Proof.
intros Hinv Hmin Hdu Hle HuX Hl.
assert (Hin : (d, u) ∈ h1 ++ (d, u) :: h2).
{ apply elem_of_app. right. by left. }
destruct (inv_heap_dist _ _ _ _ _ Hinv d u Hin) as (du' & Hdu' & Hle').
assert (du' = du) as -> by congruence.
assert (Hopt : ∀ vs l0, walk arc s vs u l0 → (du <= l0)%Q).
{ intros vs l0 Hw.
destruct (frontier _ _ _ _ Hinv vs u l0 Hw) as [[? _]|(d' & y & Hy & Hle'')]; [done|].
pose proof (Hmin _ Hy). simpl in *. lra. }
assert (Hsub : ∀ y, y ∈ h1 ++ h2 → y ∈ h1 ++ (d, u) :: h2).
{ intros y. rewrite !elem_of_app, elem_of_cons. tauto. }
pose proof Hinv as [H1 H2 H3 H4 H5 H6 H7 H8 H9 H10 H11 H12 H13].
split; [split|..]; try done.
- intros d' v Hv. by apply H5, Hsub.
- intros x [->|HxX]%elem_of_cons.
+ exists du. split_and!; [done..|]. intros v w Ha. left. split; [done|]. by apply Hl.
+ destruct (H6 x HxX) as (dx & Hdx & Hoptx & Hclean).
  exists dx. split_and!; [done..|]. intros v w Ha.
  destruct (Hclean v w Ha) as [[]|?]. by right.
- intros v dv [Hvu HvX]%not_elem_of_cons Hdv.
specialize (H7 v dv HvX Hdv). rewrite elem_of_app, elem_of_cons in H7.
rewrite elem_of_app. destruct H7 as [?|[[= -> ->]|?]]; [by left|done|by right].
- intros d' v Hv. by apply H8, Hsub.
- intros x dx d' v [->|HxX]%elem_of_cons Hdx Hv.
+ assert (dx = du) as -> by congruence.
  pose proof (Hmin _ (Hsub _ Hv)). simpl in *. lra.
+ eapply H9; [done..|]. by apply Hsub.
- by constructor.
- intros x [->|HxX]%elem_of_cons; [|by apply H11].
apply H1. eauto.
- intros l1 x l2 p HX Hp. destruct l1 as [|y l1]; simpl in HX.
+ injection HX as -> ->. by eapply H13.
+ injection HX as -> ->. by eapply H12.
- intros v p Hp. right. by eapply H13.
- intros x dx [->|HxX]%elem_of_cons Hdx.
+ assert (dx = du) as -> by congruence. done.
+ by eapply H9.
- by eapply H5.
- exists du. split; [done|lra].
- by left.
- intros v w. apply Hl.
Qed.

Lemma deg_length u l : neighbors u = Ret l → deg u = length l.
Proof. unfold deg. by intros ->. Qed.

Lemma dijkstra_loop_ok fuel : ∀ X dist prev heap,
inv no_pending X dist prev heap →
(length heap + remaining X ≤ fuel)%nat →
∃ dist' prev',
dijkstra_loop neighbors target fuel dist prev heap = Some (Ret (dist', prev')) ∧
post dist' prev'.
Proof.
induction fuel as [|f IH]; intros X dist prev heap Hinv Hfuel.
- destruct heap as [|x heap]; [|simpl in Hfuel; lia].
simpl. exists dist, prev. split; [done|]. by eapply post_empty.
- pose proof (heappop_spec heap) as Hpop. cbn [dijkstra_loop].
destruct (heappop heap) as [[[d u] heap']|].
2:{ subst heap. exists dist, prev. split; [done|]. by eapply post_empty. }
destruct Hpop as [(h1 & h2 & -> & ->) Hmin].
assert (Hin : (d, u) ∈ h1 ++ (d, u) :: h2).
{ apply elem_of_app. right. by left. }
destruct (inv_heap_dist _ _ _ _ _ Hinv d u Hin) as (du & Hdu & Hle).
assert (HuN : u ∈ N) by (apply (inv_keys _ _ _ _ _ Hinv); eauto).
assert (Hlen : (length (h1 ++ (d, u) :: h2) = S (length (h1 ++ h2)))%nat).
{ rewrite !length_app. simpl. lia. }
unfold getitem at 1. rewrite Hdu.
destruct (ext_ltb (Fin du) (Fin d)) eqn:Hstale.
+ apply ext_ltb_Fin in Hstale.
  apply (IH X); [|lia].
  eapply inv_remove; [done|]. right. eauto.
+ apply ext_ltb_Fin_false in Hstale.
  destruct (decide (target = Some u)) as [Ht|Ht].
  * rewrite bool_decide_eq_true_2 by done.
    exists dist, prev. split; [done|].
    split_and!; [|apply Hinv|exists X; by eapply inv_chain].
    intros v HvN [Hnone|Hv]; [congruence|].
    assert (v = u) as -> by congruence.
    exists (Fin du). split; [done|]. simpl. split; [by eapply inv_walk|].
    destruct (decide (u ∈ X)) as [HuX|HuX].
    -- destruct (inv_settled _ _ _ _ _ Hinv u HuX) as (du' & Hdu' & Hopt & _).
       assert (du' = du) as -> by congruence. done.
    -- intros vs l Hw.
       destruct (frontier _ _ _ _ Hinv vs u l Hw) as [[? _]|(d' & y & Hy & Hle')]; [done|].
       pose proof (Hmin _ Hy). simpl in *. lra.
  * rewrite bool_decide_eq_false_2 by done.
    destruct (neighbors_ok u HuN) as (l & Hnbrs & Hl). rewrite Hnbrs.
    cbn [mbind py_bind].
    destruct (decide (u ∈ X)) as [HuX|HuX].
    -- rewrite (relax_noop u d du l X dist prev (h1 ++ h2)); [|..|done|done|by intros v w ?%Hl].
       ++ apply (IH X); [|lia]. eapply inv_remove; [done|by left].
       ++ eapply inv_remove; [done|by left].
       ++ done.
    -- destruct (relax_ok u d l (u :: X) dist prev (h1 ++ h2))
         as (dist' & prev' & heap' & -> & Hinv' & Hlen').
       { by eapply inv_settle. }
       apply (IH (u :: X)); [done|].
       rewrite (remaining_cons X u HuN HuX) in Hfuel.
       rewrite (deg_length u l Hnbrs) in Hfuel. lia.
Qed.

(** The state the routines start the loop in. *)
Lemma inv_init :
inv no_pending [] (<[s := Fin 0]> (dict_of Inf (elements N)))
  (dict_of None (elements N)) [(0%Q, s)].
Proof.
assert (Hk : ∀ {V} (x : V) v, is_Some (dict_of x (elements N) !! v) ↔ v ∈ N).
{ intros V x v. rewrite dict_of_lookup. case_decide as Hd.
- apply elem_of_elements in Hd. split; eauto.
- rewrite elem_of_elements in Hd. split; [by intros [? ?]|done]. }
assert (Hd : ∀ v x, <[s := Fin 0]> (dict_of Inf (elements N)) !! v = Some (Fin x) →
                  v = s ∧ x = 0%Q).
{ intros v x. rewrite lookup_insert. case_decide; [by intros [= <-]|].
rewrite dict_of_lookup. by case_decide. }
split.
- intros v. rewrite lookup_insert. case_decide; [subst; split; eauto|apply Hk].
- apply Hk.
- exists 0%Q. rewrite lookup_insert_eq. split; [done|lra].
- intros v x [-> ->]%Hd. exists [s]. constructor.
- intros d v [= -> ->]%list_elem_of_singleton. exists [s]. constructor.
- intros x Hx. by apply elem_of_nil in Hx.
- intros v dv _ [-> ->]%Hd. by left.
- intros d v [= -> ->]%list_elem_of_singleton. exists 0%Q.
rewrite lookup_insert_eq. split; [done|lra].
- intros x dx d v Hx. by apply elem_of_nil in Hx.
- constructor.
- intros x Hx. by apply elem_of_nil in Hx.
- intros l1 x l2 p HX. by destruct l1.
- intros v p. rewrite dict_of_lookup. by case_decide.
Qed.

Lemma remaining_nil_le : (remaining [] ≤ sum_list (deg <$> elements N))%nat.
Proof.
unfold remaining, remaining_in.
induction (elements N) as [|n ns IH]; [done|].
rewrite filter_cons. rewrite decide_True by apply not_elem_of_nil.
rewrite !fmap_cons. simpl. apply Nat.add_le_mono_l, IH.
Qed.

(** Following [prev] back from a node terminates. *)
Lemma walk_back_ok prev X :
chain_ok prev X →
∀ fuel l2 c l1 path,
X = l1 ++ c :: l2 → (length l2 < fuel)%nat →
∃ path', walk_back fuel prev (Some c) path = Some (Ret path').
Proof.
intros Hc. induction fuel as [|f IH]; intros l2 c l1 path HX Hfuel; [lia|].
cbn [walk_back].
assert (HcN : c ∈ N).
{ apply (chain_nodes _ _ Hc). rewrite HX. apply elem_of_app. right. by left. }
destruct (proj2 (chain_keys _ _ Hc c) HcN) as [p Hp].
unfold getitem. rewrite Hp. destruct p as [p|]; [|destruct f; simpl; eauto].
pose proof (chain_prev _ _ Hc l1 c l2 p HX Hp) as Hin.
apply list_elem_of_split in Hin as (k1 & k2 & ->).
apply (IH k2 p (l1 ++ c :: k1)).
- by rewrite HX, <- app_assoc.
- rewrite length_app in Hfuel. simpl in Hfuel. lia.
Qed.

Lemma walk_back_from prev X fuel t :
chain_ok prev X → t ∈ N → (size N < fuel)%nat →
∃ path, walk_back fuel prev (Some t) [] = Some (Ret path).
Proof.
intros Hc HtN Hfuel.
assert (HlenX : (length X ≤ size N)%nat).
{ rewrite <- (size_list_to_set (C := gset string) X) by apply Hc.
apply subseteq_size. intros x Hx%elem_of_list_to_set. by apply (chain_nodes _ _ Hc). }
destruct fuel as [|f]; [lia|]. cbn [walk_back].
destruct (proj2 (chain_keys _ _ Hc t) HtN) as [p Hp].
unfold getitem. rewrite Hp. destruct p as [p|]; [|destruct f; simpl; eauto].
pose proof (chain_settled _ _ Hc t p Hp) as Hin.
apply list_elem_of_split in Hin as (k1 & k2 & HX).
eapply (walk_back_ok prev X Hc f k2 p k1); [done|].
rewrite HX, length_app in HlenX. simpl in HlenX. lia.
Qed.
End dijkstra_correct.

(** *** The [Graph] class *)

(** The graphs the application can hold: [Graph()] followed by any
    number of [add_edge] calls. *)
Inductive built : Graph → Prop :=
| built_empty : built empty_graph
| built_add g u v w directed : built g → built (add_edge g u v w directed).

(** The arcs of a graph, read from [graph.edges]. *)
Definition arc_of (g : Graph) (u v : string) (w : Q) : Prop := (u, v, w) ∈ edges g.

Definition nonneg (g : Graph) : Prop := ∀ u v w, arc_of g u v w → (0 <= w)%Q.

(** [graph.adj.get(u, [])] *)
Definition adj_get (g : Graph) (u : string) : list (string * Q) :=
  default [] (adj g !! u).

Record graph_ok (g : Graph) : Prop := {
  ok_adj : ∀ u v w, (v, w) ∈ adj_get g u ↔ arc_of g u v w;
  ok_nodes : ∀ u v w, arc_of g u v w → u ∈ nodes_set g ∧ v ∈ nodes_set g
}.

Lemma adj_append_lookup a u v w u' :
  default [] (adj_append a u v w !! u')
  = if decide (u = u') then default [] (a !! u) ++ [(v, w)] else default [] (a !! u').
Proof.
  unfold adj_append. rewrite lookup_insert. by case_decide.
Qed.

Lemma add_arc_ok g u v w :
  graph_ok g →
  graph_ok {| adj := adj_append (adj g) u v w;
              nodes_set := {[v]} ∪ ({[u]} ∪ nodes_set g);
              edges := edges g ++ [(u, v, w)] |}.
Proof.
  intros [Hadj Hnodes]. split.
  - intros u' v' w'. unfold adj_get, arc_of in *. simpl.
    rewrite adj_append_lookup, elem_of_app, list_elem_of_singleton.
    rewrite <- (Hadj u' v' w'). case_decide as Hd.
    + subst u'. rewrite elem_of_app, list_elem_of_singleton.
      split; (intros [?|Heq]; [by left|right; congruence]).
    + split; [by left|]. intros [?|Heq]; [done|]. congruence.
  - intros u' v' w'. unfold arc_of. simpl.
    rewrite elem_of_app, list_elem_of_singleton.
    intros [Hin|[= -> -> ->]]; [|set_solver].
    destruct (Hnodes _ _ _ Hin). set_solver.
Qed.

Lemma built_ok g : built g → graph_ok g.
Proof.
  induction 1 as [|g u v w directed _ IH].
  - split.
    + intros u v w. unfold adj_get, arc_of. simpl. rewrite lookup_empty. simpl.
      split; intros Hin; by apply elem_of_nil in Hin.
    + intros u v w Hin. by apply elem_of_nil in Hin.
  - unfold add_edge. destruct directed; [by apply add_arc_ok|].
    pose proof (add_arc_ok _ v u w (add_arc_ok g u v w IH)) as [Hadj Hnodes].
    simpl in *. split.
    + exact Hadj.
    + intros u' v' w' Ha. destruct (Hnodes _ _ _ Ha) as [H1 H2]. simpl in *.
      split; set_solver.
Qed.

Lemma nodes_perm g : nodes g ≡ₚ elements (nodes_set g).
Proof. apply merge_sort_Permutation. Qed.

Lemma dict_of_perm {V} (x : V) l1 l2 : l1 ≡ₚ l2 → dict_of x l1 = dict_of x l2.
Proof.
  intros Hp. apply map_eq. intros k. rewrite !dict_of_lookup.
  destruct (decide (k ∈ l1)) as [H1|H1], (decide (k ∈ l2)) as [H2|H2]; try done.
  - by rewrite Hp in H1.
  - by rewrite <- Hp in H2.
Qed.

Lemma dict_of_nodes {V} (x : V) g :
  dict_of x (nodes g) = dict_of x (elements (nodes_set g)).
Proof. apply dict_of_perm, nodes_perm. Qed.

Lemma dict_of_dom {V} (x : V) (N : gset string) k :
  k ∈ dom (dict_of x (elements N)) ↔ k ∈ N.
Proof.
  rewrite elem_of_dom, dict_of_lookup. case_decide as Hd.
  - apply elem_of_elements in Hd. split; eauto.
  - rewrite elem_of_elements in Hd. split; [by intros [? ?]|done].
Qed.

(** Fuel that is enough for [dijkstra] on [g]: one round per item that
    can ever be pushed. *)
Definition fuel_bound (g : Graph) : nat :=
  S (sum_list ((λ u, length (adj_get g u)) <$> elements (nodes_set g))).

Definition reachable (g : Graph) (source v : string) : Prop :=
  ∃ vs l, walk (arc_of g) source vs v l.

Lemma shortest_inf_iff arc s v r :
  shortest arc s v r → (r = Inf ↔ ¬ ∃ vs l, walk arc s vs v l).
Proof.
  destruct r as [d|]; simpl.
  - intros [[vs Hw] _]. split; [done|]. intros Hno. destruct Hno. eauto.
  - intros Hno. split; [|done]. intros _ (vs & l & Hw). by eapply Hno.
Qed.

Lemma dijkstra_post g source fuel :
  built g → nonneg g → source ∈ nodes_set g → (fuel_bound g ≤ fuel)%nat →
  ∃ dist prev,
    dijkstra fuel g source = Some (Ret (dist, prev)) ∧
    ∀ v, (is_Some (dist !! v) ↔ v ∈ nodes_set g) ∧
         (v ∈ nodes_set g →
          ∃ r, dist !! v = Some r ∧ shortest (arc_of g) source v r).
Proof.
  intros Hb Hnn Hs Hfuel. pose proof (built_ok g Hb) as [Hadj Hnodes].
  unfold dijkstra. rewrite !dict_of_nodes.
  rewrite bool_decide_eq_true_2 by by apply dict_of_dom.
  set (nb := λ u, Ret (default [] (adj g !! u)) : py (list (string * Q))).
  assert (Hnb : ∀ u, u ∈ nodes_set g →
            ∃ l, nb u = Ret l ∧ ∀ v w, (v, w) ∈ l ↔ arc_of g u v w).
  { intros u _. exists (adj_get g u). split; [done|]. intros v w. apply Hadj. }
  destruct (dijkstra_loop_ok (nodes_set g) (arc_of g) nb None source Hnb Hnodes Hnn
              fuel [] _ _ _ (inv_init (nodes_set g) (arc_of g) source Hs))
    as (dist & prev & Hrun & Hpost & Hkeys & _).
  { pose proof (remaining_nil_le (nodes_set g) nb) as Hle.
    assert (Heq : sum_list (deg nb <$> elements (nodes_set g))
                  = sum_list ((λ u, length (adj_get g u)) <$> elements (nodes_set g)))
      by reflexivity.
    unfold fuel_bound in Hfuel. rewrite <- Heq in Hfuel.
    change (length [(0%Q, source)]) with 1%nat. lia. }
  exists dist, prev. split; [exact Hrun|].
  intros v. split; [apply Hkeys|]. intros Hv. apply Hpost; [done|by left].
Qed.


(** *** Bellman-Ford *)

Section bellman_ford_correct.
Variable N : gset string.
Variable es : list (string * string * Q).
Variable s : string.
Hypothesis Hs : s ∈ N.
Hypothesis es_nodes : ∀ u v w, (u, v, w) ∈ es → u ∈ N ∧ v ∈ N.
Hypothesis es_nonneg : ∀ u v w, (u, v, w) ∈ es → (0 <= w)%Q.

Definition arc_in (u v : string) (w : Q) : Prop := (u, v, w) ∈ es.

(** What holds of [dist] all along: its keys are the nodes, the source
is at distance 0 or less, and every finite entry is the length of a
walk. *)
Record bf_inv (dist : dist_t) : Prop := {
bf_keys : ∀ v, is_Some (dist !! v) ↔ v ∈ N;
bf_source : ∃ x, dist !! s = Some (Fin x) ∧ (x <= 0)%Q;
bf_walk : ∀ v x, dist !! v = Some (Fin x) → ∃ vs, walk arc_in s vs v x
}.

(** [dist'] is pointwise at most [dist]. *)
Definition below (dist' dist : dist_t) : Prop :=
∀ v x, dist !! v = Some (Fin x) → ∃ x', dist' !! v = Some (Fin x') ∧ (x' <= x)%Q.

(** Walks over at most [k] arcs are not shorter than the entries. *)
Definition bounded (k : nat) (dist : dist_t) : Prop :=
∀ vs v l, walk arc_in s vs v l → (length vs ≤ S k)%nat →
∃ x, dist !! v = Some (Fin x) ∧ (x <= l)%Q.

Definition closed (dist : dist_t) : Prop :=
∀ vs v l, walk arc_in s vs v l → ∃ x, dist !! v = Some (Fin x) ∧ (x <= l)%Q.

Lemma below_refl dist : below dist dist.
Proof. intros v x Hx. exists x. split; [done|lra]. Qed.

Lemma below_trans d1 d2 d3 : below d1 d2 → below d2 d3 → below d1 d3.
Proof.
intros H12 H23 v x Hx. destruct (H23 v x Hx) as (x2 & Hx2 & Hle2).
destruct (H12 v x2 Hx2) as (x1 & Hx1 & Hle1). exists x1. split; [done|lra].
Qed.

Lemma bf_sweep_ok l : ∀ dist prev updated,
bf_inv dist → (∀ u v w, (u, v, w) ∈ l → arc_in u v w) →
∃ dist' prev' updated',
bf_sweep l (dist, prev, updated) = Ret (dist', prev', updated') ∧
bf_inv dist' ∧ below dist' dist ∧
(∀ u v w x, (u, v, w) ∈ l → dist !! u = Some (Fin x) →
   ∃ y, dist' !! v = Some (Fin y) ∧ (y <= x + w)%Q) ∧
(updated' = false → dist' = dist ∧ updated = false).
Proof.
induction l as [|[[u v] w] rest IH]; intros dist prev updated Hinv Harcs.
- exists dist, prev, updated. split_and!; [done|done|apply below_refl| |done].
intros u v w x Hin. by apply elem_of_nil in Hin.
- assert (Harc : arc_in u v w) by (apply Harcs; by left).
assert (Hrest : ∀ u v w, (u, v, w) ∈ rest → arc_in u v w).
{ intros u' v' w' Hin. apply Harcs. by right. }
destruct (es_nodes _ _ _ Harc) as [HuN HvN].
pose proof (es_nonneg _ _ _ Harc) as Hw0.
destruct (proj2 (bf_keys _ Hinv u) HuN) as [du Hdu].
destruct (proj2 (bf_keys _ Hinv v) HvN) as [dv Hdv].
cbn [bf_sweep]. unfold getitem. rewrite Hdu. cbn [mbind py_bind].
destruct du as [x|].
2:{ destruct (IH dist prev updated Hinv Hrest)
      as (dist' & prev' & upd' & Hrun & Hinv' & Hbelow & Hrel & Hupd).
    exists dist', prev', upd'. split_and!; [done..| |done].
    intros u' v' w' x' [[= -> -> ->]|Hin]%elem_of_cons Hx'; [congruence|].
    by eapply Hrel. }
rewrite Hdv. cbn [mbind py_bind].
destruct (ext_ltb (Fin (x + w)) dv) eqn:Hlt.
+ assert (Hbelow0 : ∀ y, dv = Fin y → (x + w < y)%Q).
  { intros y ->. by apply ext_ltb_Fin in Hlt. }
  assert (Hinv1 : bf_inv (<[v := Fin (x + w)%Q]> dist)).
  { destruct Hinv as [Hk [x0 [Hx0 Hle0]] Hw]. split.
    - intros z. rewrite lookup_insert. case_decide; [subst; split; eauto|apply Hk].
    - destruct (decide (v = s)) as [->|Hne].
      + exists (x + w)%Q. rewrite lookup_insert_eq. split; [done|].
        rewrite Hx0 in Hdv. injection Hdv as <-. pose proof (Hbelow0 x0 eq_refl). lra.
      + exists x0. by rewrite lookup_insert_ne.
    - intros z y. rewrite lookup_insert. case_decide as Hd; [|apply Hw].
      intros [= <-]. subst z. destruct (Hw u x Hdu) as [vs Hvs].
      exists (vs ++ [v]). by econstructor. }
  assert (Hbelow1 : below (<[v := Fin (x + w)%Q]> dist) dist).
  { intros z y Hz. destruct (decide (v = z)) as [<-|Hne].
    - exists (x + w)%Q. rewrite lookup_insert_eq. split; [done|].
      rewrite Hdv in Hz. injection Hz as ->. pose proof (Hbelow0 y eq_refl). lra.
    - exists y. rewrite lookup_insert_ne by done. split; [done|lra]. }
  destruct (IH (<[v := Fin (x + w)%Q]> dist) (<[v := Some u]> prev) true Hinv1 Hrest)
    as (dist' & prev' & upd' & Hrun & Hinv' & Hbelow & Hrel & Hupd).
  exists dist', prev', upd'. split_and!; [done|done|by eapply below_trans| |].
  * intros u' v' w' x' [[= -> -> ->]|Hin]%elem_of_cons Hx'.
    -- assert (x' = x) as -> by congruence.
       destruct (Hbelow v (x + w)%Q) as (y & Hy & Hle); [by rewrite lookup_insert_eq|].
       eauto.
    -- destruct (Hbelow1 u' x' Hx') as (x1 & Hx1 & Hle1).
       destruct (Hrel u' v' w' x1 Hin Hx1) as (y & Hy & Hle).
       exists y. split; [done|lra].
  * intros Hf. by destruct (Hupd Hf).
+ assert (∃ y, dv = Fin y ∧ (y <= x + w)%Q) as (y & -> & Hle).
  { destruct dv as [y|]; [|done]. exists y. split; [done|].
    by apply ext_ltb_Fin_false in Hlt. }
  destruct (IH dist prev updated Hinv Hrest)
    as (dist' & prev' & upd' & Hrun & Hinv' & Hbelow & Hrel & Hupd).
  exists dist', prev', upd'. split_and!; [done..| |done].
  intros u' v' w' x' [[= -> -> ->]|Hin]%elem_of_cons Hx'; [|by eapply Hrel].
  assert (x' = x) as -> by congruence.
  destruct (Hbelow v y Hdv) as (y' & Hy' & Hle'). exists y'. split; [done|lra].
Qed.

Lemma bounded_below k dist dist' : bounded k dist → below dist' dist → bounded k dist'.
Proof.
intros Hb Hbelow vs v l Hw Hlen. destruct (Hb vs v l Hw Hlen) as (x & Hx & Hle).
destruct (Hbelow v x Hx) as (x' & Hx' & Hle'). exists x'. split; [done|lra].
Qed.

Lemma walk_length_pos vs v l : walk arc_in s vs v l → (1 ≤ length vs)%nat.
Proof. destruct 1; [simpl; lia|]. rewrite length_app. simpl. lia. Qed.

(** One sweep extends the bound by one arc. *)
Lemma sweep_bounded k dist dist' :
bf_inv dist' → bounded k dist → below dist' dist →
(∀ u v w x, (u, v, w) ∈ es → dist !! u = Some (Fin x) →
 ∃ y, dist' !! v = Some (Fin y) ∧ (y <= x + w)%Q) →
bounded (S k) dist'.
Proof.
intros Hinv Hb Hbelow Hrel vs v l Hw. destruct Hw as [|vs u v w l Hw Harc]; intros Hlen.
- destruct (bf_source _ Hinv) as (x & Hx & Hle). eauto.
- rewrite length_app in Hlen. simpl in Hlen.
destruct (Hb vs u l Hw) as (x & Hx & Hle); [lia|].
destruct (Hrel u v w x Harc Hx) as (y & Hy & Hle'). exists y. split; [done|lra].
Qed.

(** A sweep that changes nothing leaves every arc relaxed. *)
Lemma relaxed_closed dist :
bf_inv dist →
(∀ u v w x, (u, v, w) ∈ es → dist !! u = Some (Fin x) →
 ∃ y, dist !! v = Some (Fin y) ∧ (y <= x + w)%Q) →
closed dist.
Proof.
intros Hinv Hrel vs v l. induction 1 as [|vs u v w l Hw (x & Hx & Hle) Harc].
- destruct (bf_source _ Hinv) as (x & Hx & Hle). eauto.
- destruct (Hrel u v w x Harc Hx) as (y & Hy & Hle'). exists y. split; [done|lra].
Qed.

Lemma bf_rounds_ok k : ∀ j dist prev,
bf_inv dist → bounded j dist →
∃ dist' prev',
bf_rounds k es dist prev = Ret (dist', prev') ∧
bf_inv dist' ∧ (closed dist' ∨ bounded (j + k) dist').
Proof.
induction k as [|k IH]; intros j dist prev Hinv Hb.
- exists dist, prev. split_and!; [done..|]. right. by rewrite Nat.add_0_r.
- cbn [bf_rounds].
destruct (bf_sweep_ok es dist prev false Hinv)
  as (dist1 & prev1 & upd & -> & Hinv1 & Hbelow & Hrel & Hupd); [done|].
cbn [mbind py_bind]. destruct upd.
+ destruct (IH (S j) dist1 prev1 Hinv1) as (dist' & prev' & Hrun & Hinv' & Hres).
  { by eapply sweep_bounded. }
  exists dist', prev'. split_and!; [done..|].
  by replace (j + S k)%nat with (S j + k)%nat by lia.
+ destruct (Hupd eq_refl) as [-> _].
  exists dist, prev1. split_and!; [done..|]. left. by apply relaxed_closed.
Qed.

Lemma bounded_closed dist :
bounded (size N - 1) dist → closed dist.
Proof.
intros Hb vs v l Hw.
destruct (walk_simple arc_in s es_nonneg vs v l Hw) as (vs' & l' & Hw' & Hnd & Hle).
destruct (Hb vs' v l' Hw') as (x & Hx & Hle').
- assert (length vs' ≤ size N)%nat; [|lia].
rewrite <- (size_list_to_set (C := gset string) vs' Hnd).
apply subseteq_size. intros y Hy%elem_of_list_to_set.
eapply (walk_nodes arc_in s N); [done| |done..].
intros a b c Ha. by apply es_nodes in Ha as [_ ?].
- exists x. split; [done|lra].
Qed.

Lemma closed_shortest dist v :
bf_inv dist → closed dist → v ∈ N →
∃ r, dist !! v = Some r ∧ shortest arc_in s v r.
Proof.
intros Hinv Hc HvN. destruct (proj2 (bf_keys _ Hinv v) HvN) as [r Hr].
exists r. split; [done|]. destruct r as [x|]; simpl.
- split; [by eapply bf_walk|]. intros vs l Hw.
destruct (Hc vs v l Hw) as (y & Hy & Hle). congruence.
- intros vs l Hw. destruct (Hc vs v l Hw) as (y & Hy & _). congruence.
Qed.

Lemma bf_check_ok dist : ∀ l,
bf_inv dist → closed dist → (∀ u v w, (u, v, w) ∈ l → arc_in u v w) →
bf_check l dist = Ret false.
Proof.
intros l Hinv Hc. induction l as [|[[u v] w] rest IH]; intros Harcs; [done|].
assert (Harc : arc_in u v w) by (apply Harcs; by left).
assert (Hrest : ∀ u v w, (u, v, w) ∈ rest → arc_in u v w).
{ intros u' v' w' Hin. apply Harcs. by right. }
destruct (es_nodes _ _ _ Harc) as [HuN HvN].
destruct (proj2 (bf_keys _ Hinv u) HuN) as [du Hdu].
cbn [bf_check]. unfold getitem. rewrite Hdu. cbn [mbind py_bind].
destruct du as [x|]; [|by apply IH].
destruct (bf_walk _ Hinv u x Hdu) as [vs Hvs].
destruct (Hc (vs ++ [v]) v (x + w)%Q) as (y & Hy & Hle); [by econstructor|].
rewrite Hy. cbn [mbind py_bind].
assert (ext_ltb (Fin (x + w)) (Fin y) = false) as -> by by apply ext_ltb_Fin_false.
by apply IH.
Qed.

Lemma bf_init : bf_inv (<[s := Fin 0]> (dict_of Inf (elements N))) ∧
            bounded 0 (<[s := Fin 0]> (dict_of Inf (elements N))).
Proof.
split; [split|].
- intros v. rewrite lookup_insert. case_decide; [subst; split; eauto|].
rewrite dict_of_lookup. case_decide as Hd.
+ apply elem_of_elements in Hd. split; eauto.
+ rewrite elem_of_elements in Hd. split; [by intros [? ?]|done].
- exists 0%Q. rewrite lookup_insert_eq. split; [done|lra].
- intros v x. rewrite lookup_insert. case_decide as Heq.
+ intros [= <-]. rewrite <- Heq. exists [s]. constructor.
+ rewrite dict_of_lookup. by case_decide.
- intros vs v l Hw Hlen. destruct Hw as [|vs u v w l Hw Harc].
+ exists 0%Q. rewrite lookup_insert_eq. split; [done|lra].
+ pose proof (walk_length_pos _ _ _ Hw). rewrite length_app in Hlen. simpl in Hlen. lia.
Qed.
End bellman_ford_correct.

Lemma nodes_length g : length (nodes g) = size (nodes_set g).
Proof. by rewrite nodes_perm. Qed.

Lemma bellman_ford_post g source :
  built g → nonneg g → source ∈ nodes_set g →
  ∃ dist prev,
    bellman_ford g source = Ret (dist, prev, false) ∧
    ∀ v, v ∈ nodes_set g →
      ∃ r, dist !! v = Some r ∧ shortest (arc_of g) source v r.
Proof.
  intros Hb Hnn Hs. pose proof (built_ok g Hb) as [Hadj Hnodes].
  unfold bellman_ford. rewrite !dict_of_nodes, nodes_length.
  rewrite bool_decide_eq_true_2 by by apply dict_of_dom.
  destruct (bf_init (nodes_set g) (edges g) source Hs) as [Hinv0 Hb0].
  destruct (bf_rounds_ok (nodes_set g) (edges g) source Hnodes Hnn
              (size (nodes_set g) - 1) 0 _ (dict_of None (elements (nodes_set g))) Hinv0 Hb0)
    as (dist & prev & -> & Hinv & Hres).
  cbn [mbind py_bind].
  assert (Hclosed : closed (edges g) source dist).
  { destruct Hres as [?|Hbd]; [done|].
    by eapply (bounded_closed (nodes_set g) (edges g) source Hs Hnodes Hnn). }
  rewrite (bf_check_ok (nodes_set g) (edges g) source Hnodes dist (edges g) Hinv Hclosed)
    by done.
  cbn [mbind py_bind]. exists dist, prev. split; [done|].
  intros v Hv. by eapply (closed_shortest (nodes_set g) (edges g) source).
Qed.

(** *** The three routines on one undirected graph *)

(** The graph the comparison app holds after the undirected edges [E]
    have been entered. *)
Definition graph_of (E : list (string * string * Q)) : Graph :=
  fold_left (λ g e, add_edge g e.1.1 e.1.2 e.2 false) E empty_graph.

Definition uarc (E : list (string * string * Q)) (u v : string) (w : Q) : Prop :=
  (u, v, w) ∈ E ∨ (v, u, w) ∈ E.

Lemma fold_add_built E : ∀ g,
  built g → built (fold_left (λ g e, add_edge g e.1.1 e.1.2 e.2 false) E g).
Proof.
  induction E as [|e E IH]; intros g Hg; [done|]. cbn [fold_left]. apply IH. by constructor.
Qed.

Lemma fold_add_arcs E : ∀ g u v w,
  arc_of (fold_left (λ g e, add_edge g e.1.1 e.1.2 e.2 false) E g) u v w
  ↔ arc_of g u v w ∨ uarc E u v w.
Proof.
  induction E as [|[[a b] c] E IH]; intros g u v w.
  - simpl. unfold uarc. rewrite !elem_of_nil. tauto.
  - cbn [fold_left]. rewrite IH. unfold arc_of, uarc, add_edge. simpl.
    rewrite !elem_of_app, !list_elem_of_singleton, !elem_of_cons.
    split.
    + intros [[[?|[= -> -> ->]]|[= -> -> ->]]|[?|?]]; tauto.
    + intros [?|[[[= -> -> ->]|?]|[[= -> -> ->]|?]]]; tauto.
Qed.

Lemma graph_of_built E : built (graph_of E).
Proof. apply fold_add_built. constructor. Qed.

Lemma graph_of_arcs E u v w : arc_of (graph_of E) u v w ↔ uarc E u v w.
Proof.
  unfold graph_of. rewrite fold_add_arcs. unfold arc_of. simpl.
  rewrite elem_of_nil. tauto.
Qed.

Lemma walk_ext (arc arc' : string → string → Q → Prop) s vs v l :
  (∀ u v w, arc u v w → arc' u v w) → walk arc s vs v l → walk arc' s vs v l.
Proof.
  intros Hsub. induction 1; [constructor|]. econstructor; [done|]. by apply Hsub.
Qed.

Lemma shortest_ext (arc arc' : string → string → Q → Prop) s v r :
  (∀ u v w, arc u v w ↔ arc' u v w) → shortest arc s v r → shortest arc' s v r.
Proof.
  intros Heq. destruct r as [d|]; simpl.
  - intros [[vs Hw] Hmin]. split.
    + exists vs. eapply walk_ext; [|done]. intros. by apply Heq.
    + intros vs' l Hw'. eapply Hmin, walk_ext; [|done]. intros. by apply Heq.
  - intros Hno vs l Hw. eapply Hno, walk_ext; [|done]. intros. by apply Heq.
Qed.

Section path_finder.
Variable N : gset string.

Definition keyed {V} (m : gmap string V) : Prop := ∀ v, is_Some (m !! v) ↔ v ∈ N.

Lemma dict_of_keyed {V} (x : V) : keyed (dict_of x (elements N)).
Proof.
intros v. rewrite dict_of_lookup. case_decide as Hd.
- apply elem_of_elements in Hd. split; eauto.
- rewrite elem_of_elements in Hd. split; [by intros [? ?]|done].
Qed.

Lemma build_adjacency_ok E : ∀ g0,
keyed g0 → (∀ u v w, (u, v, w) ∈ E → u ∈ N ∧ v ∈ N) →
∃ g, build_adjacency g0 E = Ret g ∧ keyed g ∧
∀ u v w, (v, w) ∈ default [] (g !! u)
         ↔ (v, w) ∈ default [] (g0 !! u) ∨ uarc E u v w.
Proof.
induction E as [|[[a b] c] E IH]; intros g0 Hk HE.
- exists g0. split_and!; [done..|]. intros u v w. unfold uarc.
rewrite !elem_of_nil. tauto.
- destruct (HE a b c) as [Ha Hb]; [by left|].
destruct (proj2 (Hk a) Ha) as [la Hla].
cbn [build_adjacency]. unfold getitem. rewrite Hla. cbn [mbind py_bind].
set (g1 := <[a := la ++ [(b, c)]]> g0).
assert (Hk1 : keyed g1).
{ intros v. unfold g1. rewrite lookup_insert. case_decide; [subst; split; eauto|apply Hk]. }
destruct (proj2 (Hk1 b) Hb) as [lb Hlb].
rewrite Hlb. cbn [mbind py_bind].
set (g2 := <[b := lb ++ [(a, c)]]> g1).
assert (Hk2 : keyed g2).
{ intros v. unfold g2. rewrite lookup_insert. case_decide; [subst; split; eauto|apply Hk1]. }
destruct (IH g2 Hk2) as (g & Hrun & Hkg & Hg).
{ intros u v w Hin. apply (HE u v w). by right. }
exists g. split_and!; [done..|].
intros u v w. rewrite Hg. unfold uarc. rewrite !elem_of_cons.
assert (H2 : (v, w) ∈ default [] (g2 !! u)
             ↔ (v, w) ∈ default [] (g1 !! u) ∨ (u = b ∧ v = a ∧ w = c)).
{ unfold g2. rewrite lookup_insert. case_decide as Hd.
  - subst u. rewrite Hlb. simpl. rewrite elem_of_app, list_elem_of_singleton.
    split; (intros [?|Heq]; [by left|right]); [by injection Heq as -> ->|].
    by destruct Heq as (_ & -> & ->).
  - split; [by left|]. intros [?|[-> _]]; done. }
assert (H1 : (v, w) ∈ default [] (g1 !! u)
             ↔ (v, w) ∈ default [] (g0 !! u) ∨ (u = a ∧ v = b ∧ w = c)).
{ unfold g1. rewrite lookup_insert. case_decide as Hd.
  - subst u. rewrite Hla. simpl. rewrite elem_of_app, list_elem_of_singleton.
    split; (intros [?|Heq]; [by left|right]); [by injection Heq as -> ->|].
    by destruct Heq as (_ & -> & ->).
  - split; [by left|]. intros [?|[-> _]]; done. }
rewrite H2, H1. split.
+ intros [[[?|(-> & -> & ->)]|(-> & -> & ->)]|[?|?]]; tauto.
+ intros [?|[[[= -> -> ->]|?]|[[= -> -> ->]|?]]]; tauto.
Qed.

Lemma dijkstra_path_ok E source target :
(∀ u v w, (u, v, w) ∈ E → u ∈ N ∧ v ∈ N) →
(∀ u v w, (u, v, w) ∈ E → (0 <= w)%Q) →
source ∈ N → target ∈ N →
∃ n r, shortest (uarc E) source target r ∧
∀ fuel, (n ≤ fuel)%nat →
  match r with
  | Inf => dijkstra_path fuel N E source target = Some (Ret None)
  | Fin d =>
      ∃ path total,
        dijkstra_path fuel N E source target = Some (Ret (Some (path, total))) ∧
        (total == d)%Q
  end.
Proof.
intros HE Hnn Hs Ht.
destruct (build_adjacency_ok E (dict_of [] (elements N)) (dict_of_keyed []) HE)
as (g & Hbuild & Hkg & Hg).
assert (Hnb : ∀ u, u ∈ N →
        ∃ l, getitem g u = Ret l ∧ ∀ v w, (v, w) ∈ l ↔ uarc E u v w).
{ intros u Hu. destruct (proj2 (Hkg u) Hu) as [l Hl]. exists l.
unfold getitem. rewrite Hl. split; [done|]. intros v w.
specialize (Hg u v w). rewrite Hl in Hg. simpl in Hg. rewrite Hg.
rewrite dict_of_lookup. case_decide; simpl; rewrite elem_of_nil; tauto. }
assert (Hnodes : ∀ u v w, uarc E u v w → u ∈ N ∧ v ∈ N).
{ intros u v w [Hin|Hin]; destruct (HE _ _ _ Hin); done. }
assert (Hnn' : ∀ u v w, uarc E u v w → (0 <= w)%Q).
{ intros u v w [Hin|Hin]; by eapply Hnn. }
set (n := (S (size N) + S (sum_list (deg (getitem g) <$> elements N)))%nat).
assert (Hloop : ∀ fuel, (n ≤ fuel)%nat →
∃ dist prev,
  dijkstra_loop (getitem g) (Some target) fuel
    (<[source := Fin 0]> (dict_of Inf (elements N)))
    (dict_of None (elements N)) [(0%Q, source)] = Some (Ret (dist, prev)) ∧
  post N (uarc E) (Some target) source dist prev).
{ intros fuel Hfuel.
apply (dijkstra_loop_ok N (uarc E) (getitem g) (Some target) source Hnb Hnodes Hnn' fuel []).
- by apply inv_init.
- pose proof (remaining_nil_le N (getitem g)).
  change (length [(0%Q, source)]) with 1%nat. unfold n in Hfuel. lia. }
destruct (Hloop n (le_n _)) as (dist0 & prev0 & _ & Hpost0 & _ & _).
destruct (Hpost0 target Ht (or_intror eq_refl)) as (r & _ & Hshort).
exists n, r. split; [done|]. intros fuel Hfuel.
destruct (Hloop fuel Hfuel) as (dist & prev & Hrun & Hpost & Hkeys & X & Hchain).
destruct (Hpost target Ht (or_intror eq_refl)) as (r' & Hr' & Hshort').
unfold dijkstra_path.
rewrite !bool_decide_eq_true_2 by done. simpl negb. cbn [orb].
rewrite Hbuild, Hrun. unfold getitem. rewrite Hr'.
pose proof (shortest_unique _ _ _ _ _ Hshort Hshort') as Heq.
destruct r as [d|], r' as [d'|]; simpl in Heq; [|done|done|reflexivity].
destruct (walk_back_from N prev X fuel target Hchain Ht) as [path Hpath].
{ unfold n in Hfuel. lia. }
rewrite Hpath. exists (reverse path), d'. split; [done|]. by symmetry.
Qed.
End path_finder.

(** C2 (confirmed).  On every undirected graph with non-negative weights
    and for every source and target node, the heap-based [dijkstra], 
    [bellman_ford] (which reports no negative cycle) and the path finder
    return, and they give the same distance from the source to the
    target: the two [dist] entries are equal, and the path finder answers
    [(None, None)] when they are [math.inf] and a path with that total
    otherwise. *)
Theorem shortest_paths_agree (E : list (string * string * Q)) (source target : string) :
  (∀ u v w, (u, v, w) ∈ E → (0 <= w)%Q) →
  source ∈ nodes_set (graph_of E) → target ∈ nodes_set (graph_of E) →
  ∃ n, ∀ fuel, (n ≤ fuel)%nat →
    ∃ dist1 prev1 dist2 prev2 r1 r2,
      dijkstra fuel (graph_of E) source = Some (Ret (dist1, prev1)) ∧
      bellman_ford (graph_of E) source = Ret (dist2, prev2, false) ∧
      dist1 !! target = Some r1 ∧ dist2 !! target = Some r2 ∧
      ext_eq r1 r2 ∧
      match r1 with
      | Inf =>
          dijkstra_path fuel (nodes_set (graph_of E)) E source target = Some (Ret None)
      | Fin d =>
          ∃ path total,
            dijkstra_path fuel (nodes_set (graph_of E)) E source target
              = Some (Ret (Some (path, total))) ∧
            (total == d)%Q
      end.
Proof.
  intros Hnn Hs Ht.
  pose proof (graph_of_built E) as Hb.
  pose proof (built_ok _ Hb) as [Hadj Hnodes].
  assert (Hnn1 : nonneg (graph_of E)).
  { intros u v w [Hin|Hin]%graph_of_arcs; by eapply Hnn. }
  assert (HE : ∀ u v w, (u, v, w) ∈ E →
            u ∈ nodes_set (graph_of E) ∧ v ∈ nodes_set (graph_of E)).
  { intros u v w Hin. apply (Hnodes u v w), graph_of_arcs. by left. }
  destruct (dijkstra_path_ok (nodes_set (graph_of E)) E source target HE Hnn Hs Ht)
    as (n3 & r3 & Hshort3 & Hpath).
  destruct (bellman_ford_post (graph_of E) source Hb Hnn1 Hs) as (dist2 & prev2 & Hbf & Hpost2).
  destruct (Hpost2 target Ht) as (r2 & Hr2 & Hshort2).
  exists (fuel_bound (graph_of E) + n3)%nat. intros fuel Hfuel.
  destruct (dijkstra_post (graph_of E) source fuel Hb Hnn1 Hs) as (dist1 & prev1 & Hd1 & Hpost1);
    [lia|].
  destruct (proj2 (Hpost1 target) Ht) as (r1 & Hr1 & Hshort1).
  exists dist1, prev1, dist2, prev2, r1, r2. split_and!; [done..| |].
  - by eapply shortest_unique.
  - assert (Hshort3' : shortest (arc_of (graph_of E)) source target r3).
    { eapply shortest_ext; [|exact Hshort3]. intros. symmetry. apply graph_of_arcs. }
    pose proof (shortest_unique _ _ _ _ _ Hshort1 Hshort3') as Heq.
    specialize (Hpath fuel ltac:(lia)).
    destruct r1 as [d1|], r3 as [d3|]; simpl in Heq; try done.
    destruct Hpath as (path & total & Hrun & Htot).
    exists path, total. split; [done|]. lra.
Qed.

(** A triangle with a pendant edge and one more component. *)
Definition sample_edges : list (string * string * Q) :=
  [("a", "b", 1%Q); ("b", "c", 2%Q); ("a", "c", 5%Q); ("d", "e", 1%Q)].

Example sample_dijkstra :
  (match dijkstra 20 (graph_of sample_edges) "a" with
   | Some (Ret (dist, _)) => (dist !! "c", dist !! "e")
   | _ => (None, None)
   end) = (Some (Fin 3), Some Inf).
Proof. vm_compute. reflexivity. Qed.

Example sample_bellman_ford :
  (match bellman_ford (graph_of sample_edges) "a" with
   | Ret (dist, _, negative_cycle) => (dist !! "c", dist !! "e", negative_cycle)
   | _ => (None, None, true)
   end) = (Some (Fin 3), Some Inf, false).
Proof. vm_compute. reflexivity. Qed.

Example sample_path :
  dijkstra_path 20 (nodes_set (graph_of sample_edges)) sample_edges "a" "c"
  = Some (Ret (Some (["a"; "b"; "c"], 3%Q))) ∧
  dijkstra_path 20 (nodes_set (graph_of sample_edges)) sample_edges "a" "e"
  = Some (Ret None).
Proof. split; vm_compute; reflexivity. Qed.

Lemma sample_nonneg u v w : (u, v, w) ∈ sample_edges → (0 <= w)%Q.
Proof.
  unfold sample_edges. rewrite !elem_of_cons, elem_of_nil.
  intros [[= -> -> ->]|[[= -> -> ->]|[[= -> -> ->]|[[= -> -> ->]|[]]]]]; by vm_compute.
Qed.


Lemma shortest_paths_agree_witness :
  ∃ n, ∀ fuel, (n ≤ fuel)%nat →
    ∃ dist1 prev1 dist2 prev2 r1 r2,
      dijkstra fuel (graph_of sample_edges) "a" = Some (Ret (dist1, prev1)) ∧
      bellman_ford (graph_of sample_edges) "a" = Ret (dist2, prev2, false) ∧
      dist1 !! "c" = Some r1 ∧ dist2 !! "c" = Some r2 ∧
      ext_eq r1 r2 ∧
      match r1 with
      | Inf =>
          dijkstra_path fuel (nodes_set (graph_of sample_edges)) sample_edges "a" "c"
          = Some (Ret None)
      | Fin d =>
          ∃ path total,
            dijkstra_path fuel (nodes_set (graph_of sample_edges)) sample_edges "a" "c"
              = Some (Ret (Some (path, total))) ∧
            (total == d)%Q
      end.
Proof.
  apply (shortest_paths_agree sample_edges "a" "c").
  - apply sample_nonneg.
  - apply (bool_decide_unpack _). vm_compute. exact I.
  - apply (bool_decide_unpack _). vm_compute. exact I.
Defined.

(** *** Predecessors and the paths read off them *)

(** [reconstruct_path(prev, target)]: [None] when the target is no key,
    else the nodes met while following [prev], first one last. *)
Definition reconstruct_path (fuel : nat) (prev : prev_t) (target : string)
  : option (py (option (list string))) :=
  match prev !! target with
  | None => Some (Ret None)
  | Some _ =>
      match walk_back fuel prev (Some target) [] with
      | None => None
      | Some (Raise e) => Some (Raise e)
      | Some (Ret path) => Some (Ret (Some (reverse path)))
      end
  end.

(** [has_negative_edge] *)
Definition has_negative_edge (g : Graph) : bool :=
  existsb (λ e, negb (Qle_bool 0 e.2)) (edges g).

(** [n] steps along [prev] from [c]. *)
Fixpoint follow (n : nat) (prev : prev_t) (c : string) : option string :=
  match n with
  | O => Some c
  | S n' =>
      match prev !! c with
      | Some (Some p) => follow n' prev p
      | _ => None
      end
  end.

Lemma follow_add prev n m : ∀ c,
  follow (n + m) prev c = follow n prev c ≫= follow m prev.
Proof.
  induction n as [|n IH]; intros c; [done|]. cbn [Nat.add follow].
  destruct (prev !! c) as [[p|]|]; [apply IH|done..].
Qed.

Lemma follow_prefix prev n m c :
  is_Some (follow (n + m) prev c) → is_Some (follow n prev c).
Proof. rewrite follow_add. destruct (follow n prev c); [eauto|by intros [? ?]]. Qed.

Lemma follow_cycle prev c k :
  follow (S k) prev c = Some c → ∀ j, is_Some (follow j prev c).
Proof.
  intros Hcyc j. induction (lt_wf j) as [j _ IH].
  destruct (decide (j ≤ S k)%nat) as [Hle|Hgt].
  - apply (follow_prefix prev j (S k - j)). replace (j + (S k - j))%nat with (S k) by lia.
    rewrite Hcyc. eauto.
  - replace j with (S k + (j - S k))%nat by lia. rewrite follow_add, Hcyc.
    apply IH. lia.
Qed.

Lemma walk_back_forever prev : ∀ fuel c path,
  (∀ j, is_Some (follow j prev c)) → walk_back fuel prev (Some c) path = None.
Proof.
  induction fuel as [|f IH]; intros c path Hall; [done|]. cbn [walk_back].
  pose proof (Hall 1%nat) as H1. cbn [follow] in H1. unfold getitem.
  destruct (prev !! c) as [[p|]|] eqn:Hc; [|by destruct H1..].
  apply IH. intros j. specialize (Hall (S j)). cbn [follow] in Hall. by rewrite Hc in Hall.
Qed.

(** The edges the comparison window starts with. *)
Definition start_edges : list (string * string * Q) :=
  [("A", "B", 4); ("A", "C", 2); ("B", "C", -3); ("B", "D", 2); ("C", "D", 4)]%Q.

(** The graph after the directed edges [E] have been entered. *)
Definition digraph_of (E : list (string * string * Q)) : Graph :=
  fold_left (λ g e, add_edge g e.1.1 e.1.2 e.2 true) E empty_graph.

Lemma digraph_of_built E : built (digraph_of E).
Proof.
  unfold digraph_of. generalize empty_graph built_empty.
  induction E as [|e E IH]; intros g Hg; [done|]. cbn [fold_left]. apply IH. by constructor.
Qed.

Section bf_paths.
Variable N : gset string.
Variable es : list (string * string * Q).
Variable s : string.
Hypothesis Hs : s ∈ N.
Hypothesis es_nodes : ∀ u v w, (u, v, w) ∈ es → u ∈ N ∧ v ∈ N.

(** No cycle of negative length can be reached from the source. *)
Definition no_negative_cycle : Prop :=
  ∀ vs v l vs' l',
    walk (arc_in es) s vs v l → walk (arc_in es) v vs' v l' → (0 <= l')%Q.

(** The predecessors of a node back to the source, over arcs that stay
    relaxed: the nodes from the source on, and the length. *)
Inductive chain (dist : dist_t) (prev : prev_t) : string → list string → Q → Prop :=
| chain_root : prev !! s = Some None → chain dist prev s [s] 0
| chain_step v u w x y vs l :
    prev !! v = Some (Some u) → arc_in es u v w →
    dist !! u = Some (Fin x) → dist !! v = Some (Fin y) → (x + w <= y)%Q →
    chain dist prev u vs l → chain dist prev v (vs ++ [v]) (l + w).

(** What holds of [dist] and [prev] together all along. *)
Record paths_inv (dist : dist_t) (prev : prev_t) : Prop := {
  pi_dist : bf_inv N es s dist;
  pi_keys : ∀ v, is_Some (prev !! v) ↔ v ∈ N;
  pi_none : ∀ v, dist !! v = Some Inf → prev !! v = Some None;
  pi_chain : no_negative_cycle →
             ∀ v x, dist !! v = Some (Fin x) → ∃ vs l, chain dist prev v vs l
}.

Lemma chain_end dist prev v vs l : chain dist prev v vs l → v ∈ vs.
Proof. destruct 1; [by left|]. apply elem_of_app. right. by left. Qed.

Lemma chain_walk dist prev v vs l : chain dist prev v vs l → walk (arc_in es) s vs v l.
Proof. induction 1; [constructor|]. by econstructor. Qed.

(** The length of a chain is at most the difference of the entries at
    its ends. *)
Lemma chain_length dist prev v vs l :
  bf_inv N es s dist → chain dist prev v vs l →
  ∃ a b, dist !! s = Some (Fin a) ∧ dist !! v = Some (Fin b) ∧ (a + l <= b)%Q.
Proof.
  intros Hinv. induction 1 as [Hroot|v u w x y vs l Hp Harc Hu Hv Hle Hc (a & b & Ha & Hb & IH)].
  - destruct (bf_source _ _ _ _ Hinv) as (a & Ha & _). exists a, a. split_and!; [done..|lra].
  - exists a, y. split_and!; [done..|]. rewrite Hu in Hb. injection Hb as <-. lra.
Qed.

(** From a node on the chain of [u] to [u]. *)
Lemma chain_tail dist prev u vs l v :
  bf_inv N es s dist → chain dist prev u vs l → v ∈ vs →
  ∃ vs' W a b, walk (arc_in es) v vs' u W ∧
               dist !! v = Some (Fin a) ∧ dist !! u = Some (Fin b) ∧ (a + W <= b)%Q.
Proof.
  intros Hinv. induction 1 as [Hroot|u p w x y vs l Hp Harc Hx Hy Hle Hc IH]; intros Hin.
  - apply list_elem_of_singleton in Hin as ->.
    destruct (bf_source _ _ _ _ Hinv) as (a & Ha & _).
    exists [s], 0%Q, a, a. split_and!; [constructor|done..|lra].
  - destruct (decide (v = u)) as [->|Hne].
    + exists [u], 0%Q, y, y. split_and!; [constructor|done..|lra].
    + apply elem_of_app in Hin as [Hin|Hin%list_elem_of_singleton]; [|done].
      destruct (IH Hin) as (vs' & W & a & b & Hw & Ha & Hb & Hab).
      exists (vs' ++ [u]), (W + w)%Q, a, y. split_and!; [by econstructor|done..|].
      rewrite Hx in Hb. injection Hb as <-. lra.
Qed.

Section update.
Variable dist : dist_t.
Variable prev : prev_t.
Variable u v : string.
Variable w x : Q.
Variable dv : ext.
Hypothesis Hinv : paths_inv dist prev.
Hypothesis Harc : arc_in es u v w.
Hypothesis Hdu : dist !! u = Some (Fin x).
Hypothesis Hdv : dist !! v = Some dv.
Hypothesis Hlt : ext_ltb (Fin (x + w)) dv = true.

Lemma update_below y : dv = Fin y → (x + w < y)%Q.
Proof. intros ->. by apply ext_ltb_Fin in Hlt. Qed.

Lemma update_dist : bf_inv N es s (<[v := Fin (x + w)%Q]> dist).
Proof.
  destruct (pi_dist _ _ Hinv) as [Hk [x0 [Hx0 Hle0]] Hw]. split.
  - intros z. rewrite lookup_insert. case_decide; [subst; split; eauto|apply Hk].
    intros _. by apply (es_nodes u z w).
  - destruct (decide (v = s)) as [Heq|Hne].
    + exists (x + w)%Q. rewrite Heq, lookup_insert_eq. split; [done|].
      assert (dv = Fin x0) as Hx by (rewrite Heq in Hdv; congruence).
      pose proof (update_below x0 Hx). lra.
    + exists x0. by rewrite lookup_insert_ne.
  - intros z y. rewrite lookup_insert. case_decide as Hd; [|apply Hw].
    intros [= <-]. subst z. destruct (Hw u x Hdu) as [vs Hvs].
    exists (vs ++ [v]). by econstructor.
Qed.

(** A chain that does not pass [v] is not touched. *)
Lemma chain_frame z vs l :
  chain dist prev z vs l → v ∉ vs →
  chain (<[v := Fin (x + w)%Q]> dist) (<[v := Some u]> prev) z vs l.
Proof.
  induction 1 as [Hroot|z p w0 a b vs l Hp Ha0 Ha Hb Hle Hc IH]; intros Hv.
  - apply chain_root. rewrite lookup_insert_ne; [done|]. intros ->. apply Hv. by left.
  - assert (Hvz : v ≠ z) by (intros ->; apply Hv, elem_of_app; right; by left).
    assert (Hvs : v ∉ vs) by (intros ?; apply Hv, elem_of_app; by left).
    assert (Hvp : v ≠ p) by (intros ->; apply Hvs; by apply (chain_end _ _ _ _ _ Hc)).
    apply (chain_step _ _ z p w0 a b); rewrite ?lookup_insert_ne by done; auto.
Qed.

(** With the new chain of [v] at hand every chain can be redone. *)
Lemma chain_update vs0 l0 z vs l :
  chain (<[v := Fin (x + w)%Q]> dist) (<[v := Some u]> prev) v vs0 l0 →
  chain dist prev z vs l →
  ∃ vs' l', chain (<[v := Fin (x + w)%Q]> dist) (<[v := Some u]> prev) z vs' l'.
Proof.
  intros Hnew. induction 1 as [Hroot|z p w0 a b vs l Hp Ha0 Ha Hb Hle Hc (vs' & l' & IH)].
  - destruct (decide (s = v)) as [->|Hne]; [eauto|].
    exists [s], 0%Q. apply chain_root. by rewrite lookup_insert_ne.
  - destruct (decide (z = v)) as [->|Hne]; [eauto|].
    destruct (decide (p = v)) as [->|Hpv].
    + exists (vs' ++ [z]), (l' + w0)%Q.
      apply (chain_step _ _ z v w0 (x + w) b); rewrite ?lookup_insert_eq;
        rewrite ?lookup_insert_ne by done; try done.
      assert (dv = Fin a) as Hx by congruence. pose proof (update_below a Hx). lra.
    + exists (vs' ++ [z]), (l' + w0)%Q.
      apply (chain_step _ _ z p w0 a b); rewrite ?lookup_insert_ne by done; done.
Qed.

Lemma update_inv : paths_inv (<[v := Fin (x + w)%Q]> dist) (<[v := Some u]> prev).
Proof.
  pose proof (pi_dist _ _ Hinv) as Hbf. split.
  - apply update_dist.
  - intros z. rewrite lookup_insert. case_decide; [subst; split; eauto|apply Hinv].
    intros _. by apply (es_nodes u z w).
  - intros z. rewrite !lookup_insert. case_decide; [done|apply Hinv].
  - intros Hno.
    assert (Hnew : ∃ vs l, chain (<[v := Fin (x + w)%Q]> dist) (<[v := Some u]> prev) v vs l).
    { destruct (pi_chain _ _ Hinv Hno u x Hdu) as (vs & l & Hc).
      destruct (decide (v ∈ vs)) as [Hin|Hout].
      - exfalso.
        destruct (chain_tail dist prev u vs l v Hbf Hc Hin)
          as (vs' & W & a & b & Hw & Ha & Hb & Hab).
        assert (b = x) as -> by congruence.
        assert (dv = Fin a) as Hx by congruence. pose proof (update_below a Hx).
        destruct (bf_walk _ _ _ _ Hbf v a Ha) as [vs0 Hvs0].
        assert (0 <= W + w)%Q; [|lra].
        apply (Hno vs0 v a (vs' ++ [v]) (W + w)%Q Hvs0). by econstructor.
      - assert (u ≠ v) by (intros ->; apply Hout; by apply (chain_end _ _ _ _ _ Hc)).
        exists (vs ++ [v]), (l + w)%Q.
        apply (chain_step _ _ v u w x (x + w)); rewrite ?lookup_insert_eq;
          rewrite ?lookup_insert_ne by done; try done; [lra|].
        by apply chain_frame. }
    destruct Hnew as (vs0 & l0 & Hnew).
    intros z y. rewrite lookup_insert. case_decide as Hz; [subst z; eauto|].
    intros Hy. destruct (pi_chain _ _ Hinv Hno z y Hy) as (vs & l & Hc).
    by apply (chain_update vs0 l0 z vs l).
Qed.
End update.

Lemma bf_sweep_paths l : ∀ dist prev updated,
  paths_inv dist prev → (∀ u v w, (u, v, w) ∈ l → arc_in es u v w) →
  ∃ dist' prev' updated',
    bf_sweep l (dist, prev, updated) = Ret (dist', prev', updated') ∧
    paths_inv dist' prev'.
Proof.
  induction l as [|[[u v] w] rest IH]; intros dist prev updated Hinv Harcs.
  - by exists dist, prev, updated.
  - assert (Harc : arc_in es u v w) by (apply Harcs; by left).
    assert (Hrest : ∀ u v w, (u, v, w) ∈ rest → arc_in es u v w).
    { intros u' v' w' Hin. apply Harcs. by right. }
    destruct (es_nodes _ _ _ Harc) as [HuN HvN].
    destruct (proj2 (bf_keys _ _ _ _ (pi_dist _ _ Hinv) u) HuN) as [du Hdu].
    destruct (proj2 (bf_keys _ _ _ _ (pi_dist _ _ Hinv) v) HvN) as [dv Hdv].
    cbn [bf_sweep]. unfold getitem. rewrite Hdu. cbn [mbind py_bind].
    destruct du as [x|]; [|by apply IH].
    rewrite Hdv. cbn [mbind py_bind].
    destruct (ext_ltb (Fin (x + w)) dv) eqn:Hlt; [|by apply IH].
    apply IH; [|done]. by apply (update_inv dist prev u v w x dv).
Qed.

Lemma bf_rounds_paths k : ∀ dist prev,
  paths_inv dist prev →
  ∃ dist' prev', bf_rounds k es dist prev = Ret (dist', prev') ∧ paths_inv dist' prev'.
Proof.
  induction k as [|k IH]; intros dist prev Hinv; [by exists dist, prev|].
  cbn [bf_rounds].
  destruct (bf_sweep_paths es dist prev false Hinv) as (dist1 & prev1 & upd & -> & Hinv1);
    [done|].
  cbn [mbind py_bind]. destruct upd; [by apply IH|by exists dist1, prev1].
Qed.

(** The check returns, and it answers [False] only when no arc can be
    relaxed any more. *)
Lemma bf_check_paths dist : ∀ l,
  bf_inv N es s dist → (∀ u v w, (u, v, w) ∈ l → arc_in es u v w) →
  ∃ flag, bf_check l dist = Ret flag ∧
    (flag = false →
     ∀ u v w x, (u, v, w) ∈ l → dist !! u = Some (Fin x) →
       ∃ y, dist !! v = Some (Fin y) ∧ (y <= x + w)%Q).
Proof.
  intros l Hinv. induction l as [|[[u v] w] rest IH]; intros Harcs.
  - exists false. split; [done|]. intros _ u v w x Hin. by apply elem_of_nil in Hin.
  - assert (Harc : arc_in es u v w) by (apply Harcs; by left).
    assert (Hrest : ∀ u v w, (u, v, w) ∈ rest → arc_in es u v w).
    { intros u' v' w' Hin. apply Harcs. by right. }
    destruct (es_nodes _ _ _ Harc) as [HuN HvN].
    destruct (proj2 (bf_keys _ _ _ _ Hinv u) HuN) as [du Hdu].
    destruct (proj2 (bf_keys _ _ _ _ Hinv v) HvN) as [dv Hdv].
    destruct (IH Hrest) as (flag & Hrun & Hflag).
    cbn [bf_check]. unfold getitem. rewrite Hdu. cbn [mbind py_bind].
    destruct du as [x|].
    + rewrite Hdv. cbn [mbind py_bind].
      destruct (ext_ltb (Fin (x + w)) dv) eqn:Hlt; [by exists true|].
      exists flag. split; [done|]. intros Hf u' v' w' x' [[= -> -> ->]|Hin]%elem_of_cons Hx'.
      * assert (x' = x) as -> by congruence. destruct dv as [y|]; [|done].
        exists y. split; [done|]. by apply ext_ltb_Fin_false in Hlt.
      * by apply (Hflag Hf u' v' w' x').
    + exists flag. split; [done|]. intros Hf u' v' w' x' [[= -> -> ->]|Hin]%elem_of_cons Hx'.
      * congruence.
      * by apply (Hflag Hf u' v' w' x').
Qed.

(** Entries that no arc can lower leave no room for a negative cycle. *)
Lemma closed_no_negative_cycle dist :
  bf_inv N es s dist → closed es s dist → no_negative_cycle.
Proof.
  intros Hinv Hc vs v l vs' l' Hw Hcyc.
  destruct (Hc vs v l Hw) as (x & Hx & _).
  assert (Hpot : ∀ z vs' l', walk (arc_in es) v vs' z l' →
            ∃ y, dist !! z = Some (Fin y) ∧ (y <= x + l')%Q).
  { clear vs' l' Hcyc. intros z vs' l'.
    induction 1 as [|vs' z0 z w0 l0 Hw0 (y0 & Hy0 & Hle0) Harc].
    - exists x. split; [done|lra].
    - destruct (bf_walk _ _ _ _ Hinv z0 y0 Hy0) as [vs0 Hvs0].
      destruct (Hc (vs0 ++ [z]) z (y0 + w0)%Q) as (y & Hy & Hle); [by econstructor|].
      exists y. split; [done|lra]. }
  destruct (Hpot v vs' l' Hcyc) as (y & Hy & Hle). rewrite Hx in Hy. injection Hy as <-. lra.
Qed.

Lemma chain_walk_back dist prev v vs l :
  chain dist prev v vs l →
  ∀ fuel path, (length vs < fuel)%nat →
    walk_back fuel prev (Some v) path = Some (Ret (path ++ reverse vs)).
Proof.
  induction 1 as [Hroot|v u w x y vs l Hp Harc Hu Hv Hle Hc IH]; intros fuel path Hfuel.
  - destruct fuel as [|f]; [cbn in Hfuel; lia|]. cbn [walk_back]. unfold getitem.
    rewrite Hroot. by destruct f.
  - rewrite length_app in Hfuel. cbn [length] in Hfuel.
    destruct fuel as [|f]; [lia|]. cbn [walk_back]. unfold getitem. rewrite Hp.
    rewrite IH by lia. by rewrite reverse_app, <- app_assoc.
Qed.

Lemma paths_final dist prev v :
  paths_inv dist prev → closed es s dist → v ∈ N →
  ∃ r path,
    dist !! v = Some r ∧ shortest (arc_in es) s v r ∧
    (∀ fuel, (length path < fuel)%nat →
       reconstruct_path fuel prev v = Some (Ret (Some path))) ∧
    match r with
    | Fin d => ∃ l, walk (arc_in es) s path v l ∧ (l == d)%Q
    | Inf => path = [v]
    end.
Proof.
  intros Hinv Hc HvN. pose proof (pi_dist _ _ Hinv) as Hbf.
  pose proof (closed_no_negative_cycle dist Hbf Hc) as Hno.
  destruct (closed_shortest N es s dist v Hbf Hc HvN) as (r & Hr & Hshort).
  destruct (proj2 (pi_keys _ _ Hinv v) HvN) as [p Hp].
  destruct r as [d|].
  - destruct (pi_chain _ _ Hinv Hno v d Hr) as (vs & l & Hchain).
    exists (Fin d), vs. split_and!; [done|done| |].
    + intros fuel Hfuel. unfold reconstruct_path. rewrite Hp.
      rewrite (chain_walk_back dist prev v vs l Hchain fuel [] Hfuel).
      by rewrite app_nil_l, reverse_involutive.
    + exists l. split; [by eapply chain_walk|].
      destruct (chain_length dist prev v vs l Hbf Hchain) as (a & b & Ha & Hb & Hab).
      rewrite Hr in Hb. injection Hb as <-.
      destruct (bf_walk _ _ _ _ Hbf s a Ha) as [vs0 Hvs0].
      pose proof (Hno [s] s 0%Q vs0 a (walk_nil _ _) Hvs0).
      destruct Hshort as [_ Hmin]. pose proof (Hmin vs l (chain_walk _ _ _ _ _ Hchain)). lra.
  - exists Inf, [v]. split_and!; [done|done| |done].
    intros fuel Hfuel. unfold reconstruct_path. rewrite Hp.
    destruct fuel as [|f]; [cbn in Hfuel; lia|]. cbn [walk_back]. unfold getitem.
    rewrite (pi_none _ _ Hinv v Hr) in Hp. injection Hp as <-.
    rewrite (pi_none _ _ Hinv v Hr). by destruct f.
Qed.

Lemma paths_init :
  paths_inv (<[s := Fin 0]> (dict_of Inf (elements N))) (dict_of None (elements N)).
Proof.
  destruct (bf_init N es s Hs) as [Hinv _].
  assert (Hprev : ∀ v, v ∈ N → dict_of (None : option string) (elements N) !! v = Some None).
  { intros v Hv. rewrite dict_of_lookup. rewrite decide_True; [done|].
    by apply elem_of_elements. }
  split.
  - done.
  - intros v. rewrite dict_of_lookup. case_decide as Hd.
    + apply elem_of_elements in Hd. split; eauto.
    + rewrite elem_of_elements in Hd. split; [by intros [? ?]|done].
  - intros v Hv. apply Hprev. apply (bf_keys _ _ _ _ Hinv). eauto.
  - intros _ v x. rewrite lookup_insert. case_decide as Heq.
    + intros _. subst v. exists [s], 0%Q. apply chain_root. by apply Hprev.
    + rewrite dict_of_lookup. by case_decide.
Qed.
End bf_paths.

Lemma has_negative_edge_false g : has_negative_edge g = false → nonneg g.
Proof.
  unfold has_negative_edge, nonneg, arc_of. intros Hno u v w Hin.
  destruct (Qle_bool 0 w) eqn:Hw; [by apply Qle_bool_iff|].
  assert (existsb (λ e : string * string * Q, negb (Qle_bool 0 e.2)) (edges g) = true);
    [|congruence].
  apply existsb_exists. exists (u, v, w). split; [by apply list_elem_of_In|].
  cbn [snd]. by rewrite Hw.
Qed.

Lemma bellman_ford_run (g : Graph) (source : string) :
  built g → source ∈ nodes_set g →
  ∃ dist prev flag,
    bellman_ford g source = Ret (dist, prev, flag) ∧
    (flag = false →
     ∀ v, v ∈ nodes_set g →
       ∃ r path,
         dist !! v = Some r ∧ shortest (arc_of g) source v r ∧
         (∀ fuel, (length path < fuel)%nat →
            reconstruct_path fuel prev v = Some (Ret (Some path))) ∧
         match r with
         | Fin d => ∃ l, walk (arc_of g) source path v l ∧ (l == d)%Q
         | Inf => path = [v]
         end).
Proof.
  intros Hb Hs. pose proof (built_ok g Hb) as [Hadj Hnodes].
  unfold bellman_ford. rewrite !dict_of_nodes, nodes_length.
  rewrite bool_decide_eq_true_2 by by apply dict_of_dom.
  destruct (bf_rounds_paths (nodes_set g) (edges g) source Hs Hnodes
              (size (nodes_set g) - 1) _ _ (paths_init (nodes_set g) (edges g) source Hs))
    as (dist & prev & -> & Hinv).
  cbn [mbind py_bind].
  destruct (bf_check_paths (nodes_set g) (edges g) source Hnodes dist (edges g)
              (pi_dist _ _ _ _ _ Hinv)) as (flag & -> & Hflag); [done|].
  cbn [mbind py_bind]. exists dist, prev, flag. split; [done|].
  intros ->. intros v Hv.
  apply (paths_final (nodes_set g) (edges g) source dist prev v Hinv); [|done].
  apply (relaxed_closed (nodes_set g) (edges g) source dist (pi_dist _ _ _ _ _ Hinv)).
  by apply Hflag.
Qed.



Example start_edges_directed :
  (match bellman_ford (digraph_of start_edges) "A" with
   | Ret (dist, prev, flag) =>
       Some (dist !! "D", flag,
             reconstruct_path 10 prev "D", has_negative_edge (digraph_of start_edges))
   | Raise _ => None
   end)
  = Some (Some (Fin 5), false, Some (Ret (Some ["A"; "B"; "C"; "D"])), true).
Proof. vm_compute. reflexivity. Qed.

(** X15.  [reconstruct_path] does not return when following [prev] from the
    target leads into a cycle, which is what [bellman_ford] leaves
    behind on the edges the window starts with, taken as undirected. *)
Theorem reconstruct_path_cycle (prev : prev_t) (target c : string) (n k : nat) :
  follow n prev target = Some c → follow (S k) prev c = Some c →
  ∀ fuel, reconstruct_path fuel prev target = None.
Proof.
  intros Hn Hcyc fuel.
  assert (Hall : ∀ j, is_Some (follow j prev target)).
  { intros j. destruct (decide (j ≤ n)%nat) as [Hle|Hgt].
    - apply (follow_prefix prev j (n - j)). replace (j + (n - j))%nat with n by lia.
      rewrite Hn. eauto.
    - replace j with (n + (j - n))%nat by lia. rewrite follow_add, Hn.
      by apply (follow_cycle prev c k). }
  unfold reconstruct_path. pose proof (Hall 1%nat) as H1. cbn [follow] in H1.
  destruct (prev !! target) as [p|] eqn:Hp; [|by destruct H1].
  by rewrite (walk_back_forever prev fuel target [] Hall).
Qed.

Lemma reconstruct_path_cycle_witness :
  ∃ dist prev,
    bellman_ford (graph_of start_edges) "A" = Ret (dist, prev, true) ∧
    ∀ fuel, reconstruct_path fuel prev "A" = None.
Proof.
  eexists _, _. split; [vm_compute; reflexivity|].
  apply (reconstruct_path_cycle _ "A" "B" 1 1); vm_compute; reflexivity.
Defined.

(** *** The path that the path finder returns *)

Section path_links.
Variable arc : string → string → Q → Prop.
Variable neighbors : string → py (list (string * Q)).
Variable target : option string.
Variable s : string.
Hypothesis neighbors_arcs : ∀ u l v w, neighbors u = Ret l → (v, w) ∈ l → arc u v w.
Hypothesis arc_nonneg : ∀ u v w, arc u v w → (0 <= w)%Q.

(** What ties [prev] to [dist] all through the loop: a predecessor is
    the start of an arc that has been relaxed. *)
Record linked (dist : dist_t) (prev : prev_t) (heap : list item) : Prop := {
  lk_source : dist !! s = Some (Fin 0) ∧ prev !! s = Some None;
  lk_heap : ∀ d v, (d, v) ∈ heap →
              (0 <= d)%Q ∧ ∃ dv, dist !! v = Some (Fin dv) ∧ (dv <= d)%Q;
  lk_links : ∀ v u, prev !! v = Some (Some u) →
               ∃ w x y, arc u v w ∧ dist !! u = Some (Fin x) ∧
                        dist !! v = Some (Fin y) ∧ (x + w <= y)%Q;
  lk_prev : ∀ v y, dist !! v = Some (Fin y) → v ≠ s → ∃ u, prev !! v = Some (Some u)
}.

Lemma relax_linked d u nbrs : ∀ dist prev heap dist' prev' heap',
  (∀ v w, (v, w) ∈ nbrs → arc u v w) → (0 <= d)%Q →
  (∃ x, dist !! u = Some (Fin x) ∧ (x <= d)%Q) →
  linked dist prev heap →
  relax d u nbrs (dist, prev, heap) = Ret (dist', prev', heap') →
  linked dist' prev' heap'.
Proof.
  induction nbrs as [|[v w] rest IH]; intros dist prev heap dist' prev' heap' Harcs Hd Hu Hlk Hrun.
  - by injection Hrun as <- <- <-.
  - assert (Harc : arc u v w) by (apply Harcs; by left).
    assert (Hrest : ∀ v w, (v, w) ∈ rest → arc u v w) by (intros; apply Harcs; by right).
    pose proof (arc_nonneg _ _ _ Harc) as Hw.
    cbn [relax] in Hrun. unfold getitem in Hrun.
    destruct (dist !! v) as [dv|] eqn:Hdv; [|done]. cbn [mbind py_bind] in Hrun.
    destruct (ext_ltb (Fin (d + w)) dv) eqn:Hlt; [|by apply (IH dist prev heap)].
    destruct Hu as (x & Hx & Hxd).
    assert (Hbelow : ∀ y, dv = Fin y → (d + w < y)%Q).
    { intros y ->. by apply ext_ltb_Fin in Hlt. }
    assert (Hvu : v ≠ u).
    { intros ->. rewrite Hx in Hdv. injection Hdv as <-. pose proof (Hbelow x eq_refl). lra. }
    assert (Hvs : v ≠ s).
    { intros ->. destruct (lk_source _ _ _ Hlk) as [Hs _]. rewrite Hs in Hdv.
      injection Hdv as <-. pose proof (Hbelow 0%Q eq_refl). lra. }
    eapply (IH _ _ _ dist' prev' heap' Hrest Hd); [| |exact Hrun].
    { exists x. by rewrite lookup_insert_ne. }
    clear IH Hrun. split.
    + destruct (lk_source _ _ _ Hlk) as [Hs Hp]. by rewrite !lookup_insert_ne.
    + intros d0 v0. unfold heappush. rewrite elem_of_app, list_elem_of_singleton.
      intros [Hin|[= -> ->]].
      * destruct (lk_heap _ _ _ Hlk d0 v0 Hin) as (Hd0 & dv0 & Hdv0 & Hle0).
        split; [done|]. destruct (decide (v0 = v)) as [->|Hne].
        -- exists (d + w)%Q. rewrite lookup_insert_eq. split; [done|].
           rewrite Hdv in Hdv0. injection Hdv0 as ->. pose proof (Hbelow dv0 eq_refl). lra.
        -- exists dv0. by rewrite lookup_insert_ne.
      * split; [lra|]. exists (d + w)%Q. rewrite lookup_insert_eq. split; [done|lra].
    + intros z p. rewrite lookup_insert. case_decide as Hz.
      * intros [= <-]. subst z. exists w, x, (d + w)%Q.
        rewrite lookup_insert_eq, lookup_insert_ne by done. split_and!; [done..|lra].
      * intros Hp. destruct (lk_links _ _ _ Hlk z p Hp) as (w0 & a & b & Ha0 & Ha & Hb & Hab).
        rewrite (lookup_insert_ne _ v z) by done.
        destruct (decide (p = v)) as [->|Hpv].
        -- exists w0, (d + w)%Q, b. rewrite lookup_insert_eq. split_and!; [done..|].
           rewrite Hdv in Ha. injection Ha as ->. pose proof (Hbelow a eq_refl). lra.
        -- exists w0, a, b. by rewrite lookup_insert_ne.
    + intros z y. rewrite !lookup_insert. case_decide as Hz; [eauto|].
      apply (lk_prev _ _ _ Hlk).
Qed.

Lemma dijkstra_loop_linked fuel : ∀ dist prev heap dist' prev',
  linked dist prev heap →
  dijkstra_loop neighbors target fuel dist prev heap = Some (Ret (dist', prev')) →
  ∃ heap', linked dist' prev' heap'.
Proof.
  induction fuel as [|f IH]; intros dist prev heap dist' prev' Hlk Hrun.
  - cbn [dijkstra_loop] in Hrun. destruct (heappop heap) as [[[d u] h]|]; [done|].
    injection Hrun as <- <-. by exists heap.
  - cbn [dijkstra_loop] in Hrun. pose proof (heappop_spec heap) as Hpop.
    destruct (heappop heap) as [[[d u] h]|]; [|injection Hrun as <- <-; by exists heap].
    destruct Hpop as [(h1 & h2 & -> & ->) _].
    assert (Hlk1 : linked dist prev (h1 ++ h2)).
    { destruct Hlk as [H1 H2 H3 H4]. split; [done| |done..].
      intros d0 v0 Hin. apply H2. rewrite elem_of_app in Hin.
      rewrite elem_of_app, elem_of_cons. tauto. }
    destruct (lk_heap _ _ _ Hlk d u) as (Hd & dv & Hdv & Hle).
    { apply elem_of_app. right. by left. }
    unfold getitem in Hrun. rewrite Hdv in Hrun.
    destruct (ext_ltb (Fin dv) (Fin d)); [by apply (IH dist prev (h1 ++ h2))|].
    destruct (bool_decide (target = Some u)); [injection Hrun as <- <-; by exists (h1 ++ h2)|].
    destruct (neighbors u) as [nbrs|e] eqn:Hnb; [|done]. cbn [mbind py_bind] in Hrun.
    destruct (relax d u nbrs (dist, prev, h1 ++ h2)) as [[[dist2 prev2] heap2]|e] eqn:Hrelax;
      [|done].
    apply (IH dist2 prev2 heap2); [|done].
    apply (relax_linked d u nbrs dist prev (h1 ++ h2)); [|done|by exists dv|done|done].
    intros v w Hin. by apply (neighbors_arcs u nbrs).
Qed.

Lemma walk_back_walk dist prev heap :
  linked dist prev heap →
  ∀ fuel c acc out y,
    dist !! c = Some (Fin y) → walk_back fuel prev (Some c) acc = Some (Ret out) →
    ∃ vs l, out = acc ++ reverse vs ∧ walk arc s vs c l ∧ (l <= y)%Q.
Proof.
  intros Hlk. induction fuel as [|f IH]; intros c acc out y Hy Hrun; [done|].
  cbn [walk_back] in Hrun. unfold getitem in Hrun.
  destruct (prev !! c) as [[u|]|] eqn:Hc; [| |done].
  - destruct (lk_links _ _ _ Hlk c u Hc) as (w & a & b & Harc & Ha & Hb & Hab).
    destruct (IH u (acc ++ [c]) out a Ha Hrun) as (vs & l & -> & Hw & Hl).
    exists (vs ++ [c]), (l + w)%Q. split_and!.
    + by rewrite reverse_app, <- app_assoc.
    + by econstructor.
    + rewrite Hy in Hb. injection Hb as <-. lra.
  - assert (c = s) as ->.
    { destruct (decide (c = s)) as [|Hne]; [done|].
      destruct (lk_prev _ _ _ Hlk c y Hy Hne) as [u Hu]. congruence. }
    destruct (lk_source _ _ _ Hlk) as [Hs _]. rewrite Hs in Hy. injection Hy as <-.
    destruct f; injection Hrun as <-; exists [s], 0%Q; (split_and!; [done|constructor|lra]).
Qed.
End path_links.



End ShortestPaths.

(** ** The string methods the parsers use (ASCII) *)

Module PyStr.

Definition is_space (c : ascii) : bool := Ascii.is_space c.

Fixpoint lstrip (s : string) : string :=
  match s with
  | String c rest => if is_space c then lstrip rest else s
  | EmptyString => EmptyString
  end.

(** [s.strip()] *)
Definition strip (s : string) : string :=
  String.rev (lstrip (String.rev (lstrip s))).

(** [s.split()] *)
Definition split (s : string) : list string := String.words s.

(** The line boundaries of [splitlines] in ASCII: LF, VT, FF, CR (CR LF
    counts once), FS, GS, RS. *)
Definition is_break (c : ascii) : bool :=
  match c with
  | "010" | "011" | "012" | "013" | "028" | "029" | "030" => true
  | _ => false
  end%char.

Fixpoint splitlines_go (cur : string) (s : string) : list string :=
  match s with
  | EmptyString => if decide (cur = EmptyString) then [] else [String.rev cur]
  | String c rest =>
      if is_break c then
        String.rev cur ::
          match c, rest with
          | "013"%char, String "010"%char rest' => splitlines_go EmptyString rest'
          | _, _ => splitlines_go EmptyString rest
          end
      else splitlines_go (String c cur) rest
  end.

(** [s.splitlines()] *)
Definition splitlines (s : string) : list string := splitlines_go EmptyString s.

(** [s.startswith(p)] *)
Fixpoint startswith (p s : string) : bool :=
  match p, s with
  | EmptyString, _ => true
  | String a p', String b s' => bool_decide (a = b) && startswith p' s'
  | String _ _, EmptyString => false
  end.

(** [p in s] *)
Fixpoint contains (p s : string) : bool :=
  startswith p s ||
  match s with
  | EmptyString => false
  | String _ s' => contains p s'
  end.

Definition lower_char (c : ascii) : ascii :=
  let n := nat_of_ascii c in
  if (65 <=? n)%nat && (n <=? 90)%nat then ascii_of_nat (n + 32) else c.

(** [s.lower()] *)
Fixpoint lower (s : string) : string :=
  match s with
  | EmptyString => EmptyString
  | String c rest => String (lower_char c) (lower rest)
  end.

(** [sep.join(l)] *)
Fixpoint join (sep : string) (l : list string) : string :=
  match l with
  | [] => EmptyString
  | [x] => x
  | x :: rest => x +:+ sep +:+ join sep rest
  end.

Example strip_ex : strip "  a b 	" = "a b".
Proof. reflexivity. Qed.

Example splitlines_ex : splitlines "a b 1
c d

x" = ["a b 1"; "c d"; ""; "x"].
Proof. reflexivity. Qed.

Example split_ex : split " a   b 1 " = ["a"; "b"; "1"].
Proof. reflexivity. Qed.

End PyStr.

(** ** Bellman-Ford vs Dijkstra Comparison App: building the graph *)

Module Comparison.
Import ShortestPaths.

Section parse.
(** [float(s)]: the number, or [None] where Python raises [ValueError]. *)
Variable py_float : string → option Q.

(** The loop of [parse_edges_text] over the lines, [i] counting from 1.
  The graph is changed in place, so what has been added stays when a
  later line raises: the result is the graph together with the
  outcome. *)
Fixpoint parse_lines (i : nat) (lines : list string) (directed : bool) (g : Graph)
: Graph * py bool :=
match lines with
| [] => (g, Ret true)
| line :: rest =>
    let line := PyStr.strip line in
    if bool_decide (line = EmptyString) || PyStr.startswith "#" line
    then parse_lines (S i) rest directed g
    else
      match PyStr.split line with
      | u :: v :: w_str :: _ =>
          match py_float w_str with
          | None =>
              (g, Raise (ValueError ("Line " +:+ pretty i
                                       +:+ ": weight must be number: " +:+ w_str)))
          | Some w => parse_lines (S i) rest directed (add_edge g u v w directed)
          end
      | _ =>
          (g, Raise (ValueError ("Line " +:+ pretty i
                                   +:+ ": expected 'u v w', got: " +:+ line)))
      end
end.

(** [Graph.parse_edges_text]: [self.clear()] comes first. *)
Definition parse_edges_text (g : Graph) (text : string) (directed : bool)
: Graph * py bool :=
parse_lines 1 (PyStr.splitlines (PyStr.strip text)) directed empty_graph.

(** [BFvsDijkstraApp.build_graph]: the text box content and the
  "Directed graph" check box are the inputs, [self.graph] the model. *)
Definition build_graph (edges_txt : string) (directed : bool) (graph : Graph)
: Graph * list ui :=
let txt := PyStr.strip edges_txt in
let '(graph, r) := parse_edges_text graph txt directed in
match r with
| Ret _ =>
    (graph, [Log ("Graph built. Nodes: " +:+ PyStr.join ", " (nodes graph) +:+ "
")])
| Raise e => (graph, [ShowError "Parse error" (exn_text e)])
end.
End parse.

(** Decimal numerals, a part of what [float] accepts: an optional sign,
    digits, an optional fraction. *)
Fixpoint digits (acc : N) (s : string) : option (N * string) :=
  match s with
  | String c rest =>
      match Ascii.is_nat c with
      | Some d => digits (acc * 10 + N.of_nat d) rest
      | None => Some (acc, s)
      end
  | EmptyString => Some (acc, s)
  end.

Definition unsigned_decimal (s : string) : option Q :=
  match s with
  | EmptyString => None
  | String c _ =>
      match Ascii.is_nat c, digits 0 s with
      | Some _, Some (n, EmptyString) => Some (inject_Z (Z.of_N n))
      | Some _, Some (n, String "."%char frac) =>
          match digits 0 frac with
          | Some (m, EmptyString) =>
              Some (inject_Z (Z.of_N n)
                    + Qmake (Z.of_N m) (Pos.pow 10 (Pos.of_nat (String.length frac))))%Q
          | _ => None
          end
      | _, _ => None
      end
  end.

Definition decimal (s : string) : option Q :=
  match s with
  | String "-"%char rest => Qopp <$> unsigned_decimal rest
  | String "+"%char rest => unsigned_decimal rest
  | _ => unsigned_decimal s
  end.

Example decimal_ex : decimal "2" = Some 2%Q ∧ decimal "z" = None.
Proof. split; reflexivity. Qed.

End Comparison.

(** ** Adjacency Matrix Generator: loading the edge list *)

Module AdjacencyMatrix.

(** A [pandas.DataFrame] as the loader sees it: named columns and rows
    of cells. *)
Record DataFrame : Type := Frame {
  columns : list string;
  rows : list (list string)
}.

Section app.
(** The adjacency matrix and the [networkx] graph are built by
  [build_matrix] with [pandas] and [networkx]; the loader only calls
  it, so both types and the method are left open here. *)
Variables Matrix NxGraph : Type.

Record app : Type := App {
df_edges : option DataFrame;
adj_df : option Matrix;
G : option NxGraph;
weighted_var : bool;
directed_var : bool
}.

Variable build_matrix : app → py (app * list ui).

Definition is_source (lc : string) : bool :=
PyStr.contains "source" lc || PyStr.contains "from" lc
|| bool_decide (lc = "u") || bool_decide (lc = "node1").

Definition is_target (lc : string) : bool :=
PyStr.contains "target" lc || PyStr.contains "to" lc
|| bool_decide (lc = "v") || bool_decide (lc = "node2").

(** [for c in df.columns: lc = c.lower(); if ...: col = c; break] *)
Definition find_col (p : string → bool) (cols : list string) : option string :=
head (filter (λ c, p (PyStr.lower c) = true) cols).

Fixpoint index_of (c : string) (cols : list string) : option nat :=
match cols with
| [] => None
| x :: rest => if decide (x = c) then Some 0%nat else S <$> index_of c rest
end.

(** [df[[c1, c2, ...]]]: [KeyError] for a name that is no column. *)
Fixpoint select_indices (names cols : list string) : py (list nat) :=
match names with
| [] => Ret []
| n :: rest =>
    match index_of n cols with
    | None => Raise KeyError
    | Some i => idx ← select_indices rest cols; Ret (i :: idx)
    end
end.

Definition select (df : DataFrame) (names : list string) : py DataFrame :=
match select_indices names (columns df) with
| Raise e => Raise e
| Ret idx =>
    Ret {| columns := names;
           rows := (λ r : list string, (λ i, default EmptyString (r !! i)) <$> idx)
                     <$> rows df |}
end.

(** [df.rename(columns={...})]; in a dict display the last binding of a
  key wins. *)
Definition rename (df : DataFrame) (m : list (string * string)) : DataFrame :=
let d : gmap string string := list_to_map (reverse m) in
{| columns := (λ c, default c (d !! c)) <$> columns df; rows := rows df |}.

Fixpoint basename (s : string) (cur : string) : string :=
match s with
| EmptyString => String.rev cur
| String "/"%char rest => basename rest EmptyString
| String c rest => basename rest (String c cur)
end.

Definition repr_list (l : list string) : string :=
"[" +:+ PyStr.join ", " ((λ c, "'" +:+ c +:+ "'") <$> l) +:+ "]".

(** [load_edge_csv].  The file dialog's answer [path] and the outcome
  [read] of [pd.read_csv(path)] come from outside. *)
Definition load_edge_csv (path : string) (read : py DataFrame) (a : app)
: py (app * list ui) :=
if bool_decide (path = EmptyString) then Ret (a, [])
else
  match read with
  | Raise e => Ret (a, [ShowError "Read error" ("Failed to read CSV: " +:+ exn_text e)])
  | Ret df =>
      if (length (columns df) <? 2)%nat then
        Ret (a, [ShowError "Format error"
                   "CSV must contain at least two columns for source and target."])
      else
        let '(source_col, target_col) :=
          match find_col is_source (columns df), find_col is_target (columns df) with
          | Some sc, Some tc => (sc, tc)
          | _, _ => (default EmptyString (columns df !! 0%nat),
                     default EmptyString (columns df !! 1%nat))
          end in
        let weight_col := find_col (PyStr.contains "weight") (columns df) in
        df ← match weight_col with
             | Some wc =>
                 d ← select df [source_col; target_col; wc];
                 Ret (rename d [(source_col, "source"); (target_col, "target");
                                (wc, "weight")])
             | None =>
                 d ← select df [source_col; target_col];
                 Ret (rename d [(source_col, "source"); (target_col, "target")])
             end;
        if bool_decide ("source" ∈ columns df) && bool_decide ("target" ∈ columns df) then
          let has_weight := bool_decide ("weight" ∈ columns df) in
          let a := {| df_edges := Some df; adj_df := adj_df a; G := G a;
                      weighted_var := if has_weight then true else weighted_var a;
                      directed_var := directed_var a |} in
          r ← build_matrix a;
          Ret (r.1, Log ("Loaded edges: " +:+ pretty (length (rows df)) +:+ " rows from "
                         +:+ basename path EmptyString +:+ ". Columns used: "
                         +:+ repr_list (columns df)) :: r.2)
        else Raise KeyError
  end.
End app.

End AdjacencyMatrix.

(** ** Logic Circuit Builder: the evaluation *)

Module Evaluation.
Import Circuit.

Section evaluate.
Variable set_order : gset string → list string.

(** The loop over [self.wires] that collects the inputs of gate [gid]:
  [vals[pin] = self.gates[src].output_value]. *)
Fixpoint gather (gs : gmap string gate) (gid : string) (ws : list wire)
  (vals : list bool) : py (list bool) :=
match ws with
| [] => Ret vals
| w :: rest =>
    if decide (w_dst w = gid) then
      match gs !! w_from w with
      | None => Raise KeyError
      | Some src =>
          if (w_pin w <? length vals)%nat
          then gather gs gid rest (<[w_pin w := output_value src]> vals)
          else Raise IndexError
      end
    else gather gs gid rest vals
end.

(** [for gid in order: ...; g.output_value = val] *)
Fixpoint eval_order (gs : gmap string gate) (ws : list wire) (order : list string)
: py (gmap string gate) :=
match order with
| [] => Ret gs
| gid :: rest =>
    match gs !! gid with
    | None => Raise KeyError
    | Some g =>
        in_vals ← (if (0 <? num_inputs g)%nat
                   then gather gs gid ws (replicate (num_inputs g) false)
                   else Ret []);
        val ← evaluate g in_vals;
        eval_order (<[gid := {| g_kind := g_kind g; num_inputs := num_inputs g;
                                output_value := val |}]> gs) ws rest
    end
end.

(** [evaluate_circuit]: only [ValueError] is caught. *)
Definition evaluate_circuit (fuel : nat) (c : circuit) : option (py (circuit * list ui)) :=
match topological_order set_order fuel c with
| None => None
| Some (Raise (ValueError msg)) => Some (Ret (c, [ShowError "Evaluation error" msg]))
| Some (Raise e) => Some (Raise e)
| Some (Ret order) =>
    Some (gs ← eval_order (gates c) (wires c) order;
          Ret ({| gate_ids := gate_ids c; gates := gs; wires := wires c |},
               [Redraw; ShowInfo "Evaluation complete"
                          "Circuit evaluated and outputs updated."]))
end.
End evaluate.

Example chain3_evaluates :
  (match evaluate_circuit elements 3 chain3 with
   | Some (Ret (c, _)) => output_value <$> gates c !! "G3"
   | _ => None
   end) = Some false.
Proof. vm_compute. reflexivity. Qed.

Example loop3_refused :
  evaluate_circuit elements 3 loop3
  = Some (Ret (loop3, [ShowError "Evaluation error" cycle_message])).
Proof. vm_compute. reflexivity. Qed.

(** *** What an evaluation leaves behind *)

(** The gate that drives pin [i] of gate [gid]: the source of the last
    wire to that pin. *)
Definition driver (ws : list wire) (gid : string) (i : nat) : option string :=
  w_from <$> last (filter (λ w, w_dst w = gid ∧ w_pin w = i) ws).

(** The value at a pin: the output of its driver, [False] without one. *)
Definition pin_value (gs : gmap string gate) (ws : list wire) (gid : string) (i : nat)
  : bool :=
  match driver ws gid i with
  | Some src => default false (output_value <$> gs !! src)
  | None => false
  end.

Definition pin_values (gs : gmap string gate) (ws : list wire) (gid : string) (n : nat)
  : list bool :=
  pin_value gs ws gid <$> seq 0 n.

(** The output of a gate is what the gate makes of the values at its
    pins. *)
Definition settled (gs : gmap string gate) (ws : list wire) (gid : string) : Prop :=
  ∀ g, gs !! gid = Some g →
       evaluate g (pin_values gs ws gid (num_inputs g)) = Ret (output_value g).

(** The circuits that the window builds: gates as [_place_gate] makes
    them, wires as [_add_wire] lets them through. *)
Record wired (c : circuit) : Prop := {
  wc_nodup : NoDup (gate_ids c);
  wc_keys : ∀ gid, is_Some (gates c !! gid) ↔ gid ∈ gate_ids c;
  wc_wires : ∀ w, w ∈ wires c → w_from w ∈ gate_ids c ∧ w_dst w ∈ gate_ids c;
  wc_pins : ∀ gid g, gates c !! gid = Some g → num_inputs g = pins_of (g_kind g);
  wc_pin : ∀ w g, w ∈ wires c → gates c !! w_dst w = Some g →
             (0 < num_inputs g)%nat → (w_pin w < num_inputs g)%nat
}.

Lemma driver_cons w ws gid i :
  driver (w :: ws) gid i
  = match driver ws gid i with
    | Some src => Some src
    | None => if decide (w_dst w = gid ∧ w_pin w = i) then Some (w_from w) else None
    end.
Proof.
  unfold driver. rewrite filter_cons. case_decide; [|by destruct (last _)].
  rewrite last_cons. by destruct (last _).
Qed.

Lemma driver_edge ws gid i src :
  driver ws gid i = Some src → edge_in ws src gid.
Proof.
  unfold driver. destruct (last _) as [w|] eqn:Hlast; [|done]. intros [= <-].
  apply last_Some_elem_of, list_elem_of_filter in Hlast as [[Hd _] Hin]. by exists w.
Qed.

Lemma gather_ok gs gid ws : ∀ vals,
  (∀ w, w ∈ ws → w_dst w = gid →
        is_Some (gs !! w_from w) ∧ (w_pin w < length vals)%nat) →
  ∃ vals', gather gs gid ws vals = Ret vals' ∧ length vals' = length vals ∧
    ∀ i, (i < length vals)%nat →
      vals' !! i = match driver ws gid i with
                   | Some src => Some (default false (output_value <$> gs !! src))
                   | None => vals !! i
                   end.
Proof.
  induction ws as [|w ws IH]; intros vals Hok.
  - exists vals. by split_and!.
  - cbn [gather].
    assert (Hrest : ∀ w', w' ∈ ws → w_dst w' = gid →
              is_Some (gs !! w_from w') ∧ (w_pin w' < length vals)%nat).
    { intros w' Hw'. apply Hok. by right. }
    destruct (decide (w_dst w = gid)) as [Hd|Hd].
    + destruct (Hok w ltac:(by left) Hd) as [[src Hsrc] Hpin]. rewrite Hsrc.
      apply Nat.ltb_lt in Hpin as Hpin'. rewrite Hpin'.
      destruct (IH (<[w_pin w := output_value src]> vals)) as (vals' & Hrun & Hlen & Hval).
      { intros w' Hw' Hd'. rewrite length_insert. by apply Hrest. }
      exists vals'. rewrite length_insert in Hlen, Hval. split_and!; [done..|].
      intros i Hi. rewrite (Hval i Hi), driver_cons.
      destruct (driver ws gid i); [done|].
      destruct (decide (w_pin w = i)) as [<-|Hne].
      * rewrite decide_True by done. rewrite list_lookup_insert_eq by done.
        by rewrite Hsrc.
      * rewrite decide_False by tauto. by rewrite list_lookup_insert_ne.
    + destruct (IH vals Hrest) as (vals' & Hrun & Hlen & Hval).
      exists vals'. split_and!; [done..|]. intros i Hi. rewrite (Hval i Hi), driver_cons.
      destruct (driver ws gid i); [done|]. by rewrite decide_False by tauto.
Qed.

Lemma gather_pin_values gs gid ws n :
  (∀ w, w ∈ ws → w_dst w = gid → is_Some (gs !! w_from w) ∧ (w_pin w < n)%nat) →
  gather gs gid ws (replicate n false) = Ret (pin_values gs ws gid n).
Proof.
  intros Hok. destruct (gather_ok gs gid ws (replicate n false)) as (vals & -> & Hlen & Hval).
  { by rewrite length_replicate. }
  rewrite length_replicate in Hlen, Hval. f_equal. apply list_eq. intros i.
  unfold pin_values. rewrite list_lookup_fmap.
  destruct (decide (i < n)%nat) as [Hi|Hi].
  - rewrite (Hval i Hi), lookup_seq_lt by done. cbn. unfold pin_value.
    destruct (driver ws gid i); [done|]. by rewrite lookup_replicate_2.
  - rewrite lookup_ge_None_2 by lia. by rewrite lookup_seq_ge by lia.
Qed.

(** Only the outputs of the drivers matter. *)
Lemma pin_values_ext gs gs' ws gid n :
  (∀ src, edge_in ws src gid → output_value <$> gs' !! src = output_value <$> gs !! src) →
  pin_values gs' ws gid n = pin_values gs ws gid n.
Proof.
  intros Hsame. unfold pin_values. apply list_fmap_ext. intros _ i _. unfold pin_value.
  destruct (driver ws gid i) as [src|] eqn:Hdrv; [|done].
  by rewrite (Hsame src (driver_edge ws gid i src Hdrv)).
Qed.

Lemma evaluate_total g vals :
  length vals = pins_of (g_kind g) → ∃ b, evaluate g vals = Ret b.
Proof.
  unfold evaluate, item. destruct (g_kind g); cbn [pins_of]; intros Hlen.
  all: destruct vals as [|a [|b vals]]; try done; cbn; eauto.
Qed.

(** Apart from an INPUT, a gate's value depends on its kind alone. *)
Lemma evaluate_kind g g' vals b :
  g_kind g' = g_kind g → output_value g' = b →
  evaluate g vals = Ret b → evaluate g' vals = Ret b.
Proof.
  unfold evaluate. intros -> <-. by destruct (g_kind g).
Qed.

Lemma split_unique {A} (a a' b b' : list A) x :
  NoDup (a ++ x :: b) → a ++ x :: b = a' ++ x :: b' → a = a'.
Proof.
  intros Hnd Heq.
  assert (Hlen : length a = length a').
  { apply (NoDup_lookup _ _ _ x Hnd); [by apply list_lookup_middle|].
    rewrite Heq. by apply list_lookup_middle. }
  by apply app_inj_1 in Heq as [-> _].
Qed.

Section settle.
Variable c : circuit.
Variable L : list string.
Hypothesis Hwired : wired c.
Hypothesis Hperm : L ≡ₚ gate_ids c.
Hypothesis Htop : topological (edge c) L.

(** The state of the loop of [evaluate_circuit] when the gates [l1] have
    been evaluated. *)
Record evaluated (l1 : list string) (gs : gmap string gate) : Prop := {
  ev_keys : ∀ gid, is_Some (gs !! gid) ↔ gid ∈ gate_ids c;
  ev_gate : ∀ gid g', gs !! gid = Some g' →
              ∃ g, gates c !! gid = Some g ∧ g_kind g' = g_kind g ∧
                   num_inputs g' = num_inputs g ∧
                   (g_kind g = INPUT → output_value g' = output_value g);
  ev_settled : ∀ gid, gid ∈ l1 → settled gs (wires c) gid
}.

Lemma sources_before l1 g l2 src :
  L = l1 ++ g :: l2 → edge_in (wires c) src g → src ∈ l1 ∧ src ≠ g.
Proof.
  intros HL Hedge. pose proof (Htop l1 g l2 HL src Hedge) as Hin. split; [done|].
  intros ->. assert (Hnd : NoDup L) by (rewrite Hperm; apply Hwired).
  rewrite HL in Hnd. apply NoDup_app in Hnd as (_ & Hnd & _). apply (Hnd g Hin). by left.
Qed.

Lemma eval_order_ok : ∀ l2 l1 gs,
  L = l1 ++ l2 → evaluated l1 gs →
  ∃ gs', eval_order gs (wires c) l2 = Ret gs' ∧ evaluated L gs'.
Proof.
  induction l2 as [|gid l2 IH]; intros l1 gs HL Hev.
  - exists gs. split; [done|]. by rewrite HL, app_nil_r.
  - cbn [eval_order].
    assert (Hnd : NoDup L) by (rewrite Hperm; apply Hwired).
    assert (Hgid : gid ∈ gate_ids c).
    { rewrite <- Hperm, HL. apply elem_of_app. right. by left. }
    assert (Hout : gid ∉ l1).
    { rewrite HL in Hnd. apply NoDup_app in Hnd as (_ & Hnd & _).
      intros Hin. apply (Hnd gid Hin). by left. }
    destruct (proj2 (ev_keys _ _ Hev gid) Hgid) as [g Hg]. rewrite Hg.
    destruct (ev_gate _ _ Hev gid g Hg) as (g0 & Hg0 & Hkind & Hnum & Hinput).
    assert (Hin_vals :
      (if (0 <? num_inputs g)%nat
       then gather gs gid (wires c) (replicate (num_inputs g) false)
       else Ret []) = Ret (pin_values gs (wires c) gid (num_inputs g))).
    { destruct (0 <? num_inputs g)%nat eqn:Hpos.
      - apply Nat.ltb_lt in Hpos. apply gather_pin_values. intros w Hw Hd. split.
        + apply (ev_keys _ _ Hev). by apply (wc_wires c Hwired w).
        + rewrite Hnum. apply (wc_pin c Hwired w g0 Hw); [by rewrite Hd|lia].
      - apply Nat.ltb_ge in Hpos. by replace (num_inputs g) with 0%nat by lia. }
    rewrite Hin_vals. cbn [mbind py_bind].
    destruct (evaluate_total g (pin_values gs (wires c) gid (num_inputs g))) as [val Hval].
    { unfold pin_values. rewrite length_fmap, length_seq, Hnum, Hkind.
      by apply (wc_pins c Hwired gid). }
    rewrite Hval. cbn [mbind py_bind].
    set (g' := {| g_kind := g_kind g; num_inputs := num_inputs g; output_value := val |}).
    assert (Hsame : ∀ x l1' l2', L = l1' ++ x :: l2' → x ∈ l1 ++ [gid] →
              ∀ n, pin_values (<[gid := g']> gs) (wires c) x n = pin_values gs (wires c) x n).
    { intros x l1' l2' HL' Hx n. apply pin_values_ext. intros src Hsrc.
      destruct (sources_before l1' x l2' src HL' Hsrc) as [Hsrc1 Hne].
      rewrite lookup_insert_ne; [done|]. intros <-.
      (* [gid] would stand before [x], which stands at or before [gid] *)
      apply Hout. apply elem_of_app in Hx as [Hx|Hx%list_elem_of_singleton].
      - apply list_elem_of_split in Hx as (a & b & ->).
        assert (a = l1') as ->.
        { apply (split_unique a l1' (b ++ gid :: l2) l2' x).
          - rewrite HL, <- app_assoc in Hnd. exact Hnd.
          - rewrite <- HL', HL. by rewrite <- app_assoc. }
        apply elem_of_app. by left.
      - subst x. assert (l1 = l1') as ->; [|done].
        apply (split_unique l1 l1' l2 l2' gid); [by rewrite <- HL|by rewrite <- HL]. }
    destruct (IH (l1 ++ [gid]) (<[gid := g']> gs)) as (gs' & Hrun & Hev').
    { by rewrite <- app_assoc. }
    { split.
      - intros x. rewrite lookup_insert_is_Some'. rewrite (ev_keys _ _ Hev x).
        split; [intros [<-|?]; done|tauto].
      - intros x gx. rewrite lookup_insert. case_decide as Hx.
        + intros [= <-]. subst x. exists g0. split_and!; [done..|].
          intros Hk. cbn [output_value g']. unfold evaluate in Hval.
          rewrite Hkind, Hk in Hval. injection Hval as <-. by apply Hinput.
        + apply (ev_gate _ _ Hev).
      - intros x Hx gx. rewrite lookup_insert. case_decide as Hxg.
        + intros [= <-]. subst x. cbn [num_inputs output_value g'].
          rewrite (Hsame gid l1 l2 HL Hx). by apply (evaluate_kind g g').
        + intros Hgx.
          assert (Hx1 : x ∈ l1).
          { apply elem_of_app in Hx as [?|?%list_elem_of_singleton]; [done|congruence]. }
          apply list_elem_of_split in Hx1 as Hsplit. destruct Hsplit as (a & b & Hab).
          rewrite (Hsame x a (b ++ gid :: l2)); [|by rewrite HL, Hab, <- app_assoc|done].
          by apply (ev_settled _ _ Hev x Hx1). }
    by exists gs'.
Qed.
End settle.

(** X16.  On a circuit without a cycle, [evaluate_circuit] raises nothing and
    leaves every gate settled: an INPUT keeps its value, and the output
    of every other gate is what the gate makes of the outputs of the
    gates that drive its pins ([False] at a pin without a wire). *)
Theorem evaluate_circuit_settles (set_order : gset string → list string) (c : circuit) :
  (∀ s, set_order s ≡ₚ elements s) → wired c → ¬ has_cycle c →
  ∃ gs,
    evaluate_circuit set_order (length (gate_ids c)) c
    = Some (Ret ({| gate_ids := gate_ids c; gates := gs; wires := wires c |},
                 [Redraw; ShowInfo "Evaluation complete"
                            "Circuit evaluated and outputs updated."])) ∧
    ∀ gid, gid ∈ gate_ids c →
      ∃ g g', gates c !! gid = Some g ∧ gs !! gid = Some g' ∧
        g_kind g' = g_kind g ∧ num_inputs g' = num_inputs g ∧
        (g_kind g = INPUT → output_value g' = output_value g) ∧
        evaluate g' (pin_values gs (wires c) gid (num_inputs g')) = Ret (output_value g').
Proof.
  intros Horder Hwired Hno.
  destruct (topological_order_cases set_order Horder c (wc_nodup c Hwired) (wc_wires c Hwired))
    as [[Hcyc _]|[_ (L & Hres & Hperm & Htop)]]; [done|].
  destruct (eval_order_ok c L Hwired Hperm Htop L [] (gates c)) as (gs & Hrun & Hev); [done| |].
  { split.
    - apply Hwired.
    - intros gid g Hg. exists g. by split_and!.
    - intros gid Hgid. by apply elem_of_nil in Hgid. }
  exists gs. split.
  - unfold evaluate_circuit. cbn zeta in Hres. rewrite Hres, Hrun. done.
  - intros gid Hgid. destruct (proj2 (ev_keys _ _ _ Hev gid) Hgid) as [g' Hg'].
    destruct (ev_gate _ _ _ Hev gid g' Hg') as (g & Hg & Hkind & Hnum & Hinput).
    exists g, g'. split_and!; [done..|].
    apply (ev_settled _ _ _ Hev gid); [by rewrite Hperm|done].
Qed.

(** Two INPUTs into an XOR and a NAND, both into an OR, and that into
    an OUTPUT. *)
Definition sample_circuit : circuit :=
  {| gate_ids := ["G1"; "G2"; "G3"; "G4"; "G5"; "G6"];
     gates := {[ "G1" := Gate INPUT 0 true; "G2" := Gate INPUT 0 false;
                 "G3" := Gate XOR 2 false; "G4" := Gate NAND 2 false;
                 "G5" := Gate OR 2 false; "G6" := Gate OUTPUT 1 false ]};
     wires := [Wire "G1" ("G3", 0%nat); Wire "G2" ("G3", 1%nat);
               Wire "G1" ("G4", 0%nat); Wire "G2" ("G4", 1%nat);
               Wire "G3" ("G5", 0%nat); Wire "G4" ("G5", 1%nat);
               Wire "G5" ("G6", 0%nat)] |}.

Lemma sample_circuit_wired : wired sample_circuit.
Proof.
  split.
  - apply (bool_decide_unpack _). vm_compute. exact I.
  - intros gid. rewrite <- elem_of_dom.
    replace (dom (gates sample_circuit))
      with (list_to_set (gate_ids sample_circuit) : gset string);
      [by rewrite elem_of_list_to_set|].
    apply (bool_decide_unpack _). vm_compute. exact I.
  - apply Forall_forall. apply (bool_decide_unpack _). vm_compute. exact I.
  - intros gid g Hg.
    assert (Hall : map_Forall (λ _ g, num_inputs g = pins_of (g_kind g))
                     (gates sample_circuit)).
    { apply (bool_decide_unpack _). vm_compute. exact I. }
    by apply (Hall gid g).
  - intros w g Hw. cbn [wires sample_circuit] in Hw.
    repeat (apply elem_of_cons in Hw as [->|Hw]); [..|by apply elem_of_nil in Hw];
      vm_compute; intros [= <-]; lia.
Qed.

Lemma sample_circuit_acyclic : ¬ has_cycle sample_circuit.
Proof.
  destruct (topological_order_cases elements (λ s, reflexivity _) sample_circuit
              (wc_nodup _ sample_circuit_wired) (wc_wires _ sample_circuit_wired))
    as [[_ Hres]|[Hno _]]; [|done].
  vm_compute in Hres. discriminate.
Qed.

Lemma evaluate_circuit_settles_witness :
  ∃ gs,
    evaluate_circuit elements (length (gate_ids sample_circuit)) sample_circuit
    = Some (Ret ({| gate_ids := gate_ids sample_circuit; gates := gs;
                    wires := wires sample_circuit |},
                 [Redraw; ShowInfo "Evaluation complete"
                            "Circuit evaluated and outputs updated."])) ∧
    ∀ gid, gid ∈ gate_ids sample_circuit →
      ∃ g g', gates sample_circuit !! gid = Some g ∧ gs !! gid = Some g' ∧
        g_kind g' = g_kind g ∧ num_inputs g' = num_inputs g ∧
        (g_kind g = INPUT → output_value g' = output_value g) ∧
        evaluate g' (pin_values gs (wires sample_circuit) gid (num_inputs g'))
        = Ret (output_value g').
Proof.
  apply (evaluate_circuit_settles elements sample_circuit).
  - intros s. reflexivity.
  - exact sample_circuit_wired.
  - exact sample_circuit_acyclic.
Defined.

Example sample_circuit_output :
  (match evaluate_circuit elements 6 sample_circuit with
   | Some (Ret (c, _)) => output_value <$> gates c !! "G6"
   | _ => None
   end) = Some true.
Proof. vm_compute. reflexivity. Qed.

End Evaluation.

(** ** How the callbacks handle a parsing failure *)

Module ErrorHandling.
Import ShortestPaths Comparison AdjacencyMatrix Circuit Evaluation.

(** The graph on the screen before the failing "Build Graph", and the
    text that is then entered: its second line has no number. *)
Definition stored_graph : Graph := graph_of [("a", "b", 1%Q)].
Definition bad_text : string := "c d 2
x y z".


Lemma parse_lines_fails py_float lines : ∀ i directed g g' e,
  parse_lines py_float i lines directed g = (g', Raise e) →
  ∃ msg, e = ValueError msg.
Proof.
  induction lines as [|line rest IH]; intros i directed g g' e; simpl; [done|].
  destruct (_ || _); [apply IH|].
  destruct (PyStr.split _) as [|u [|v [|w_str parts]]]; try (intros [= _ <-]; eauto).
  destruct (py_float w_str); [apply IH|]. intros [= _ <-]. eauto.
Qed.



End ErrorHandling.

(** ** Cancellation by a stop flag *)

Module Cancellation.

(** The flag is written by the UI thread and read by the worker.  The
    worker's view of it is the sequence of values its reads return:
    [flag k] is what the [k]-th read of the flag sees. *)
Abbreviation flag_reads := (nat → bool).

(** *** Coin Toss & Dice Roll Probability Simulator *)

Inductive sim_type : Type := Coin | Dice | Both.

(** The generator behind [random.random()] and [random.randint]: the
    [p]-th draw of the run. *)
Record rng : Type := Rng {
  uniform : nat → Q;
  randint : nat → Z → Z → Z
}.

Record sim_state : Type := Sim {
  heads : Z;
  tails : Z;
  dice_counts : gmap Z Z;
  draws : nat;
  progress : list ui
}.

(** [for _ in range(dice_count): total += random.randint(1, sides)] *)
Fixpoint roll (R : rng) (sides : Z) (count : nat) (total : Z) (p : nat) : Z * nat :=
  match count with
  | O => (total, p)
  | S c => roll R sides c (total + randint R p 1 sides) (S p)
  end.

Section simulator.
Variable R : rng.
Variable t : sim_type.
Variable coin_p : Q.
Variable sides : Z.
Variable dice_count : nat.
Variable trials : nat.

(** The body of the trial loop for trial [i]. *)
Definition trial (i : nat) (st : sim_state) : sim_state :=
let st :=
  match t with
  | Coin | Both =>
      let r := uniform R (draws st) in
      if Qle_bool coin_p r
      then {| heads := heads st; tails := tails st + 1; dice_counts := dice_counts st;
              draws := S (draws st); progress := progress st |}
      else {| heads := heads st + 1; tails := tails st; dice_counts := dice_counts st;
              draws := S (draws st); progress := progress st |}
  | Dice => st
  end in
let st :=
  match t with
  | Dice | Both =>
      let '(total, p) := roll R sides dice_count 0 (draws st) in
      {| heads := heads st; tails := tails st;
         dice_counts := <[total := default 0 (dice_counts st !! total) + 1]> (dice_counts st);
         draws := p; progress := progress st |}
  | Coin => st
  end in
if bool_decide ((S i) mod (Nat.max 1 (trials / 100)) = 0)%nat
   || bool_decide (i = trials - 1)%nat
then {| heads := heads st; tails := tails st; dice_counts := dice_counts st;
        draws := draws st;
        progress := progress st ++ [Log ("progress " +:+ pretty (S i))] |}
else st.

(** [for i in range(trials): if self._stop_sim: break; ...]; the check
  of round [i] is the [i]-th read of the flag. *)
Fixpoint trial_loop (flag : flag_reads) (i remaining : nat) (st : sim_state) : sim_state :=
match remaining with
| O => st
| S r => if flag i then st else trial_loop flag (S i) r (trial i st)
end.

(** The first [m] trials, with no flag in sight. *)
Fixpoint run_trials (i m : nat) (st : sim_state) : sim_state :=
match m with
| O => st
| S r => run_trials (S i) r (trial i st)
end.

Definition sim_init : sim_state :=
{| heads := 0; tails := 0; dice_counts := ∅; draws := 0; progress := [] |}.

(** [_simulate_thread]: the counters it hands to [self.results]. *)
Definition simulate_thread (flag : flag_reads) : sim_state :=
trial_loop flag 0 trials sim_init.
End simulator.

(** *** Hamiltonian Cycle Detector *)

(** [class Graph] of the detector: adjacency sets over integer nodes. *)
Record Graph : Type := MkGraph {
  adj : gmap Z (gset Z);
  nodes_set : gset Z
}.

(** [sorted(...)] of a set of integers. *)
Definition sorted (s : gset Z) : list Z := merge_sort Z.le (elements s).

(** [Graph.nodes] *)
Definition all_nodes (g : Graph) : gset Z :=
  nodes_set g ∪ dom (adj g) ∪ ⋃ ((map_to_list (adj g)).*2).
Definition nodes (g : Graph) : list Z := sorted (all_nodes g).

(** [self.graph.adj.get(u, set())] *)
Definition adj_get (g : Graph) (u : Z) : gset Z := default ∅ (adj g !! u).

Definition is_neighbor (g : Graph) (u v : Z) : bool := bool_decide (v ∈ adj_get g u).

(** What the search has done so far: how often it has read the flag,
    and the paths it has expanded, each with the number of the read
    that let it through. *)
Record search_state : Type := Search {
  reads : nat;
  expanded : list (nat * list Z)
}.

(** The mutable [path] is never empty: it is [first :: rest]. *)
Record frame : Type := Frame {
  first : Z;
  rest : list Z;
  visited : gset Z
}.

Definition path_of (f : frame) : list Z := first f :: rest f.
Definition last_of (f : frame) : Z := List.last (rest f) (first f).

Section search.
Variable flag : flag_reads.
Variable g : Graph.
Variable n : nat.

(** [for nbr in sorted(...)] of [backtrack]; [rec] is the recursive call. *)
Fixpoint try_neighbors
  (rec : frame → search_state → option (py (option (list Z) * frame * search_state)))
  (nbrs : list Z) (f : frame) (st : search_state)
: option (py (option (list Z) * frame * search_state)) :=
match nbrs with
| [] => Some (Ret (None, f, st))
| nbr :: more =>
    if decide (nbr ∈ visited f) then try_neighbors rec more f st
    else
      let f1 := {| first := first f; rest := rest f ++ [nbr];
                   visited := {[nbr]} ∪ visited f |} in
      match rec f1 st with
      | None => None
      | Some (Raise e) => Some (Raise e)
      | Some (Ret (Some res, f2, st2)) => Some (Ret (Some res, f2, st2))
      | Some (Ret (None, f2, st2)) =>
          (* path.pop(); visited.remove(nbr) *)
          match rest f2 with
          | [] => Some (Raise IndexError)
          | _ =>
              if decide (nbr ∈ visited f2) then
                try_neighbors rec more
                  {| first := first f2; rest := removelast (rest f2);
                     visited := visited f2 ∖ {[nbr]} |} st2
              else Some (Raise KeyError)
          end
      end
end.

(** [backtrack(path)]; [fuel] bounds the depth of the recursion. *)
Fixpoint backtrack (fuel : nat) (f : frame) (st : search_state)
: option (py (option (list Z) * frame * search_state)) :=
match fuel with
| O => None
| S fuel' =>
    if flag (reads st)
    then Some (Ret (None, f, {| reads := S (reads st); expanded := expanded st |}))
    else
      let st := {| reads := S (reads st);
                   expanded := expanded st ++ [(reads st, path_of f)] |} in
      if bool_decide (length (path_of f) = n) then
        if is_neighbor g (last_of f) (first f)
        then Some (Ret (Some (path_of f ++ [first f]), f, st))
        else Some (Ret (None, f, st))
      else
        try_neighbors (backtrack fuel') (sorted (adj_get g (last_of f))) f st
end.

(** [for start in nodes_sorted: ...] of [find_one_cycle]. *)
Fixpoint try_starts (fuel : nat) (starts : list Z) (st : search_state)
: option (py (option (list Z) * string * search_state)) :=
match starts with
| [] => Some (Ret (None, "No Hamiltonian cycle exists.", st))
| start :: more =>
    match backtrack fuel {| first := start; rest := []; visited := {[start]} |} st with
    | None => None
    | Some (Raise e) => Some (Raise e)
    | Some (Ret (Some res, _, st)) => Some (Ret (Some res, "Hamiltonian cycle found.", st))
    | Some (Ret (None, _, st)) =>
        if flag (reads st)
        then Some (Ret (None, "Search stopped.",
                        {| reads := S (reads st); expanded := expanded st |}))
        else try_starts fuel more {| reads := S (reads st); expanded := expanded st |}
    end
end.
End search.

(** [HamiltonianFinder.find_one_cycle] *)
Definition find_one_cycle (fuel : nat) (flag : flag_reads) (g : Graph)
  : option (py (option (list Z) * string * search_state)) :=
  match nodes g with
  | [] => Some (Ret (None, "Graph empty.", {| reads := 0; expanded := [] |}))
  | ns => try_starts flag g (length ns) fuel ns {| reads := 0; expanded := [] |}
  end.

(** *** The trial loop stops at the first check that sees the flag *)

Lemma trial_loop_stops R t coin_p sides dice_count trials flag :
  ∀ remaining i k st,
    flag (i + k)%nat = true → (∀ j, (j < k)%nat → flag (i + j)%nat = false) →
    trial_loop R t coin_p sides dice_count trials flag i remaining st
    = run_trials R t coin_p sides dice_count trials i (Nat.min k remaining) st.
Proof.
  induction remaining as [|r IH]; intros i k st Hk Hbefore.
  - by rewrite Nat.min_0_r.
  - destruct k as [|k]; cbn [trial_loop run_trials Nat.min].
    + rewrite Nat.add_0_r in Hk. by rewrite Hk.
    + pose proof (Hbefore 0%nat ltac:(lia)) as H0. rewrite Nat.add_0_r in H0.
      rewrite H0. apply IH.
      * by replace (S i + k)%nat with (i + S k)%nat by lia.
      * intros j Hj. replace (S i + j)%nat with (i + S j)%nat by lia. apply Hbefore. lia.
Qed.

(** *** The search *)

Definition count_false (flag : flag_reads) (r : nat) : nat :=
  length (filter (λ j, flag j = false) (seq 0 r)).

Lemma count_false_S flag r :
  count_false flag (S r) = (count_false flag r + if flag r then 0 else 1)%nat.
Proof.
  unfold count_false. rewrite seq_S, filter_app, length_app. simpl.
  rewrite filter_cons, filter_nil. destruct (flag r); by case_decide.
Qed.

Lemma count_false_mono flag r : (count_false flag r ≤ count_false flag (S r))%nat.
Proof. rewrite count_false_S. lia. Qed.

Lemma count_false_bound flag k r :
  (∀ j, (k ≤ j)%nat → flag j = true) → (count_false flag r ≤ k)%nat.
Proof.
  intros Hmono. assert (count_false flag r ≤ Nat.min r k)%nat; [|lia].
  induction r as [|r IH]; [done|]. rewrite count_false_S.
  destruct (flag r) eqn:Hr; [lia|].
  assert (r < k)%nat; [|lia].
  destruct (decide (r < k)%nat); [done|]. rewrite Hmono in Hr by lia. done.
Qed.

Lemma adj_get_all_nodes g u v : v ∈ adj_get g u → v ∈ all_nodes g.
Proof.
  unfold adj_get, all_nodes. destruct (adj g !! u) as [nb|] eqn:Hu; simpl; [|set_solver].
  intros Hv. apply elem_of_union. right. apply elem_of_union_list.
  exists nb. split; [|done]. apply list_elem_of_fmap. exists (u, nb).
  split; [done|]. by apply elem_of_map_to_list.
Qed.

Lemma sorted_elem (s : gset Z) x : x ∈ sorted s ↔ x ∈ s.
Proof. unfold sorted. by rewrite merge_sort_Permutation, elem_of_elements. Qed.

Lemma sorted_length (s : gset Z) : length (sorted s) = size s.
Proof. unfold sorted. by rewrite merge_sort_Permutation. Qed.

Section search_correct.
Variable flag : flag_reads.
Variable g : Graph.
Variable n : nat.

(** Every expansion went through a read that saw the flag down, and
  there are no more expansions than such reads. *)
Definition accounted (st : search_state) : Prop :=
Forall (λ e, flag e.1 = false) (expanded st) ∧
(length (expanded st) ≤ count_false flag (reads st))%nat.

Definition search_post (f : frame) (r : option (py (option (list Z) * frame * search_state)))
: Prop :=
∃ res f' st', r = Some (Ret (res, f', st')) ∧ accounted st' ∧ (res = None → f' = f).

Lemma accounted_skip st :
accounted st → accounted {| reads := S (reads st); expanded := expanded st |}.
Proof.
intros [Hall Hlen]. split; [done|]. simpl.
pose proof (count_false_mono flag (reads st)). lia.
Qed.

Lemma accounted_expand st p :
flag (reads st) = false → accounted st →
accounted {| reads := S (reads st); expanded := expanded st ++ [(reads st, p)] |}.
Proof.
intros Hf [Hall Hlen]. split; simpl.
- apply Forall_app. split; [done|]. by constructor.
- rewrite length_app, count_false_S, Hf. simpl. lia.
Qed.

Lemma try_neighbors_ok rec fuel :
(∀ f st, visited f ⊆ all_nodes g → (size (all_nodes g ∖ visited f) < fuel)%nat →
         accounted st → search_post f (rec f st)) →
∀ nbrs f st,
  (∀ x, x ∈ nbrs → x ∈ all_nodes g) → visited f ⊆ all_nodes g →
  (size (all_nodes g ∖ visited f) ≤ fuel)%nat → accounted st →
  search_post f (try_neighbors rec nbrs f st).
Proof.
intros Hrec. induction nbrs as [|nbr more IH]; intros f st Hin Hsub Hsize Hacc.
- exists None, f, st. done.
- assert (Hmore : ∀ x, x ∈ more → x ∈ all_nodes g) by (intros; apply Hin; by right).
  cbn [try_neighbors]. destruct (decide (nbr ∈ visited f)) as [Hv|Hv]; [by apply IH|].
  assert (HnU : nbr ∈ all_nodes g) by (apply Hin; by left).
  destruct (Hrec {| first := first f; rest := rest f ++ [nbr];
                    visited := {[nbr]} ∪ visited f |} st)
    as (res & f2 & st2 & -> & Hacc2 & Hsame); [simpl; set_solver| |done|].
  { simpl. eapply Nat.lt_le_trans; [|exact Hsize].
    apply subset_size. split; [set_solver|].
    intros Hc. assert (nbr ∈ all_nodes g ∖ ({[nbr]} ∪ visited f)) by set_solver. set_solver. }
  destruct res as [res|]; [exists (Some res), f2, st2; done|].
  rewrite (Hsame eq_refl). simpl.
  destruct (rest f ++ [nbr]) as [|y l] eqn:Hl; [by destruct (rest f)|]. rewrite <- Hl.
  rewrite decide_True by set_solver. rewrite removelast_last.
  replace (({[nbr]} ∪ visited f) ∖ {[nbr]}) with (visited f) by set_solver.
  destruct (IH f st2 Hmore Hsub Hsize Hacc2) as (res' & f' & st' & Hr & Hacc' & Hsame').
  destruct f as [ff fr fv]. simpl in *. rewrite Hr. by exists res', f', st'.
Qed.

Lemma backtrack_ok fuel : ∀ f st,
visited f ⊆ all_nodes g → (size (all_nodes g ∖ visited f) < fuel)%nat →
accounted st → search_post f (backtrack flag g n fuel f st).
Proof.
induction fuel as [|fuel IH]; intros f st Hsub Hsize Hacc; [lia|].
cbn [backtrack]. destruct (flag (reads st)) eqn:Hflag.
- eexists None, f, _. split_and!; [done|by apply accounted_skip|done].
- pose proof (accounted_expand st (path_of f) Hflag Hacc) as Hacc1.
  destruct (bool_decide (length (path_of f) = n)).
  + destruct (is_neighbor g (last_of f) (first f)).
    * eexists (Some _), f, _. done.
    * eexists None, f, _. done.
  + apply (try_neighbors_ok (backtrack flag g n fuel) fuel IH); [|done|lia|done].
    intros x Hx%sorted_elem. by eapply adj_get_all_nodes.
Qed.

Lemma try_starts_ok fuel starts : ∀ st,
(∀ x, x ∈ starts → x ∈ all_nodes g) → (size (all_nodes g) ≤ fuel)%nat →
accounted st →
∃ res msg st', try_starts flag g n fuel starts st = Some (Ret (res, msg, st')) ∧
               accounted st'.
Proof.
induction starts as [|start more IH]; intros st Hin Hfuel Hacc.
- by eexists _, _, _.
- assert (HsU : start ∈ all_nodes g) by (apply Hin; by left).
  cbn [try_starts].
  destruct (backtrack_ok fuel {| first := start; rest := []; visited := {[start]} |} st)
    as (res & f' & st' & -> & Hacc' & _); [simpl; set_solver| |done|].
  { simpl. eapply Nat.lt_le_trans; [|exact Hfuel].
    apply subset_size. split; [set_solver|].
    intros Hc. assert (start ∈ all_nodes g ∖ {[start]}) by set_solver. set_solver. }
  destruct res as [res|]; [by eexists _, _, _|].
  destruct (flag (reads st')).
  + eexists _, _, _. split; [done|]. by apply accounted_skip.
  + apply IH; [|done|by apply accounted_skip]. intros x Hx. apply Hin. by right.
Qed.
End search_correct.

Lemma find_one_cycle_ok flag g :
  ∃ res msg st,
    find_one_cycle (length (nodes g)) flag g = Some (Ret (res, msg, st)) ∧
    accounted flag st.
Proof.
  unfold find_one_cycle.
  assert (Hinit : accounted flag {| reads := 0; expanded := [] |}).
  { split; [constructor|simpl; lia]. }
  destruct (nodes g) as [|x l] eqn:Hn; [by eexists _, _, _|].
  rewrite <- Hn. apply try_starts_ok; [|by unfold nodes; rewrite sorted_length|done].
  intros y Hy. by apply sorted_elem in Hy.
Qed.

(** C8 (confirmed).  Once a read of the flag has returned [True], the
    trial loop of the simulator simulates no further trial: what it
    leaves behind is what the first [k] trials leave, [k] being the
    number of the first read that saw the flag.  The backtracking search
    returns whatever the flag does, it expands a path only after a read
    that saw the flag down, and if every read from the [k]-th on sees
    the flag up it expands at most [k] paths. *)
Theorem stop_flag_cancels :
  (∀ R t coin_p sides dice_count trials flag k,
     flag k = true → (∀ j, (j < k)%nat → flag j = false) →
     simulate_thread R t coin_p sides dice_count trials flag
     = run_trials R t coin_p sides dice_count trials 0 (Nat.min k trials) sim_init) ∧
  (∀ flag g k,
     (∀ j, (k ≤ j)%nat → flag j = true) →
     ∃ res msg st,
       find_one_cycle (length (nodes g)) flag g = Some (Ret (res, msg, st)) ∧
       Forall (λ e, flag e.1 = false ∧ (e.1 < k)%nat) (expanded st) ∧
       (length (expanded st) ≤ k)%nat).
Proof.
  split.
  - intros R t coin_p sides dice_count trials flag k Hk Hbefore.
    unfold simulate_thread. by apply trial_loop_stops.
  - intros flag g k Hmono.
    destruct (find_one_cycle_ok flag g) as (res & msg & st & Hrun & Hall & Hlen).
    exists res, msg, st. split_and!; [done| |].
    + eapply Forall_impl; [exact Hall|]. intros [t p] Ht. simpl in *. split; [done|].
      destruct (decide (t < k)%nat); [done|]. rewrite Hmono in Ht by lia. done.
    + pose proof (count_false_bound flag k (reads st) Hmono). lia.
Qed.

(** A triangle, and a flag that goes up before the third read. *)
Definition triangle : Graph :=
  {| adj := {[ 1 := {[2; 3]}; 2 := {[1; 3]}; 3 := {[1; 2]} ]};
     nodes_set := {[1; 2; 3]} |}.

Definition never : flag_reads := λ _, false.
Definition from (k : nat) : flag_reads := λ j, (k <=? j)%nat.

Example triangle_cycle :
  (match find_one_cycle 3 never triangle with
   | Some (Ret (res, msg, st)) => Some (res, msg, length (expanded st))
   | _ => None
   end) = Some (Some [1; 2; 3; 1], "Hamiltonian cycle found."%string, 3%nat).
Proof. vm_compute. reflexivity. Qed.

Example triangle_stopped :
  (match find_one_cycle 3 (from 2) triangle with
   | Some (Ret (res, msg, st)) => Some (res, msg, expanded st)
   | _ => None
   end) = Some (None, "Search stopped."%string, [(0%nat, [1]); (1%nat, [1; 2])]).
Proof. vm_compute. reflexivity. Qed.

Definition fair : rng := {| uniform := λ p, if Nat.even p then (1 # 4)%Q else (3 # 4)%Q;
                            randint := λ p lo hi, lo |}.

Example five_tosses_stopped :
  (let st := simulate_thread fair Coin (1 # 2) 6 1 5 (from 2) in (heads st, tails st))
  = (1, 1).
Proof. vm_compute. reflexivity. Qed.

Lemma stop_flag_cancels_witness :
  simulate_thread fair Coin (1 # 2) 6 1 5 (from 2)
  = run_trials fair Coin (1 # 2) 6 1 5 0 (Nat.min 2 5) sim_init ∧
  ∃ res msg st,
    find_one_cycle (length (nodes triangle)) (from 2) triangle = Some (Ret (res, msg, st)) ∧
    Forall (λ e, from 2 e.1 = false ∧ (e.1 < 2)%nat) (expanded st) ∧
    (length (expanded st) ≤ 2)%nat.
Proof.
  destruct stop_flag_cancels as [Hsim Hsearch]. split.
  - apply Hsim; [reflexivity|]. intros j Hj. unfold from. apply Nat.leb_gt. lia.
  - apply Hsearch. intros j Hj. unfold from. apply Nat.leb_le. lia.
Defined.

(** *** What the search finds when it is not stopped *)

(** Each node of the list is a neighbor of the one before it. *)
Fixpoint hops (g : Graph) (l : list Z) : Prop :=
  match l with
  | a :: (b :: _) as tl => b ∈ adj_get g a ∧ hops g tl
  | _ => True
  end.

(** A Hamiltonian cycle as [find_one_cycle] returns it: every node of
    the graph once, then the first node again, neighbors all along. *)
Definition hamiltonian (g : Graph) (c : list Z) : Prop :=
  ∃ x p, c = (x :: p) ++ [x] ∧ x :: p ≡ₚ nodes g ∧ hops g c.

Lemma hops_app g l1 x l2 :
  hops g (l1 ++ x :: l2) ↔ hops g (l1 ++ [x]) ∧ hops g (x :: l2).
Proof.
  induction l1 as [|a l1 IH]; [cbn; tauto|].
  destruct l1 as [|b l1]; [cbn; tauto|].
  change (hops g ((a :: b :: l1) ++ x :: l2))
    with (b ∈ adj_get g a ∧ hops g ((b :: l1) ++ x :: l2)).
  change (hops g ((a :: b :: l1) ++ [x]))
    with (b ∈ adj_get g a ∧ hops g ((b :: l1) ++ [x])).
  rewrite IH. tauto.
Qed.

Lemma hops_snoc g l a y :
  last l = Some a → hops g (l ++ [y]) ↔ hops g l ∧ y ∈ adj_get g a.
Proof.
  intros Hlast. apply last_Some in Hlast as [l' ->]. rewrite <- app_assoc. cbn [app].
  rewrite (hops_app g l' a [y]). cbn [hops]. tauto.
Qed.

Lemma last_default (l : list Z) d d' : l ≠ [] → List.last l d = List.last l d'.
Proof.
  induction l as [|a l IH]; [done|]. intros _. destruct l as [|b l]; [done|].
  change (List.last (b :: l) d = List.last (b :: l) d'). by apply IH.
Qed.

Lemma last_path f : last (path_of f) = Some (last_of f).
Proof.
  unfold path_of, last_of. destruct f as [x l v]. cbn [first rest]. clear v.
  revert x. induction l as [|y l IH]; intros x; [done|].
  rewrite last_cons, (IH y). destruct l as [|z l]; [done|].
  f_equal. change (List.last (z :: l) y = List.last (z :: l) x). by apply last_default.
Qed.

Section complete.
Variable g : Graph.
Variable n : nat.
Hypothesis Hn : n = size (all_nodes g).

(** The frames of the search. *)
Record sound (f : frame) : Prop := {
  sf_visited : visited f = list_to_set (path_of f);
  sf_nodup : NoDup (path_of f);
  sf_hops : hops g (path_of f);
  sf_nodes : visited f ⊆ all_nodes g
}.

(** [q] closes the path of the frame into a Hamiltonian cycle. *)
Definition completes (f : frame) (q : list Z) : Prop :=
  NoDup (path_of f ++ q) ∧ length (path_of f ++ q) = n ∧
  hops g (path_of f ++ q ++ [first f]).

Definition searched (f : frame)
    (r : option (py (option (list Z) * frame * search_state))) : Prop :=
  ∃ res f' st', r = Some (Ret (res, f', st')) ∧
    match res with
    | Some c => ∃ q, completes f q ∧ c = path_of f ++ q ++ [first f]
    | None => f' = f ∧ ∀ q, ¬ completes f q
    end.

Lemma sound_push f nbr :
  sound f → nbr ∈ adj_get g (last_of f) → nbr ∉ visited f →
  sound {| first := first f; rest := rest f ++ [nbr]; visited := {[nbr]} ∪ visited f |}.
Proof.
  intros [Hv Hnd Hh Hsub] Hnbr Hnew.
  assert (Hpath : path_of {| first := first f; rest := rest f ++ [nbr];
                             visited := {[nbr]} ∪ visited f |} = path_of f ++ [nbr]) by done.
  split; rewrite ?Hpath; cbn [visited].
  - rewrite Hv, list_to_set_app_L. cbn. set_solver.
  - apply NoDup_app. split_and!; [done| |apply NoDup_singleton].
    intros x Hx ->%list_elem_of_singleton. apply Hnew. rewrite Hv. by apply elem_of_list_to_set.
  - apply (hops_snoc g _ (last_of f)); [apply last_path|done].
  - pose proof (adj_get_all_nodes g _ _ Hnbr). set_solver.
Qed.

Lemma completes_push f nbr v q :
  completes {| first := first f; rest := rest f ++ [nbr]; visited := v |} q
  ↔ completes f (nbr :: q).
Proof.
  unfold completes.
  change (path_of {| first := first f; rest := rest f ++ [nbr]; visited := v |})
    with (path_of f ++ [nbr]).
  cbn [first]. rewrite <- !app_assoc. done.
Qed.

Lemma try_neighbors_search rec fuel :
  (∀ f st, sound f → (size (all_nodes g ∖ visited f) < fuel)%nat → searched f (rec f st)) →
  ∀ nbrs f st,
    sound f → (∀ x, x ∈ nbrs → x ∈ adj_get g (last_of f)) →
    (size (all_nodes g ∖ visited f) ≤ fuel)%nat →
    ∃ res f' st', try_neighbors rec nbrs f st = Some (Ret (res, f', st')) ∧
      match res with
      | Some c => ∃ q, completes f q ∧ c = path_of f ++ q ++ [first f]
      | None => f' = f ∧ ∀ y q, y ∈ nbrs → ¬ completes f (y :: q)
      end.
Proof.
  intros Hrec. induction nbrs as [|nbr more IH]; intros f st Hf Hin Hsize.
  - exists None, f, st. split; [done|]. split; [done|]. intros y q Hy. by apply elem_of_nil in Hy.
  - assert (Hmore : ∀ x, x ∈ more → x ∈ adj_get g (last_of f)) by (intros; apply Hin; by right).
    assert (Hnbr : nbr ∈ adj_get g (last_of f)) by (apply Hin; by left).
    cbn [try_neighbors]. destruct (decide (nbr ∈ visited f)) as [Hv|Hv].
    + destruct (IH f st Hf Hmore Hsize) as (res & f' & st' & Hrun & Hres).
      exists res, f', st'. split; [done|]. destruct res as [c|]; [done|].
      destruct Hres as [-> Hnone]. split; [done|].
      intros y q [->|Hy]%elem_of_cons; [|by apply Hnone].
      intros [Hnd _]. apply NoDup_app in Hnd as (_ & Hnd & _).
      apply (Hnd nbr); [|by left]. rewrite (sf_visited f Hf) in Hv.
      by apply elem_of_list_to_set in Hv.
    + pose proof (sound_push f nbr Hf Hnbr Hv) as Hf1.
      pose proof (adj_get_all_nodes g _ _ Hnbr) as HnU.
      destruct (Hrec {| first := first f; rest := rest f ++ [nbr];
                        visited := {[nbr]} ∪ visited f |} st Hf1)
        as (res & f2 & st2 & -> & Hres).
      { cbn [visited]. eapply Nat.lt_le_trans; [|exact Hsize].
        apply subset_size. split; [set_solver|].
        intros Hc. assert (nbr ∈ all_nodes g ∖ ({[nbr]} ∪ visited f)) by set_solver.
        set_solver. }
      destruct res as [c|].
      * exists (Some c), f2, st2. split; [done|]. destruct Hres as (q & Hq & ->).
        exists (nbr :: q). split; [by apply completes_push in Hq|].
        change (path_of {| first := first f; rest := rest f ++ [nbr];
                           visited := {[nbr]} ∪ visited f |}) with (path_of f ++ [nbr]).
        cbn [first]. by rewrite <- !app_assoc.
      * destruct Hres as [-> Hnone]. cbn [rest visited first].
        destruct (rest f ++ [nbr]) as [|y l] eqn:Hl; [by destruct (rest f)|].
        rewrite <- Hl in Hnone |- *.
        rewrite decide_True by set_solver. rewrite removelast_last.
        replace (({[nbr]} ∪ visited f) ∖ {[nbr]}) with (visited f) by set_solver.
        replace {| first := first f; rest := rest f; visited := visited f |} with f
          by by destruct f.
        destruct (IH f st2 Hf Hmore Hsize) as (res & f' & st' & Hrun & Hres).
        exists res, f', st'. split; [done|]. destruct res as [c|]; [done|].
        destruct Hres as [-> Hnone']. split; [done|].
        intros y0 q [->|Hy]%elem_of_cons; [|by apply Hnone'].
        intros Hq. apply (Hnone q). by apply completes_push.
Qed.

Lemma backtrack_search fuel : ∀ f st,
  sound f → (size (all_nodes g ∖ visited f) < fuel)%nat →
  searched f (backtrack never g n fuel f st).
Proof.
  induction fuel as [|fuel IH]; intros f st Hf Hsize; [lia|].
  cbn [backtrack]. unfold never at 1. cbn beta.
  destruct (bool_decide_reflect (length (path_of f) = n)) as [Hlen|Hlen].
  - unfold is_neighbor.
    destruct (bool_decide_reflect (first f ∈ adj_get g (last_of f))) as [Hnb|Hnb].
    + eexists (Some _), f, _. split; [done|]. exists []. split; [|done].
      unfold completes. rewrite app_nil_r. split_and!; [apply Hf|done|].
      apply (hops_snoc g _ (last_of f)); [apply last_path|]. split; [apply Hf|done].
    + eexists None, f, _. split; [done|]. split; [done|].
      intros q (_ & Hq & Hh). rewrite length_app in Hq.
      destruct q as [|y q]; [|cbn [length] in Hq; lia]. cbn [app] in Hh.
      by apply (hops_snoc g _ (last_of f)) in Hh as [_ Hh]; [|apply last_path].
  - destruct (try_neighbors_search (backtrack never g n fuel) fuel IH
                (sorted (adj_get g (last_of f))) f
                {| reads := S (reads st); expanded := expanded st ++ [(reads st, path_of f)] |}
                Hf) as (res & f' & st' & Hrun & Hres); [|lia|].
    { intros x Hx. by apply sorted_elem in Hx. }
    exists res, f', st'. split; [done|]. destruct res as [c|]; [done|].
    destruct Hres as [-> Hnone]. split; [done|].
    intros [|y q] Hq.
    + destruct Hq as (_ & Hq & _). by rewrite app_nil_r in Hq.
    + apply (Hnone y q); [|done]. destruct Hq as (_ & _ & Hh).
      pose proof (last_path f) as Hlast. apply last_Some in Hlast as [l' Hl'].
      rewrite Hl', <- app_assoc in Hh. cbn [app] in Hh.
      apply (hops_app g l' (last_of f)) in Hh as [_ Hh]. cbn [hops] in Hh.
      apply sorted_elem. tauto.
Qed.

Definition start_frame (s : Z) : frame := {| first := s; rest := []; visited := {[s]} |}.

Lemma start_sound s : s ∈ all_nodes g → sound (start_frame s).
Proof.
  intros Hs. split; cbn.
  - set_solver.
  - apply NoDup_singleton.
  - done.
  - set_solver.
Qed.

Lemma try_starts_search starts : ∀ st,
  (∀ x, x ∈ starts → x ∈ all_nodes g) →
  ∃ res msg st', try_starts never g n n starts st = Some (Ret (res, msg, st')) ∧
    match res with
    | Some c => msg = "Hamiltonian cycle found." ∧
                ∃ s q, completes (start_frame s) q ∧ c = s :: q ++ [s]
    | None => msg = "No Hamiltonian cycle exists." ∧
              ∀ s q, s ∈ starts → ¬ completes (start_frame s) q
    end.
Proof.
  induction starts as [|s more IH]; intros st Hin.
  - eexists None, _, _. split; [done|]. split; [done|]. intros s q Hs. by apply elem_of_nil in Hs.
  - assert (HsU : s ∈ all_nodes g) by (apply Hin; by left).
    cbn [try_starts].
    destruct (backtrack_search n (start_frame s) st (start_sound s HsU))
      as (res & f' & st' & Hrun & Hres).
    { cbn [visited start_frame]. rewrite Hn. apply subset_size. split; [set_solver|].
      intros Hc. assert (s ∈ all_nodes g ∖ {[s]}) by set_solver. set_solver. }
    fold (start_frame s). rewrite Hrun. destruct res as [c|].
    + eexists (Some c), _, _. split; [done|]. split; [done|].
      destruct Hres as (q & Hq & ->). by exists s, q.
    + destruct Hres as [-> Hnone]. unfold never at 1. cbn beta.
      destruct (IH {| reads := S (reads st'); expanded := expanded st' |})
        as (res & msg & st2 & Hrun2 & Hres2).
      { intros x Hx. apply Hin. by right. }
      exists res, msg, st2. split; [done|]. destruct res as [c|]; [done|].
      destruct Hres2 as [-> Hnone2]. split; [done|].
      intros s0 q [->|Hs0]%elem_of_cons; [apply Hnone|by apply Hnone2].
Qed.

(** A completion from a start is a Hamiltonian cycle. *)
Lemma completes_hamiltonian s q :
  s ∈ all_nodes g → (∀ x, x ∈ q → x ∈ all_nodes g) →
  completes (start_frame s) q → hamiltonian g (s :: q ++ [s]).
Proof.
  intros Hs Hq (Hnd & Hlen & Hh). cbn in Hnd, Hlen, Hh.
  exists s, q. split_and!; [done| |done].
  unfold nodes, sorted. rewrite merge_sort_Permutation.
  apply submseteq_length_Permutation.
  - apply NoDup_submseteq; [done|]. intros x [->|Hx]%elem_of_cons; apply elem_of_elements; auto.
  - cbn [length]. rewrite Hlen, Hn. done.
Qed.

Lemma hops_nodes l : hops g l → ∀ x, x ∈ l → l ≠ [x] → x ∈ all_nodes g.
Proof.
  induction l as [|a l IH]; intros Hh x Hx Hne; [by apply elem_of_nil in Hx|].
  destruct l as [|b l]; [apply list_elem_of_singleton in Hx as ->; done|].
  destruct Hh as [Hab Hh]. apply elem_of_cons in Hx as [->|Hx].
  - unfold adj_get in Hab. destruct (adj g !! a) as [nb|] eqn:Ha; [|set_solver].
    unfold all_nodes. apply elem_of_union. left. apply elem_of_union. right.
    apply elem_of_dom. eauto.
  - destruct l as [|c l].
    + apply list_elem_of_singleton in Hx as ->. by eapply adj_get_all_nodes.
    + apply IH; [done..|]. discriminate.
Qed.

(** Every Hamiltonian cycle can be started at any node. *)
Lemma hamiltonian_rotate c s :
  hamiltonian g c → s ∈ all_nodes g → ∃ q, completes (start_frame s) q.
Proof.
  intros (x & p & -> & Hperm & Hh) Hs.
  assert (Hnd : NoDup (x :: p)).
  { rewrite Hperm. unfold nodes, sorted. rewrite merge_sort_Permutation. apply NoDup_elements. }
  assert (Hlen : length (x :: p) = n).
  { rewrite Hperm, Hn. unfold nodes. apply sorted_length. }
  assert (Hin : s ∈ x :: p).
  { rewrite Hperm. unfold nodes. by apply sorted_elem. }
  apply list_elem_of_split in Hin as (a & b & Hab).
  exists (b ++ a). unfold completes, start_frame, path_of. cbn [first rest app].
  split_and!.
  - rewrite Hab in Hnd. rewrite (Permutation_app_comm b a).
    by rewrite Permutation_middle.
  - rewrite <- Hlen, Hab. rewrite !length_app. cbn [length]. rewrite length_app. lia.
  - rewrite Hab in Hh. rewrite <- app_assoc in Hh. cbn [app] in Hh.
    apply (hops_app g a s) in Hh as [Ha Hb].
    destruct a as [|x' a].
    + cbn [app] in *. injection Hab as <- <-. by rewrite app_nil_r.
    + cbn [app] in Hab. injection Hab as <- ->.
      replace (s :: (b ++ x :: a) ++ [s]) with ((s :: b) ++ x :: (a ++ [s]))
        by (cbn [app]; by rewrite <- app_assoc).
      by apply (hops_app g (s :: b) x).
Qed.
End complete.

(** X17.  When it is not stopped, [find_one_cycle] returns (given [fuel] for
    as many nested calls as the graph has nodes) a Hamiltonian cycle
    whenever the graph has one, and says that there is none only when
    there is none. *)
Theorem find_one_cycle_correct (g : Graph) :
  ∃ res msg st,
    find_one_cycle (length (nodes g)) never g = Some (Ret (res, msg, st)) ∧
    match res with
    | Some c => msg = "Hamiltonian cycle found." ∧ hamiltonian g c
    | None =>
        (if decide (nodes g = []) then msg = "Graph empty."
         else msg = "No Hamiltonian cycle exists.") ∧
        ∀ c, ¬ hamiltonian g c
    end.
Proof.
  unfold find_one_cycle. destruct (nodes g) as [|s0 l] eqn:Hnodes.
  - eexists None, _, _. split; [done|]. split; [done|].
    intros c (x & p & _ & Hperm & _). rewrite Hnodes in Hperm.
    symmetry in Hperm. by apply Permutation_nil_cons in Hperm.
  - rewrite <- Hnodes.
    assert (Hn : length (nodes g) = size (all_nodes g)) by apply sorted_length.
    assert (Hin : ∀ x, x ∈ nodes g → x ∈ all_nodes g).
    { intros x Hx. by apply sorted_elem in Hx. }
    destruct (try_starts_search g (length (nodes g)) Hn (nodes g)
                {| reads := 0; expanded := [] |} Hin) as (res & msg & st & Hrun & Hres).
    exists res, msg, st. split; [done|]. destruct res as [c|].
    + destruct Hres as (-> & s & q & Hq & ->). split; [done|].
      assert (Hs : s ∈ all_nodes g).
      { destruct Hq as (_ & _ & Hh). cbn in Hh.
        apply (hops_nodes g (s :: q ++ [s]) Hh); [by left|]. by destruct q. }
      apply (completes_hamiltonian g (length (nodes g)) Hn s q Hs); [|done].
      intros x Hx. destruct Hq as (_ & _ & Hh). cbn in Hh.
      apply (hops_nodes g (s :: q ++ [s]) Hh).
      * right. apply elem_of_app. by left.
      * by destruct q.
    + destruct Hres as [-> Hnone]. split; [by rewrite decide_False by by rewrite Hnodes|].
      intros c Hc.
      assert (Hs0 : s0 ∈ nodes g) by (rewrite Hnodes; by left).
      destruct (hamiltonian_rotate g (length (nodes g)) Hn c s0 Hc (Hin s0 Hs0)) as [q Hq].
      by apply (Hnone s0 q).
Qed.

(** A square with one diagonal and a pendant node: no cycle through all
    five nodes. *)
Definition kite : Graph :=
  {| adj := {[ 1 := {[2; 4]}; 2 := {[1; 3; 4]}; 3 := {[2; 4]}; 4 := {[1; 2; 3; 5]};
               5 := {[4]} ]};
     nodes_set := {[1; 2; 3; 4; 5]} |}.

Example kite_none :
  (match find_one_cycle 5 never kite with
   | Some (Ret (res, msg, st)) => Some (res, msg, length (expanded st))
   | _ => None
   end) = Some (None, "No Hamiltonian cycle exists."%string, 63%nat).
Proof. vm_compute. reflexivity. Qed.

(** *** What the simulator's counters add up to *)

Definition coin_on (t : sim_type) : bool :=
  match t with Coin | Both => true | Dice => false end.
Definition dice_on (t : sim_type) : bool :=
  match t with Dice | Both => true | Coin => false end.

(** [sum(dice_counts.values())] *)
Definition count_sum (m : gmap Z Z) : Z := map_fold (λ _ v acc, v + acc) 0 m.

Lemma count_sum_insert (m : gmap Z Z) (k v : Z) :
  m !! k = None → count_sum (<[k := v]> m) = v + count_sum m.
Proof.
  intros Hk. unfold count_sum. rewrite map_fold_insert_L; [done| |done].
  intros. lia.
Qed.

Lemma count_sum_incr (m : gmap Z Z) (k : Z) :
  count_sum (<[k := default 0 (m !! k) + 1]> m) = count_sum m + 1.
Proof.
  destruct (m !! k) as [v|] eqn:Hk; cbn [default from_option id].
  - assert (H1 : count_sum m = v + count_sum (delete k m)).
    { rewrite <- (insert_delete_id m k v Hk) at 1. apply count_sum_insert, lookup_delete_eq. }
    assert (H2 : count_sum (<[k := v + 1]> m) = v + 1 + count_sum (delete k m)).
    { rewrite <- insert_delete_eq. apply count_sum_insert, lookup_delete_eq. }
    lia.
  - rewrite count_sum_insert by done. lia.
Qed.

Lemma roll_range (R : rng) (sides : Z) :
  (∀ p, 1 ≤ randint R p 1 sides ≤ sides) →
  ∀ count total p,
    (roll R sides count total p).2 = (p + count)%nat ∧
    total + Z.of_nat count ≤ (roll R sides count total p).1 ≤ total + Z.of_nat count * sides.
Proof.
  intros HR. induction count as [|c IH]; intros total p; cbn [roll].
  - cbn. split; [lia|nia].
  - destruct (IH (total + randint R p 1 sides) (S p)) as [Hp Ht].
    pose proof (HR p). split; [lia|nia].
Qed.

(** The counters after [k] trials. *)
Record counted (t : sim_type) (sides : Z) (dice_count k : nat) (st : sim_state) : Prop := {
  ct_coin : heads st + tails st = (if coin_on t then Z.of_nat k else 0);
  ct_heads : 0 ≤ heads st;
  ct_tails : 0 ≤ tails st;
  ct_dice : count_sum (dice_counts st) = (if dice_on t then Z.of_nat k else 0);
  ct_keys : ∀ key v, dice_counts st !! key = Some v →
              0 < v ∧ Z.of_nat dice_count ≤ key ≤ Z.of_nat dice_count * sides;
  ct_draws : draws st
             = (k * ((if coin_on t then 1 else 0) + (if dice_on t then dice_count else 0)))%nat
}.

Lemma counted_init t sides dice_count : counted t sides dice_count 0 sim_init.
Proof.
  split; cbn; try done; try by destruct (coin_on t), (dice_on t).
Qed.

Lemma trial_counted R t coin_p sides dice_count trials (i k : nat) (st : sim_state) :
  (dice_on t = true → ∀ p, 1 ≤ randint R p 1 sides ≤ sides) →
  counted t sides dice_count k st →
  counted t sides dice_count (S k) (trial R t coin_p sides dice_count trials i st).
Proof.
  intros randint_range [Hc Hh Ht Hd Hk Hp].
  assert (Hshow : ∀ st', counted t sides dice_count (S k) st' →
    counted t sides dice_count (S k)
      (if bool_decide ((S i) mod (Nat.max 1 (trials / 100)) = 0)%nat
          || bool_decide (i = trials - 1)%nat
       then {| heads := heads st'; tails := tails st'; dice_counts := dice_counts st';
               draws := draws st';
               progress := progress st' ++ [Log ("progress " +:+ pretty (S i))] |}
       else st')).
  { intros st' H. destruct (_ || _); [|done]. by destruct H. }
  unfold trial. apply Hshow. clear Hshow.
  destruct t; cbn [coin_on dice_on] in *.
  - destruct (Qle_bool coin_p (uniform R (draws st)));
      (split; cbn; [lia|lia|lia|done|exact Hk|lia]).
  - pose proof (roll_range R sides (randint_range eq_refl) dice_count 0 (draws st)) as [Hr1 Hr2].
    destruct (roll R sides dice_count 0 (draws st)) as [tot p]. cbn in Hr1, Hr2.
    split; cbn; try done.
    + rewrite count_sum_incr. lia.
    + intros key v. rewrite lookup_insert. case_decide as Hkey.
      * intros [= <-]. subst key. split; [|lia].
        destruct (dice_counts st !! tot) as [v|] eqn:Hv; cbn; [|lia].
        destruct (Hk tot v Hv). lia.
      * apply Hk.
    + lia.
  - pose proof (roll_range R sides (randint_range eq_refl) dice_count 0) as Hroll.
    destruct (Qle_bool coin_p (uniform R (draws st))); cbn [draws heads tails dice_counts progress];
      specialize (Hroll (S (draws st))); destruct Hroll as [Hr1 Hr2];
      destruct (roll R sides dice_count 0 (S (draws st))) as [tot p]; cbn in Hr1, Hr2;
      (split; cbn; try done; try lia;
       [rewrite count_sum_incr; lia
       |intros key v; rewrite lookup_insert; case_decide as Hkey;
        [intros [= <-]; subst key; split; [|lia];
         destruct (dice_counts st !! tot) as [v|] eqn:Hv; cbn; [|lia];
         destruct (Hk tot v Hv); lia
        |apply Hk]]).
Qed.

Lemma trial_loop_counted R t coin_p sides dice_count trials (flag : flag_reads) :
  (dice_on t = true → ∀ p, 1 ≤ randint R p 1 sides ≤ sides) →
  ∀ remaining i k st,
    counted t sides dice_count k st →
    ∃ m, (m ≤ remaining)%nat ∧
         (∀ j, (j < m)%nat → flag (i + j)%nat = false) ∧
         ((m < remaining)%nat → flag (i + m)%nat = true) ∧
         counted t sides dice_count (k + m)
           (trial_loop R t coin_p sides dice_count trials flag i remaining st).
Proof.
  intros HR. induction remaining as [|r IH]; intros i k st Hst; cbn [trial_loop].
  - exists 0%nat. rewrite !Nat.add_0_r. split_and!; [done|lia|lia|done].
  - destruct (flag i) eqn:Hi.
    + exists 0%nat. rewrite !Nat.add_0_r. split_and!; [lia|lia|done|done].
    + destruct (IH (S i) (S k) _ (trial_counted R t coin_p sides dice_count trials i k st HR Hst)) as (m & Hm & Hbefore & Hat & Hc).
      exists (S m). split_and!.
      * lia.
      * intros [|j] Hj; [by rewrite Nat.add_0_r|].
        replace (i + S j)%nat with (S i + j)%nat by lia. apply Hbefore. lia.
      * intros Hlt. replace (i + S m)%nat with (S i + m)%nat by lia. apply Hat. lia.
      * by replace (k + S m)%nat with (S k + m)%nat by lia.
Qed.

(** X22.  The counters that [_simulate_thread] hands over count the trials it
    has completed: [k], the number of flag checks that passed before the
    first one that saw the flag, and [trials] itself when none did.
    Heads and tails add up to [k] when coins are tossed, the dice
    counts add up to [k] when dice are rolled (the total that the result
    text shows as the number of trials), every recorded sum has a
    positive count and lies between [dice_count] and
    [dice_count * sides], and the generator has been called once per
    toss and once per die. *)
Theorem simulate_thread_counts (R : rng) (t : sim_type) (coin_p : Q) (sides : Z)
    (dice_count trials : nat) (flag : flag_reads) :
  (dice_on t = true → ∀ p, 1 ≤ randint R p 1 sides ≤ sides) →
  let st := simulate_thread R t coin_p sides dice_count trials flag in
  ∃ k : nat,
    (k ≤ trials)%nat ∧ (∀ j, (j < k)%nat → flag j = false) ∧
    ((k < trials)%nat → flag k = true) ∧
    heads st + tails st = (if coin_on t then Z.of_nat k else 0) ∧ 0 ≤ heads st ∧ 0 ≤ tails st ∧
    count_sum (dice_counts st) = (if dice_on t then Z.of_nat k else 0) ∧
    (∀ key v, dice_counts st !! key = Some v →
       0 < v ∧ Z.of_nat dice_count ≤ key ≤ Z.of_nat dice_count * sides) ∧
    draws st
    = (k * ((if coin_on t then 1 else 0) + (if dice_on t then dice_count else 0)))%nat.
Proof.
  intros HR st.
  destruct (trial_loop_counted R t coin_p sides dice_count trials flag HR trials 0%nat 0%nat
              sim_init (counted_init t sides dice_count)) as (k & Hk & Hbefore & Hat & Hc).
  exists k. destruct Hc as [H1 H2 H3 H4 H5 H6]. by split_and!.
Qed.

Definition loaded : rng := {| uniform := λ p, if Nat.even p then (1 # 4)%Q else (3 # 4)%Q;
                              randint := λ p lo hi, if Nat.even p then lo else hi |}.

Lemma simulate_thread_counts_witness :
  let st := simulate_thread loaded Both (1 # 2) 6 2 5 (from 3) in
  ∃ k : nat,
    (k ≤ 5)%nat ∧ (∀ j, (j < k)%nat → from 3 j = false) ∧
    ((k < 5)%nat → from 3 k = true) ∧
    heads st + tails st = (if coin_on Both then Z.of_nat k else 0) ∧ 0 ≤ heads st ∧ 0 ≤ tails st ∧
    count_sum (dice_counts st) = (if dice_on Both then Z.of_nat k else 0) ∧
    (∀ key v, dice_counts st !! key = Some v → 0 < v ∧ Z.of_nat 2 ≤ key ≤ Z.of_nat 2 * 6) ∧
    draws st
    = (k * ((if coin_on Both then 1 else 0) + (if dice_on Both then 2 else 0)))%nat.
Proof.
  apply (simulate_thread_counts loaded Both (1 # 2) 6 2 5 (from 3)).
  intros _ p. cbn. destruct (Nat.even p); lia.
Defined.

Example three_rounds_counted :
  (let st := simulate_thread loaded Both (1 # 2) 6 2 5 (from 3) in
   (heads st, tails st, map_to_list (dice_counts st), draws st))
  = (2, 1, [(7, 3)], 9%nat).
Proof. vm_compute. reflexivity. Qed.

End Cancellation.

(** ** Network Flow (Ford-Fulkerson) Simulation *)

Module Flow.

Abbreviation dict2 := (gmap Z (gmap Z Z)).

(** [d[u][v]] read with a default, as [d.get(u, {}).get(v, 0)] does. *)
Definition get2 (d : dict2) (u v : Z) : Z := default 0 (default ∅ (d !! u) !! v).

(** [d[u][v] = x] on a [defaultdict(dict)]. *)
Definition set2 (d : dict2) (u v x : Z) : dict2 :=
  <[u := <[v := x]> (default ∅ (d !! u))]> d.

(** [class FlowGraph]: [self.adj]. *)
Record FlowGraph : Type := MkFlowGraph { adj : dict2 }.

Definition empty_graph : FlowGraph := {| adj := ∅ |}.

Definition add_edge (g : FlowGraph) (u v cap : Z) : py FlowGraph :=
  if cap <=? 0 then Raise (ValueError "Capacity must be positive")
  else
    let a := set2 (adj g) u v (get2 (adj g) u v + cap) in
    (* if v not in self.adj: _ = self.adj[v] *)
    let a := match a !! v with
             | Some _ => a
             | None => <[v := ∅]> a
             end in
    Ret {| adj := a |}.

(** A number that may be [math.inf]: the bottleneck starts there. *)
Inductive num : Type :=
| Fin (z : Z)
| Inf.

Definition num_min (a : num) (b : Z) : num :=
  match a with
  | Fin x => Fin (Z.min x b)
  | Inf => Fin b
  end.

Definition num_add (a b : num) : num :=
  match a, b with
  | Fin x, Fin y => Fin (x + y)
  | _, _ => Inf
  end.

Section edmonds_karp.
(** The order in which a dict is iterated is the order in which its
    keys were inserted, which the maps here do not record; the routines
    are taken over arbitrary enumerations: [items u m] for the inner
    dict [m] found under key [u], [outer m] for the outer dict. *)
Variable items : Z → gmap Z Z → list (Z * Z).
Variable outer : dict2 → list (Z * gmap Z Z).

(** [R[u][v] = cap; if u not in R[v]: R[v][u] = 0] *)
Definition add_residual (u : Z) (R : dict2) (e : Z * Z) : dict2 :=
  let '(v, cap) := e in
  let R := set2 R u v cap in
  match default ∅ (R !! v) !! u with
  | Some _ => R
  | None => set2 R v u 0
  end.

Definition build_residual (g : FlowGraph) : dict2 :=
  fold_left (λ R '(u, row), fold_left (add_residual u) (items u row) R)
            (outer (adj g)) ∅.

(** [for v, cap in R[u].items(): if v not in parent and cap > 0: ...] *)
Fixpoint scan (u : Z) (row : list (Z * Z)) (parent : gmap Z (option Z)) (q : list Z)
  : gmap Z (option Z) * list Z :=
  match row with
  | [] => (parent, q)
  | (v, cap) :: rest =>
      match parent !! v with
      | None =>
          if 0 <? cap then scan u rest (<[v := Some u]> parent) (q ++ [v])
          else scan u rest parent q
      | Some _ => scan u rest parent q
      end
  end.

(** [while q and sink not in parent: u = q.popleft(); ...] *)
Fixpoint bfs (fuel : nat) (R : dict2) (sink : Z) (q : list Z) (parent : gmap Z (option Z))
  : option (gmap Z (option Z)) :=
  match q with
  | [] => Some parent
  | u :: q' =>
      match parent !! sink with
      | Some _ => Some parent
      | None =>
          match fuel with
          | O => None
          | S f =>
              let '(parent, q') := scan u (items u (default ∅ (R !! u))) parent q' in
              bfs f R sink q' parent
          end
      end
  end.

(** [R[u][v]] as a subscript: [KeyError] when [v] is no key of [R[u]]. *)
Definition item2 (R : dict2) (u v : Z) : py Z :=
  match default ∅ (R !! u) !! v with
  | Some x => Ret x
  | None => Raise KeyError
  end.

(** [while v != source: u = parent[v]; path.append((u, v)); ...] *)
Fixpoint trace_back (fuel : nat) (R : dict2) (parent : gmap Z (option Z)) (source v : Z)
    (path : list (Z * Z)) (bottleneck : num) : option (py (list (Z * Z) * num)) :=
  if decide (v = source) then Some (Ret (path, bottleneck))
  else
    match fuel with
    | O => None
    | S f =>
        match parent !! v with
        | None | Some None => Some (Raise KeyError)
        | Some (Some u) =>
            match item2 R u v with
            | Raise e => Some (Raise e)
            | Ret r => trace_back f R parent source u (path ++ [(u, v)]) (num_min bottleneck r)
            end
        end
    end.

(** [for u, v in path: R[u][v] -= bottleneck; R[v][u] = ... + bottleneck];
    the loop runs only on a non-empty path, where the bottleneck is
    finite. *)
Fixpoint apply_flow (R : dict2) (path : list (Z * Z)) (b : Z) : py dict2 :=
  match path with
  | [] => Ret R
  | (u, v) :: rest =>
      r ← item2 R u v;
      let R := set2 R u v (r - b) in
      let R := set2 R v u (get2 R v u + b) in
      apply_flow R rest b
  end.

(** The [while True:] loop of [edmonds_karp]; [steps] keeps the path and
    the bottleneck of each round (the copy of the residual graph that
    the source also stores there for the display is left out). *)
Fixpoint augment (fuel : nat) (R : dict2) (source sink : Z) (max_flow : num)
    (steps : list (list (Z * Z) * num)) : option (py (num * list (list (Z * Z) * num))) :=
  match fuel with
  | O => None
  | S f =>
      match bfs fuel R sink [source] {[source := None]} with
      | None => None
      | Some parent =>
          match parent !! sink with
          | None => Some (Ret (max_flow, steps))
          | Some _ =>
              match trace_back fuel R parent source sink [] Inf with
              | None => None
              | Some (Raise e) => Some (Raise e)
              | Some (Ret (path, bottleneck)) =>
                  let path := reverse path in
                  match (match bottleneck with
                         | Fin b => apply_flow R path b
                         | Inf => Ret R
                         end) with
                  | Raise e => Some (Raise e)
                  | Ret R =>
                      augment f R source sink (num_add max_flow bottleneck)
                        (steps ++ [(path, bottleneck)])
                  end
              end
          end
      end
  end.

Definition edmonds_karp (fuel : nat) (g : FlowGraph) (source sink : Z)
  : option (py (num * list (list (Z * Z) * num))) :=
  augment fuel (build_residual g) source sink (Fin 0) [].
End edmonds_karp.

(** *** Finite sums *)

Fixpoint zsum {A} (f : A → Z) (l : list A) : Z :=
  match l with
  | [] => 0
  | x :: rest => f x + zsum f rest
  end.

Lemma zsum_app {A} (f : A → Z) l1 l2 : zsum f (l1 ++ l2) = zsum f l1 + zsum f l2.
Proof. induction l1 as [|x l1 IH]; simpl; lia. Qed.

Lemma zsum_ext {A} (f g : A → Z) l :
  (∀ x, x ∈ l → f x = g x) → zsum f l = zsum g l.
Proof.
  induction l as [|x l IH]; intros H; simpl; [done|].
  rewrite (H x) by by left. rewrite IH; [done|]. intros y Hy. apply H. by right.
Qed.

Lemma zsum_le {A} (f g : A → Z) l :
  (∀ x, x ∈ l → f x ≤ g x) → zsum f l ≤ zsum g l.
Proof.
  induction l as [|x l IH]; intros H; simpl; [done|].
  pose proof (H x ltac:(by left)). assert (zsum f l ≤ zsum g l); [|lia].
  apply IH. intros y Hy. apply H. by right.
Qed.

Lemma zsum_zero {A} (f : A → Z) l : (∀ x, x ∈ l → f x = 0) → zsum f l = 0.
Proof.
  induction l as [|x l IH]; intros H; simpl; [done|].
  rewrite (H x) by by left. rewrite IH; [done|]. intros y Hy. apply H. by right.
Qed.

Lemma zsum_plus {A} (f g : A → Z) l :
  zsum (λ x, f x + g x) l = zsum f l + zsum g l.
Proof. induction l as [|x l IH]; simpl; lia. Qed.

Lemma zsum_minus {A} (f g : A → Z) l :
  zsum (λ x, f x - g x) l = zsum f l - zsum g l.
Proof. induction l as [|x l IH]; simpl; lia. Qed.

Lemma zsum_opp {A} (f : A → Z) l : zsum (λ x, - f x) l = - zsum f l.
Proof. induction l as [|x l IH]; simpl; lia. Qed.

Lemma zsum_swap {A B} (f : A → B → Z) l k :
  zsum (λ x, zsum (λ y, f x y) k) l = zsum (λ y, zsum (λ x, f x y) l) k.
Proof.
  induction l as [|x l IH]; simpl.
  - symmetry. by apply zsum_zero.
  - rewrite IH. by rewrite <- zsum_plus.
Qed.

Lemma zsum_perm {A} (f : A → Z) l k : l ≡ₚ k → zsum f l = zsum f k.
Proof. induction 1; simpl; lia. Qed.

(** Splitting a sum by a decidable property. *)
Lemma zsum_filter {A} (f : A → Z) (P : A → Prop) `{∀ x, Decision (P x)} l :
  zsum f l = zsum f (filter P l) + zsum f (filter (λ x, ¬ P x) l).
Proof.
  induction l as [|x l IH]; simpl; [done|].
  rewrite !filter_cons. destruct (decide (P x)) as [Hp|Hp].
  - rewrite decide_False by tauto. simpl. lia.
  - rewrite decide_True by done. simpl. lia.
Qed.

(** A sum with one non-zero term. *)
Lemma zsum_single {A} `{EqDecision A} (f : A → Z) l a :
  NoDup l → a ∈ l → (∀ x, x ∈ l → x ≠ a → f x = 0) → zsum f l = f a.
Proof.
  induction l as [|x l IH]; intros Hnd Hin Hz; [by apply elem_of_nil in Hin|].
  apply NoDup_cons in Hnd as [Hx Hnd]. simpl.
  destruct (decide (x = a)) as [->|Hne].
  - rewrite zsum_zero; [lia|]. intros y Hy. apply Hz; [by right|]. by intros ->.
  - rewrite (Hz x) by (by left || done). apply elem_of_cons in Hin as [->|Hin]; [done|].
    rewrite IH; [lia|done..|]. intros y Hy. apply Hz. by right.
Qed.

(** A sum in which one term is changed. *)
Lemma zsum_update {A} `{EqDecision A} (f g : A → Z) l a d :
  NoDup l → a ∈ l → g a = f a + d → (∀ x, x ≠ a → g x = f x) →
  zsum g l = zsum f l + d.
Proof.
  induction l as [|x l IH]; intros Hnd Hin Ha Hother; [by apply elem_of_nil in Hin|].
  apply NoDup_cons in Hnd as [Hx Hnd]. simpl.
  destruct (decide (x = a)) as [->|Hne].
  - rewrite Ha. rewrite (zsum_ext g f l); [lia|].
    intros y Hy. apply Hother. by intros ->.
  - rewrite (Hother x Hne). apply elem_of_cons in Hin as [->|Hin]; [done|].
    rewrite IH by done. lia.
Qed.

(** *** Skew-symmetric functions and cuts *)

Section cut_identity.
Variable V : list Z.
Variable S : gset Z.
Variable psi : Z → Z → Z.
Hypothesis skew : ∀ u v, psi u v = - psi v u.
Hypothesis V_nodup : NoDup V.

Definition inside : list Z := filter (λ v, v ∈ S) V.
Definition outside : list Z := filter (λ v, v ∉ S) V.

Definition excess_of (u : Z) : Z := zsum (psi u) V.

Lemma double_sum_zero l : zsum (λ u, zsum (psi u) l) l = 0.
Proof.
  assert (H : zsum (λ u, zsum (psi u) l) l = - zsum (λ u, zsum (psi u) l) l); [|lia].
  rewrite zsum_swap at 1. rewrite <- zsum_opp. apply zsum_ext. intros v _.
  rewrite <- zsum_opp. apply zsum_ext. intros u _. apply skew.
Qed.

(** The total excess of the inside of a cut is what crosses the cut. *)
Lemma excess_crossing :
  zsum excess_of inside = zsum (λ u, zsum (psi u) outside) inside.
Proof.
  unfold excess_of.
  rewrite (zsum_ext _ (λ u, zsum (psi u) inside + zsum (psi u) outside)).
  2:{ intros u _. apply (zsum_filter (psi u) (λ v, v ∈ S)). }
  rewrite zsum_plus, double_sum_zero. lia.
Qed.

Lemma excess_source s :
  s ∈ V → s ∈ S → (∀ u, u ∈ V → u ∈ S → u ≠ s → excess_of u = 0) →
  excess_of s = zsum (λ u, zsum (psi u) outside) inside.
Proof.
  intros HsV HsS Hz. rewrite <- excess_crossing. symmetry.
  apply zsum_single.
  - by apply NoDup_filter.
  - by apply list_elem_of_filter.
  - intros x [HxS HxV]%list_elem_of_filter Hne. by apply Hz.
Qed.
End cut_identity.

(** *** Networks, flows and cuts *)

(** The networks the simulator can hold. *)
Inductive built : FlowGraph → Prop :=
| built_empty : built empty_graph
| built_add g u v c g' : built g → add_edge g u v c = Ret g' → built g'.

(** The capacity of the edge from [u] to [v]; parallel edges have been
    added up, no edge is capacity 0. *)
Definition capacity (g : FlowGraph) (u v : Z) : Z := get2 (adj g) u v.

(** All nodes in play: those of the network, the source and the sink. *)
Definition node_set (g : FlowGraph) (s t : Z) : gset Z := dom (adj g) ∪ {[s; t]}.
Definition node_list (g : FlowGraph) (s t : Z) : list Z := elements (node_set g s t).

Record feasible (g : FlowGraph) (s t : Z) (f : Z → Z → Z) : Prop := {
  flow_bounds : ∀ u v, 0 ≤ f u v ≤ capacity g u v;
  flow_conserve : ∀ u, u ≠ s → u ≠ t →
    zsum (f u) (node_list g s t) = zsum (λ v, f v u) (node_list g s t)
}.

(** The total flow out of the source. *)
Definition flow_value (g : FlowGraph) (s t : Z) (f : Z → Z → Z) : Z :=
  zsum (f s) (node_list g s t) - zsum (λ v, f v s) (node_list g s t).

Definition is_cut (s t : Z) (S : gset Z) : Prop := s ∈ S ∧ t ∉ S.

Definition cut_capacity (g : FlowGraph) (s t : Z) (S : gset Z) : Z :=
  zsum (λ u, zsum (capacity g u) (outside (node_list g s t) S))
       (inside (node_list g s t) S).

Lemma node_list_nodup g s t : NoDup (node_list g s t).
Proof. apply NoDup_elements. Qed.

Lemma node_list_elem g s t x : x ∈ node_list g s t ↔ x ∈ node_set g s t.
Proof. apply elem_of_elements. Qed.

Lemma source_in_nodes g s t : s ∈ node_list g s t.
Proof. apply node_list_elem. unfold node_set. set_solver. Qed.

Lemma sink_in_nodes g s t : t ∈ node_list g s t.
Proof. apply node_list_elem. unfold node_set. set_solver. Qed.

(** No flow is larger than a cut. *)
Lemma weak_duality g s t f S :
  feasible g s t f → is_cut s t S → flow_value g s t f ≤ cut_capacity g s t S.
Proof.
  intros [Hb Hc] [HsS HtS].
  set (psi := λ u v, f u v - f v u).
  assert (Hex : ∀ u, excess_of (node_list g s t) psi u
                = zsum (f u) (node_list g s t) - zsum (λ v, f v u) (node_list g s t)).
  { intros u. unfold excess_of, psi. by rewrite zsum_minus. }
  assert (Hv : flow_value g s t f = excess_of (node_list g s t) psi s) by by rewrite Hex.
  rewrite Hv, (excess_source (node_list g s t) S psi).
  - unfold cut_capacity. apply zsum_le. intros u _. apply zsum_le. intros v _.
    unfold psi. pose proof (Hb u v). pose proof (Hb v u). lia.
  - intros u v. unfold psi. lia.
  - apply node_list_nodup.
  - apply source_in_nodes.
  - done.
  - intros u _ HuS Hus. rewrite Hex. rewrite Hc; [lia|done|]. by intros ->.
Qed.

(** *** Dicts of dicts *)

Lemma get2_set2 d u v x a b :
  get2 (set2 d u v x) a b = if decide (a = u ∧ b = v) then x else get2 d a b.
Proof.
  unfold get2, set2. rewrite lookup_insert. destruct (decide (u = a)) as [->|Hne].
  - simpl. rewrite lookup_insert. destruct (decide (v = b)) as [->|Hne'].
    + by rewrite decide_True.
    + rewrite decide_False by (intros [_ ->]; done). done.
  - rewrite decide_False by (intros [-> _]; done). done.
Qed.

(** The keys of a dict of dicts. *)
Definition has_key (d : dict2) (u v : Z) : Prop := is_Some (default ∅ (d !! u) !! v).

Lemma has_key_set2 d u v x a b :
  has_key (set2 d u v x) a b ↔ has_key d a b ∨ (a = u ∧ b = v).
Proof.
  unfold has_key, set2. rewrite lookup_insert. destruct (decide (u = a)) as [->|Hne].
  - simpl. rewrite lookup_insert. destruct (decide (v = b)) as [->|Hne'].
    + split; [by right|eauto].
    + split; [by left|]. intros [?|[_ ->]]; done.
  - split; [by left|]. intros [?|[-> _]]; done.
Qed.

Lemma get2_no_key d u v : ¬ has_key d u v → get2 d u v = 0.
Proof.
  unfold has_key, get2. destruct (default ∅ (d !! u) !! v); [|done].
  intros H. destruct H. eauto.
Qed.

Lemma item2_key d u v : has_key d u v → item2 d u v = Ret (get2 d u v).
Proof. unfold has_key, item2, get2. by intros [x ->]. Qed.

Lemma items_row (items : Z → gmap Z Z → list (Z * Z)) d u v x :
  (∀ u m, items u m ≡ₚ map_to_list m) →
  (v, x) ∈ items u (default ∅ (d !! u)) ↔ has_key d u v ∧ get2 d u v = x.
Proof.
  intros Hperm. rewrite Hperm, elem_of_map_to_list. unfold has_key, get2.
  destruct (default ∅ (d !! u) !! v) as [y|]; simpl.
  - split; [intros [= ->]; split; eauto|]. by intros [_ ->].
  - split; [done|]. by intros [[? ?] _].
Qed.

(** Well-formed networks: capacities are positive, heads of edges are
    keys of [adj]. *)
Definition wf (g : FlowGraph) : Prop :=
  ∀ u v, has_key (adj g) u v → 0 < capacity g u v ∧ u ∈ dom (adj g) ∧ v ∈ dom (adj g).

Lemma built_wf g : built g → wf g.
Proof.
  induction 1 as [|g u v c g' _ IH Hadd].
  - intros u v [x Hx]. simpl in Hx. rewrite lookup_empty in Hx. simpl in Hx.
    by rewrite lookup_empty in Hx.
  - unfold add_edge in Hadd. destruct (c <=? 0) eqn:Hc; [done|].
    apply Z.leb_gt in Hc. injection Hadd as <-.
    set (a := set2 (adj g) u v (get2 (adj g) u v + c)).
    assert (Ha : ∀ x y, has_key a x y →
               0 < get2 a x y ∧ x ∈ dom a ∧ y ∈ dom a ∨ (x = u ∧ y = v ∧ 0 < get2 a x y ∧ x ∈ dom a)).
    { intros x y Hk. unfold a in *. apply has_key_set2 in Hk.
      rewrite get2_set2. unfold set2. rewrite !dom_insert_L.
      destruct (decide (x = u ∧ y = v)) as [[-> ->]|Hne].
      - right. split_and!; [done..| |set_solver].
        destruct (decide (has_key (adj g) u v)) as [Hk'|Hk'].
        + destruct (IH u v Hk') as [Hpos _]. unfold capacity in Hpos. lia.
        + rewrite (get2_no_key _ _ _ Hk'). lia.
      - destruct Hk as [Hk|Hk]; [|done]. left.
        destruct (IH x y Hk) as (? & ? & ?). unfold capacity in *. set_solver. }
    intros x y Hk. unfold capacity. simpl in *. fold a in Hk |- *.
    destruct (a !! v) as [row|] eqn:Hv.
    + destruct (Ha x y Hk) as [?|(-> & -> & ? & ?)]; [done|].
      split_and!; [done..|]. apply elem_of_dom. eauto.
    + assert (Hk' : has_key a x y).
      { unfold has_key in *. rewrite lookup_insert in Hk.
        destruct (decide (v = x)) as [->|]; [|done]. simpl in Hk.
        rewrite lookup_empty in Hk. by destruct Hk. }
      assert (Hg : get2 (<[v := ∅]> a) x y = get2 a x y).
      { unfold get2. rewrite lookup_insert. destruct (decide (v = x)) as [->|]; [|done].
        by rewrite Hv. }
      rewrite Hg, dom_insert_L.
      destruct (Ha x y Hk') as [(? & ? & ?)|(-> & -> & ? & ?)]; set_solver.
Qed.

Lemma capacity_nonneg g u v : wf g → 0 ≤ capacity g u v.
Proof.
  intros Hwf. destruct (decide (has_key (adj g) u v)) as [Hk|Hk].
  - destruct (Hwf u v Hk). lia.
  - unfold capacity. by rewrite get2_no_key.
Qed.

Lemma capacity_nodes g u v :
  wf g → 0 < capacity g u v → u ∈ dom (adj g) ∧ v ∈ dom (adj g).
Proof.
  intros Hwf Hpos. destruct (decide (has_key (adj g) u v)) as [Hk|Hk].
  - by destruct (Hwf u v Hk) as (_ & ? & ?).
  - unfold capacity in Hpos. rewrite get2_no_key in Hpos by done. lia.
Qed.

(** *** The residual graph *)

Definition ind (y x : Z) : Z := if decide (y = x) then 1 else 0.

(** What [R[u][v] -= b; R[v][u] = R.get(v, {}).get(u, 0) + b] leaves. *)
Definition push (R : dict2) (u v b : Z) : dict2 :=
  let R1 := set2 R u v (get2 R u v - b) in
  set2 R1 v u (get2 R1 v u + b).

Lemma get2_push R u v b x y :
  u ≠ v →
  get2 (push R u v b) x y =
    if decide (x = u ∧ y = v) then get2 R u v - b
    else if decide (x = v ∧ y = u) then get2 R v u + b
    else get2 R x y.
Proof.
  intros Hne. unfold push. rewrite !get2_set2.
  repeat case_decide; try done; try lia; destruct_and?; subst; try done.
  all: exfalso; eauto.
Qed.

Lemma has_key_push R u v b x y : has_key R x y → has_key (push R u v b) x y.
Proof. intros Hk. unfold push. rewrite !has_key_set2. auto. Qed.

Lemma apply_flow_cons R u v rest b :
  has_key R u v →
  apply_flow R ((u, v) :: rest) b = apply_flow (push R u v b) rest b.
Proof. intros Hk. cbn [apply_flow]. by rewrite (item2_key _ _ _ Hk). Qed.

Lemma get2_key R u v : get2 R u v ≠ 0 → has_key R u v.
Proof.
  intros Hne. destruct (decide (has_key R u v)) as [|Hk]; [done|].
  by rewrite get2_no_key in Hne.
Qed.

(** Net number of times a list of edges leaves [y]. *)
Definition net (es : list (Z * Z)) (y : Z) : Z :=
  zsum (λ e, ind y e.1 - ind y e.2) es.

Section residual.
Variable items : Z → gmap Z Z → list (Z * Z).
Variable outer : dict2 → list (Z * gmap Z Z).
Hypothesis items_perm : ∀ u m, items u m ≡ₚ map_to_list m.
Hypothesis outer_perm : ∀ d, outer d ≡ₚ map_to_list d.
Variable g : FlowGraph.
Variable s t : Z.
Hypothesis g_wf : wf g.
Hypothesis s_ne_t : s ≠ t.

Local Abbreviation V := (node_list g s t).

Lemma get2_add_residual u R v cap a b :
  get2 (add_residual u R (v, cap)) a b
  = if decide (a = u ∧ b = v) then cap else get2 R a b.
Proof.
  unfold add_residual.
  destruct (default ∅ (set2 R u v cap !! v) !! u) as [x|] eqn:Hk.
  - apply get2_set2.
  - rewrite get2_set2. destruct (decide (a = v ∧ b = u)) as [[-> ->]|Hne].
    + assert (H0 : get2 (set2 R u v cap) v u = 0).
      { unfold get2. by rewrite Hk. }
      by rewrite <- H0, get2_set2.
    + apply get2_set2.
Qed.

Definition edge_list (d : dict2) : list (Z * (Z * Z)) :=
  outer d ≫= (λ p, pair p.1 <$> items p.1 p.2).

Lemma build_residual_flat :
  build_residual items outer g
  = fold_left (λ R e, add_residual e.1 R e.2) (edge_list (adj g)) ∅.
Proof.
  unfold build_residual, edge_list. generalize (∅ : dict2).
  induction (outer (adj g)) as [|[u row] l IH]; intros R0; [done|].
  cbn [fold_left mbind list_bind]. rewrite fold_left_app, IH. f_equal. cbn [fst snd].
  generalize R0. induction (items u row) as [|e l' IH']; intros R1; [done|].
  cbn [fmap list_fmap fold_left fst snd]. apply IH'.
Qed.

Lemma edge_list_elem u v cap :
  (u, (v, cap)) ∈ edge_list (adj g) ↔ has_key (adj g) u v ∧ capacity g u v = cap.
Proof.
  unfold edge_list. rewrite list_elem_of_bind. split.
  - intros ([u' row] & Hin & Hout). cbn [fst snd] in Hin.
    apply list_elem_of_fmap in Hin as ([v' cap'] & [= -> -> ->] & Hin).
    rewrite outer_perm in Hout. apply elem_of_map_to_list in Hout.
    rewrite items_perm in Hin. apply elem_of_map_to_list in Hin.
    unfold has_key, capacity, get2. rewrite Hout. simpl. rewrite Hin. eauto.
  - intros [[x Hx] Hcap]. unfold capacity, get2 in Hcap. rewrite Hx in Hcap.
    simpl in Hcap. subst x.
    destruct (adj g !! u) as [row|] eqn:Hrow; simpl in Hx; [|by rewrite lookup_empty in Hx].
    exists (u, row). split.
    + cbn [fst snd]. apply list_elem_of_fmap. exists (v, cap). split; [done|].
      rewrite items_perm. by apply elem_of_map_to_list.
    + rewrite outer_perm. by apply elem_of_map_to_list.
Qed.

(** The residual graph starts as the network. *)
Lemma build_residual_capacity u v :
  get2 (build_residual items outer g) u v = capacity g u v.
Proof.
  rewrite build_residual_flat.
  assert (Hgen : ∀ l R0,
    (∀ e, e ∈ l → capacity g e.1 e.2.1 = e.2.2) →
    get2 (fold_left (λ R e, add_residual e.1 R e.2) l R0) u v
    = if decide ((u, v) ∈ (λ e, (e.1, e.2.1)) <$> l) then capacity g u v
      else get2 R0 u v).
  { induction l as [|[a [b c]] l IH] using rev_ind; intros R0 Hl.
    - rewrite decide_False; [done|]. intros Hc. by apply elem_of_nil in Hc.
    - rewrite fold_left_app. cbn [fold_left fst snd]. rewrite get2_add_residual.
      rewrite IH by (intros e He; apply Hl, elem_of_app; by left).
      pose proof (Hl (a, (b, c)) ltac:(apply elem_of_app; right; by left)) as Hc.
      cbn [fst snd] in Hc. rewrite fmap_app. cbn [fmap list_fmap fst snd].
      destruct (decide (u = a ∧ v = b)) as [[-> ->]|Hne].
      + rewrite decide_True; [done|]. apply elem_of_app. right. by left.
      + destruct (decide ((u, v) ∈ (λ e, (e.1, e.2.1)) <$> l)) as [Hc0|Hno].
        * rewrite decide_True; [done|]. apply elem_of_app. by left.
        * rewrite decide_False; [done|]. intros Hc0.
          apply elem_of_app in Hc0 as [Hc0|Hc0]; [eauto|].
          apply list_elem_of_singleton in Hc0. injection Hc0 as -> ->. tauto. }
  rewrite Hgen.
  - case_decide as Hd; [done|]. symmetry. apply get2_no_key. intros Hk.
    apply Hd. apply list_elem_of_fmap. exists (u, (v, capacity g u v)).
    split; [done|]. by apply edge_list_elem.
  - intros [a [b c]] He. cbn [fst snd]. by apply edge_list_elem in He as [_ ?].
Qed.

(** The flow carried by the pair [(u, v)], and what leaves [u] in
    total. *)
Definition pushed (R : dict2) (u v : Z) : Z := capacity g u v - get2 R u v.
Definition excess (R : dict2) (u : Z) : Z := zsum (pushed R u) V.

Record residual_ok (R : dict2) (m : Z) : Prop := {
  res_nonneg : ∀ u v, 0 ≤ get2 R u v;
  res_sym : ∀ u v, get2 R u v + get2 R v u = capacity g u v + capacity g v u;
  res_conserve : ∀ u, u ≠ s → u ≠ t → excess R u = 0;
  res_value : excess R s = m
}.

Lemma build_residual_ok : residual_ok (build_residual items outer g) 0.
Proof.
  assert (Hz : ∀ u, excess (build_residual items outer g) u = 0).
  { intros u. apply zsum_zero. intros v _. unfold pushed.
    rewrite build_residual_capacity. lia. }
  split.
  - intros u v. rewrite build_residual_capacity. by apply capacity_nonneg.
  - intros u v. by rewrite !build_residual_capacity.
  - intros u _ _. apply Hz.
  - apply Hz.
Qed.

Lemma residual_node R m u v :
  residual_ok R m → 0 < get2 R u v → u ∈ node_set g s t ∧ v ∈ node_set g s t.
Proof.
  intros [Hn Hs _ _] Hpos. pose proof (Hs u v). pose proof (Hn v u).
  unfold node_set.
  destruct (decide (0 < capacity g u v)) as [Hc|Hc].
  - destruct (capacity_nodes g u v g_wf Hc). set_solver.
  - pose proof (capacity_nonneg g u v g_wf).
    destruct (capacity_nodes g v u g_wf ltac:(lia)). set_solver.
Qed.

Lemma pushed_skew R m u v : residual_ok R m → pushed R u v = - pushed R v u.
Proof. intros [_ Hs _ _]. unfold pushed. pose proof (Hs u v). lia. Qed.

(** The flow read off a residual graph. *)
Definition flow_of (R : dict2) (u v : Z) : Z := Z.max 0 (pushed R u v).

Lemma flow_of_feasible R m :
  residual_ok R m → feasible g s t (flow_of R) ∧ flow_value g s t (flow_of R) = m.
Proof.
  intros HR.
  assert (Hex : ∀ u, zsum (flow_of R u) V - zsum (λ v, flow_of R v u) V = excess R u).
  { intros u. rewrite <- zsum_minus. apply zsum_ext. intros v _.
    unfold flow_of. pose proof (pushed_skew R m u v HR). lia. }
  split; [split|].
  - intros u v. unfold flow_of, pushed. pose proof (res_nonneg _ _ HR u v).
    pose proof (capacity_nonneg g u v g_wf). lia.
  - intros u Hus Hut. pose proof (Hex u). rewrite (res_conserve _ _ HR) in * by done. lia.
  - unfold flow_value. rewrite Hex. apply (res_value _ _ HR).
Qed.

(** A set that no residual edge leaves is a cut as large as the flow. *)
Lemma closed_cut R m (X : gset Z) :
  residual_ok R m → is_cut s t X →
  (∀ u v, u ∈ X → 0 < get2 R u v → v ∈ X) →
  cut_capacity g s t X = m.
Proof.
  intros HR [HsX HtX] Hclosed. rewrite <- (res_value _ _ HR).
  change (excess R s) with (excess_of V (pushed R) s).
  rewrite (excess_source V X (pushed R)).
  - unfold cut_capacity. apply zsum_ext. intros u Hu. apply zsum_ext. intros v Hv.
    apply list_elem_of_filter in Hu as [Hu _]. apply list_elem_of_filter in Hv as [Hv _].
    unfold pushed. pose proof (res_nonneg _ _ HR u v).
    destruct (decide (0 < get2 R u v)) as [Hpos|Hpos]; [|lia].
    destruct Hv. by apply (Hclosed u v).
  - intros u v. by apply (pushed_skew R m).
  - apply node_list_nodup.
  - apply source_in_nodes.
  - done.
  - intros u _ HuX Hus. apply (res_conserve _ _ HR); [done|]. by intros ->.
Qed.

Lemma excess_push R u v b y :
  u ≠ v → u ∈ V → v ∈ V →
  excess (push R u v b) y = excess R y + b * (ind y u - ind y v).
Proof.
  intros Hne Hu Hv. unfold excess, ind.
  destruct (decide (y = u)) as [->|Hyu]; [|destruct (decide (y = v)) as [->|Hyv]].
  - rewrite decide_False by done.
    rewrite (zsum_update (pushed R u) (pushed (push R u v b) u) V v b); [lia| | | |].
    + apply node_list_nodup.
    + done.
    + unfold pushed. rewrite get2_push by done. rewrite decide_True by done. lia.
    + intros x Hx. unfold pushed. rewrite get2_push by done.
      rewrite decide_False by (intros [_ ->]; done).
      rewrite decide_False by (intros [-> _]; done). done.
  - rewrite (zsum_update (pushed R v) (pushed (push R u v b) v) V u (- b)); [lia| | | |].
    + apply node_list_nodup.
    + done.
    + unfold pushed. rewrite get2_push by done.
      rewrite decide_False by (intros [-> _]; done). rewrite decide_True by done. lia.
    + intros x Hx. unfold pushed. rewrite get2_push by done.
      rewrite decide_False by (intros [-> _]; done).
      rewrite decide_False by (intros [_ ->]; done). done.
  - rewrite (zsum_ext (pushed (push R u v b) y) (pushed R y)); [lia|].
    intros x _. unfold pushed. rewrite get2_push by done.
    rewrite decide_False by (intros [-> _]; done).
    rewrite decide_False by (intros [-> _]; done). done.
Qed.

(** Pushing [b] along edges that are all different and all have room. *)
Lemma apply_flow_ok b es :
  0 ≤ b → ∀ R, NoDup es →
  (∀ u v, (u, v) ∈ es →
     u ≠ v ∧ u ∈ V ∧ v ∈ V ∧ has_key R u v ∧ b ≤ get2 R u v) →
  (∀ u v, 0 ≤ get2 R u v) →
  (∀ u v, get2 R u v + get2 R v u = capacity g u v + capacity g v u) →
  ∃ R', apply_flow R es b = Ret R' ∧
    (∀ u v, 0 ≤ get2 R' u v) ∧
    (∀ u v, get2 R' u v + get2 R' v u = capacity g u v + capacity g v u) ∧
    (∀ y, excess R' y = excess R y + b * net es y).
Proof.
  intros Hb. induction es as [|[u v] es IH]; intros R Hnd Hes Hn Hs.
  - exists R. split_and!; [done..|]. intros y. unfold net. simpl. lia.
  - apply NoDup_cons in Hnd as [Hnotin Hnd].
    destruct (Hes u v ltac:(by left)) as (Hne & Hu & Hv & Hk & Hroom).
    rewrite apply_flow_cons by done.
    destruct (IH (push R u v b)) as (R' & Hrun & Hn' & Hs' & Hex'); [done| | | |].
    + intros x y Hxy. destruct (Hes x y ltac:(by right)) as (? & ? & ? & ? & ?).
      split_and!; [done..|by apply has_key_push|].
      rewrite get2_push by done.
      rewrite decide_False by (intros [-> ->]; done).
      case_decide as Hd; [|done]. destruct Hd as [-> ->]. pose proof (Hn v u). lia.
    + intros x y. rewrite get2_push by done.
      pose proof (Hn x y). pose proof (Hn v u). repeat case_decide; lia.
    + intros x y. rewrite !get2_push by done. pose proof (Hs x y). pose proof (Hs u v).
      repeat case_decide; destruct_and?; subst; try lia; try tauto.
    + exists R'. split_and!; [done..|]. intros y. rewrite Hex', excess_push by done.
      unfold net. cbn [zsum fst snd]. lia.
Qed.

(** *** The breadth-first search *)

(** [linked R parent v n]: following [parent] from [v] reaches the
    source in [n] steps, each along an edge with residual capacity. *)
Inductive linked (R : dict2) (parent : gmap Z (option Z)) : Z → nat → Prop :=
| linked_source : parent !! s = Some None → linked R parent s 0
| linked_step u v n :
    parent !! v = Some (Some u) → has_key R u v → 0 < get2 R u v →
    linked R parent u n → linked R parent v (S n).

Lemma linked_insert R parent v x a n :
  parent !! v = None → linked R parent a n → linked R (<[v := x]> parent) a n.
Proof.
  intros Hv. induction 1 as [Hs|u w n Hw Hk Hpos _ IH].
  - constructor. rewrite lookup_insert_ne; [done|]. intros <-. congruence.
  - apply (linked_step _ _ u); [|done..]. rewrite lookup_insert_ne; [done|].
    intros <-. congruence.
Qed.

Lemma linked_unique R parent v n n' :
  linked R parent v n → linked R parent v n' → n = n'.
Proof.
  intros H. revert n'. induction H as [Hs|u w n Hw Hk Hpos _ IH]; intros n' H'.
  - inversion H'; [done|congruence].
  - inversion H' as [Hs'|u' w' k Hw' _ _ Hu']; subst; [congruence|].
    f_equal. apply IH. congruence.
Qed.

Record pinv (R : dict2) (parent : gmap Z (option Z)) : Prop := {
  p_source : parent !! s = Some None;
  p_linked : ∀ v, is_Some (parent !! v) →
               ∃ n, linked R parent v n ∧ (n < size parent)%nat;
  p_nodes : ∀ v, is_Some (parent !! v) → v ∈ node_set g s t
}.

Lemma pinv_size R parent : pinv R parent → (size parent ≤ length V)%nat.
Proof.
  intros [_ _ Hn]. rewrite <- size_dom.
  change (length V) with (size (node_set g s t)).
  apply subseteq_size. intros v Hv. apply Hn. by apply elem_of_dom.
Qed.

Lemma scan_ok R m u :
  residual_ok R m → ∀ row parent q parent' q',
  scan u row parent q = (parent', q') →
  pinv R parent → is_Some (parent !! u) →
  (∀ v cap, (v, cap) ∈ row → has_key R u v ∧ get2 R u v = cap) →
  pinv R parent' ∧
  (∀ v, is_Some (parent !! v) → is_Some (parent' !! v)) ∧
  (∀ v cap, (v, cap) ∈ row → 0 < cap → is_Some (parent' !! v)) ∧
  ∃ new, q' = q ++ new ∧ size parent' = (size parent + length new)%nat ∧
         (∀ v, is_Some (parent' !! v) → is_Some (parent !! v) ∨ v ∈ new) ∧
         (∀ v, v ∈ new → is_Some (parent' !! v)).
Proof.
  intros HR. induction row as [|[v cap] rest IH]; intros parent q parent' q' Hscan Hp Hu Hrow.
  - injection Hscan as <- <-. split_and!; [done|done| |].
    + intros v cap Hin. by apply elem_of_nil in Hin.
    + exists []. rewrite app_nil_r. split_and!; [done|simpl; lia|auto|].
      intros v Hin. by apply elem_of_nil in Hin.
  - cbn [scan] in Hscan.
    assert (Hrest : ∀ v' cap', (v', cap') ∈ rest → has_key R u v' ∧ get2 R u v' = cap').
    { intros v' cap' Hin. apply Hrow. by right. }
    destruct (parent !! v) as [x|] eqn:Hv; [|destruct (0 <? cap) eqn:Hcap].
    + destruct (IH _ _ _ _ Hscan Hp Hu Hrest) as (Hp' & Hext & Hfound & new & Hnew).
      split_and!; [done|done| |by exists new].
      intros v' cap' Hin Hpos. apply elem_of_cons in Hin as [[= -> ->]|Hin]; [|eauto].
      apply Hext. rewrite Hv. eauto.
    + apply Z.ltb_lt in Hcap.
      destruct (Hrow v cap ltac:(by left)) as [Hk Hget].
      assert (Hvs : v ≠ s).
      { intros ->. rewrite (p_source _ _ Hp) in Hv. done. }
      assert (Hp1 : pinv R (<[v := Some u]> parent)).
      { split.
        - rewrite lookup_insert_ne by done. apply Hp.
        - intros x Hx. rewrite map_size_insert_None by done.
          destruct (decide (x = v)) as [->|Hxv].
          + destruct (p_linked _ _ Hp u Hu) as (n & Hl & Hn).
            exists (S n). split; [|lia]. apply (linked_step _ _ u).
            * by rewrite lookup_insert_eq.
            * done.
            * lia.
            * by apply linked_insert.
          + rewrite lookup_insert_ne in Hx by done.
            destruct (p_linked _ _ Hp x Hx) as (n & Hl & Hn).
            exists n. split; [|lia]. by apply linked_insert.
        - intros x Hx. apply lookup_insert_is_Some' in Hx as [<-|Hx].
          + apply (residual_node R m u v HR). lia.
          + by apply Hp. }
      assert (Hu1 : is_Some (<[v := Some u]> parent !! u)).
      { apply lookup_insert_is_Some'. by right. }
      destruct (IH _ _ _ _ Hscan Hp1 Hu1 Hrest) as (Hp' & Hext & Hfound & new & Hq & Hsize & Hold & Hnew).
      split_and!; [done| | |].
      * intros x Hx. apply Hext, lookup_insert_is_Some'. by right.
      * intros v' cap' Hin Hpos. apply elem_of_cons in Hin as [[= -> ->]|Hin]; [|eauto].
        apply Hext, lookup_insert_is_Some'. by left.
      * exists (v :: new). split_and!.
        -- by rewrite Hq, <- app_assoc.
        -- rewrite Hsize, map_size_insert_None by done. simpl. lia.
        -- intros x Hx. destruct (Hold x Hx) as [Hx'|Hx']; [|right; by right].
           apply lookup_insert_is_Some' in Hx' as [<-|Hx']; [right; by left|by left].
        -- intros x Hx. apply elem_of_cons in Hx as [->|Hx]; [|eauto].
           apply Hext, lookup_insert_is_Some'. by left.
    + apply Z.ltb_ge in Hcap.
      destruct (IH _ _ _ _ Hscan Hp Hu Hrest) as (Hp' & Hext & Hfound & new & Hnew).
      split_and!; [done|done| |by exists new].
      intros v' cap' Hin Hpos. apply elem_of_cons in Hin as [[= -> ->]|Hin]; [lia|eauto].
Qed.

Definition closed_at (R : dict2) (parent : gmap Z (option Z)) (u : Z) : Prop :=
  ∀ v, 0 < get2 R u v → is_Some (parent !! v).

(** The search stops, and when it has not found the sink, no residual
    edge leaves what it has found. *)
Lemma bfs_ok R m fuel :
  residual_ok R m → ∀ q parent,
  pinv R parent →
  (∀ u, u ∈ q → is_Some (parent !! u)) →
  (∀ u, is_Some (parent !! u) → u ∈ q ∨ closed_at R parent u) →
  (length V + length q ≤ fuel + size parent)%nat →
  ∃ parent', bfs items fuel R t q parent = Some parent' ∧ pinv R parent' ∧
    (parent' !! t = None → ∀ u, is_Some (parent' !! u) → closed_at R parent' u).
Proof.
  intros HR. induction fuel as [|f IH]; intros q parent Hp Hq Hclosed Hfuel.
  - pose proof (pinv_size _ _ Hp). destruct q as [|u q']; [|simpl in Hfuel; lia].
    exists parent. split_and!; [done..|]. intros _ u Hu.
    destruct (Hclosed u Hu) as [Hin|]; [by apply elem_of_nil in Hin|done].
  - destruct q as [|u q'].
    + exists parent. split_and!; [done..|]. intros _ u Hu.
      destruct (Hclosed u Hu) as [Hin|]; [by apply elem_of_nil in Hin|done].
    + cbn [bfs]. destruct (parent !! t) as [x|] eqn:Ht.
      * exists parent. split_and!; [done..|]. intros Hnone. congruence.
      * destruct (scan u (items u (default ∅ (R !! u))) parent q') as [parent1 q1] eqn:Hscan.
        assert (Hu : is_Some (parent !! u)) by (apply Hq; by left).
        destruct (scan_ok R m u HR _ _ _ _ _ Hscan Hp Hu)
          as (Hp1 & Hext & Hfound & new & -> & Hsize & Hold & Hnew).
        { intros v cap Hin. by apply (items_row items R u v cap items_perm). }
        apply IH; [done| | |].
        -- intros x Hx. apply elem_of_app in Hx as [Hx|Hx]; [|eauto].
           apply Hext, Hq. by right.
        -- intros x Hx. destruct (Hold x Hx) as [Hx'|Hx'].
           ++ destruct (Hclosed x Hx') as [Hin|Hc].
              ** apply elem_of_cons in Hin as [->|Hin].
                 --- right. intros v Hpos. apply (Hfound v (get2 R u v)); [|done].
                     apply (items_row items R u v _ items_perm). split; [|done].
                     apply get2_key. lia.
                 --- left. apply elem_of_app. by left.
              ** right. intros v Hpos. by apply Hext, Hc.
           ++ left. apply elem_of_app. by right.
        -- rewrite length_app, Hsize. simpl in Hfuel. lia.
Qed.

(** *** The augmenting path *)

Inductive back_path (R : dict2) (parent : gmap Z (option Z))
  : Z → nat → list (Z * Z) → Prop :=
| back_nil : back_path R parent s 0 []
| back_cons u v n es :
    linked R parent u n → linked R parent v (S n) →
    has_key R u v → 0 < get2 R u v →
    back_path R parent u n es → back_path R parent v (S n) ((u, v) :: es).

Lemma back_path_edges R parent v n es :
  back_path R parent v n es → ∀ x y, (x, y) ∈ es →
  ∃ k, (k < n)%nat ∧ linked R parent x k ∧ linked R parent y (S k) ∧
       has_key R x y ∧ 0 < get2 R x y.
Proof.
  induction 1 as [|u v n es Hu Hv Hk Hpos _ IH]; intros x y Hin.
  - by apply elem_of_nil in Hin.
  - apply elem_of_cons in Hin as [[= -> ->]|Hin].
    + exists n. split_and!; [lia|done..].
    + destruct (IH x y Hin) as (k & ? & ?). exists k. split; [lia|done].
Qed.

Lemma back_path_nodup R parent v n es : back_path R parent v n es → NoDup es.
Proof.
  induction 1 as [|u v n es Hu Hv Hk Hpos Hes IH]; [constructor|].
  apply NoDup_cons. split; [|done]. intros Hin.
  destruct (back_path_edges _ _ _ _ _ Hes u v Hin) as (k & Hlt & _ & Hv' & _).
  pose proof (linked_unique _ _ _ _ _ Hv Hv'). lia.
Qed.

Lemma back_path_net R parent v n es y :
  back_path R parent v n es → net es y = ind y s - ind y v.
Proof.
  induction 1 as [|u v n es Hu Hv Hk Hpos _ IH]; unfold net in *; cbn [zsum fst snd]; lia.
Qed.

(** The least residual capacity met so far. *)
Definition min_over (R : dict2) (b0 : num) (es : list (Z * Z)) : num :=
  fold_left (λ b e, num_min b (get2 R e.1 e.2)) es b0.

Lemma min_over_bound R es : ∀ b0,
  (∀ e, e ∈ es → 0 < get2 R e.1 e.2) →
  match b0 with Fin z0 => 0 < z0 | Inf => True end →
  match min_over R b0 es with
  | Fin z => 0 < z ∧ (∀ e, e ∈ es → z ≤ get2 R e.1 e.2) ∧
             match b0 with Fin z0 => z ≤ z0 | Inf => True end
  | Inf => es = [] ∧ b0 = Inf
  end.
Proof.
  induction es as [|e es IH]; intros b0 Hes Hb0.
  - destruct b0; simpl; [|done]. split_and!; [done| |lia].
    intros e He. by apply elem_of_nil in He.
  - cbn [min_over fold_left].
    pose proof (Hes e ltac:(by left)) as He.
    specialize (IH (num_min b0 (get2 R e.1 e.2)) (λ x Hx, Hes x ltac:(by right))).
    fold (min_over R (num_min b0 (get2 R e.1 e.2)) es).
    destruct b0 as [z0|]; cbn [num_min] in *.
    + specialize (IH ltac:(lia)).
      destruct (min_over R (Fin (z0 `min` get2 R e.1 e.2)) es) as [z|]; [|by destruct IH].
      destruct IH as (? & Hall & ?). split_and!; [done| |lia].
      intros x Hx. apply elem_of_cons in Hx as [->|Hx]; [lia|eauto].
    + specialize (IH ltac:(lia)).
      destruct (min_over R (Fin (get2 R e.1 e.2)) es) as [z|]; [|by destruct IH].
      destruct IH as (? & Hall & ?). split_and!; [done| |done].
      intros x Hx. apply elem_of_cons in Hx as [->|Hx]; [lia|eauto].
Qed.

Lemma trace_back_ok R parent :
  parent !! s = Some None → ∀ v n, linked R parent v n →
  ∀ fuel path0 b0, (n ≤ fuel)%nat →
  ∃ es, trace_back fuel R parent s v path0 b0
          = Some (Ret (path0 ++ es, min_over R b0 es)) ∧
        back_path R parent v n es.
Proof.
  intros Hs v n H. induction H as [_|u v n Hv Hk Hpos Hu IH]; intros fuel path0 b0 Hfuel.
  - exists []. split; [|constructor]. rewrite app_nil_r.
    destruct fuel; cbn [trace_back]; by rewrite decide_True.
  - destruct fuel as [|f]; [lia|]. cbn [trace_back].
    rewrite decide_False by (intros ->; congruence).
    rewrite Hv, (item2_key _ _ _ Hk).
    destruct (IH f (path0 ++ [(u, v)]) (num_min b0 (get2 R u v)) ltac:(lia)) as (es & Hrun & Hes).
    exists ((u, v) :: es). split.
    + rewrite Hrun, <- app_assoc. done.
    + constructor; [done| |done..]. by apply (linked_step _ _ u).
Qed.

(** *** The main loop *)

(** Directed reachability along the edges of the network. *)
Inductive reachable : Z → Z → Prop :=
| reach_refl u : reachable u u
| reach_step u v w : reachable u v → 0 < capacity g v w → reachable u w.

Definition fuel_needed : nat :=
  (Z.to_nat (cut_capacity g s t {[s]}) + length V)%nat.

Lemma residual_bound R m : residual_ok R m → m ≤ cut_capacity g s t {[s]}.
Proof.
  intros HR. destruct (flow_of_feasible R m HR) as [Hf <-].
  apply weak_duality; [done|]. split; set_solver.
Qed.

Lemma start_pinv R : pinv R {[s := None]}.
Proof.
  split.
  - apply lookup_singleton_eq.
  - intros v [x Hv]. apply lookup_singleton_Some in Hv as [<- _].
    exists 0%nat. split; [|rewrite map_size_singleton; lia].
    constructor. apply lookup_singleton_eq.
  - intros v [x Hv]. apply lookup_singleton_Some in Hv as [<- _].
    unfold node_set. set_solver.
Qed.

Lemma start_bfs R m fuel :
  residual_ok R m → (length V ≤ fuel)%nat →
  ∃ parent, bfs items fuel R t [s] {[s := None]} = Some parent ∧ pinv R parent ∧
    (parent !! t = None → ∀ u, is_Some (parent !! u) → closed_at R parent u).
Proof.
  intros HR Hfuel. apply (bfs_ok R m fuel HR).
  - apply start_pinv.
  - intros u Hu. apply list_elem_of_singleton in Hu as ->.
    rewrite lookup_singleton_eq. eauto.
  - intros u [x Hu]. apply lookup_singleton_Some in Hu as [<- _]. left. by left.
  - rewrite map_size_singleton. simpl. lia.
Qed.

Lemma unfound_cut R m parent :
  residual_ok R m → pinv R parent → parent !! t = None →
  (∀ u, is_Some (parent !! u) → closed_at R parent u) →
  is_cut s t (dom parent) ∧ cut_capacity g s t (dom parent) = m.
Proof.
  intros HR Hp Ht Hclosed.
  assert (Hcut : is_cut s t (dom parent)).
  { split.
    - apply elem_of_dom. rewrite (p_source _ _ Hp). eauto.
    - by apply not_elem_of_dom. }
  split; [done|]. apply (closed_cut R m); [done..|].
  intros u v Hu Hpos. apply elem_of_dom. apply (Hclosed u); [|done].
  by apply elem_of_dom.
Qed.

(** One round with a path: the flow grows by the bottleneck. *)
Lemma round_ok R m parent n fuel :
  residual_ok R m → pinv R parent → linked R parent t n → (n ≤ fuel)%nat →
  ∃ es z R',
    trace_back fuel R parent s t [] Inf = Some (Ret (es, Fin z)) ∧
    apply_flow R (reverse es) z = Ret R' ∧
    0 < z ∧ residual_ok R' (m + z).
Proof.
  intros HR Hp Hl Hfuel.
  destruct (trace_back_ok R parent (p_source _ _ Hp) t n Hl fuel [] Inf Hfuel)
    as (es & Hrun & Hes).
  pose proof (back_path_edges _ _ _ _ _ Hes) as Hedges.
  assert (Hne : es ≠ []).
  { intros ->. inversion Hes. by subst. }
  pose proof (min_over_bound R es Inf) as Hb.
  destruct (min_over R Inf es) as [z|].
  2:{ destruct Hb as [? _]; [|done..]. intros [x y] Hin.
      by destruct (Hedges x y Hin) as (? & ? & ? & ? & ? & ?). }
  destruct Hb as (Hz & Hall & _); [|done|].
  { intros [x y] Hin. by destruct (Hedges x y Hin) as (? & ? & ? & ? & ? & ?). }
  destruct (apply_flow_ok z (reverse es) ltac:(lia) R) as (R' & Hflow & Hn' & Hs' & Hex').
  - rewrite reverse_Permutation. by apply (back_path_nodup _ _ _ _ _ Hes).
  - intros u v Hin. rewrite elem_of_reverse in Hin.
    destruct (Hedges u v Hin) as (k & _ & Hu & Hv & Hk & Hpos).
    destruct (residual_node R m u v HR Hpos) as [HuV HvV].
    split_and!; [|by apply node_list_elem..|done|apply (Hall (u, v) Hin)].
    intros ->. pose proof (linked_unique _ _ _ _ _ Hu Hv). lia.
  - apply HR.
  - apply HR.
  - exists es, z, R'. split_and!; [done..|].
    assert (Hnet : ∀ y, net (reverse es) y = ind y s - ind y t).
    { intros y. rewrite <- (back_path_net _ _ _ _ _ y Hes). unfold net.
      apply zsum_perm, reverse_Permutation. }
    split; [done|done| |].
    + intros u Hus Hut. rewrite Hex', Hnet, (res_conserve _ _ HR) by done.
      unfold ind. rewrite !decide_False by done. lia.
    + rewrite Hex', Hnet, (res_value _ _ HR). unfold ind.
      rewrite decide_True by done. rewrite decide_False by done. lia.
Qed.

(** The loop stops with a flow and a cut of the same size. *)
Lemma augment_ok fuel : ∀ R m steps,
  residual_ok R m →
  (Z.to_nat (cut_capacity g s t {[s]} - m) + length V ≤ fuel)%nat →
  ∃ m' steps' R' (X : gset Z),
    augment items fuel R s t (Fin m) steps = Some (Ret (Fin m', steps')) ∧
    m ≤ m' ∧ residual_ok R' m' ∧ is_cut s t X ∧ cut_capacity g s t X = m'.
Proof.
  induction fuel as [|f IH]; intros R m steps HR Hfuel.
  - pose proof (source_in_nodes g s t) as Hin.
    destruct V; [by apply elem_of_nil in Hin|simpl in Hfuel; lia].
  - cbn [augment].
    destruct (start_bfs R m (S f) HR ltac:(lia)) as (parent & -> & Hp & Hclosed).
    destruct (parent !! t) as [x|] eqn:Ht.
    + destruct (p_linked _ _ Hp t ltac:(rewrite Ht; eauto)) as (n & Hl & Hn).
      pose proof (pinv_size _ _ Hp).
      destruct (round_ok R m parent n (S f) HR Hp Hl ltac:(lia))
        as (es & z & R' & -> & -> & Hz & HR').
      pose proof (residual_bound _ _ HR').
      destruct (IH R' (m + z) (steps ++ [(reverse es, Fin z)]) HR' ltac:(lia))
        as (m' & steps' & R'' & X & Hrun & Hle & Hfinal).
      exists m', steps', R'', X. split; [done|]. split; [lia|done].
    + destruct (unfound_cut R m parent HR Hp Ht (Hclosed eq_refl)) as [Hcut Hcap].
      exists m, steps, R, (dom parent). split_and!; [done|lia|done..].
Qed.

Lemma linked_reachable R parent v n :
  (∀ a b, get2 R a b = capacity g a b) → linked R parent v n → reachable s v.
Proof.
  intros HR. induction 1 as [|u v n _ _ Hpos _ IH]; [constructor|].
  apply (reach_step _ u); [done|]. by rewrite <- HR.
Qed.

(** When the sink cannot be reached there is a cut without capacity. *)
Lemma unreachable_cut :
  ¬ reachable s t → ∃ X : gset Z, is_cut s t X ∧ cut_capacity g s t X = 0.
Proof.
  intros Hno. pose proof build_residual_ok as HR.
  destruct (start_bfs _ 0 (length V) HR ltac:(lia)) as (parent & _ & Hp & Hclosed).
  destruct (parent !! t) as [x|] eqn:Ht.
  - destruct (p_linked _ _ Hp t ltac:(rewrite Ht; eauto)) as (n & Hl & _).
    destruct Hno. apply (linked_reachable _ _ _ _ build_residual_capacity Hl).
  - exists (dom parent). by apply (unfound_cut _ 0 parent HR Hp Ht (Hclosed eq_refl)).
Qed.

Lemma edmonds_karp_ok fuel :
  (fuel_needed ≤ fuel)%nat →
  ∃ m steps,
    edmonds_karp items outer fuel g s t = Some (Ret (Fin m, steps)) ∧
    (∃ f, feasible g s t f ∧ flow_value g s t f = m) ∧
    (∀ f, feasible g s t f → flow_value g s t f ≤ m) ∧
    (∃ X, is_cut s t X ∧ cut_capacity g s t X = m) ∧
    (∀ X, is_cut s t X → m ≤ cut_capacity g s t X) ∧
    (¬ reachable s t → m = 0).
Proof.
  intros Hfuel. unfold edmonds_karp.
  destruct (augment_ok fuel (build_residual items outer g) 0 [] build_residual_ok)
    as (m & steps & R & X & Hrun & Hle & HR & Hcut & Hcap).
  { unfold fuel_needed in Hfuel. rewrite Z.sub_0_r. done. }
  destruct (flow_of_feasible R m HR) as [Hf Hval].
  exists m, steps. split_and!.
  - done.
  - by exists (flow_of R).
  - intros f Hfeas. rewrite <- Hcap. by apply weak_duality.
  - by exists X.
  - intros X' Hcut'. rewrite <- Hval. by apply weak_duality.
  - intros Hno. destruct (unreachable_cut Hno) as (X0 & Hcut0 & Hcap0).
    assert (m ≤ 0); [|lia]. rewrite <- Hcap0, <- Hval. by apply weak_duality.
Qed.
End residual.

(** With the source as the sink the search finds the sink at once, the
    path is empty, the bottleneck stays [math.inf], and the loop goes
    round for ever. *)
Lemma augment_same_node items fuel : ∀ R x max_flow steps,
  augment items fuel R x x max_flow steps = None.
Proof.
  induction fuel as [|f IH]; intros R x max_flow steps; [done|].
  cbn [augment bfs trace_back]. rewrite lookup_singleton_eq.
  rewrite decide_True by done. rewrite lookup_singleton_eq. apply IH.
Qed.

(** [for u,v,c in edges: self.graph.add_edge(u,v,c)] *)
Fixpoint add_edges (g : FlowGraph) (edges : list (Z * Z * Z)) : py FlowGraph :=
  match edges with
  | [] => Ret g
  | (u, v, c) :: rest => g' ← add_edge g u v c; add_edges g' rest
  end.

Lemma add_edges_built edges : ∀ g g',
  built g → add_edges g edges = Ret g' → built g'.
Proof.
  induction edges as [|[[u v] c] rest IH]; intros g g' Hg Hrun.
  - by injection Hrun as <-.
  - cbn [add_edges] in Hrun. destruct (add_edge g u v c) as [g1|e] eqn:Hadd; [|done].
    cbn [mbind py_bind] in Hrun. apply (IH g1); [|done]. by apply (built_add g u v c).
Qed.

(** The network of [load_sample]. *)
Definition sample_edges : list (Z * Z * Z) :=
  [(0, 1, 16); (0, 2, 13); (1, 2, 10); (2, 1, 4); (1, 3, 12);
   (3, 2, 9); (2, 4, 14); (4, 3, 7); (3, 5, 20); (4, 5, 4)].

Definition sample_network : FlowGraph :=
  match add_edges empty_graph sample_edges with
  | Ret g => g
  | Raise _ => empty_graph
  end.

Lemma sample_network_built : built sample_network.
Proof.
  apply (add_edges_built sample_edges empty_graph); [constructor|].
  vm_compute. reflexivity.
Qed.

Example sample_max_flow :
  (match edmonds_karp (λ _, map_to_list) map_to_list 40 sample_network 0 5 with
   | Some (Ret (max_flow, steps)) => Some (max_flow, length steps)
   | _ => None
   end) = Some (Fin 23, 3%nat).
Proof. vm_compute. reflexivity. Qed.

(** C5, as far as it holds: for a network built through [add_edge], a
    source and a sink that differ, and every enumeration order of the
    dicts, [edmonds_karp] returns (given [fuel_needed] rounds or more)
    a [max_flow] that is the value of a feasible flow and the capacity
    of a source/sink cut, hence the largest value of any feasible flow
    and the least capacity of any cut; it is 0 when the sink cannot be
    reached from the source.  Capacities and flows are integers. *)
Theorem edmonds_karp_max_flow items outer g s t fuel :
  (∀ u m, items u m ≡ₚ map_to_list m) →
  (∀ d, outer d ≡ₚ map_to_list d) →
  built g → s ≠ t → (fuel_needed g s t ≤ fuel)%nat →
  ∃ m steps,
    edmonds_karp items outer fuel g s t = Some (Ret (Fin m, steps)) ∧
    (∃ f, feasible g s t f ∧ flow_value g s t f = m) ∧
    (∀ f, feasible g s t f → flow_value g s t f ≤ m) ∧
    (∃ X, is_cut s t X ∧ cut_capacity g s t X = m) ∧
    (∀ X, is_cut s t X → m ≤ cut_capacity g s t X) ∧
    (¬ reachable g s t → m = 0).
Proof.
  intros Hitems Houter Hbuilt Hst Hfuel.
  apply edmonds_karp_ok; [done|done|by apply built_wf|done|done].
Qed.

Lemma edmonds_karp_max_flow_witness :
  ∃ m steps,
    edmonds_karp (λ _, map_to_list) map_to_list 40 sample_network 0 5
    = Some (Ret (Fin m, steps)) ∧
    (∃ f, feasible sample_network 0 5 f ∧ flow_value sample_network 0 5 f = m) ∧
    (∀ f, feasible sample_network 0 5 f → flow_value sample_network 0 5 f ≤ m) ∧
    (∃ X, is_cut 0 5 X ∧ cut_capacity sample_network 0 5 X = m) ∧
    (∀ X, is_cut 0 5 X → m ≤ cut_capacity sample_network 0 5 X) ∧
    (¬ reachable sample_network 0 5 → m = 0).
Proof.
  apply (edmonds_karp_max_flow (λ _, map_to_list) map_to_list sample_network 0 5 40).
  - reflexivity.
  - reflexivity.
  - apply sample_network_built.
  - lia.
  - vm_compute. lia.
Defined.

(** C5 as stated fails when the source is the sink: no number of rounds
    makes [edmonds_karp] return. *)
Lemma edmonds_karp_same_node_diverges :
  ¬ ∃ fuel r,
      edmonds_karp (λ _, map_to_list) map_to_list fuel sample_network 0 0 = Some r.
Proof.
  intros (fuel & r & Hrun). unfold edmonds_karp in Hrun.
  by rewrite augment_same_node in Hrun.
Qed.

(** *** The augmenting paths that are reported *)

(** A list of edges that leads from [x] to [y]. *)
Inductive chain : Z → list (Z * Z) → Z → Prop :=
| chain_nil x : chain x [] x
| chain_cons x y z rest : chain y rest z → chain x ((x, y) :: rest) z.

Lemma chain_snoc x l y z : chain x l y → chain x (l ++ [(y, z)]) z.
Proof. induction 1; cbn; repeat constructor. done. Qed.

Lemma back_path_chain s R parent v n es :
  back_path s R parent v n es → chain s (reverse es) v.
Proof.
  induction 1 as [|u v n es _ _ _ _ _ IH]; [constructor|].
  rewrite reverse_cons. by apply chain_snoc.
Qed.

(** The flow that the recorded steps add up to. *)
Definition flow_sum (steps : list (list (Z * Z) * num)) : Z :=
  zsum (λ st, match st.2 with Fin z => z | Inf => 0 end) steps.

Definition step_ok (s t : Z) (st : list (Z * Z) * num) : Prop :=
  ∃ z, st.2 = Fin z ∧ 0 < z ∧ chain s st.1 t.

Section steps.
Variable items : Z → gmap Z Z → list (Z * Z).
Variable outer : dict2 → list (Z * gmap Z Z).
Hypothesis items_perm : ∀ u m, items u m ≡ₚ map_to_list m.
Hypothesis outer_perm : ∀ d, outer d ≡ₚ map_to_list d.
Variable g : FlowGraph.
Variable s t : Z.
Hypothesis g_wf : wf g.
Hypothesis s_ne_t : s ≠ t.

Lemma augment_steps fuel : ∀ R m steps,
  residual_ok g s t R m →
  (Z.to_nat (cut_capacity g s t {[s]} - m) + length (node_list g s t) ≤ fuel)%nat →
  ∃ m' new,
    augment items fuel R s t (Fin m) steps = Some (Ret (Fin m', steps ++ new)) ∧
    m' = m + flow_sum new ∧ Forall (step_ok s t) new.
Proof.
  induction fuel as [|f IH]; intros R m steps HR Hfuel.
  - pose proof (source_in_nodes g s t) as Hin.
    destruct (node_list g s t); [by apply elem_of_nil in Hin|cbn in Hfuel; lia].
  - cbn [augment].
    destruct (start_bfs items outer items_perm outer_perm g s t g_wf s_ne_t R m (S f) HR
                ltac:(lia)) as (parent & -> & Hp & Hclosed).
    destruct (parent !! t) as [x|] eqn:Ht.
    + destruct (p_linked _ _ _ _ _ Hp t ltac:(rewrite Ht; eauto)) as (n & Hl & Hn).
      pose proof (pinv_size _ _ _ _ _ Hp).
      destruct (round_ok items outer items_perm outer_perm g s t g_wf s_ne_t
                  R m parent n (S f) HR Hp Hl ltac:(lia))
        as (es & z & R' & Htrace & Happly & Hz & HR').
      destruct (trace_back_ok s R parent (p_source _ _ _ _ _ Hp) t n Hl (S f) [] Inf
                  ltac:(lia)) as (es' & Htrace' & Hback).
      rewrite Htrace in Htrace'. injection Htrace' as -> _.
      rewrite Htrace, Happly.
      pose proof (residual_bound items outer items_perm outer_perm g s t g_wf s_ne_t _ _ HR').
      destruct (IH R' (m + z) (steps ++ [(reverse es', Fin z)]) HR' ltac:(lia))
        as (m' & new & Hrun & -> & Hnew).
      exists (m + z + flow_sum new), ((reverse es', Fin z) :: new). split_and!.
      * cbn [num_add]. rewrite Hrun. by rewrite <- app_assoc.
      * unfold flow_sum. cbn [zsum snd]. lia.
      * constructor; [|done]. exists z. split_and!; [done..|].
        by apply (back_path_chain s R parent t n).
    + exists m, []. rewrite app_nil_r. split_and!; [done| |constructor].
      unfold flow_sum. cbn. lia.
Qed.
End steps.



(** *** [add_edge] and [nodes] *)

Lemma add_edge_run (g : FlowGraph) (u v cap : Z) :
  match add_edge g u v cap with
  | Raise e => cap ≤ 0 ∧ e = ValueError "Capacity must be positive"
  | Ret g' =>
      0 < cap ∧ dom (adj g') = dom (adj g) ∪ {[u; v]} ∧
      ∀ x y, capacity g' x y = capacity g x y + (if decide (x = u ∧ y = v) then cap else 0)
  end.
Proof.
  unfold add_edge. destruct (cap <=? 0) eqn:Hcap; [split; [lia|done]|].
  apply Z.leb_gt in Hcap. split; [done|].
  set (a := set2 (adj g) u v (get2 (adj g) u v + cap)).
  assert (Hdom : dom a = dom (adj g) ∪ {[u]}).
  { unfold a, set2. rewrite dom_insert_L. set_solver. }
  assert (Hget : ∀ x y, get2 a x y
                 = capacity g x y + (if decide (x = u ∧ y = v) then cap else 0)).
  { intros x y. unfold a, capacity. rewrite get2_set2.
    case_decide as Hd; [destruct Hd as [-> ->]|]; lia. }
  destruct (a !! v) as [row|] eqn:Hv; cbn [adj].
  - split; [|done]. rewrite Hdom. assert (v ∈ dom a) by (apply elem_of_dom; eauto).
    set_solver.
  - split.
    + rewrite dom_insert_L, Hdom. set_solver.
    + intros x y. unfold capacity at 1. cbn [adj]. rewrite <- Hget.
      unfold get2. destruct (decide (x = v)) as [->|Hne].
      * by rewrite lookup_insert_eq, Hv.
      * by rewrite lookup_insert_ne.
Qed.

(** X8.  [add_edge] refuses a capacity that is not positive; otherwise it
    adds the capacity to what the pair [(u, v)] already has, leaves
    every other pair alone, and makes both ends keys of [adj]. *)
Theorem add_edge_accumulates (g : FlowGraph) (u v cap : Z) :
  match add_edge g u v cap with
  | Raise e => cap ≤ 0 ∧ e = ValueError "Capacity must be positive"
  | Ret g' =>
      0 < cap ∧ dom (adj g') = dom (adj g) ∪ {[u; v]} ∧
      ∀ x y, capacity g' x y = capacity g x y + (if decide (x = u ∧ y = v) then cap else 0)
  end.
Proof. apply add_edge_run. Qed.

(** [nodes]: the keys of [adj] and of its rows, sorted. *)
Definition nodes (g : FlowGraph) : list Z :=
  merge_sort Z.le
    (elements (dom (adj g) ∪ ⋃ ((λ p, dom p.2) <$> map_to_list (adj g)))).

Lemma row_keys g x :
  wf g → x ∈ ⋃ ((λ p : Z * gmap Z Z, dom p.2) <$> map_to_list (adj g)) → x ∈ dom (adj g).
Proof.
  intros Hwf Hx. apply elem_of_union_list in Hx as (X & HX & Hx).
  apply list_elem_of_fmap in HX as ([u row] & -> & Hin). cbn [snd] in Hx.
  apply elem_of_map_to_list in Hin. apply elem_of_dom in Hx as [c Hc].
  destruct (Hwf u x) as (_ & _ & Hdom); [|done].
  unfold has_key. rewrite Hin. cbn. eauto.
Qed.

Lemma sorted_strict (l : list Z) :
  StronglySorted Z.le l → NoDup l → StronglySorted Z.lt l.
Proof.
  induction 1 as [|x l Hl IH Hall]; intros Hnd; [constructor|].
  apply NoDup_cons in Hnd as [Hx Hnd]. constructor; [by apply IH|].
  rewrite Forall_forall in *. intros y Hy. specialize (Hall y Hy).
  assert (x ≠ y) by (intros ->; done). lia.
Qed.

(** X9.  On a network built by [add_edge], [nodes] lists in increasing
    order, each once, exactly the nodes that are an end of an edge. *)
Theorem nodes_strictly_sorted (g : FlowGraph) :
  built g →
  StronglySorted Z.lt (nodes g) ∧
  ∀ x, x ∈ nodes g ↔ ∃ y, 0 < capacity g x y ∨ 0 < capacity g y x.
Proof.
  intros Hbuilt. pose proof (built_wf g Hbuilt) as Hwf.
  assert (Hperm : nodes g ≡ₚ elements (dom (adj g))).
  { unfold nodes. rewrite merge_sort_Permutation.
    assert (Heq : dom (adj g) ∪ ⋃ ((λ p : Z * gmap Z Z, dom p.2) <$> map_to_list (adj g))
                  = dom (adj g)).
    { apply set_eq. intros x. rewrite elem_of_union. split; [|auto].
      intros [?|?]; [done|]. by apply row_keys. }
    by rewrite Heq. }
  split.
  - apply sorted_strict; [apply (StronglySorted_merge_sort _)|].
    rewrite Hperm. apply NoDup_elements.
  - intros x. rewrite Hperm, elem_of_elements.
    clear Hperm Hwf. induction Hbuilt as [|g u v c g' Hb IH Hadd].
    + cbn. split; [set_solver|]. intros (y & [H|H]); unfold capacity, get2 in H; cbn in H;
        rewrite lookup_empty in H; cbn in H; rewrite lookup_empty in H; cbn in H; lia.
    + pose proof (add_edge_run g u v c) as Hacc. rewrite Hadd in Hacc.
      destruct Hacc as (Hc & Hdom & Hcap). rewrite Hdom, elem_of_union, IH.
      pose proof (λ a b, capacity_nonneg g a b (built_wf g Hb)) as Hnn.
      split.
      * intros [(y & Hy)|Hx].
        -- exists y. rewrite !Hcap. pose proof (Hnn x y). pose proof (Hnn y x).
           repeat case_decide; lia.
        -- apply elem_of_union in Hx as [->%elem_of_singleton| ->%elem_of_singleton].
           ++ exists v. left. rewrite Hcap. rewrite decide_True by done.
              pose proof (Hnn u v). lia.
           ++ exists u. right. rewrite Hcap. rewrite decide_True by done.
              pose proof (Hnn u v). lia.
      * intros (y & Hy). rewrite !Hcap in Hy.
        destruct (decide (x = u)) as [->|Hxu]; [set_solver|].
        destruct (decide (x = v)) as [->|Hxv]; [set_solver|].
        left. exists y. rewrite !decide_False in Hy by (intros [? ?]; done). lia.
Qed.

Lemma nodes_strictly_sorted_witness :
  StronglySorted Z.lt (nodes sample_network) ∧
  ∀ x, x ∈ nodes sample_network
       ↔ ∃ y, 0 < capacity sample_network x y ∨ 0 < capacity sample_network y x.
Proof. apply nodes_strictly_sorted, sample_network_built. Defined.

(** *** More fuel, same result *)

Lemma bfs_mono items R sink fuel : ∀ fuel' q parent r,
  (fuel ≤ fuel')%nat → bfs items fuel R sink q parent = Some r →
  bfs items fuel' R sink q parent = Some r.
Proof.
  induction fuel as [|f IH]; intros fuel' q parent r Hle Hrun.
  - destruct q as [|u q]; [destruct fuel'; exact Hrun|]. cbn [bfs] in Hrun.
    destruct (parent !! sink) eqn:Hsink; [|done].
    destruct fuel'; cbn [bfs]; by rewrite Hsink.
  - destruct fuel' as [|f']; [lia|]. destruct q as [|u q]; [done|]. cbn [bfs] in *.
    destruct (parent !! sink); [done|].
    destruct (scan u (items u (default ∅ (R !! u))) parent q) as [parent' q'].
    apply IH; [lia|done].
Qed.

Lemma trace_back_mono R parent source fuel : ∀ fuel' v path bottleneck r,
  (fuel ≤ fuel')%nat → trace_back fuel R parent source v path bottleneck = Some r →
  trace_back fuel' R parent source v path bottleneck = Some r.
Proof.
  induction fuel as [|f IH]; intros fuel' v path bottleneck r Hle Hrun.
  - cbn [trace_back] in Hrun. destruct (decide (v = source)) as [->|Hne]; [|done].
    destruct fuel'; cbn [trace_back]; by rewrite decide_True by done.
  - destruct fuel' as [|f']; [lia|]. cbn [trace_back] in *.
    destruct (decide (v = source)); [done|].
    destruct (parent !! v) as [[u|]|]; [|done..].
    destruct (item2 R u v); [|done]. apply IH; [lia|done].
Qed.

Lemma augment_mono items source sink fuel : ∀ fuel' R max_flow steps r,
  (fuel ≤ fuel')%nat → augment items fuel R source sink max_flow steps = Some r →
  augment items fuel' R source sink max_flow steps = Some r.
Proof.
  induction fuel as [|f IH]; intros fuel' R max_flow steps r Hle Hrun; [done|].
  destruct fuel' as [|f']; [lia|]. cbn [augment] in *.
  destruct (bfs items (S f) R sink [source] {[source := None]}) as [parent|] eqn:Hbfs; [|done].
  rewrite (bfs_mono items R sink (S f) (S f') _ _ parent Hle Hbfs).
  destruct (parent !! sink); [|done].
  destruct (trace_back (S f) R parent source sink [] Inf) as [tr|] eqn:Htr; [|done].
  rewrite (trace_back_mono R parent source (S f) (S f') _ _ _ tr Hle Htr).
  destruct tr as [[path bottleneck]|e]; [|done].
  destruct (match bottleneck with Fin b => apply_flow R (reverse path) b | Inf => Ret R end);
    [|done].
  apply IH; [lia|done].
Qed.

(** *** The application around the network *)

(** What a callback does to the widgets. *)
Inductive effect : Type :=
| MessageBox (title text : string)
| ListInsert (text : string)
| ListClear
| LogClear
| LogInsert (text : string)
| StepLabel (text : string)
| CanvasClear
| Draw (highlight_path : option (list (Z * Z))).

(** [self.graph], [self.current_steps] and [self.step_index]. *)
Record app : Type := MkApp {
  graph : FlowGraph;
  current_steps : list (list (Z * Z) * num);
  step_index : Z
}.

Definition new_app : app :=
  {| graph := empty_graph; current_steps := []; step_index := 0 |}.

Definition nl : string := String "010" EmptyString.

(** [str] of a list of pairs of integers. *)
Definition repr_path (path : list (Z * Z)) : string :=
  "[" +:+ PyStr.join ", " ((λ e, "(" +:+ pretty e.1 +:+ ", " +:+ pretty e.2 +:+ ")") <$> path)
  +:+ "]".

Definition repr_num (b : num) : string :=
  match b with
  | Fin z => pretty z
  | Inf => "inf"
  end.

(** [l[idx]] on a list: a negative index counts from the end. *)
Definition list_item {A} (l : list A) (idx : Z) : py A :=
  let i := if idx <? 0 then Z.of_nat (length l) + idx else idx in
  if i <? 0 then Raise IndexError
  else match l !! Z.to_nat i with
       | Some x => Ret x
       | None => Raise IndexError
       end.

Definition show_step (a : app) (idx : Z) : py (list effect) :=
  st ← list_item (current_steps a) idx; Ret [Draw (Some st.1)].

Definition update_step_label (a : app) : effect :=
  StepLabel (match current_steps a with
             | [] => "Step: 0/0"
             | _ => "Step: " +:+ pretty (step_index a + 1) +:+ "/"
                    +:+ pretty (length (current_steps a))
             end).

(** The entries hold text; [int(...)] of an entry is what the handlers
    are given here. *)
Definition add_edge_handler (a : app) (u v cap : py Z) : py (app * list effect) :=
  match (x ← u; y ← v; c ← cap; Ret (x, y, c)) with
  | Raise _ =>
      Ret (a, [MessageBox "Input error" "Please enter integer u, v, and capacity"])
  | Ret (x, y, c) =>
      match add_edge (graph a) x y c with
      | Raise (ValueError msg) => Ret (a, [MessageBox "Value error" msg])
      | Raise e => Raise e
      | Ret g =>
          Ret ({| graph := g; current_steps := current_steps a;
                  step_index := step_index a |},
               [ListInsert (pretty x +:+ " -> " +:+ pretty y +:+ " : " +:+ pretty c);
                Draw None])
      end
  end.

Definition clear_graph (a : app) : app * list effect :=
  ({| graph := empty_graph; current_steps := []; step_index := 0 |},
   [ListClear; CanvasClear; LogClear]).

Definition load_sample (a : app) : py (app * list effect) :=
  let '(a, out) := clear_graph a in
  g ← add_edges (graph a) sample_edges;
  Ret ({| graph := g; current_steps := current_steps a; step_index := step_index a |},
       out ++ ((λ e, ListInsert (pretty e.1.1 +:+ " -> " +:+ pretty e.1.2 +:+ " : "
                                 +:+ pretty e.2)) <$> sample_edges)
           ++ [Draw None]).

Definition prev_step (a : app) : py (app * list effect) :=
  match current_steps a with
  | [] => Ret (a, [])
  | _ =>
      if 0 <? step_index a then
        let a := {| graph := graph a; current_steps := current_steps a;
                    step_index := step_index a - 1 |} in
        out ← show_step a (step_index a);
        Ret (a, out ++ [update_step_label a])
      else Ret (a, [])
  end.

Definition next_step (a : app) : py (app * list effect) :=
  match current_steps a with
  | [] => Ret (a, [])
  | _ =>
      if step_index a <? Z.of_nat (length (current_steps a)) - 1 then
        let a := {| graph := graph a; current_steps := current_steps a;
                    step_index := step_index a + 1 |} in
        out ← show_step a (step_index a);
        Ret (a, out ++ [update_step_label a])
      else Ret (a, [])
  end.

Section handlers.
Variable items : Z → gmap Z Z → list (Z * Z).
Variable outer : dict2 → list (Z * gmap Z Z).

Definition compute_flow (fuel : nat) (a : app) (source sink : py Z)
  : option (py (app * list effect)) :=
  match (x ← source; y ← sink; Ret (x, y)) with
  | Raise _ =>
      Some (Ret (a, [MessageBox "Input error" "Please enter integer source and sink nodes"]))
  | Ret (x, y) =>
      if decide (x = y) then
        Some (Ret (a, [MessageBox "Input error" "Source and sink must be different"]))
      else
        match edmonds_karp items outer fuel (graph a) x y with
        | None => None
        | Some (Raise e) => Some (Raise e)
        | Some (Ret (max_flow, steps)) =>
            let a := {| graph := graph a; current_steps := steps; step_index := 0 |} in
            let log :=
              LogClear :: LogInsert ("Max flow: " +:+ repr_num max_flow +:+ nl)
              :: imap (λ i st, LogInsert ("Step " +:+ pretty (S i) +:+ ": path="
                                          +:+ repr_path st.1 +:+ " flow="
                                          +:+ repr_num st.2 +:+ nl)) steps in
            match (match steps with
                   | [] => Ret [Draw None]
                   | _ => show_step a 0
                   end) with
            | Raise e => Some (Raise e)
            | Ret out => Some (Ret (a, log ++ [update_step_label a] ++ out))
            end
        end
  end.

Inductive event : Type :=
| AddEdge (u v cap : py Z)
| ClearGraph
| LoadSample
| ComputeFlow (source sink : py Z)
| PrevStep
| NextStep.

Definition handle (fuel : nat) (a : app) (ev : event) : option (py (app * list effect)) :=
  match ev with
  | AddEdge u v cap => Some (add_edge_handler a u v cap)
  | ClearGraph => Some (Ret (clear_graph a))
  | LoadSample => Some (load_sample a)
  | ComputeFlow source sink => compute_flow fuel a source sink
  | PrevStep => Some (prev_step a)
  | NextStep => Some (next_step a)
  end.

Fixpoint run (fuel : nat) (a : app) (evs : list event) : option (py (app * list effect)) :=
  match evs with
  | [] => Some (Ret (a, []))
  | ev :: rest =>
      match handle fuel a ev with
      | None => None
      | Some (Raise e) => Some (Raise e)
      | Some (Ret (a, out)) =>
          match run fuel a rest with
          | None => None
          | Some (Raise e) => Some (Raise e)
          | Some (Ret (a, out')) => Some (Ret (a, out ++ out'))
          end
      end
  end.
End handlers.

(** The network of [load_sample] in a window with no steps. *)
Definition sample_app : app :=
  {| graph := sample_network; current_steps := []; step_index := 0 |}.

(** The step browser points at a step whenever there is one. *)
Definition browser_ok (a : app) : Prop :=
  built (graph a) ∧
  ((current_steps a = [] ∧ step_index a = 0) ∨
   0 ≤ step_index a < Z.of_nat (length (current_steps a))).

Lemma show_step_ok a idx :
  0 ≤ idx < Z.of_nat (length (current_steps a)) →
  ∃ st, current_steps a !! Z.to_nat idx = Some st ∧ show_step a idx = Ret [Draw (Some st.1)].
Proof.
  intros Hidx. unfold show_step, list_item.
  replace (idx <? 0) with false by lia. replace (idx <? 0) with false by lia.
  destruct (lookup_lt_is_Some_2 (current_steps a) (Z.to_nat idx) ltac:(lia)) as [st Hst].
  rewrite Hst. by exists st.
Qed.

Section app_correct.
Variable items : Z → gmap Z Z → list (Z * Z).
Variable outer : dict2 → list (Z * gmap Z Z).
Hypothesis items_perm : ∀ u m, items u m ≡ₚ map_to_list m.
Hypothesis outer_perm : ∀ d, outer d ≡ₚ map_to_list d.

Lemma callback_ok a ev :
  browser_ok a →
  ∃ fuel0 a' out, browser_ok a' ∧
    ∀ fuel, (fuel0 ≤ fuel)%nat → handle items outer fuel a ev = Some (Ret (a', out)).
Proof.
  intros Ha. pose proof Ha as [Hbuilt Hsteps].
  destruct ev as [u v cap| | |source sink| |]; cbn [handle].
  - exists 0%nat. unfold add_edge_handler.
    destruct u as [x|e]; [|by eexists _, _].
    destruct v as [y|e]; [|by eexists _, _].
    destruct cap as [c|e]; [|by eexists _, _]. cbn [mbind py_bind mret py_ret].
    pose proof (add_edge_run (graph a) x y c) as Hacc.
    destruct (add_edge (graph a) x y c) as [g|e] eqn:Hadd.
    + eexists _, _. split; [|done]. split; [|done]. cbn [graph].
      by apply (built_add (graph a) x y c).
    + destruct Hacc as [_ ->]. by eexists _, _.
  - exists 0%nat. eexists _, _. split; [|done]. split; [constructor|]. by left.
  - exists 0%nat. unfold load_sample. cbn [clear_graph graph].
    eexists _, _. split; [|intros; vm_compute; reflexivity]. split; [|by left].
    cbn [graph]. apply (add_edges_built sample_edges empty_graph); [constructor|].
    vm_compute. reflexivity.
  - unfold compute_flow.
    destruct source as [x|e]; [|exists 0%nat; by eexists _, _].
    destruct sink as [y|e]; [|exists 0%nat; by eexists _, _].
    cbn [mbind py_bind mret py_ret].
    destruct (decide (x = y)) as [->|Hne]; [exists 0%nat; by eexists _, _|].
    exists (fuel_needed (graph a) x y).
    destruct (edmonds_karp_ok items outer items_perm outer_perm (graph a) x y
                (built_wf _ Hbuilt) Hne _ (Nat.le_refl _)) as (m & steps & Hrun & _).
    assert (∀ fuel, (fuel_needed (graph a) x y ≤ fuel)%nat →
              edmonds_karp items outer fuel (graph a) x y = Some (Ret (Fin m, steps)))
      as Hall.
    { intros fuel Hfuel. by apply (augment_mono items x y (fuel_needed (graph a) x y)). }
    destruct steps as [|st steps].
    + eexists _, _. split; [|intros fuel Hfuel; by rewrite (Hall fuel Hfuel)].
      split; [done|]. by left.
    + destruct (show_step_ok {| graph := graph a; current_steps := st :: steps;
                                step_index := 0 |} 0) as (st' & _ & Hshow).
      { cbn [current_steps length]. lia. }
      eexists _, _. split; [|intros fuel Hfuel; rewrite (Hall fuel Hfuel), Hshow; done].
      split; [done|]. right. cbn [current_steps step_index length]. lia.
  - exists 0%nat. unfold prev_step.
    destruct (current_steps a) as [|st steps] eqn:Hcur; [by exists a, []|].
    destruct Hsteps as [[? _]|Hidx]; [done|].
    destruct (0 <? step_index a) eqn:Hpos; [|by exists a, []].
    destruct (show_step_ok {| graph := graph a; current_steps := current_steps a;
                              step_index := step_index a - 1 |} (step_index a - 1))
      as (st' & _ & Hshow).
    { cbn [current_steps]. rewrite Hcur. lia. }
    rewrite <- Hcur. cbn [step_index]. rewrite Hshow. eexists _, _. split; [|done].
    split; [done|]. right. cbn [current_steps step_index]. rewrite Hcur in *. lia.
  - exists 0%nat. unfold next_step.
    destruct (current_steps a) as [|st steps] eqn:Hcur; [by exists a, []|].
    destruct Hsteps as [[? _]|Hidx]; [done|].
    destruct (step_index a <? Z.of_nat (length (st :: steps)) - 1) eqn:Hlt;
      [|by exists a, []].
    destruct (show_step_ok {| graph := graph a; current_steps := current_steps a;
                              step_index := step_index a + 1 |} (step_index a + 1))
      as (st' & _ & Hshow).
    { cbn [current_steps]. rewrite Hcur. lia. }
    rewrite <- Hcur. cbn [step_index]. rewrite Hshow. eexists _, _. split; [|done].
    split; [done|]. right. cbn [current_steps step_index]. rewrite Hcur in *. lia.
Qed.

Lemma callbacks_ok evs : ∀ a,
  browser_ok a →
  ∃ fuel0 a' out, browser_ok a' ∧
    ∀ fuel, (fuel0 ≤ fuel)%nat → run items outer fuel a evs = Some (Ret (a', out)).
Proof.
  induction evs as [|ev evs IH]; intros a Ha.
  - by exists 0%nat, a, [].
  - destruct (callback_ok a ev Ha) as (f1 & a1 & out1 & Ha1 & H1).
    destruct (IH a1 Ha1) as (f2 & a2 & out2 & Ha2 & H2).
    exists (f1 `max` f2)%nat, a2, (out1 ++ out2). split; [done|].
    intros fuel Hfuel. cbn [run]. rewrite (H1 fuel) by lia. by rewrite (H2 fuel) by lia.
Qed.

(** What [compute_flow] does with two integers in the entries. *)
Lemma compute_flow_ok a x y :
  built (graph a) → x ≠ y →
  ∃ m steps out,
    (∀ fuel, (fuel_needed (graph a) x y ≤ fuel)%nat →
       compute_flow items outer fuel a (Ret x) (Ret y)
       = Some (Ret ({| graph := graph a; current_steps := steps; step_index := 0 |},
                    LogClear :: LogInsert ("Max flow: " +:+ pretty m +:+ nl) :: out))) ∧
    (∃ f, feasible (graph a) x y f ∧ flow_value (graph a) x y f = m) ∧
    (∀ f, feasible (graph a) x y f → flow_value (graph a) x y f ≤ m) ∧
    m = flow_sum steps ∧
    Draw (match steps with [] => None | st :: _ => Some st.1 end) ∈ out.
Proof.
  intros Hbuilt Hne. unfold compute_flow. cbn [mbind py_bind mret py_ret].
  destruct (decide (x = y)) as [?|_]; [done|].
  destruct (edmonds_karp_ok items outer items_perm outer_perm (graph a) x y
              (built_wf _ Hbuilt) Hne _ (Nat.le_refl _)) as (m & steps & Hrun & Hf & Hmax & _).
  destruct (augment_steps items outer items_perm outer_perm (graph a) x y (built_wf _ Hbuilt)
              Hne (fuel_needed (graph a) x y) (build_residual items outer (graph a)) 0 [])
    as (m' & steps' & Hrun' & Hsum & _).
  { by apply build_residual_ok, built_wf. }
  { unfold fuel_needed. by rewrite Z.sub_0_r. }
  unfold edmonds_karp in Hrun. rewrite Hrun, app_nil_l in Hrun'.
  injection Hrun' as <- <-. rewrite Z.add_0_l in Hsum.
  assert (∀ fuel, (fuel_needed (graph a) x y ≤ fuel)%nat →
            edmonds_karp items outer fuel (graph a) x y = Some (Ret (Fin m, steps)))
    as Hall.
  { intros fuel Hfuel. by apply (augment_mono items x y (fuel_needed (graph a) x y)). }
  exists m, steps. destruct steps as [|st steps].
  - exists [update_step_label {| graph := graph a; current_steps := []; step_index := 0 |};
            Draw None].
    split; [intros fuel Hfuel; by rewrite (Hall fuel Hfuel)|].
    split_and!; [exact Hf|exact Hmax|exact Hsum|]. apply list_elem_of_further, list_elem_of_here.
  - destruct (show_step_ok {| graph := graph a; current_steps := st :: steps;
                              step_index := 0 |} 0) as (st' & Hst & Hshow).
    { cbn [current_steps length]. lia. }
    injection Hst as <-.
    eexists. split.
    { intros fuel Hfuel. rewrite (Hall fuel Hfuel), Hshow. cbn [repr_num]. reflexivity. }
    split_and!; [exact Hf|exact Hmax|exact Hsum|]. rewrite !elem_of_app. right. right.
    apply list_elem_of_here.
Qed.
End app_correct.

(** X10.  Whatever is clicked and typed, no callback of the max-flow window
    raises, and the step browser stays in range. *)
Theorem flow_app_steps_in_range items outer (evs : list event) :
  (∀ u m, items u m ≡ₚ map_to_list m) →
  (∀ d, outer d ≡ₚ map_to_list d) →
  ∃ fuel0 a out,
    (∀ fuel, (fuel0 ≤ fuel)%nat → run items outer fuel new_app evs = Some (Ret (a, out))) ∧
    built (graph a) ∧
    ((current_steps a = [] ∧ step_index a = 0) ∨
     0 ≤ step_index a < Z.of_nat (length (current_steps a))).
Proof.
  intros Hitems Houter.
  destruct (callbacks_ok items outer Hitems Houter evs new_app) as (fuel0 & a & out & [Hb Hs] & Hrun).
  { split; [constructor|]. by left. }
  by exists fuel0, a, out.
Qed.

Lemma flow_app_steps_in_range_witness :
  ∃ fuel0 a out,
    (∀ fuel, (fuel0 ≤ fuel)%nat →
       run (λ _, map_to_list) map_to_list fuel new_app
           [LoadSample; ComputeFlow (Ret 0) (Ret 5); NextStep; NextStep; PrevStep;
            AddEdge (Ret 5) (Ret 6) (Ret 0); ComputeFlow (Ret 1) (Ret 1)]
       = Some (Ret (a, out))) ∧
    built (graph a) ∧
    ((current_steps a = [] ∧ step_index a = 0) ∨
     0 ≤ step_index a < Z.of_nat (length (current_steps a))).
Proof. apply (flow_app_steps_in_range (λ _, map_to_list) map_to_list); done. Defined.

(** X11.  [compute_flow] refuses a source equal to the sink before any
    search and leaves everything as it was; with two different integers
    it stores the steps, points the browser at the first one, and the
    number it writes to the log is the value of a maximum flow, which is
    the sum of the steps' flows. *)
Theorem compute_flow_reports items outer (a : app) (x y : Z) :
  (∀ u m, items u m ≡ₚ map_to_list m) →
  (∀ d, outer d ≡ₚ map_to_list d) →
  built (graph a) →
  x ≠ y →
  (∀ fuel, compute_flow items outer fuel a (Ret x) (Ret x)
           = Some (Ret (a, [MessageBox "Input error" "Source and sink must be different"]))) ∧
  ∃ m steps out,
    (∀ fuel, (fuel_needed (graph a) x y ≤ fuel)%nat →
       compute_flow items outer fuel a (Ret x) (Ret y)
       = Some (Ret ({| graph := graph a; current_steps := steps; step_index := 0 |},
                    LogClear :: LogInsert ("Max flow: " +:+ pretty m +:+ nl) :: out))) ∧
    (∃ f, feasible (graph a) x y f ∧ flow_value (graph a) x y f = m) ∧
    (∀ f, feasible (graph a) x y f → flow_value (graph a) x y f ≤ m) ∧
    m = flow_sum steps ∧
    Draw (match steps with [] => None | st :: _ => Some st.1 end) ∈ out.
Proof.
  intros Hitems Houter Hbuilt Hne. split.
  - intros fuel. unfold compute_flow. cbn [mbind py_bind mret py_ret].
    by destruct (decide (x = x)).
  - exact (compute_flow_ok items outer Hitems Houter a x y Hbuilt Hne).
Qed.

Lemma compute_flow_reports_witness :
  (∀ fuel, compute_flow (λ _, map_to_list) map_to_list fuel sample_app (Ret 0) (Ret 0)
           = Some (Ret (sample_app,
                        [MessageBox "Input error" "Source and sink must be different"]))) ∧
  ∃ m steps out,
    (∀ fuel, (fuel_needed (graph sample_app) 0 5 ≤ fuel)%nat →
       compute_flow (λ _, map_to_list) map_to_list fuel sample_app (Ret 0) (Ret 5)
       = Some (Ret ({| graph := graph sample_app; current_steps := steps; step_index := 0 |},
                    LogClear :: LogInsert ("Max flow: " +:+ pretty m +:+ nl) :: out))) ∧
    (∃ f, feasible (graph sample_app) 0 5 f ∧ flow_value (graph sample_app) 0 5 f = m) ∧
    (∀ f, feasible (graph sample_app) 0 5 f → flow_value (graph sample_app) 0 5 f ≤ m) ∧
    m = flow_sum steps ∧
    Draw (match steps with [] => None | st :: _ => Some st.1 end) ∈ out.
Proof.
  apply (compute_flow_reports (λ _, map_to_list) map_to_list sample_app 0 5).
  - reflexivity.
  - reflexivity.
  - exact sample_network_built.
  - discriminate.
Defined.

End Flow.

(** * Strongly connected components: [tarjan_scc] *)

Module Tarjan.

Section tarjan_scc.
Context {node : Type} `{Countable node}.

(** The variables that [strongconnect] shares with [tarjan_scc].  The
    Python list [stack] is kept with its last element first. *)
Record state : Type := MkState {
  index : nat;
  index_map : gmap node nat;
  lowlink : gmap node nat;
  stack : list node;
  onstack : gset node;
  sccs : list (list node)
}.

Definition initial : state :=
  {| index := 0; index_map := ∅; lowlink := ∅; stack := []; onstack := ∅; sccs := [] |}.

(** [d[k]] *)
Definition getitem (d : gmap node nat) (k : node) : py nat :=
  match d !! k with
  | Some x => Ret x
  | None => Raise KeyError
  end.

Definition set_lowlink (v : node) (x : nat) (st : state) : state :=
  {| index := index st; index_map := index_map st;
     lowlink := <[v := x]> (lowlink st);
     stack := stack st; onstack := onstack st; sccs := sccs st |}.

(** [lowlink[v] = min(lowlink[v], d[w])] *)
Definition lower (v : node) (d : gmap node nat) (w : node) (st : state) : py state :=
  a ← getitem (lowlink st) v;
  b ← getitem d w;
  Ret (set_lowlink v (Nat.min a b) st).

(** The first lines of [strongconnect]. *)
Definition enter (v : node) (st : state) : state :=
  {| index := S (index st);
     index_map := <[v := index st]> (index_map st);
     lowlink := <[v := index st]> (lowlink st);
     stack := v :: stack st;
     onstack := {[v]} ∪ onstack st;
     sccs := sccs st |}.

(** [while True: w = stack.pop(); onstack.remove(w); scc.append(w);
    if w == v: break] *)
Fixpoint pop_scc (v : node) (stack : list node) (onstack : gset node) (scc : list node)
  : py (list node * gset node * list node) :=
  match stack with
  | [] => Raise IndexError
  | w :: rest =>
      if decide (w ∈ onstack) then
        if decide (w = v) then Ret (rest, onstack ∖ {[w]}, scc ++ [w])
        else pop_scc v rest (onstack ∖ {[w]}) (scc ++ [w])
      else Raise KeyError
  end.

(** [if lowlink[v] == index_map[v]: ...] *)
Definition leave (v : node) (st : state) : py state :=
  l ← getitem (lowlink st) v;
  i ← getitem (index_map st) v;
  if Nat.eqb l i then
    match pop_scc v (stack st) (onstack st) [] with
    | Raise e => Raise e
    | Ret (stack', onstack', scc) =>
        Ret {| index := index st; index_map := index_map st; lowlink := lowlink st;
               stack := stack'; onstack := onstack'; sccs := sccs st ++ [scc] |}
    end
  else Ret st.

Section strongconnect.
Variable graph : gmap node (list node).

(** [for w in graph.get(v, []): ...], with [sc] for the recursive call. *)
Fixpoint visit (sc : node → state → option (py state)) (v : node) (ws : list node)
    (st : state) : option (py state) :=
  match ws with
  | [] => Some (Ret st)
  | w :: rest =>
      match index_map st !! w with
      | None =>
          match sc w st with
          | None => None
          | Some (Raise e) => Some (Raise e)
          | Some (Ret st) =>
              match lower v (lowlink st) w st with
              | Raise e => Some (Raise e)
              | Ret st => visit sc v rest st
              end
          end
      | Some _ =>
          if decide (w ∈ onstack st) then
            match lower v (index_map st) w st with
            | Raise e => Some (Raise e)
            | Ret st => visit sc v rest st
            end
          else visit sc v rest st
      end
  end.

(** [fuel] bounds the depth of the recursion; [None] when it runs out. *)
Fixpoint strongconnect (fuel : nat) (v : node) (st : state) : option (py state) :=
  match fuel with
  | O => None
  | S f =>
      match visit (strongconnect f) v (default [] (graph !! v)) (enter v st) with
      | None => None
      | Some (Raise e) => Some (Raise e)
      | Some (Ret st) => Some (leave v st)
      end
  end.

(** [for v in list(graph.keys()): if v not in index_map: strongconnect(v)] *)
Fixpoint each_key (fuel : nat) (keys : list node) (st : state) : option (py state) :=
  match keys with
  | [] => Some (Ret st)
  | v :: rest =>
      match index_map st !! v with
      | Some _ => each_key fuel rest st
      | None =>
          match strongconnect fuel v st with
          | None => None
          | Some (Raise e) => Some (Raise e)
          | Some (Ret st) => each_key fuel rest st
          end
      end
  end.
End strongconnect.

(** The order of [graph.keys()] is the order in which the keys were
    inserted, which the map does not record: [keys] enumerates them. *)
Definition tarjan_scc (keys : gmap node (list node) → list node) (fuel : nat)
    (graph : gmap node (list node)) : option (py (list (list node))) :=
  match each_key graph fuel (keys graph) initial with
  | None => None
  | Some (Raise e) => Some (Raise e)
  | Some (Ret st) => Some (Ret (sccs st))
  end.

(** ** Correctness *)

Section correct.
Variable graph : gmap node (list node).

Definition edge (v w : node) : Prop := w ∈ default [] (graph !! v).
Definition reach : node → node → Prop := rtc edge.

(** Every node that occurs in the graph, as a key or as a neighbor. *)
Definition all_nodes : gset node :=
  dom graph ∪ list_to_set (mjoin (snd <$> map_to_list graph)).

Lemma edge_nodes v w : edge v w → v ∈ all_nodes ∧ w ∈ all_nodes.
Proof.
  unfold edge, all_nodes. intros Hw.
  destruct (graph !! v) as [ws|] eqn:Hv; [|by apply elem_of_nil in Hw].
  split; [apply elem_of_union_l, elem_of_dom; eauto|].
  apply elem_of_union_r, elem_of_list_to_set, list_elem_of_join.
  exists ws. split; [done|]. apply list_elem_of_fmap. exists (v, ws).
  split; [done|]. by apply elem_of_map_to_list.
Qed.

Lemma all_nodes_elem x : x ∈ all_nodes → x ∈ dom graph ∨ ∃ v, v ∈ dom graph ∧ edge v x.
Proof.
  unfold all_nodes. intros [Hx|Hx]%elem_of_union; [by left|right].
  apply elem_of_list_to_set, list_elem_of_join in Hx as (ws & Hx & Hws).
  apply list_elem_of_fmap in Hws as ([v ws'] & -> & Hin).
  apply elem_of_map_to_list in Hin. exists v. split; [apply elem_of_dom; eauto|].
  unfold edge. by rewrite Hin.
Qed.

Definition visited (st : state) (x : node) : Prop := is_Some (index_map st !! x).
Definition idx (st : state) (x : node) : nat := default 0%nat (index_map st !! x).

(** Lists that go down in the order of discovery. *)
Definition descending (i : node → nat) (l : list node) : Prop :=
  StronglySorted (λ a b, (i b < i a)%nat) l.

Lemma descending_ext i j l :
  (∀ x, x ∈ l → i x = j x) → descending i l → descending j l.
Proof.
  unfold descending. induction l as [|a l IH]; intros Hij Hd; [constructor|].
  apply StronglySorted_cons in Hd as [Hall Hd]. apply StronglySorted_cons. split.
  - apply Forall_forall. intros b Hb. rewrite Forall_forall in Hall.
    rewrite <- (Hij a), <- (Hij b); [by apply Hall|by right|by left].
  - apply IH; [|done]. intros x Hx. apply Hij. by right.
Qed.

Lemma descending_cons i a l :
  descending i (a :: l) ↔ (∀ b, b ∈ l → (i b < i a)%nat) ∧ descending i l.
Proof. unfold descending. by rewrite StronglySorted_cons, Forall_forall. Qed.

Lemma descending_app i l1 l2 :
  descending i (l1 ++ l2) ↔
  (∀ a b, a ∈ l1 → b ∈ l2 → (i b < i a)%nat) ∧ descending i l1 ∧ descending i l2.
Proof. unfold descending. by rewrite StronglySorted_app. Qed.

Lemma descending_nodup i l : descending i l → NoDup l.
Proof.
  induction l as [|a l IH]; [constructor|]. rewrite descending_cons, NoDup_cons.
  intros [Ha Hd]. split; [|by apply IH]. intros Hin. specialize (Ha a Hin). lia.
Qed.

(** The state between two steps; [gs] lists the nodes whose call of
    [strongconnect] is still running, the innermost first. *)
Record wf (gs : list node) (st : state) : Prop := {
  wf_low : ∀ x, visited st x → is_Some (lowlink st !! x);
  wf_idx : ∀ x, visited st x → (idx st x < index st)%nat;
  wf_onstack : ∀ x, x ∈ onstack st ↔ x ∈ stack st;
  wf_sorted : descending (idx st) (stack st);
  wf_visited : ∀ x, visited st x ↔ x ∈ stack st ∨ x ∈ mjoin (sccs st);
  wf_disjoint : ∀ x, x ∈ stack st → x ∉ mjoin (sccs st);
  wf_nodup : NoDup (mjoin (sccs st));
  wf_nodes : ∀ x, visited st x → x ∈ all_nodes;
  wf_scc : ∀ c x y, c ∈ sccs st → x ∈ c → (y ∈ c ↔ reach x y ∧ reach y x);
  wf_nonempty : ∀ c, c ∈ sccs st → c ≠ [];
  wf_gray : ∀ x, x ∈ gs → x ∈ stack st;
  wf_gray_sorted : descending (idx st) gs;
  wf_stack_reach : ∀ x y, x ∈ stack st → y ∈ stack st →
                     (idx st x ≤ idx st y)%nat → reach x y;
  wf_to_gray : ∀ y, y ∈ stack st →
                 ∃ x, x ∈ gs ∧ (idx st x ≤ idx st y)%nat ∧ reach y x;
  wf_black : ∀ x y, visited st x → x ∉ gs → edge x y → visited st y
}.

(** What a call leaves of the state it found. *)
Record ext (st st' : state) : Prop := {
  ext_map : index_map st ⊆ index_map st';
  ext_low : ∀ x, visited st x → lowlink st' !! x = lowlink st !! x;
  ext_index : (index st ≤ index st')%nat;
  ext_new : ∀ x, ¬ visited st x → visited st' x → (index st ≤ idx st' x)%nat
}.

Lemma ext_visited st st' x : ext st st' → visited st x → visited st' x.
Proof.
  intros [Hm _ _ _] [i Hi]. exists i. by apply (lookup_weaken _ _ _ _ Hi).
Qed.

Lemma ext_idx st st' x : ext st st' → visited st x → idx st' x = idx st x.
Proof.
  intros [Hm _ _ _] [i Hi]. unfold idx. by rewrite Hi, (lookup_weaken _ _ _ _ Hi Hm).
Qed.

Lemma ext_refl st : ext st st.
Proof. split; [done|done|lia|]. intros x Hn Hv. by destruct Hn. Qed.

Lemma ext_trans gs st1 st2 st3 :
  wf gs st2 → ext st1 st2 → ext st2 st3 → ext st1 st3.
Proof.
  intros Hwf H12 H23. split.
  - etrans; [apply H12|apply H23].
  - intros x Hx. rewrite (ext_low _ _ H23) by by apply (ext_visited st1).
    by apply (ext_low _ _ H12).
  - pose proof (ext_index _ _ H12). pose proof (ext_index _ _ H23). lia.
  - intros x Hn Hv. destruct (decide (visited st2 x)) as [Hv2|Hv2].
    + rewrite (ext_idx st2 st3) by done. by apply (ext_new _ _ H12).
    + pose proof (ext_new _ _ H23 x Hv2 Hv). pose proof (ext_index _ _ H12). lia.
Qed.

Lemma ext_size st st' :
  ext st st' →
  (size (all_nodes ∖ dom (index_map st')) ≤ size (all_nodes ∖ dom (index_map st)))%nat.
Proof.
  intros Hext. apply subseteq_size. intros x [Hx Hn]%elem_of_difference.
  apply elem_of_difference. split; [done|]. intros Hd. apply Hn.
  apply elem_of_dom. apply elem_of_dom in Hd. by apply (ext_visited st).
Qed.

Lemma wf_stack_visited gs st x : wf gs st → x ∈ stack st → visited st x.
Proof. intros Hwf Hx. apply (wf_visited _ _ Hwf). by left. Qed.

Lemma wf_stack_nodup gs st : wf gs st → NoDup (stack st).
Proof. intros Hwf. apply (descending_nodup (idx st)), Hwf. Qed.

(** Changing a [lowlink] entry leaves the rest alone. *)
Lemma wf_set_lowlink gs st v x : wf gs st → wf gs (set_lowlink v x st).
Proof.
  intros [H1 H2 H3 H4 H5 H6 H7 H8 H9 H9' H10 H11 H12 H13 H14]. split; try done.
  intros y Hy. cbn [lowlink set_lowlink]. apply lookup_insert_is_Some'.
  right. by apply H1.
Qed.

Lemma lower_run v d w st a b :
  lowlink st !! v = Some a → d !! w = Some b →
  lower v d w st = Ret (set_lowlink v (Nat.min a b) st).
Proof. intros Ha Hb. unfold lower, getitem. by rewrite Ha, Hb. Qed.

(** *** Entering a node *)

Lemma idx_enter_new v st : idx (enter v st) v = index st.
Proof. unfold idx. cbn [index_map enter]. by rewrite lookup_insert_eq. Qed.

Lemma idx_enter_old v st x : x ≠ v → idx (enter v st) x = idx st x.
Proof. intros Hne. unfold idx. cbn [index_map enter]. by rewrite lookup_insert_ne. Qed.

Lemma visited_enter v st x : visited (enter v st) x ↔ x = v ∨ visited st x.
Proof.
  unfold visited. cbn [index_map enter]. rewrite lookup_insert_is_Some'. naive_solver.
Qed.

Lemma ext_enter v st : index_map st !! v = None → ext st (enter v st).
Proof.
  intros Hv. split; cbn [index_map lowlink index enter].
  - by apply insert_subseteq.
  - intros x [i Hx]. rewrite lookup_insert_ne; [done|]. intros <-. congruence.
  - lia.
  - intros x Hn [->|Hx]%visited_enter; [|done]. by rewrite idx_enter_new.
Qed.

Lemma wf_enter gs st v :
  wf gs st → index_map st !! v = None → v ∈ all_nodes →
  (∀ g, head gs = Some g → edge g v) →
  wf (v :: gs) (enter v st).
Proof.
  intros Hwf Hv HvU Hedge.
  assert (Hfresh : ∀ x, visited st x → x ≠ v).
  { intros x [i Hx] ->. congruence. }
  assert (Hold : ∀ x, visited st x → idx (enter v st) x = idx st x).
  { intros x Hx. apply idx_enter_old. by apply Hfresh. }
  assert (Hstack : ∀ x, x ∈ stack st → idx (enter v st) x = idx st x).
  { intros x Hx. apply Hold. by apply (wf_stack_visited gs). }
  assert (Hbelow : ∀ x, visited st x → (idx (enter v st) x < idx (enter v st) v)%nat).
  { intros x Hx. rewrite idx_enter_new, Hold by done. by apply (wf_idx _ _ Hwf). }
  split.
  - intros x [->|Hx]%visited_enter; cbn [lowlink enter]; apply lookup_insert_is_Some'.
    + by left.
    + right. by apply (wf_low _ _ Hwf).
  - intros x [->|Hx]%visited_enter; cbn [index enter].
    + rewrite idx_enter_new. lia.
    + rewrite Hold by done. pose proof (wf_idx _ _ Hwf x Hx). lia.
  - intros x. cbn [onstack stack enter]. rewrite elem_of_union, elem_of_singleton,
      elem_of_cons, (wf_onstack _ _ Hwf). done.
  - cbn [stack enter]. apply descending_cons. split.
    + intros b Hb. apply Hbelow. by apply (wf_stack_visited gs).
    + apply (descending_ext (idx st)); [|apply Hwf]. intros x Hx. by rewrite Hstack.
  - intros x. rewrite visited_enter. cbn [stack sccs enter].
    rewrite elem_of_cons, (wf_visited _ _ Hwf). tauto.
  - intros x. cbn [stack sccs enter]. intros [->|Hx]%elem_of_cons.
    + intros Hin. assert (Hvis : visited st v) by (apply (wf_visited _ _ Hwf); by right).
      destruct Hvis. congruence.
    + by apply (wf_disjoint _ _ Hwf).
  - apply Hwf.
  - intros x [->|Hx]%visited_enter; [done|]. by apply (wf_nodes _ _ Hwf).
  - apply Hwf.
  - apply Hwf.
  - intros x. cbn [stack enter]. rewrite !elem_of_cons. intros [->|Hx]; [by left|].
    right. by apply (wf_gray _ _ Hwf).
  - apply descending_cons. split.
    + intros b Hb. apply Hbelow. apply (wf_stack_visited gs); [done|].
      by apply (wf_gray _ _ Hwf).
    + apply (descending_ext (idx st)); [|apply Hwf]. intros x Hx.
      rewrite Hstack; [done|]. by apply (wf_gray _ _ Hwf).
  - intros x y. cbn [stack enter]. rewrite !elem_of_cons.
    intros [->|Hx] [->|Hy] Hle.
    + constructor.
    + pose proof (Hbelow y (wf_stack_visited _ _ _ Hwf Hy)). lia.
    + destruct (wf_to_gray _ _ Hwf x Hx) as (g & Hg & Hgx & Hxg).
      destruct gs as [|g0 gs']; [by apply elem_of_nil in Hg|].
      assert (Hg0 : reach g g0).
      { apply (wf_stack_reach _ _ Hwf).
        - by apply (wf_gray _ _ Hwf).
        - apply (wf_gray _ _ Hwf). by left.
        - apply elem_of_cons in Hg as [->|Hg]; [done|].
          pose proof (wf_gray_sorted _ _ Hwf) as Hs.
          apply descending_cons in Hs as [Hs _]. specialize (Hs g Hg). lia. }
      eapply rtc_trans; [exact Hxg|]. eapply rtc_r; [exact Hg0|]. by apply Hedge.
    + rewrite !Hstack in Hle by done. by apply (wf_stack_reach _ _ Hwf).
  - intros y. cbn [stack enter]. intros [->|Hy]%elem_of_cons.
    + exists v. split_and!; [by left|done|constructor].
    + destruct (wf_to_gray _ _ Hwf y Hy) as (g & Hg & Hgy & Hyg).
      exists g. split_and!; [by right| |done].
      rewrite !Hstack; [done|done|]. by apply (wf_gray _ _ Hwf).
  - intros x y [->|Hx]%visited_enter Hn He; [destruct Hn; by left|].
    apply visited_enter. right. apply (wf_black _ _ Hwf x y); [done| |done].
    intros Hin. apply Hn. by right.
Qed.

(** *** Leaving a node *)

Lemma pop_scc_run v s0 new : ∀ os scc,
  NoDup (new ++ [v]) → (∀ x, x ∈ new ++ [v] → x ∈ os) →
  ∃ os', pop_scc v (new ++ v :: s0) os scc = Ret (s0, os', scc ++ new ++ [v]) ∧
         ∀ x, x ∈ os' ↔ x ∈ os ∧ x ∉ new ++ [v].
Proof.
  induction new as [|w new IH]; intros os scc Hnd Hos.
  - exists (os ∖ {[v]}). cbn [pop_scc app].
    rewrite decide_True by (apply Hos; by left). rewrite decide_True by done.
    split; [done|]. intros x. rewrite elem_of_difference, elem_of_singleton,
      list_elem_of_singleton. done.
  - cbn [app] in Hnd. apply NoDup_cons in Hnd as [Hw Hnd].
    cbn [pop_scc app]. rewrite decide_True by (apply Hos; by left).
    rewrite decide_False.
    2:{ intros ->. apply Hw, elem_of_app. right. by left. }
    destruct (IH (os ∖ {[w]}) (scc ++ [w]) Hnd) as (os' & -> & Hos').
    { intros x Hx. apply elem_of_difference. split; [apply Hos; by right|].
      rewrite elem_of_singleton. by intros ->. }
    exists os'. split; [by rewrite <- app_assoc|]. intros x.
    rewrite Hos', elem_of_difference, elem_of_singleton, elem_of_cons. tauto.
Qed.

Section leave.
Variable gs : list node.
Variable v : node.
Variable st : state.
Variable new s0 : list node.
Hypothesis Hwf : wf (v :: gs) st.
Hypothesis Hstack : stack st = new ++ v :: s0.
Hypothesis Hedges : ∀ y, edge v y → visited st y.

Lemma frame_new x : x ∈ new → (idx st v < idx st x)%nat.
Proof.
  intros Hx. pose proof (wf_sorted _ _ Hwf) as Hs. rewrite Hstack in Hs.
  apply descending_app in Hs as (Hs & _ & _). apply Hs; [done|by left].
Qed.

Lemma frame_old x : x ∈ s0 → (idx st x < idx st v)%nat.
Proof.
  intros Hx. pose proof (wf_sorted _ _ Hwf) as Hs. rewrite Hstack in Hs.
  apply descending_app in Hs as (_ & _ & Hs). apply descending_cons in Hs as [Hs _].
  by apply Hs.
Qed.

Lemma frame_gray x : x ∈ gs → x ∈ s0.
Proof.
  intros Hx. pose proof (wf_gray _ _ Hwf x ltac:(by right)) as Hin.
  pose proof (wf_gray_sorted _ _ Hwf) as Hs. apply descending_cons in Hs as [Hs _].
  specialize (Hs x Hx). rewrite Hstack in Hin.
  apply elem_of_app in Hin as [Hin|Hin].
  - pose proof (frame_new x Hin). lia.
  - apply elem_of_cons in Hin as [->|Hin]; [lia|done].
Qed.

Lemma frame_top_in : v ∈ stack st.
Proof. rewrite Hstack. apply elem_of_app. right. by left. Qed.

Lemma frame_new_in x : x ∈ new → x ∈ stack st.
Proof. intros Hx. rewrite Hstack. apply elem_of_app. by left. Qed.

Lemma frame_old_in x : x ∈ s0 → x ∈ stack st.
Proof. intros Hx. rewrite Hstack. apply elem_of_app. right. by right. Qed.

(** The nodes above [v] on the stack are black. *)
Lemma frame_new_black x y : x ∈ new → edge x y → visited st y.
Proof.
  intros Hx He. apply (wf_black _ _ Hwf x y); [|  |done].
  - apply (wf_stack_visited (v :: gs)); [done|]. by apply frame_new_in.
  - pose proof (frame_new x Hx). intros [->|Hin]%elem_of_cons; [lia|].
    pose proof (frame_old x (frame_gray x Hin)). lia.
Qed.

(** [v] is not the root of its component: the call returns and the
    nodes it has stacked are handed to the caller. *)
Lemma wf_leave_inner x :
  x ∈ s0 → reach v x → wf gs st.
Proof.
  intros Hx Hvx. pose proof (frame_old x Hx) as Hlt.
  destruct Hwf as [H1 H2 H3 H4 H5 H6 H7 H8 H9 H9' H10 H11 H12 H13 H14].
  split; try done.
  - intros g Hg. apply H10. by right.
  - by apply descending_cons in H11 as [_ ?].
  - intros y Hy. destruct (H13 y Hy) as (g & Hg & Hgy & Hyg).
    apply elem_of_cons in Hg as [->|Hg]; [|by exists g].
    destruct (H13 x (frame_old_in x Hx)) as (g & Hg & Hgx & Hxg).
    apply elem_of_cons in Hg as [->|Hg]; [lia|].
    exists g. split_and!; [done|lia|].
    eapply rtc_trans; [exact Hyg|]. by eapply rtc_trans.
  - intros a b Ha Hn He. destruct (decide (a = v)) as [->|Hne]; [by apply Hedges|].
    apply (H14 a b); [done| |done]. by intros [->|Hin]%elem_of_cons.
Qed.

(** Every node from the top of the stack down to [v] is on a cycle
    through [v]. *)
Lemma frame_cycle x : x ∈ new ++ [v] → reach v x ∧ reach x v.
Proof.
  intros Hx.
  assert (Hin : x ∈ stack st).
  { rewrite Hstack. apply elem_of_app in Hx as [Hx|Hx%list_elem_of_singleton].
    - apply elem_of_app. by left.
    - subst x. apply elem_of_app. right. by left. }
  assert (Hle : (idx st v ≤ idx st x)%nat).
  { apply elem_of_app in Hx as [Hx|Hx%list_elem_of_singleton]; [|subst; lia].
    pose proof (frame_new x Hx). lia. }
  split; [by apply (wf_stack_reach _ _ Hwf); [apply frame_top_in|..]|].
  destruct (wf_to_gray _ _ Hwf x Hin) as (g & Hg & Hgx & Hxg).
  apply elem_of_cons in Hg as [->|Hg]; [done|].
  eapply rtc_trans; [exact Hxg|]. apply (wf_stack_reach _ _ Hwf).
  - by apply frame_old_in, frame_gray.
  - apply frame_top_in.
  - pose proof (frame_old g (frame_gray g Hg)). lia.
Qed.

(** A path that leaves a set does so along some edge. *)
Lemma escape (c : list node) a y :
  reach a y → a ∈ c → y ∉ c →
  ∃ p q, p ∈ c ∧ (q ∉ c) ∧ reach a p ∧ edge p q ∧ reach q y.
Proof.
  intros Hay. induction Hay as [a|a b y Hab Hby IH]; intros Ha Hy; [done|].
  destruct (decide (b ∈ c)) as [Hb|Hb].
  - destruct (IH Hb Hy) as (p & q & Hp & Hq & Hbp & Hpq & Hqy).
    exists p, q. split_and!; [done..| |done|done]. by eapply rtc_l.
  - exists a, b. split_and!; [done|done|constructor|done|done].
Qed.

(** [v] is the root of its component, which is the top of the stack
    down to [v]. *)
Lemma frame_component x y :
  (∀ p q, p ∈ new ++ [v] → q ∈ s0 → ¬ edge p q) →
  x ∈ new ++ [v] → (y ∈ new ++ [v] ↔ reach x y ∧ reach y x).
Proof.
  intros Hnone Hx. destruct (frame_cycle x Hx) as [Hvx Hxv]. split.
  - intros Hy. destruct (frame_cycle y Hy) as [Hvy Hyv].
    split; by eapply rtc_trans.
  - intros [Hxy Hyx]. destruct (decide (y ∈ new ++ [v])) as [|Hy]; [done|exfalso].
    destruct (escape (new ++ [v]) v y) as (p & q & Hp & Hq & Hvp & Hpq & Hqy).
    { by eapply rtc_trans. }
    { apply elem_of_app. right. by left. }
    { done. }
    assert (Hqv : reach q v).
    { eapply rtc_trans; [exact Hqy|]. by eapply rtc_trans. }
    assert (Hvq : reach v q) by by eapply rtc_r.
    assert (Hvis : visited st q).
    { apply elem_of_app in Hp as [Hp|Hp%list_elem_of_singleton].
      - by apply (frame_new_black p).
      - subst p. by apply Hedges. }
    apply (wf_visited _ _ Hwf) in Hvis as [Hin|Hin].
    + rewrite Hstack in Hin. apply elem_of_app in Hin as [Hin|Hin].
      * apply Hq, elem_of_app. by left.
      * apply elem_of_cons in Hin as [->|Hin].
        -- apply Hq, elem_of_app. right. by left.
        -- by apply (Hnone p q).
    + apply list_elem_of_join in Hin as (c & Hqc & Hc).
      assert (Hvc : v ∈ c) by by apply (wf_scc _ _ Hwf c q v Hc Hqc).
      apply (wf_disjoint _ _ Hwf v frame_top_in). apply list_elem_of_join. eauto.
Qed.

Lemma wf_leave_root os' :
  (∀ p q, p ∈ new ++ [v] → q ∈ s0 → ¬ edge p q) →
  (∀ x, x ∈ os' ↔ x ∈ onstack st ∧ x ∉ new ++ [v]) →
  wf gs {| index := index st; index_map := index_map st; lowlink := lowlink st;
           stack := s0; onstack := os'; sccs := sccs st ++ [new ++ [v]] |}.
Proof.
  intros Hnone Hos. pose proof (wf_stack_nodup _ _ Hwf) as Hnd. rewrite Hstack in Hnd.
  apply NoDup_app in Hnd as (Hnd1 & Hnd2 & Hnd3). apply NoDup_cons in Hnd3 as [Hnd3 Hnd4].
  assert (Hc : ∀ x, x ∈ new ++ [v] → x ∈ stack st).
  { intros x. rewrite Hstack, !elem_of_app, list_elem_of_singleton, elem_of_cons. tauto. }
  assert (Hjoin : ∀ x, x ∈ mjoin (sccs st ++ [new ++ [v]])
                       ↔ x ∈ mjoin (sccs st) ∨ x ∈ new ++ [v]).
  { intros x. rewrite join_app, elem_of_app. cbn [mjoin list_join]. by rewrite app_nil_r. }
  split; cbn [index index_map lowlink stack onstack sccs].
  - apply Hwf.
  - apply Hwf.
  - intros x. rewrite Hos, (wf_onstack _ _ Hwf), Hstack.
    rewrite !elem_of_app, list_elem_of_singleton, elem_of_cons. split; [tauto|].
    intros Hx. split; [tauto|]. intros [Hin| ->]; [|done]. apply (Hnd2 x Hin). by right.
  - pose proof (wf_sorted _ _ Hwf) as Hs. rewrite Hstack in Hs.
    apply descending_app in Hs as (_ & _ & Hs). by apply descending_cons in Hs as [_ ?].
  - intros x. etrans; [apply (wf_visited _ _ Hwf)|]. rewrite Hjoin, Hstack.
    rewrite !elem_of_app, list_elem_of_singleton, elem_of_cons. tauto.
  - intros x Hx. rewrite Hjoin. intros [Hin|Hin].
    + by apply (wf_disjoint _ _ Hwf x (frame_old_in x Hx)).
    + apply elem_of_app in Hin as [Hin|Hin%list_elem_of_singleton].
      * apply (Hnd2 x Hin). by right.
      * by subst x.
  - rewrite join_app. cbn [mjoin list_join]. rewrite app_nil_r. apply NoDup_app.
    split_and!.
    + apply Hwf.
    + intros x Hx Hin. by apply (wf_disjoint _ _ Hwf x (Hc x Hin)).
    + apply NoDup_app. split_and!; [done| |apply NoDup_singleton].
      intros x Hx ->%list_elem_of_singleton. apply (Hnd2 v Hx). by left.
  - apply Hwf.
  - intros c x y [Hin|Hin%list_elem_of_singleton]%elem_of_app Hx.
    + by apply (wf_scc _ _ Hwf).
    + subst c. by apply frame_component.
  - intros c [Hin|Hin%list_elem_of_singleton]%elem_of_app.
    + by apply (wf_nonempty _ _ Hwf).
    + subst c. by destruct new.
  - apply frame_gray.
  - pose proof (wf_gray_sorted _ _ Hwf) as Hs. by apply descending_cons in Hs as [_ ?].
  - intros x y Hx Hy. apply (wf_stack_reach _ _ Hwf); by apply frame_old_in.
  - intros y Hy. destruct (wf_to_gray _ _ Hwf y (frame_old_in y Hy)) as (g & Hg & Hgy & Hyg).
    apply elem_of_cons in Hg as [->|Hg]; [|by exists g].
    pose proof (frame_old y Hy). lia.
  - intros a b Ha Hn He. destruct (decide (a = v)) as [->|Hne]; [by apply Hedges|].
    apply (wf_black _ _ Hwf a b); [done| |done]. by intros [->|Hin]%elem_of_cons.
Qed.
End leave.

(** *** The loop over the neighbors *)

(** What a call of [strongconnect v] made in state [st] returns. *)
Record returned (gs : list node) (v : node) (st st' : state) : Prop := {
  ret_wf : wf gs st';
  ret_ext : ext st st';
  ret_visited : visited st' v;
  ret_frame : ∃ new l,
    stack st' = new ++ stack st ∧ lowlink st' !! v = Some l ∧
    ((new = [] ∧ l = idx st' v) ∨
     ((l < idx st' v)%nat ∧
      (∃ x, x ∈ stack st ∧ idx st' x = l ∧ reach v x) ∧
      (∀ x y, x ∈ new → y ∈ stack st → edge x y → (l ≤ idx st' y)%nat)))
}.

(** The state inside the loop of [strongconnect v], entered with
    stack [s0], when the neighbors [done] have been dealt with. *)
Record visiting (gs : list node) (v : node) (s0 done : list node) (st : state) : Prop := {
  vis_wf : wf (v :: gs) st;
  vis_done : ∀ w, w ∈ done → visited st w;
  vis_frame : ∃ new l,
    stack st = new ++ v :: s0 ∧ lowlink st !! v = Some l ∧ (l ≤ idx st v)%nat ∧
    (l = idx st v ∨ ∃ x, x ∈ s0 ∧ idx st x = l ∧ reach v x) ∧
    (∀ x y, x ∈ new → y ∈ s0 → edge x y → (l ≤ idx st y)%nat) ∧
    (∀ w, w ∈ done → w ∈ s0 → (l ≤ idx st w)%nat)
}.

Lemma visiting_skip gs v s0 done st w :
  visiting gs v s0 done st → visited st w → w ∉ onstack st →
  visiting gs v s0 (done ++ [w]) st.
Proof.
  intros [Hwf Hdone (new & l & Hstack & Hl & Hle & Hlow & Hnew & Hold)] Hw Hoff.
  split; [done| |].
  - intros x [Hx| ->%list_elem_of_singleton]%elem_of_app; auto.
  - exists new, l. split_and!; [done..|].
    intros x [Hx| ->%list_elem_of_singleton]%elem_of_app Hin; [auto|].
    destruct Hoff. apply (wf_onstack _ _ Hwf). by apply (frame_old_in v st new s0 Hstack).
Qed.

Lemma visiting_seen gs v s0 done st w i :
  visiting gs v s0 done st → edge v w → index_map st !! w = Some i → w ∈ onstack st →
  ∃ x, lower v (index_map st) w st = Ret (set_lowlink v x st) ∧
       visiting gs v s0 (done ++ [w]) (set_lowlink v x st).
Proof.
  intros [Hwf Hdone (new & l & Hstack & Hl & Hle & Hlow & Hnew & Hold)] He Hi Hon.
  exists (Nat.min l i). split; [by apply lower_run|].
  assert (Hidx : idx st w = i) by (unfold idx; by rewrite Hi).
  split.
  - by apply wf_set_lowlink.
  - intros x [Hx| ->%list_elem_of_singleton]%elem_of_app; [by apply Hdone|].
    rewrite <- Hidx. unfold visited. cbn [index_map set_lowlink]. rewrite Hi. eauto.
  - exists new, (Nat.min l i). cbn [stack lowlink set_lowlink].
    change (idx (set_lowlink v (Nat.min l i) st)) with (idx st).
    split_and!; [done|by rewrite lookup_insert_eq|lia| | |].
    + destruct (decide (i < l)%nat) as [Hlt|Hge].
      * right. exists w. apply (wf_onstack _ _ Hwf) in Hon. rewrite Hstack in Hon.
        apply elem_of_app in Hon as [Hin|Hin].
        { pose proof (frame_new _ _ _ _ _ Hwf Hstack w Hin). lia. }
        apply elem_of_cons in Hin as [->|Hin]; [lia|].
        split_and!; [done|lia|by apply rtc_once].
      * replace (Nat.min l i) with l by lia. done.
    + intros x y Hx Hy Hxy. specialize (Hnew x y Hx Hy Hxy). lia.
    + intros x [Hx| ->%list_elem_of_singleton]%elem_of_app Hin.
      * specialize (Hold x Hx Hin). lia.
      * lia.
Qed.

Lemma visiting_child gs v s0 done st w st1 :
  visiting gs v s0 done st → edge v w → index_map st !! w = None →
  returned (v :: gs) w st st1 →
  ∃ x, lower v (lowlink st1) w st1 = Ret (set_lowlink v x st1) ∧
       visiting gs v s0 (done ++ [w]) (set_lowlink v x st1).
Proof.
  intros [Hwf Hdone (new & l & Hstack & Hl & Hle & Hlow & Hnew & Hold)] He Hw
         [Hwf1 Hext Hvis (new1 & lw & Hstack1 & Hlw & Hret)].
  assert (Hv : visited st v).
  { apply (wf_stack_visited (v :: gs)); [done|]. apply (frame_top_in v st new s0 Hstack). }
  assert (Hl1 : lowlink st1 !! v = Some l) by by rewrite (ext_low _ _ Hext).
  assert (Hs0 : ∀ x, x ∈ s0 → idx st1 x = idx st x).
  { intros x Hx. apply (ext_idx _ _ _ Hext), (wf_stack_visited (v :: gs)); [done|].
    by apply (frame_old_in v st new s0 Hstack). }
  assert (Hv1 : idx st1 v = idx st v) by by apply (ext_idx _ _ _ Hext).
  assert (Hstack' : stack st1 = (new1 ++ new) ++ v :: s0).
  { by rewrite Hstack1, Hstack, <- app_assoc. }
  exists (Nat.min l lw). split; [by apply lower_run|]. split.
  - by apply wf_set_lowlink.
  - intros x [Hx| ->%list_elem_of_singleton]%elem_of_app; [|done].
    apply (ext_visited st st1 x Hext). by apply Hdone.
  - exists (new1 ++ new), (Nat.min l lw). cbn [stack lowlink set_lowlink].
    change (idx (set_lowlink v (Nat.min l lw) st1)) with (idx st1).
    split_and!; [done|by rewrite lookup_insert_eq|lia| | |].
    + destruct (decide (lw < l)%nat) as [Hlt|Hge].
      * destruct Hret as [[-> ->]|(Hroot & (x & Hx & Hxl & Hwx) & _)].
        { assert (Hnew1 : (index st ≤ idx st1 w)%nat).
          { apply (ext_new _ _ Hext); [|done]. intros [? ?]. congruence. }
          pose proof (wf_idx _ _ Hwf v Hv). lia. }
        right. exists x. rewrite Hstack in Hx. apply elem_of_app in Hx as [Hin|Hin].
        { pose proof (frame_new _ _ _ _ _ Hwf Hstack x Hin) as Hn.
          rewrite <- (ext_idx _ _ x Hext) in Hn.
          - lia.
          - apply (wf_stack_visited (v :: gs)); [done|].
            by apply (frame_new_in v st new s0 Hstack). }
        apply elem_of_cons in Hin as [->|Hin]; [lia|].
        split_and!; [done|lia|]. by eapply rtc_l.
      * replace (Nat.min l lw) with l by lia.
        destruct Hlow as [->|(x & Hx & Hxl & Hvx)]; [by left|].
        right. exists x. by rewrite Hs0.
    + intros x y [Hx|Hx]%elem_of_app Hy Hxy.
      * destruct Hret as [[-> _]|(_ & _ & Hedge)]; [by apply elem_of_nil in Hx|].
        assert ((lw ≤ idx st1 y)%nat); [|lia]. apply (Hedge x y); [done| |done].
        by apply (frame_old_in v st new s0 Hstack).
      * specialize (Hnew x y Hx Hy Hxy). rewrite Hs0 by done. lia.
    + intros x [Hx| ->%list_elem_of_singleton]%elem_of_app Hin.
      * specialize (Hold x Hx Hin). rewrite Hs0 by done. lia.
      * assert (Hvw : visited st w).
        { apply (wf_stack_visited (v :: gs)); [done|]. by apply (frame_old_in v st new s0 Hstack). }
        destruct Hvw. congruence.
Qed.

Lemma ext_set_lowlink st0 st v x :
  ¬ visited st0 v → ext st0 st → ext st0 (set_lowlink v x st).
Proof.
  intros Hv [H1 H2 H3 H4]. split; try done.
  intros y Hy. cbn [lowlink set_lowlink]. rewrite lookup_insert_ne; [by apply H2|].
  by intros ->.
Qed.

Definition unvisited (st : state) : gset node := all_nodes ∖ dom (index_map st).

(** What the loop needs of the recursive call. *)
Definition strongconnect_spec (f : nat) (sc : node → state → option (py state)) : Prop :=
  ∀ gs v st,
    wf gs st → index_map st !! v = None → v ∈ all_nodes →
    (∀ g, head gs = Some g → edge g v) →
    (size (unvisited st) ≤ f)%nat →
    ∃ st', sc v st = Some (Ret st') ∧ returned gs v st st'.

Lemma visit_ok sc f gs v s0 st0 :
  strongconnect_spec f sc → ¬ visited st0 v →
  ∀ ws done st,
  visiting gs v s0 done st → ext st0 st →
  (∀ w, w ∈ ws → edge v w) → (size (unvisited st) ≤ f)%nat →
  ∃ st', visit sc v ws st = Some (Ret st') ∧
         visiting gs v s0 (done ++ ws) st' ∧ ext st0 st'.
Proof.
  intros Hsc Hv0. induction ws as [|w ws IH]; intros done st Hvis Hext Hws Hsize.
  - exists st. rewrite app_nil_r. done.
  - cbn [visit].
    assert (He : edge v w) by (apply Hws; by left).
    assert (Hrest : ∀ w', w' ∈ ws → edge v w') by (intros w' Hw'; apply Hws; by right).
    replace (done ++ w :: ws) with ((done ++ [w]) ++ ws) by by rewrite <- app_assoc.
    destruct (index_map st !! w) as [i|] eqn:Hw.
    + destruct (decide (w ∈ onstack st)) as [Hon|Hoff].
      * destruct (visiting_seen gs v s0 done st w i Hvis He Hw Hon) as (x & -> & Hvis').
        apply IH; [done|by apply ext_set_lowlink|done|done].
      * apply IH; [|done..]. apply visiting_skip; [done| |done].
        unfold visited. rewrite Hw. eauto.
    + destruct (Hsc (v :: gs) w st) as (st1 & -> & Hret).
      * apply Hvis.
      * done.
      * by apply (edge_nodes v w).
      * intros g [= <-]. done.
      * done.
      * destruct (visiting_child gs v s0 done st w st1 Hvis He Hw Hret) as (x & -> & Hvis').
        pose proof (ret_ext _ _ _ _ Hret) as Hext1.
        apply IH; [done| |done|].
        -- apply ext_set_lowlink; [done|].
           by apply (ext_trans (v :: gs) st0 st st1); [apply Hvis|..].
        -- pose proof (ext_size _ _ Hext1). unfold unvisited in *.
           cbn [index_map set_lowlink]. lia.
Qed.

(** *** The recursion *)

Lemma unvisited_enter v st :
  index_map st !! v = None → v ∈ all_nodes →
  (size (unvisited (enter v st)) < size (unvisited st))%nat.
Proof.
  intros Hv HvU. apply subset_size. unfold unvisited. cbn [index_map enter].
  rewrite dom_insert_L. apply not_elem_of_dom in Hv. set_solver.
Qed.

Lemma visiting_enter gs v st :
  wf gs st → index_map st !! v = None → v ∈ all_nodes →
  (∀ g, head gs = Some g → edge g v) →
  visiting gs v (stack st) [] (enter v st).
Proof.
  intros Hwf Hv HvU Hedge. split.
  - by apply wf_enter.
  - intros w Hw. by apply elem_of_nil in Hw.
  - exists [], (index st). rewrite idx_enter_new. cbn [stack lowlink enter app].
    split_and!; [done|by rewrite lookup_insert_eq|lia|by left| |].
    + intros x y Hx. by apply elem_of_nil in Hx.
    + intros w Hw. by apply elem_of_nil in Hw.
Qed.

Lemma leave_ok gs v st0 st :
  ¬ visited st0 v → ext st0 st →
  visiting gs v (stack st0) (default [] (graph !! v)) st →
  ∃ st', leave v st = Ret st' ∧ returned gs v st0 st'.
Proof.
  intros Hv0 Hext [Hwf Hdone (new & l & Hstack & Hl & Hle & Hlow & Hnew & Hold)].
  assert (Hv : visited st v).
  { apply (wf_stack_visited (v :: gs)); [done|]. apply (frame_top_in v st new _ Hstack). }
  assert (Hedges : ∀ y, edge v y → visited st y) by (intros y Hy; by apply Hdone).
  destruct Hv as [i Hi].
  assert (Hidx : idx st v = i) by (unfold idx; by rewrite Hi).
  unfold leave, getitem. rewrite Hl, Hi. cbn [mbind py_bind].
  destruct (Nat.eqb_spec l i) as [Heq|Hne].
  - assert (Hnone : ∀ p q, p ∈ new ++ [v] → q ∈ stack st0 → ¬ edge p q).
    { intros p q Hp Hq Hpq. pose proof (frame_old _ _ _ _ _ Hwf Hstack q Hq).
      apply elem_of_app in Hp as [Hp|Hp%list_elem_of_singleton].
      - specialize (Hnew p q Hp Hq Hpq). lia.
      - subst p. specialize (Hold q Hpq Hq). lia. }
    pose proof (wf_stack_nodup _ _ Hwf) as Hnd. rewrite Hstack in Hnd.
    destruct (pop_scc_run v (stack st0) new (onstack st) []) as (os' & Hpop & Hos').
    { apply NoDup_app in Hnd as (Hnd1 & Hnd2 & Hnd3). apply NoDup_app.
      split_and!; [done| |apply NoDup_singleton].
      intros x Hx ->%list_elem_of_singleton. apply (Hnd2 v Hx). by left. }
    { intros x Hx. apply (wf_onstack _ _ Hwf). rewrite Hstack.
      apply elem_of_app in Hx as [Hx|Hx%list_elem_of_singleton].
      - apply elem_of_app. by left.
      - subst x. apply elem_of_app. right. by left. }
    rewrite Hstack, Hpop. cbn [app]. eexists. split; [done|]. split.
    + by apply (wf_leave_root gs v st new (stack st0)).
    + destruct Hext as [H1 H2 H3 H4]. by split.
    + unfold visited. cbn [index_map]. rewrite Hi. eauto.
    + exists [], l. cbn [stack lowlink app]. split_and!; [done..|].
      left. split; [done|]. unfold idx. cbn [index_map]. rewrite Hi. done.
  - destruct Hlow as [->|(x & Hx & Hxl & Hvx)]; [lia|].
    exists st. split; [done|]. split.
    + by apply (wf_leave_inner gs v st new (stack st0) Hwf Hstack Hedges x).
    + done.
    + unfold visited. rewrite Hi. eauto.
    + exists (new ++ [v]), l. split_and!; [by rewrite Hstack, <- app_assoc|done|].
      right. split_and!; [lia|by exists x|].
      intros p q [Hp|Hp%list_elem_of_singleton]%elem_of_app Hq Hpq.
      * by apply (Hnew p q).
      * subst p. by apply Hold.
Qed.

Lemma strongconnect_ok f : strongconnect_spec f (strongconnect graph f).
Proof.
  induction f as [|f IH]; intros gs v st Hwf Hv HvU Hedge Hsize.
  - pose proof (unvisited_enter v st Hv HvU). lia.
  - cbn [strongconnect].
    assert (Hv0 : ¬ visited st v) by (intros [? ?]; congruence).
    destruct (visit_ok (strongconnect graph f) f gs v (stack st) st IH Hv0
                (default [] (graph !! v)) [] (enter v st))
      as (st1 & -> & Hvis & Hext).
    + by apply visiting_enter.
    + by apply ext_enter.
    + done.
    + pose proof (unvisited_enter v st Hv HvU). lia.
    + cbn [app] in Hvis. destruct (leave_ok gs v st st1 Hv0 Hext Hvis) as (st' & -> & Hret).
      by exists st'.
Qed.

Lemma wf_initial : wf [] initial.
Proof.
  assert (Hno : ∀ x, ¬ visited initial x).
  { intros x [i Hi]. cbn [index_map initial] in Hi. by rewrite lookup_empty in Hi. }
  split; cbn [stack sccs onstack initial mjoin list_join].
  - intros x Hx. by destruct (Hno x).
  - intros x Hx. by destruct (Hno x).
  - intros x. rewrite elem_of_nil. set_solver.
  - constructor.
  - intros x. rewrite elem_of_nil. split; [intros Hx; by destruct (Hno x)|tauto].
  - intros x Hx. by apply elem_of_nil in Hx.
  - constructor.
  - intros x Hx. by destruct (Hno x).
  - intros c x y Hc. by apply elem_of_nil in Hc.
  - intros c Hc. by apply elem_of_nil in Hc.
  - intros x Hx. by apply elem_of_nil in Hx.
  - constructor.
  - intros x y Hx. by apply elem_of_nil in Hx.
  - intros y Hy. by apply elem_of_nil in Hy.
  - intros x y Hx. by destruct (Hno x).
Qed.

Lemma each_key_ok fuel keys : ∀ st,
  wf [] st → (∀ k, k ∈ keys → k ∈ all_nodes) → (size (unvisited st) ≤ fuel)%nat →
  ∃ st', each_key graph fuel keys st = Some (Ret st') ∧ wf [] st' ∧
         (∀ x, visited st x → visited st' x) ∧ (∀ k, k ∈ keys → visited st' k).
Proof.
  induction keys as [|k keys IH]; intros st Hwf Hkeys Hsize.
  - exists st. split_and!; [done..|]. intros k Hk. by apply elem_of_nil in Hk.
  - cbn [each_key].
    assert (Hrest : ∀ k', k' ∈ keys → k' ∈ all_nodes) by (intros k' Hk'; apply Hkeys; by right).
    destruct (index_map st !! k) as [i|] eqn:Hk.
    + destruct (IH st Hwf Hrest Hsize) as (st' & Hrun & Hwf' & Hmono & Hall).
      exists st'. split_and!; [done..|].
      intros k' [->|Hk']%elem_of_cons; [|by apply Hall].
      apply Hmono. unfold visited. rewrite Hk. eauto.
    + destruct (strongconnect_ok fuel [] k st Hwf Hk) as (st1 & -> & Hret).
      * apply Hkeys. by left.
      * intros g Hg. done.
      * done.
      * pose proof (ret_ext _ _ _ _ Hret) as Hext.
        destruct (IH st1 (ret_wf _ _ _ _ Hret) Hrest) as (st' & Hrun & Hwf' & Hmono & Hall).
        { pose proof (ext_size _ _ Hext). unfold unvisited in *. lia. }
        exists st'. split_and!; [done|done| |].
        -- intros x Hx. by apply Hmono, (ext_visited st).
        -- intros k' [->|Hk']%elem_of_cons; [|by apply Hall].
           apply Hmono, (ret_visited _ _ _ _ Hret).
Qed.

(** With no call running the stack is empty and every visited node has
    its component. *)
Lemma wf_done st x : wf [] st → visited st x ↔ x ∈ mjoin (sccs st).
Proof.
  intros Hwf. rewrite (wf_visited _ _ Hwf). split; [|by right].
  intros [Hx|Hx]; [|done].
  destruct (wf_to_gray _ _ Hwf x Hx) as (g & Hg & _). by apply elem_of_nil in Hg.
Qed.

Lemma tarjan_scc_ok keys fuel :
  keys graph ≡ₚ elements (dom graph) → (size all_nodes ≤ fuel)%nat →
  ∃ comps,
    tarjan_scc keys fuel graph = Some (Ret comps) ∧
    mjoin comps ≡ₚ elements all_nodes ∧
    (∀ c, c ∈ comps → c ≠ []) ∧
    (∀ c x y, c ∈ comps → x ∈ c → (y ∈ c ↔ reach x y ∧ reach y x)).
Proof.
  intros Hkeys Hfuel. unfold tarjan_scc.
  destruct (each_key_ok fuel (keys graph) initial wf_initial)
    as (st & -> & Hwf & _ & Hall).
  { intros k Hk. rewrite Hkeys in Hk. apply elem_of_elements in Hk.
    unfold all_nodes. set_solver. }
  { etrans; [|exact Hfuel]. apply subseteq_size. unfold unvisited. set_solver. }
  exists (sccs st). split_and!; [done| |apply Hwf|apply Hwf].
  apply NoDup_Permutation; [apply Hwf|apply NoDup_elements|].
  intros x. rewrite <- (wf_done st x Hwf), elem_of_elements. split.
  - apply (wf_nodes _ _ Hwf).
  - intros [Hx|(k & Hk & Hkx)]%all_nodes_elem.
    + apply Hall. rewrite Hkeys. by apply elem_of_elements.
    + apply (wf_black _ _ Hwf k x); [|by intros ?%elem_of_nil|done].
      apply Hall. rewrite Hkeys. by apply elem_of_elements.
Qed.
(** *** The order of the components *)

(** Every edge that leaves a component ends in a component that stands
    before it in the list. *)
Definition ordered (comps : list (list node)) : Prop :=
  ∀ pre c post x y,
    comps = pre ++ c :: post → x ∈ c → edge x y → y ∈ c ∨ y ∈ mjoin pre.

Lemma ordered_snoc comps c :
  ordered comps → (∀ x y, x ∈ c → edge x y → y ∈ c ∨ y ∈ mjoin comps) →
  ordered (comps ++ [c]).
Proof.
  intros Hord Hc pre c' post x y Heq Hx Hxy.
  destruct post as [|p post _] using rev_ind.
  - apply app_inj_tail in Heq as [-> ->]. by apply (Hc x y).
  - rewrite app_comm_cons, app_assoc in Heq. apply app_inj_tail in Heq as [-> _].
    by apply (Hord pre c' post x y).
Qed.

(** The recursive call keeps the order. *)
Definition keeps_order (f : nat) (sc : node → state → option (py state)) : Prop :=
  ∀ gs v st st',
    wf gs st → index_map st !! v = None → v ∈ all_nodes →
    (∀ g, head gs = Some g → edge g v) →
    (size (unvisited st) ≤ f)%nat →
    sc v st = Some (Ret st') → ordered (sccs st) → ordered (sccs st').

Lemma visit_order sc f gs v s0 st0 :
  strongconnect_spec f sc → keeps_order f sc → ¬ visited st0 v →
  ∀ ws done st st',
  visiting gs v s0 done st → ext st0 st →
  (∀ w, w ∈ ws → edge v w) → (size (unvisited st) ≤ f)%nat →
  visit sc v ws st = Some (Ret st') → ordered (sccs st) → ordered (sccs st').
Proof.
  intros Hsc Hkeep Hv0.
  induction ws as [|w ws IH]; intros done st st' Hvis Hext Hws Hsize Hrun Hord.
  - by injection Hrun as <-.
  - cbn [visit] in Hrun.
    assert (He : edge v w) by (apply Hws; by left).
    assert (Hrest : ∀ w', w' ∈ ws → edge v w') by (intros w' Hw'; apply Hws; by right).
    destruct (index_map st !! w) as [i|] eqn:Hw.
    + destruct (decide (w ∈ onstack st)) as [Hon|Hoff].
      * destruct (visiting_seen gs v s0 done st w i Hvis He Hw Hon) as (x & Hlow & Hvis').
        rewrite Hlow in Hrun.
        apply (IH (done ++ [w]) (set_lowlink v x st) st');
          [done|by apply ext_set_lowlink|done|done|done|done].
      * apply (IH (done ++ [w]) st st'); [|done..]. apply visiting_skip; [done| |done].
        unfold visited. rewrite Hw. eauto.
    + destruct (Hsc (v :: gs) w st) as (st1 & Hcall & Hret).
      * apply Hvis.
      * done.
      * by apply (edge_nodes v w).
      * intros g [= <-]. done.
      * done.
      * assert (Hord1 : ordered (sccs st1)).
        { apply (Hkeep (v :: gs) w st st1); [apply Hvis|done|by apply (edge_nodes v w)
                                             | |done|done|done].
          intros g [= <-]. done. }
        rewrite Hcall in Hrun.
        destruct (visiting_child gs v s0 done st w st1 Hvis He Hw Hret) as (x & Hlow & Hvis').
        rewrite Hlow in Hrun.
        pose proof (ret_ext _ _ _ _ Hret) as Hext1.
        apply (IH (done ++ [w]) (set_lowlink v x st1) st'); [done| |done| |done|done].
        -- apply ext_set_lowlink; [done|].
           by apply (ext_trans (v :: gs) st0 st st1); [apply Hvis|..].
        -- pose proof (ext_size _ _ Hext1). unfold unvisited in *.
           cbn [index_map set_lowlink]. lia.
Qed.

Lemma leave_order gs v st0 st st' :
  ¬ visited st0 v → ext st0 st →
  visiting gs v (stack st0) (default [] (graph !! v)) st →
  leave v st = Ret st' → ordered (sccs st) → ordered (sccs st').
Proof.
  intros Hv0 Hext [Hwf Hdone (new & l & Hstack & Hl & Hle & Hlow & Hnew & Hold)] Hrun Hord.
  assert (Hv : visited st v).
  { apply (wf_stack_visited (v :: gs)); [done|]. apply (frame_top_in v st new _ Hstack). }
  assert (Hedges : ∀ y, edge v y → visited st y) by (intros y Hy; by apply Hdone).
  destruct Hv as [i Hi].
  assert (Hidx : idx st v = i) by (unfold idx; by rewrite Hi).
  unfold leave, getitem in Hrun. rewrite Hl, Hi in Hrun. cbn [mbind py_bind] in Hrun.
  destruct (Nat.eqb_spec l i) as [Heq|Hne]; [|by injection Hrun as <-].
  assert (Hnone : ∀ p q, p ∈ new ++ [v] → q ∈ stack st0 → ¬ edge p q).
  { intros p q Hp Hq Hpq. pose proof (frame_old _ _ _ _ _ Hwf Hstack q Hq).
    apply elem_of_app in Hp as [Hp|Hp%list_elem_of_singleton].
    - specialize (Hnew p q Hp Hq Hpq). lia.
    - subst p. specialize (Hold q Hpq Hq). lia. }
  pose proof (wf_stack_nodup _ _ Hwf) as Hnd. rewrite Hstack in Hnd.
  destruct (pop_scc_run v (stack st0) new (onstack st) []) as (os' & Hpop & Hos').
  { apply NoDup_app in Hnd as (Hnd1 & Hnd2 & Hnd3). apply NoDup_app.
    split_and!; [done| |apply NoDup_singleton].
    intros x Hx ->%list_elem_of_singleton. apply (Hnd2 v Hx). by left. }
  { intros x Hx. apply (wf_onstack _ _ Hwf). rewrite Hstack.
    apply elem_of_app in Hx as [Hx|Hx%list_elem_of_singleton].
    - apply elem_of_app. by left.
    - subst x. apply elem_of_app. right. by left. }
  rewrite Hstack, Hpop in Hrun. cbn [app] in Hrun. injection Hrun as <-. cbn [sccs].
  apply ordered_snoc; [done|]. intros x y Hx Hxy.
  assert (Hvis : visited st y).
  { apply elem_of_app in Hx as [Hx|Hx%list_elem_of_singleton].
    - by apply (frame_new_black gs v st new (stack st0) Hwf Hstack x y).
    - subst x. by apply Hedges. }
  apply (wf_visited _ _ Hwf) in Hvis as [Hin|Hin]; [|by right].
  left. rewrite Hstack in Hin. apply elem_of_app in Hin as [Hin|Hin].
  - apply elem_of_app. by left.
  - apply elem_of_cons in Hin as [->|Hin].
    + apply elem_of_app. right. by left.
    + by destruct (Hnone x y).
Qed.

Lemma strongconnect_order f : keeps_order f (strongconnect graph f).
Proof.
  induction f as [|f IH]; intros gs v st st' Hwf Hv HvU Hedge Hsize Hrun Hord; [done|].
  cbn [strongconnect] in Hrun.
  assert (Hv0 : ¬ visited st v) by (intros [? ?]; congruence).
  destruct (visit_ok (strongconnect graph f) f gs v (stack st) st (strongconnect_ok f) Hv0
              (default [] (graph !! v)) [] (enter v st))
    as (st1 & Hvisit & Hvis & Hext).
  - by apply visiting_enter.
  - by apply ext_enter.
  - done.
  - pose proof (unvisited_enter v st Hv HvU). lia.
  - rewrite Hvisit in Hrun. cbn [app] in Hvis.
    injection Hrun as Hleave.
    apply (leave_order gs v st st1 st' Hv0 Hext Hvis Hleave).
    apply (visit_order (strongconnect graph f) f gs v (stack st) st (strongconnect_ok f) IH Hv0
             (default [] (graph !! v)) [] (enter v st) st1); [|by apply ext_enter|done| |done|done].
    + by apply visiting_enter.
    + pose proof (unvisited_enter v st Hv HvU). lia.
Qed.

Lemma each_key_order fuel keys : ∀ st st',
  wf [] st → (∀ k, k ∈ keys → k ∈ all_nodes) → (size (unvisited st) ≤ fuel)%nat →
  each_key graph fuel keys st = Some (Ret st') → ordered (sccs st) → ordered (sccs st').
Proof.
  induction keys as [|k keys IH]; intros st st' Hwf Hkeys Hsize Hrun Hord.
  - by injection Hrun as <-.
  - cbn [each_key] in Hrun.
    assert (Hrest : ∀ k', k' ∈ keys → k' ∈ all_nodes) by (intros k' Hk'; apply Hkeys; by right).
    destruct (index_map st !! k) as [i|] eqn:Hk; [by apply (IH st st')|].
    destruct (strongconnect_ok fuel [] k st Hwf Hk) as (st1 & Hcall & Hret);
      [apply Hkeys; by left|by intros g Hg|done|].
    rewrite Hcall in Hrun.
    apply (IH st1 st'); [apply Hret|done| |done|].
    + pose proof (ext_size _ _ (ret_ext _ _ _ _ Hret)). unfold unvisited in *. lia.
    + apply (strongconnect_order fuel [] k st st1); [done|done|apply Hkeys; by left
                                                     |by intros g Hg|done|done|done].
Qed.

Lemma tarjan_scc_order keys fuel comps :
  keys graph ≡ₚ elements (dom graph) → (size all_nodes ≤ fuel)%nat →
  tarjan_scc keys fuel graph = Some (Ret comps) → ordered comps.
Proof.
  intros Hkeys Hfuel. unfold tarjan_scc.
  destruct (each_key graph fuel (keys graph) initial) as [[st|e]|] eqn:Hrun; [|done..].
  intros [= <-]. apply (each_key_order fuel (keys graph) initial st); [apply wf_initial| | |done|].
  - intros k Hk. rewrite Hkeys in Hk. apply elem_of_elements in Hk.
    unfold all_nodes. set_solver.
  - etrans; [|exact Hfuel]. apply subseteq_size. unfold unvisited. set_solver.
  - intros pre c post x y Heq. by destruct pre.
Qed.
End correct.

End tarjan_scc.

(** Five nodes on two cycles and a node that is only a neighbor. *)
Definition sample_graph : gmap Z (list Z) :=
  {[1 := [2]; 2 := [3]; 3 := [1; 4]; 4 := [5]; 5 := [4; 6]]}.

Example tarjan_sample :
  tarjan_scc (λ _, [1; 2; 3; 4; 5]) 10 sample_graph
  = Some (Ret [[6]; [5; 4]; [3; 2; 1]]).
Proof. vm_compute. reflexivity. Qed.

(** C3: whatever the order of the keys, [tarjan_scc] returns (the
    recursion being given [fuel] for as many nested calls as there are
    nodes; Python's own limit on the depth of recursion is left out) a
    list of non-empty components in which every node that occurs in the
    graph, as a key or only as a neighbor, occurs exactly once, and two
    nodes are in the same component exactly when each can be reached
    from the other. *)
Theorem tarjan_scc_partition {node : Type} `{Countable node}
    (keys : gmap node (list node) → list node) (graph : gmap node (list node))
    (fuel : nat) :
  (∀ g, keys g ≡ₚ elements (dom g)) →
  (size (all_nodes graph) ≤ fuel)%nat →
  ∃ comps,
    tarjan_scc keys fuel graph = Some (Ret comps) ∧
    mjoin comps ≡ₚ elements (all_nodes graph) ∧
    (∀ c, c ∈ comps → c ≠ []) ∧
    (∀ x y, x ∈ all_nodes graph → y ∈ all_nodes graph →
       ((∃ c, c ∈ comps ∧ x ∈ c ∧ y ∈ c) ↔ reach graph x y ∧ reach graph y x)).
Proof.
  intros Hkeys Hfuel.
  destruct (tarjan_scc_ok graph keys fuel (Hkeys graph) Hfuel)
    as (comps & Hrun & Hperm & Hne & Hscc).
  exists comps. split_and!; [done..|]. intros x y Hx Hy. split.
  - intros (c & Hc & Hxc & Hyc). by apply (Hscc c x y Hc Hxc).
  - intros Hxy. apply elem_of_elements in Hx. rewrite <- Hperm in Hx.
    apply list_elem_of_join in Hx as (c & Hxc & Hc).
    exists c. split_and!; [done..|]. by apply (Hscc c x y Hc Hxc).
Qed.

Lemma tarjan_scc_partition_witness :
  ∃ comps,
    tarjan_scc (λ g, elements (dom g)) 10 sample_graph = Some (Ret comps) ∧
    mjoin comps ≡ₚ elements (all_nodes sample_graph) ∧
    (∀ c, c ∈ comps → c ≠ []) ∧
    (∀ x y, x ∈ all_nodes sample_graph → y ∈ all_nodes sample_graph →
       ((∃ c, c ∈ comps ∧ x ∈ c ∧ y ∈ c)
        ↔ reach sample_graph x y ∧ reach sample_graph y x)).
Proof.
  apply (tarjan_scc_partition (λ g, elements (dom g)) sample_graph 10).
  - reflexivity.
  - vm_compute. lia.
Defined.

(** X13.  The components come out in reverse topological order: an edge that
    leaves a component ends in a component returned before it, so no
    edge leads from a component to a later one. *)
Theorem tarjan_scc_reverse_topological {node : Type} `{Countable node}
    (keys : gmap node (list node) → list node) (graph : gmap node (list node))
    (fuel : nat) :
  (∀ g, keys g ≡ₚ elements (dom g)) →
  (size (all_nodes graph) ≤ fuel)%nat →
  ∃ comps,
    tarjan_scc keys fuel graph = Some (Ret comps) ∧
    (∀ pre c post x y,
       comps = pre ++ c :: post → x ∈ c → edge graph x y →
       y ∈ c ∨ ∃ c', c' ∈ pre ∧ y ∈ c') ∧
    (∀ pre c post x y,
       comps = pre ++ c :: post → x ∈ c → y ∈ mjoin post → ¬ edge graph x y).
Proof.
  intros Hkeys Hfuel.
  destruct (tarjan_scc_ok graph keys fuel (Hkeys graph) Hfuel)
    as (comps & Hrun & Hperm & _ & _).
  pose proof (tarjan_scc_order graph keys fuel comps (Hkeys graph) Hfuel Hrun) as Hord.
  assert (Hnd : NoDup (mjoin comps)).
  { rewrite Hperm. apply NoDup_elements. }
  exists comps. split_and!; [done| |].
  - intros pre c post x y Heq Hx Hxy.
    destruct (Hord pre c post x y Heq Hx Hxy) as [Hy|Hy]; [by left|right].
    apply list_elem_of_join in Hy as (c' & Hy & Hc'). by exists c'.
  - intros pre c post x y Heq Hx Hy Hxy. subst comps.
    rewrite join_app in Hnd. cbn [mjoin list_join] in Hnd.
    apply NoDup_app in Hnd as (_ & Hpre & Hnd). apply NoDup_app in Hnd as (_ & Hc & _).
    destruct (Hord pre c post x y eq_refl Hx Hxy) as [Hin|Hin].
    + by apply (Hc y).
    + apply (Hpre y Hin). apply elem_of_app. by right.
Qed.

Lemma tarjan_scc_reverse_topological_witness :
  ∃ comps,
    tarjan_scc (λ g, elements (dom g)) 10 sample_graph = Some (Ret comps) ∧
    (∀ pre c post x y,
       comps = pre ++ c :: post → x ∈ c → edge sample_graph x y →
       y ∈ c ∨ ∃ c', c' ∈ pre ∧ y ∈ c') ∧
    (∀ pre c post x y,
       comps = pre ++ c :: post → x ∈ c → y ∈ mjoin post → ¬ edge sample_graph x y).
Proof.
  apply (tarjan_scc_reverse_topological (λ g, elements (dom g)) sample_graph 10).
  - reflexivity.
  - vm_compute. lia.
Defined.

(** *** The input of the finder *)

(** [[line.strip() for line in text.strip().splitlines() if line.strip()]] *)
Definition lines_of (text : string) : list string :=
  filter (λ l, l ≠ EmptyString) (PyStr.strip <$> PyStr.splitlines (PyStr.strip text)).

Definition bad_line (i : nat) (line : string) : exn :=
  ValueError ("Line " +:+ pretty i +:+ ": expected 'u v' but got: '" +:+ line +:+ "'").

(** The first loop of [parse_edges]; [i] is the number of the line. *)
Fixpoint parse_lines (i : nat) (lines : list string)
    (nodes : gset string) (edges : list (string * string))
  : py (gset string * list (string * string)) :=
  match lines with
  | [] => Ret (nodes, edges)
  | line :: rest =>
      match PyStr.split line with
      | u :: v :: _ => parse_lines (S i) rest ({[v]} ∪ ({[u]} ∪ nodes)) (edges ++ [(u, v)])
      | _ => Raise (bad_line i line)
      end
  end.

(** [graph[u].append(v)] on a [defaultdict(list)]. *)
Definition add_arc (graph : gmap string (list string)) (e : string * string)
  : gmap string (list string) :=
  <[e.1 := default [] (graph !! e.1) ++ [e.2]]> graph.

(** [if n not in graph: graph[n] = []] *)
Definition add_isolated (graph : gmap string (list string)) (n : string)
  : gmap string (list string) :=
  match graph !! n with
  | Some _ => graph
  | None => <[n := []]> graph
  end.

(** [parse_edges(text)]; the order in which the last loop goes through
    the set of nodes does not show in the resulting map. *)
Definition parse_edges (text : string) : py (gmap string (list string)) :=
  r ← parse_lines 1 (lines_of text) ∅ [];
  Ret (fold_left add_isolated (elements r.1) (fold_left add_arc r.2 ∅)).

(** The two fields of a line that has them. *)
Definition fields (line : string) : option (string * string) :=
  match PyStr.split line with
  | u :: v :: _ => Some (u, v)
  | _ => None
  end.

Lemma parse_lines_cons i line rest nodes edges :
  parse_lines i (line :: rest) nodes edges
  = match fields line with
    | Some (u, v) => parse_lines (S i) rest ({[v]} ∪ ({[u]} ∪ nodes)) (edges ++ [(u, v)])
    | None => Raise (bad_line i line)
    end.
Proof. cbn [parse_lines]. unfold fields. by destruct (PyStr.split line) as [|u [|v more]]. Qed.

Lemma parse_lines_run lines : ∀ i nodes edges,
  match parse_lines i lines nodes edges with
  | Raise e =>
      ∃ k line, lines !! k = Some line ∧ fields line = None ∧
                (∀ j l, (j < k)%nat → lines !! j = Some l → is_Some (fields l)) ∧
                e = bad_line (i + k) line
  | Ret (nodes', edges') =>
      (∀ l, l ∈ lines → is_Some (fields l)) ∧
      edges' = edges ++ omap fields lines ∧
      nodes' = nodes ∪ list_to_set ((omap fields lines).*1)
                     ∪ list_to_set ((omap fields lines).*2)
  end.
Proof.
  induction lines as [|line rest IH]; intros i nodes edges.
  - cbn. split_and!; [by intros l ?%elem_of_nil|by rewrite app_nil_r|set_solver].
  - rewrite parse_lines_cons. destruct (fields line) as [[u v]|] eqn:Hf.
    + specialize (IH (S i) ({[v]} ∪ ({[u]} ∪ nodes)) (edges ++ [(u, v)])).
      destruct (parse_lines (S i) rest _ _) as [[nodes' edges']|e].
      * destruct IH as (Hall & -> & ->). cbn [omap list_omap]. rewrite Hf. split_and!.
        -- intros l [->|Hl]%elem_of_cons; [by rewrite Hf|by apply Hall].
        -- by rewrite <- app_assoc.
        -- cbn [fmap list_fmap fst snd list_to_set]. set_solver.
      * destruct IH as (k & l & Hk & Hl & Hbefore & ->).
        exists (S k), l. split_and!; [done|done| |f_equal; lia].
        intros [|j] l' Hj; cbn; [intros [= <-]; by rewrite Hf|].
        apply Hbefore. lia.
    + exists 0%nat, line. split_and!; [done|done| |by rewrite Nat.add_0_r].
      intros j l Hj. lia.
Qed.

Lemma add_arcs_lookup edges : ∀ graph u,
  default [] (fold_left add_arc edges graph !! u)
  = default [] (graph !! u) ++ (filter (λ e, e.1 = u) edges).*2.
Proof.
  induction edges as [|[a b] edges IH]; intros graph u.
  - by rewrite app_nil_r.
  - cbn [fold_left]. rewrite IH. unfold add_arc. cbn [fst snd].
    rewrite filter_cons. cbn [fst]. destruct (decide (a = u)) as [->|Hne].
    + rewrite lookup_insert_eq. cbn. by rewrite <- app_assoc.
    + by rewrite lookup_insert_ne.
Qed.

Lemma add_arcs_dom edges : ∀ graph,
  dom (fold_left add_arc edges graph) = dom graph ∪ list_to_set edges.*1.
Proof.
  induction edges as [|[a b] edges IH]; intros graph; [cbn; set_solver|].
  cbn [fold_left]. rewrite IH. unfold add_arc. cbn [fst snd fmap list_fmap list_to_set].
  rewrite dom_insert_L. set_solver.
Qed.

Lemma add_isolated_lookup ns : ∀ graph u,
  default [] (fold_left add_isolated ns graph !! u) = default [] (graph !! u).
Proof.
  induction ns as [|n ns IH]; intros graph u; [done|]. cbn [fold_left]. rewrite IH.
  unfold add_isolated. destruct (graph !! n) eqn:Hn; [done|].
  destruct (decide (n = u)) as [->|Hne].
  - by rewrite lookup_insert_eq, Hn.
  - by rewrite lookup_insert_ne.
Qed.

Lemma add_isolated_dom ns : ∀ graph,
  dom (fold_left add_isolated ns graph) = dom graph ∪ list_to_set ns.
Proof.
  induction ns as [|n ns IH]; intros graph; [cbn; set_solver|].
  cbn [fold_left]. rewrite IH. unfold add_isolated. cbn [list_to_set].
  destruct (graph !! n) eqn:Hn.
  - assert (n ∈ dom graph) by (apply elem_of_dom; eauto). set_solver.
  - rewrite dom_insert_L. set_solver.
Qed.

Lemma parse_edges_run (text : string) :
  match parse_edges text with
  | Raise e =>
      ∃ k line, lines_of text !! k = Some line ∧ fields line = None ∧
                (∀ j l, (j < k)%nat → lines_of text !! j = Some l → is_Some (fields l)) ∧
                e = ValueError ("Line " +:+ pretty (S k) +:+ ": expected 'u v' but got: '"
                                +:+ line +:+ "'")
  | Ret graph =>
      (∀ l, l ∈ lines_of text → is_Some (fields l)) ∧
      (∀ u, default [] (graph !! u)
            = (filter (λ e, e.1 = u) (omap fields (lines_of text))).*2) ∧
      (∀ x, x ∈ dom graph ↔ ∃ u v, (u, v) ∈ omap fields (lines_of text) ∧ (x = u ∨ x = v)) ∧
      all_nodes graph = dom graph
  end.
Proof.
  unfold parse_edges. pose proof (parse_lines_run (lines_of text) 1 ∅ []) as Hrun.
  destruct (parse_lines 1 (lines_of text) ∅ []) as [[nodes edges]|e]; cbn [mbind py_bind].
  - destruct Hrun as (Hall & -> & ->). cbn [fst snd app].
    set (E := omap fields (lines_of text)).
    assert (Hlookup : ∀ u, default [] (fold_left add_isolated
                (elements (∅ ∪ list_to_set E.*1 ∪ list_to_set E.*2 : gset string))
                (fold_left add_arc E ∅) !! u) = (filter (λ e, e.1 = u) E).*2).
    { intros u. by rewrite add_isolated_lookup, add_arcs_lookup, lookup_empty. }
    assert (Hdom : ∀ x, x ∈ dom (fold_left add_isolated
                (elements (∅ ∪ list_to_set E.*1 ∪ list_to_set E.*2 : gset string))
                (fold_left add_arc E ∅)) ↔ ∃ u v, (u, v) ∈ E ∧ (x = u ∨ x = v)).
    { intros x. rewrite add_isolated_dom, add_arcs_dom, dom_empty_L.
      rewrite !elem_of_union, !elem_of_list_to_set, !elem_of_elements.
      rewrite !elem_of_union, !elem_of_list_to_set, !list_elem_of_fmap. split.
      - intros [[[]%elem_of_empty|([u v] & -> & Hin)]
               |[[[]%elem_of_empty|([u v] & -> & Hin)]|([u v] & -> & Hin)]]; eauto.
      - intros (u & v & Hin & [->| ->]).
        + left. right. by exists (u, v).
        + right. right. by exists (u, v). }
    split_and!; [done|done|done|].
    apply set_eq. intros x. unfold all_nodes. rewrite elem_of_union, elem_of_list_to_set.
    split; [|by left]. intros [Hx|Hx]; [done|].
    apply list_elem_of_join in Hx as (nb & Hx & Hnb).
    apply list_elem_of_fmap in Hnb as ([u nb'] & -> & Hu%elem_of_map_to_list). cbn [snd] in Hx.
    apply Hdom. specialize (Hlookup u). rewrite Hu in Hlookup. simpl in Hlookup.
    rewrite Hlookup in Hx. apply list_elem_of_fmap in Hx as ([a b] & -> & [_ Hin]%list_elem_of_filter).
    exists a, b. split; [done|by right].
  - destruct Hrun as (k & line & Hk & Hf & Hbefore & ->). exists k, line. by split_and!.
Qed.


(** X18.  [parse_edges] fails on the first line that has fewer than two
    fields, naming it by its number among the lines that are not blank;
    otherwise every node named in the text is a key of the graph, a key
    has as its neighbors the second fields of the lines that start with
    it, in the order of the text, and every neighbor is a key. *)
Theorem parse_edges_graph (text : string) :
  match parse_edges text with
  | Raise e =>
      ∃ k line, lines_of text !! k = Some line ∧ fields line = None ∧
                (∀ j l, (j < k)%nat → lines_of text !! j = Some l → is_Some (fields l)) ∧
                e = ValueError ("Line " +:+ pretty (S k) +:+ ": expected 'u v' but got: '"
                                +:+ line +:+ "'")
  | Ret graph =>
      (∀ l, l ∈ lines_of text → is_Some (fields l)) ∧
      (∀ u, default [] (graph !! u)
            = (filter (λ e, e.1 = u) (omap fields (lines_of text))).*2) ∧
      (∀ x, x ∈ dom graph ↔ ∃ u v, (u, v) ∈ omap fields (lines_of text) ∧ (x = u ∨ x = v)) ∧
      all_nodes graph = dom graph
  end.
Proof. apply parse_edges_run. Qed.

(** X19.  What [find_sccs] shows for a text that parses: the components
    that [tarjan_scc] finds in the parsed graph hold every node named
    in the text exactly once, so their sizes add up to the number shown
    as the total of nodes. *)
Theorem find_sccs_total (keys : gmap string (list string) → list string)
    (text : string) (graph : gmap string (list string)) :
  (∀ g, keys g ≡ₚ elements (dom g)) →
  parse_edges text = Ret graph →
  ∃ comps,
    tarjan_scc keys (size (dom graph)) graph = Some (Ret comps) ∧
    mjoin comps ≡ₚ elements (dom graph) ∧
    sum_list (length <$> comps) = size (dom graph) ∧
    (∀ x, x ∈ dom graph ↔ ∃ u v, (u, v) ∈ omap fields (lines_of text) ∧ (x = u ∨ x = v)) ∧
    (∀ c x y, c ∈ comps → x ∈ c → (y ∈ c ↔ reach graph x y ∧ reach graph y x)).
Proof.
  intros Hkeys Hparse. pose proof (parse_edges_run text) as Hg. rewrite Hparse in Hg.
  destruct Hg as (_ & _ & Hdom & Hall).
  destruct (tarjan_scc_ok graph keys (size (dom graph)) (Hkeys graph))
    as (comps & Hrun & Hperm & _ & Hscc); [by rewrite Hall|].
  rewrite Hall in Hperm. exists comps. split_and!; [done|done| |done|done].
  rewrite <- length_join, Hperm. done.
Qed.

(** The text the window starts with; its first line, meant as a
    comment, is read as an edge from [#] to [Example]. *)
Definition example_text : string :=
  "# Example graph: a cycle 0->1->2->0, and another cycle 3->4->5->3
0 1
1 2
2 0
2 3
3 4
4 5
5 3
6 7
".

Definition example_graph : gmap string (list string) :=
  match parse_edges example_text with
  | Ret graph => graph
  | Raise _ => ∅
  end.

Example example_parsed :
  parse_edges example_text
  = Ret {[ "#" := ["Example"]; "Example" := []; "0" := ["1"]; "1" := ["2"];
           "2" := ["0"; "3"]; "3" := ["4"]; "4" := ["5"]; "5" := ["3"];
           "6" := ["7"]; "7" := [] ]}.
Proof. vm_compute. reflexivity. Qed.

Example short_line :
  parse_edges "a b

  c
d e" = Raise (ValueError "Line 2: expected 'u v' but got: 'c'").
Proof. vm_compute. reflexivity. Qed.

Lemma find_sccs_total_witness :
  ∃ comps,
    tarjan_scc (λ g, elements (dom g)) (size (dom example_graph)) example_graph
    = Some (Ret comps) ∧
    mjoin comps ≡ₚ elements (dom example_graph) ∧
    sum_list (length <$> comps) = size (dom example_graph) ∧
    (∀ x, x ∈ dom example_graph
          ↔ ∃ u v, (u, v) ∈ omap fields (lines_of example_text) ∧ (x = u ∨ x = v)) ∧
    (∀ c x y, c ∈ comps → x ∈ c →
              (y ∈ c ↔ reach example_graph x y ∧ reach example_graph y x)).
Proof.
  apply (find_sccs_total (λ g, elements (dom g)) example_text example_graph).
  - reflexivity.
  - vm_compute. reflexivity.
Defined.

End Tarjan.

(** * Euler paths and circuits: [EulerFinder.find_euler_undirected] *)

Module Euler.

(** [class Multigraph].  Edge ids are handed out from 0 upwards, so the
    dict [edges] has the keys [0 .. next_eid - 1] in the order of
    insertion; it is kept as the list of its values, [edges !! eid]
    being [self.edges[eid]] and [next_eid] its length. *)
Record Multigraph : Type := MkMultigraph {
  directed : bool;
  adj : gmap Z (list (Z * nat));
  edges : list (Z * Z * bool)
}.

Definition next_eid (g : Multigraph) : nat := length (edges g).

Definition new_graph (directed : bool) : Multigraph :=
  {| directed := directed; adj := ∅; edges := [] |}.

(** [adj[u].append(x)] on a [defaultdict(list)]. *)
Definition adj_append (a : gmap Z (list (Z * nat))) (u : Z) (x : Z * nat)
  : gmap Z (list (Z * nat)) :=
  <[u := default [] (a !! u) ++ [x]]> a.

Definition add_edge (g : Multigraph) (u v : Z) : Multigraph * nat :=
  let eid := next_eid g in
  let a := adj_append (adj g) u (v, eid) in
  let a := if directed g then a else adj_append a v (u, eid) in
  ({| directed := directed g; adj := a; edges := edges g ++ [(u, v, false)] |}, eid).

Definition clear (g : Multigraph) : Multigraph :=
  {| directed := directed g; adj := ∅; edges := [] |}.

(** [d[n] += 1] on a [defaultdict(int)], kept in the order of insertion. *)
Fixpoint incr (d : list (Z * Z)) (n : Z) : list (Z * Z) :=
  match d with
  | [] => [(n, 1)]
  | (k, c) :: rest =>
      if decide (k = n) then (k, c + 1) :: rest else (k, c) :: incr rest n
  end.

(** [degree_info], the branch for undirected graphs. *)
Definition degree_info (g : Multigraph) : list (Z * Z) :=
  fold_left (λ deg e, incr (incr deg e.1.1) e.1.2) (edges g) [].

Definition copy_edge_usage (g : Multigraph) : Multigraph :=
  {| directed := directed g; adj := adj g;
     edges := (λ e, (e.1, false)) <$> edges g |}.

(** The inner [while adj_iter.get(v):] loop on the deque [q] of [v]:
    the neighbor to push and what is left of the deque, or [None] when
    the deque has run out (the [else] branch). *)
Fixpoint next_edge (v : Z) (q : list (Z * nat)) (edges : list (Z * Z * bool))
  : py (option Z * list (Z * nat) * list (Z * Z * bool)) :=
  match q with
  | [] => Ret (None, [], edges)
  | (u, eid) :: rest =>
      match (edges !! eid : option (Z * Z * bool)) with
      | None => Raise KeyError
      | Some (a, b, used) =>
          if used then next_edge v rest edges
          else Ret (Some (if decide (v = a) then b else a), rest,
                    <[eid := (a, b, true)]> edges)
      end
  end.

(** [while stack: ...]; the stack has its top first. *)
Fixpoint hierholzer (fuel : nat) (stack path : list Z)
    (adj_iter : gmap Z (list (Z * nat))) (edges : list (Z * Z * bool))
  : option (py (list Z * list (Z * Z * bool))) :=
  match stack with
  | [] => Some (Ret (path, edges))
  | v :: below =>
      match fuel with
      | O => None
      | S f =>
          match adj_iter !! v with
          | None => hierholzer f below (path ++ [v]) adj_iter edges
          | Some q =>
              match next_edge v q edges with
              | Raise e => Some (Raise e)
              | Ret (None, rest, edges) =>
                  hierholzer f below (path ++ [v]) (<[v := rest]> adj_iter) edges
              | Ret (Some neighbor, rest, edges) =>
                  hierholzer f (neighbor :: stack) path (<[v := rest]> adj_iter) edges
              end
          end
      end
  end.

Definition nodes_with_edges (g : Multigraph) : gset Z :=
  list_to_set (edges g ≫= λ e, [e.1.1; e.1.2]).

Definition odd_keys (deg : list (Z * Z)) : list Z :=
  (filter (λ kc, kc.2 `mod` 2 = 1) deg).*1.

Section find_euler.
(** The order in which a set is iterated. *)
Variable set_order : gset Z → list Z.

Definition find_euler_undirected (fuel : nat) (g : Multigraph)
  : option (py (option (list Z) * string)) :=
  if decide (nodes_with_edges g = ∅) then Some (Ret (None, "Graph has no edges."))
  else if directed g then
    (* [deg] is a pair of dicts there, and [deg[n]] fails *)
    Some (Raise (Error "TypeError" "tuple indices must be integers or slices, not defaultdict"))
  else
    let odd := odd_keys (degree_info g) in
    if negb (bool_decide (length odd = 0%nat ∨ length odd = 2%nat)) then
      Some (Ret (None, "No Euler path/circuit: " +:+ pretty (length odd)
                       +:+ " vertices have odd degree."))
    else
      match (match odd with
             | o :: _ => Some o
             | [] => head (set_order (nodes_with_edges g))
             end) with
      | None => Some (Raise (Error "StopIteration" ""))
      | Some start =>
          let g := copy_edge_usage g in
          match hierholzer fuel [start] [] (adj g) (edges g) with
          | None => None
          | Some (Raise e) => Some (Raise e)
          | Some (Ret (path, edges)) =>
              if forallb snd edges then
                Some (Ret (Some (reverse path), "Euler path/circuit found."))
              else Some (Ret (None, "Graph is disconnected: some edges not reachable."))
          end
      end.
End find_euler.

(** [for u,v in pairs: self.graph.add_edge(u,v)] on a new undirected graph. *)
Definition load (pairs : list (Z * Z)) : Multigraph :=
  fold_left (λ g p, (add_edge g p.1 p.2).1) pairs (new_graph false).

Definition load_sample_circuit : Multigraph := load [(0, 1); (1, 2); (2, 0); (0, 3); (3, 0)].
Definition load_sample_path : Multigraph := load [(0, 1); (1, 2); (2, 3); (3, 1); (1, 4)].

(** ** Correctness *)

(** *** The graphs that the application builds *)

(** The two ends of every edge, by edge id. *)
Definition ends (g : Multigraph) : list (Z * Z) := fst <$> edges g.

(** Edge [eid] joins [x] and [y]. *)
Definition joins (E : list (Z * Z)) (eid : nat) (x y : Z) : Prop :=
  ∃ u v, E !! eid = Some (u, v) ∧ ((x = u ∧ y = v) ∨ (x = v ∧ y = u)).

Definition adj_of (a : gmap Z (list (Z * nat))) (x : Z) : list (Z * nat) :=
  default [] (a !! x).

(** An undirected multigraph: every edge is listed at both its ends,
    and nothing else is. *)
Record undirected (g : Multigraph) : Prop := {
  und_flag : directed g = false;
  und_adj : ∀ x u eid, (u, eid) ∈ adj_of (adj g) x → joins (ends g) eid x u;
  und_ends : ∀ eid u v, ends g !! eid = Some (u, v) →
               (v, eid) ∈ adj_of (adj g) u ∧ (u, eid) ∈ adj_of (adj g) v
}.

(** What the application does to its graph; [built_flags] stands for
    the marks that an earlier search has left on the edges. *)
Inductive built : Multigraph → Prop :=
| built_new : built (new_graph false)
| built_add g u v : built g → built (add_edge g u v).1
| built_clear g : built g → built (clear g)
| built_flags g es :
    built g → fst <$> es = ends g →
    built {| directed := directed g; adj := adj g; edges := es |}.

Lemma joins_sym E eid x y : joins E eid x y → joins E eid y x.
Proof. intros (u & v & He & Hxy). exists u, v. split; [done|tauto]. Qed.

Lemma joins_app E E' eid x y : joins E eid x y → joins (E ++ E') eid x y.
Proof.
  intros (u & v & He & Hxy). exists u, v. split; [|done].
  by apply lookup_app_l_Some.
Qed.

Lemma adj_of_append a u x y :
  adj_of (adj_append a u x) y = if decide (y = u) then adj_of a u ++ [x] else adj_of a y.
Proof.
  unfold adj_of, adj_append. destruct (decide (y = u)) as [->|Hne].
  - by rewrite lookup_insert_eq.
  - by rewrite lookup_insert_ne.
Qed.

Lemma add_edge_undirected g u v : undirected g → undirected (add_edge g u v).1.
Proof.
  intros [Hflag Hadj Hends]. unfold add_edge, next_eid. rewrite Hflag. cbn [fst].
  assert (Hlen : length (ends g) = length (edges g)) by apply length_fmap.
  split; cbn [directed adj edges]; unfold ends in *; cbn [edges].
  - done.
  - intros x a eid. rewrite fmap_app. cbn [fmap list_fmap fst].
    rewrite !adj_of_append. intros Hin.
    assert (Hnew : joins ((fst <$> edges g) ++ [(u, v)]) (length (edges g)) u v).
    { exists u, v. split; [|tauto]. rewrite lookup_app_r by lia.
      by rewrite Hlen, Nat.sub_diag. }
    destruct (decide (x = v)) as [->|Hxv].
    + apply elem_of_app in Hin as [Hin|[= -> ->]%list_elem_of_singleton];
        [|by apply joins_sym].
      destruct (decide (v = u)) as [->|Hvu].
      * apply elem_of_app in Hin as [Hin|[= -> ->]%list_elem_of_singleton]; [|done].
        by apply joins_app, Hadj.
      * by apply joins_app, Hadj.
    + destruct (decide (x = u)) as [->|Hxu].
      * apply elem_of_app in Hin as [Hin|[= -> ->]%list_elem_of_singleton]; [|done].
        by apply joins_app, Hadj.
      * by apply joins_app, Hadj.
  - intros eid a b. rewrite fmap_app. cbn [fmap list_fmap fst].
    rewrite !adj_of_append. intros He.
    apply lookup_app_Some in He as [He|[Hge He]].
    + destruct (Hends eid a b He) as [H1 H2].
      split; repeat case_decide; subst; rewrite ?elem_of_app; auto.
    + rewrite Hlen in *. apply list_lookup_singleton_Some in He as [Hz [= <- <-]].
      assert (eid = length (edges g)) as -> by lia.
      split; repeat case_decide; subst; rewrite ?elem_of_app, ?list_elem_of_singleton;
        auto; try done.
Qed.

Lemma built_undirected g : built g → undirected g.
Proof.
  induction 1 as [|g u v _ IH|g _ IH|g es _ IH Hes].
  - split; [done| |].
    + intros x u eid Hin. unfold adj_of in Hin. cbn in Hin.
      rewrite lookup_empty in Hin. by apply elem_of_nil in Hin.
    + intros eid u v He. unfold ends in He. cbn in He. by destruct eid.
  - by apply add_edge_undirected.
  - destruct IH as [Hflag _ _]. split; [done| |].
    + intros x u eid Hin. unfold adj_of in Hin. cbn in Hin.
      rewrite lookup_empty in Hin. by apply elem_of_nil in Hin.
    + intros eid u v He. unfold ends in He. cbn in He. by destruct eid.
  - destruct IH as [Hflag Hadj Hends]. split; unfold ends in *; cbn [directed adj edges].
    + done.
    + rewrite Hes. apply Hadj.
    + rewrite Hes. apply Hends.
Qed.

(** *** Degrees *)

Definition ind (x u : Z) : Z := if decide (x = u) then 1 else 0.

Fixpoint degree (E : list (Z * Z)) (x : Z) : Z :=
  match E with
  | [] => 0
  | (u, v) :: rest => ind x u + ind x v + degree rest x
  end.

Lemma degree_app E E' x : degree (E ++ E') x = degree E x + degree E' x.
Proof. induction E as [|[u v] E IH]; cbn [app degree]; lia. Qed.

Lemma degree_nonneg E x : 0 ≤ degree E x.
Proof. induction E as [|[u v] E IH]; cbn [degree]; unfold ind; repeat case_decide; lia. Qed.

Lemma degree_pos E x : 0 < degree E x ↔ ∃ u v, (u, v) ∈ E ∧ (x = u ∨ x = v).
Proof.
  induction E as [|[u v] E IH]; cbn [degree].
  - split; [lia|]. intros (u & v & Hin & _). by apply elem_of_nil in Hin.
  - pose proof (degree_nonneg E x). split.
    + intros Hpos. destruct (decide (x = u)) as [->|Hu]; [exists u, v; split; [by left|auto]|].
      destruct (decide (x = v)) as [->|Hv]; [exists u, v; split; [by left|auto]|].
      unfold ind in Hpos. rewrite !decide_False in Hpos by done.
      destruct (proj1 IH ltac:(lia)) as (a & b & Hin & Hab).
      exists a, b. split; [by right|done].
    + intros (a & b & Hin & Hab). apply elem_of_cons in Hin as [[= -> ->]|Hin].
      * unfold ind. destruct Hab as [->| ->]; repeat case_decide; lia.
      * assert (0 < degree E x) by (apply IH; eauto).
        unfold ind. repeat case_decide; lia.
Qed.

(** The count that a [defaultdict(int)] holds for a key. *)
Fixpoint count (d : list (Z * Z)) (x : Z) : Z :=
  match d with
  | [] => 0
  | (k, c) :: rest => if decide (k = x) then c else count rest x
  end.

Definition counts_ok (d : list (Z * Z)) : Prop :=
  NoDup d.*1 ∧ ∀ k c, (k, c) ∈ d → 0 < c.

Lemma incr_keys d n k : k ∈ (incr d n).*1 ↔ k = n ∨ k ∈ d.*1.
Proof.
  induction d as [|[k' c] d IH]; cbn [incr].
  - cbn. rewrite list_elem_of_singleton, elem_of_nil. tauto.
  - case_decide as Hk; cbn [fmap list_fmap fst]; cbn; rewrite !elem_of_cons.
    + subst. tauto.
    + change (list_fmap _ _ fst ?l) with (l.*1). rewrite IH. tauto.
Qed.

Lemma incr_count d n x : count (incr d n) x = count d x + ind x n.
Proof.
  unfold ind. induction d as [|[k c] d IH]; cbn [incr count].
  - destruct (decide (n = x)), (decide (x = n)); subst; try done; lia.
  - destruct (decide (k = n)) as [->|Hk]; cbn [count];
      destruct (decide (n = x)), (decide (x = n)); subst; try done;
      rewrite ?decide_True by done; rewrite ?decide_False by done; try lia.
    all: destruct (decide (k = x)); subst; try done; lia.
Qed.

Lemma incr_ok d n : counts_ok d → counts_ok (incr d n).
Proof.
  intros [Hnd Hpos]. induction d as [|[k c] d IH]; cbn [incr].
  - split; [cbn; apply NoDup_singleton|].
    intros k c [= -> ->]%list_elem_of_singleton. lia.
  - cbn in Hnd. apply NoDup_cons in Hnd as [Hk Hnd].
    assert (Hpos' : ∀ k0 c0, (k0, c0) ∈ d → 0 < c0).
    { intros k0 c0 Hin. apply (Hpos k0 c0). by right. }
    pose proof (Hpos k c ltac:(by left)).
    case_decide as Hkn.
    + split; [by apply NoDup_cons|].
      intros k0 c0 [[= -> ->]|Hin]%elem_of_cons; [lia|eauto].
    + destruct (IH Hnd Hpos') as [Hnd' Hpos'']. split.
      * cbn. apply NoDup_cons. split; [|done].
        change (list_fmap _ _ fst ?l) with (l.*1). rewrite incr_keys.
        intros [->|Hin]; done.
      * intros k0 c0 [[= -> ->]|Hin]%elem_of_cons; [lia|eauto].
Qed.

Lemma count_elem d k c : NoDup d.*1 → (k, c) ∈ d → count d k = c.
Proof.
  induction d as [|[k' c'] d IH]; intros Hnd Hin; [by apply elem_of_nil in Hin|].
  cbn in Hnd. apply NoDup_cons in Hnd as [Hk Hnd]. cbn [count].
  apply elem_of_cons in Hin as [[= -> ->]|Hin]; [by rewrite decide_True|].
  case_decide as Hkk; [|by apply IH]. subst. destruct Hk.
  apply list_elem_of_fmap. by exists (k, c).
Qed.

Lemma count_key d k : 0 < count d k → (k, count d k) ∈ d.
Proof.
  induction d as [|[k' c'] d IH]; cbn [count]; [lia|].
  case_decide; [subst; by left|]. intros Hpos. right. by apply IH.
Qed.

Lemma degree_info_count g :
  counts_ok (degree_info g) ∧ ∀ x, count (degree_info g) x = degree (ends g) x.
Proof.
  unfold degree_info, ends.
  assert (Hgen : ∀ (l : list (Z * Z * bool)) d, counts_ok d →
    counts_ok (fold_left (λ deg e, incr (incr deg e.1.1) e.1.2) l d) ∧
    ∀ x, count (fold_left (λ deg e, incr (incr deg e.1.1) e.1.2) l d) x
         = count d x + degree (fst <$> l) x).
  { induction l as [|[[u v] b] l IH]; intros d Hd.
    - split; [done|]. intros x. cbn. lia.
    - cbn [fold_left fst snd]. destruct (IH (incr (incr d u) v)) as [Hok Hcount].
      { by apply incr_ok, incr_ok. }
      split; [done|]. intros x. rewrite Hcount, !incr_count. cbn. lia. }
  destruct (Hgen (edges g) []) as [Hok Hcount].
  { split; [constructor|]. intros k c Hin. by apply elem_of_nil in Hin. }
  split; [done|]. intros x. rewrite Hcount. cbn. lia.
Qed.

Definition odd_degree (g : Multigraph) (x : Z) : Prop := Z.odd (degree (ends g) x) = true.

Lemma odd_keys_elem g x : x ∈ odd_keys (degree_info g) ↔ odd_degree g x.
Proof.
  destruct (degree_info_count g) as [[Hnd Hpos] Hcount].
  unfold odd_keys, odd_degree. rewrite <- Hcount. rewrite list_elem_of_fmap. split.
  - intros ([k c] & -> & [Hodd Hin]%list_elem_of_filter). cbn [fst snd] in *.
    rewrite (count_elem _ _ _ Hnd Hin). rewrite Zmod_odd in Hodd.
    by destruct (Z.odd c).
  - intros Hodd. exists (x, count (degree_info g) x). split; [done|].
    apply list_elem_of_filter. cbn [snd]. split.
    + rewrite Zmod_odd. by rewrite Hodd.
    + apply count_key. rewrite Hcount. pose proof (degree_nonneg (ends g) x).
      assert (degree (ends g) x ≠ 0); [|lia]. intros H0. rewrite Hcount, H0 in Hodd. done.
Qed.

Lemma odd_keys_nodup g : NoDup (odd_keys (degree_info g)).
Proof.
  destruct (degree_info_count g) as [[Hnd _] _]. unfold odd_keys.
  induction (degree_info g) as [|[k c] d IH]; [constructor|].
  cbn in Hnd. apply NoDup_cons in Hnd as [Hk Hnd]. rewrite filter_cons.
  case_decide; [|by apply IH]. cbn. apply NoDup_cons. split; [|by apply IH].
  intros Hin. apply Hk. apply list_elem_of_fmap in Hin as ([k' c'] & -> & Hin).
  apply list_elem_of_filter in Hin as [_ Hin]. apply list_elem_of_fmap. by exists (k', c').
Qed.

Lemma nodes_with_edges_elem g x :
  x ∈ nodes_with_edges g ↔ ∃ u v, (u, v) ∈ ends g ∧ (x = u ∨ x = v).
Proof.
  unfold nodes_with_edges, ends. rewrite elem_of_list_to_set, list_elem_of_bind. split.
  - intros ([[u v] b] & Hx & Hin). cbn [fst snd] in Hx. exists u, v. split.
    + apply list_elem_of_fmap. by exists (u, v, b).
    + rewrite !elem_of_cons, elem_of_nil in Hx. tauto.
  - intros (u & v & Hin & Hx). apply list_elem_of_fmap in Hin as ([[u' v'] b] & [= <- <-] & Hin).
    exists (u, v, b). split; [|done]. cbn [fst snd]. rewrite !elem_of_cons. tauto.
Qed.

Lemma nodes_with_edges_empty g : nodes_with_edges g = ∅ ↔ edges g = [].
Proof.
  split.
  - intros Hempty. destruct (edges g) as [|[[u v] b] l] eqn:Hedges; [done|].
    assert (Hu : u ∈ nodes_with_edges g).
    { apply nodes_with_edges_elem. exists u, v. unfold ends. rewrite Hedges.
      split; [by left|auto]. }
    rewrite Hempty in Hu. by apply elem_of_empty in Hu.
  - intros Hnil. unfold nodes_with_edges. by rewrite Hnil.
Qed.

(** The vertices of odd degree. *)
Definition odd_vertices (g : Multigraph) : list Z :=
  filter (λ x, Z.odd (degree (ends g) x) = true) (elements (nodes_with_edges g)).

Lemma odd_keys_vertices g : odd_keys (degree_info g) ≡ₚ odd_vertices g.
Proof.
  apply NoDup_Permutation.
  - apply odd_keys_nodup.
  - apply NoDup_filter, NoDup_elements.
  - intros x. rewrite odd_keys_elem. unfold odd_vertices.
    rewrite list_elem_of_filter, elem_of_elements. split; [|tauto].
    intros Hodd. split; [done|]. apply nodes_with_edges_elem, degree_pos.
    pose proof (degree_nonneg (ends g) x). unfold odd_degree in Hodd.
    assert (degree (ends g) x ≠ 0); [|lia]. intros H0. by rewrite H0 in Hodd.
Qed.

(** *** Trails *)

(** [trail E xs es]: the vertices [xs] are joined, one to the next, by
    the edges [es]. *)
Inductive trail (E : list (Z * Z)) : list Z → list nat → Prop :=
| trail_one x : trail E [x] []
| trail_cons x y l e es :
    joins E e x y → trail E (y :: l) es → trail E (x :: y :: l) (e :: es).

Definition adjacent (E : list (Z * Z)) (x y : Z) : Prop := ∃ e, joins E e x y.

Lemma joins_same E e x y x' y' :
  joins E e x y → joins E e x' y' → (x' = x ∧ y' = y) ∨ (x' = y ∧ y' = x).
Proof.
  intros (u & v & He & Hxy) (u' & v' & He' & Hxy'). rewrite He in He'.
  injection He' as <- <-. naive_solver.
Qed.

Lemma trail_ends E xs es e x y :
  trail E xs es → e ∈ es → joins E e x y → x ∈ xs ∧ y ∈ xs.
Proof.
  induction 1 as [a|a b l e' es' Hj _ IH]; intros He Hxy.
  - by apply elem_of_nil in He.
  - apply elem_of_cons in He as [->|He].
    + destruct (joins_same _ _ _ _ _ _ Hj Hxy) as [[-> ->]|[-> ->]];
        rewrite !elem_of_cons; tauto.
    + destruct (IH He Hxy). split; by right.
Qed.

Lemma trail_connected E xs es x y :
  trail E xs es → x ∈ xs → y ∈ xs → rtc (adjacent E) x y.
Proof.
  intros Htrail.
  assert (Hhead : ∀ h l, xs = h :: l → ∀ z, z ∈ xs →
            rtc (adjacent E) h z ∧ rtc (adjacent E) z h).
  { induction Htrail as [a|a b l e es Hj _ IH]; intros h l' [= <- <-] z Hz.
    - apply list_elem_of_singleton in Hz as ->. split; constructor.
    - apply elem_of_cons in Hz as [->|Hz]; [split; constructor|].
      destruct (IH b l eq_refl z Hz) as [H1 H2]. split.
      + eapply rtc_l; [|exact H1]. by exists e.
      + eapply rtc_r; [exact H2|]. exists e. by apply joins_sym. }
  intros Hx Hy. destruct xs as [|h l]; [by apply elem_of_nil in Hx|].
  destruct (Hhead h l eq_refl x Hx) as [_ Hxh].
  destruct (Hhead h l eq_refl y Hy) as [Hhy _]. by eapply rtc_trans.
Qed.

(** *** Edges used and unused *)

Definition used (fl : list (Z * Z * bool)) (e : nat) : Prop :=
  ∃ u v, fl !! e = Some (u, v, true).

(** The number of unused edge ends at [x]. *)
Fixpoint udeg (fl : list (Z * Z * bool)) (x : Z) : Z :=
  match fl with
  | [] => 0
  | (u, v, b) :: rest => (if b then 0 else ind x u + ind x v) + udeg rest x
  end.

Fixpoint unused_count (fl : list (Z * Z * bool)) : nat :=
  match fl with
  | [] => 0
  | (_, _, b) :: rest => ((if b then 0 else 1) + unused_count rest)%nat
  end.

Lemma mark_ends (fl : list (Z * Z * bool)) (e : nat) a b :
  fl !! e = Some (a, b, false) → fst <$> <[e := (a, b, true)]> fl = fst <$> fl.
Proof.
  intros He. rewrite list_fmap_insert. cbn [fst]. apply list_insert_id.
  by rewrite list_lookup_fmap, He.
Qed.

Lemma mark_used (fl : list (Z * Z * bool)) (e : nat) a b e' :
  fl !! e = Some (a, b, false) →
  used (<[e := (a, b, true)]> fl) e' ↔ used fl e' ∨ e' = e.
Proof.
  intros He. unfold used. destruct (decide (e' = e)) as [->|Hne].
  - rewrite list_lookup_insert_eq by by eapply lookup_lt_Some. split; [auto|eauto].
  - rewrite list_lookup_insert_ne by done. split; [auto|]. intros [?|?]; done.
Qed.

Lemma mark_udeg fl : ∀ e a b x,
  fl !! e = Some (a, b, false) →
  udeg (<[e := (a, b, true)]> fl) x = udeg fl x - ind x a - ind x b.
Proof.
  induction fl as [|[[u v] c] fl IH]; intros e a b x He; [done|].
  destruct e as [|e]; cbn in He.
  - injection He as -> -> ->.
    change (<[0%nat:=(a, b, true)]> ((a, b, false) :: fl)) with ((a, b, true) :: fl).
    cbn [udeg]. lia.
  - change (<[S e:=(a, b, true)]> ((u, v, c) :: fl))
      with ((u, v, c) :: <[e:=(a, b, true)]> fl).
    cbn [udeg]. rewrite (IH e a b x He). lia.
Qed.

Lemma mark_count fl : ∀ e a b,
  fl !! e = Some (a, b, false) →
  (unused_count (<[e := (a, b, true)]> fl) + 1 = unused_count fl)%nat.
Proof.
  induction fl as [|[[u v] c] fl IH]; intros e a b He; [done|].
  destruct e as [|e]; cbn in He.
  - injection He as -> -> ->.
    change (<[0%nat:=(a, b, true)]> ((a, b, false) :: fl)) with ((a, b, true) :: fl).
    cbn [unused_count]. lia.
  - change (<[S e:=(a, b, true)]> ((u, v, c) :: fl))
      with ((u, v, c) :: <[e:=(a, b, true)]> fl).
    cbn [unused_count]. specialize (IH e a b He). lia.
Qed.

Lemma udeg_zero fl x :
  (∀ e u v, fl !! e = Some (u, v, false) → x ≠ u ∧ x ≠ v) → udeg fl x = 0.
Proof.
  induction fl as [|[[u v] c] fl IH]; intros Hall; [done|]. cbn [udeg].
  rewrite IH by (intros e a b He; apply (Hall (S e) a b He)).
  destruct c; [done|]. destruct (Hall 0%nat u v eq_refl) as [Hu Hv].
  unfold ind. rewrite !decide_False by done. lia.
Qed.

Lemma udeg_reset (fl : list (Z * Z * bool)) x : udeg ((λ e, (e.1, false)) <$> fl) x = degree (fst <$> fl) x.
Proof. induction fl as [|[[u v] c] fl IH]; cbn; [done|]. cbn in IH. rewrite IH. lia. Qed.

Lemma unused_count_le fl : (unused_count fl ≤ length fl)%nat.
Proof. induction fl as [|[[u v] c] fl IH]; cbn; [lia|]. destruct c; lia. Qed.

Lemma used_reset (fl : list (Z * Z * bool)) e : ¬ used ((λ e, (e.1, false)) <$> fl) e.
Proof.
  intros (u & v & He). rewrite list_lookup_fmap in He.
  destruct (fl !! e) as [[[a b] c]|]; cbn in He; congruence.
Qed.

Lemma forallb_used fl :
  forallb snd fl = true ↔ ∀ e, (e < length fl)%nat → used fl e.
Proof.
  induction fl as [|[[u v] c] fl IH]; cbn [forallb snd length].
  - split; [|done]. intros _ e He. lia.
  - rewrite andb_true_iff, IH. split.
    + intros [-> Hall] [|e] He; [by exists u, v|]. apply (Hall e). lia.
    + intros Hall. split.
      * destruct (Hall 0%nat ltac:(lia)) as (a & b & [= _ _ ->]). done.
      * intros e He. apply (Hall (S e)). lia.
Qed.

(** *** The search for an unused edge *)

Lemma next_edge_run v q : ∀ fl : list (Z * Z * bool),
  (∀ u e, (u, e) ∈ q → is_Some (fl !! e)) →
  (next_edge v q fl = Ret (None, [], fl) ∧ ∀ u e, (u, e) ∈ q → used fl e) ∨
  (∃ skipped u e rest a b,
     q = skipped ++ (u, e) :: rest ∧ (∀ u' e', (u', e') ∈ skipped → used fl e') ∧
     fl !! e = Some (a, b, false) ∧
     next_edge v q fl
     = Ret (Some (if decide (v = a) then b else a), rest, <[e := (a, b, true)]> fl)).
Proof.
  induction q as [|[u e] q IH]; intros fl Hq.
  - left. split; [done|]. intros u e Hin. by apply elem_of_nil in Hin.
  - cbn [next_edge]. destruct (Hq u e ltac:(by left)) as [[[a b] c] He]. rewrite He.
    destruct c.
    + destruct (IH fl) as [[Hrun Hall]|(skipped & u' & e' & rest & a' & b' & -> & Hsk & He' & Hrun)].
      { intros u' e' Hin. apply (Hq u' e'). by right. }
      * left. split; [done|]. intros u' e' [[= -> ->]|Hin]%elem_of_cons; [by exists a, b|eauto].
      * right. exists ((u, e) :: skipped), u', e', rest, a', b'. split_and!; [done| |done|done].
        intros u0 e0 [[= -> ->]|Hin]%elem_of_cons; [by exists a, b|eauto].
    + right. exists [], u, e, q, a, b. split_and!; [done| |done|done].
      intros u' e' Hin. by apply elem_of_nil in Hin.
Qed.

(** *** The main loop *)

Section hierholzer.
Variable E : list (Z * Z).
Variable adj0 : gmap Z (list (Z * nat)).
Variable start a0 : Z.
Hypothesis Hadj : ∀ x u eid, (u, eid) ∈ adj_of adj0 x → joins E eid x u.
Hypothesis Hends : ∀ eid u v, E !! eid = Some (u, v) →
  (v, eid) ∈ adj_of adj0 u ∧ (u, eid) ∈ adj_of adj0 v.

(** Every edge at [x] has been used. *)
Definition all_used (fl : list (Z * Z * bool)) (x : Z) : Prop :=
  ∀ u e, (u, e) ∈ adj_of adj0 x → used fl e.

(** The state at the head of the loop.  The stack is a trail from the
    start to its top; the vertices popped so far, read backwards, are a
    trail that ends where the whole walk has to end, and [a] is the
    vertex from which that trail is to be continued. *)
Record inv (top : Z) (below path : list Z) (ai : gmap Z (list (Z * nat)))
    (fl : list (Z * Z * bool)) : Prop := {
  inv_ends : fst <$> fl = E;
  inv_bottom : last (top :: below) = Some start;
  inv_iter : ∀ x, ∃ done, adj_of adj0 x = done ++ adj_of ai x ∧
                          ∀ u e, (u, e) ∈ done → used fl e;
  inv_path : ∀ x, x ∈ path → all_used fl x;
  inv_trails : ∃ a es ep,
    trail E (top :: below) es ∧ trail E (a :: reverse path) ep ∧
    last (a :: reverse path) = Some a0 ∧ NoDup (es ++ ep) ∧
    (∀ e, used fl e ↔ e ∈ es ++ ep) ∧
    (∀ x, Z.odd (udeg fl x) = xorb (bool_decide (x = top)) (bool_decide (x = a)))
}.

Record final (path : list Z) (fl : list (Z * Z * bool)) : Prop := {
  fin_ends : fst <$> fl = E;
  fin_closed : ∀ x, x ∈ path → all_used fl x;
  fin_trail : ∃ ep,
    trail E (reverse path) ep ∧ head (reverse path) = Some start ∧
    last (reverse path) = Some a0 ∧ NoDup ep ∧ (∀ e, used fl e ↔ e ∈ ep)
}.

Lemma lookup_ends (fl : list (Z * Z * bool)) e u v b :
  fst <$> fl = E → fl !! e = Some (u, v, b) → E !! e = Some (u, v).
Proof. intros <- He. by rewrite list_lookup_fmap, He. Qed.

Lemma lookup_flags (fl : list (Z * Z * bool)) e u v :
  fst <$> fl = E → E !! e = Some (u, v) → ∃ b, fl !! e = Some (u, v, b).
Proof.
  intros <- He. rewrite list_lookup_fmap in He.
  destruct (fl !! e) as [[[a b] c]|]; [|done]. injection He as -> ->. by exists c.
Qed.

Lemma all_used_udeg fl x : fst <$> fl = E → all_used fl x → udeg fl x = 0.
Proof.
  intros Hfl Hall. apply udeg_zero. intros e u v He.
  pose proof (lookup_ends fl e u v false Hfl He) as HE.
  destruct (Hends e u v HE) as [Hu Hv].
  split; intros ->.
  - destruct (Hall v e Hu) as (a & b & He'). congruence.
  - destruct (Hall u e Hv) as (a & b & He'). congruence.
Qed.

Lemma trail_single x es : trail E [x] es → es = [].
Proof. by inversion 1. Qed.

(** Popping the top of the stack. *)
Lemma pop_step top below path ai ai' fl :
  inv top below path ai fl → all_used fl top →
  adj_of ai' top = [] → (∀ x, x ≠ top → adj_of ai' x = adj_of ai x) →
  match below with
  | [] => final (path ++ [top]) fl
  | w :: rest => inv w rest (path ++ [top]) ai' fl
  end.
Proof.
  intros [Hfl Hbot Hiter Hpath (a & es & ep & Hes & Hep & Hlast & Hnd & Hused & Hpar)]
         Hall Htop Hother.
  assert (Ha : top = a).
  { specialize (Hpar top). rewrite (all_used_udeg fl top Hfl Hall) in Hpar.
    rewrite bool_decide_true in Hpar by done. cbn in Hpar.
    destruct (decide (top = a)) as [|Hne]; [done|].
    by rewrite bool_decide_false in Hpar. }
  subst a.
  assert (Hpath' : ∀ x, x ∈ path ++ [top] → all_used fl x).
  { intros x [Hx| ->%list_elem_of_singleton]%elem_of_app; auto. }
  destruct below as [|w rest].
  - apply trail_single in Hes as ->. cbn [app] in *. split; [done|done|].
    exists ep. rewrite reverse_snoc. split_and!; [done| |done| |done].
    + cbn in Hbot. by cbn.
    + done.
  - inversion Hes as [|x y l e es' Hj Hes' Hx]; subst. split.
    + done.
    + done.
    + intros x. destruct (decide (x = top)) as [->|Hne].
      * exists (adj_of adj0 top). rewrite Htop, app_nil_r. done.
      * rewrite (Hother x Hne). apply Hiter.
    + done.
    + exists w, es', (e :: ep). rewrite reverse_snoc. split_and!.
      * done.
      * constructor; [by apply joins_sym|done].
      * done.
      * cbn [app] in Hnd. rewrite <- Permutation_middle. done.
      * intros e'. rewrite Hused. cbn [app]. rewrite !elem_of_app, !elem_of_cons, elem_of_app.
        tauto.
      * intros x. rewrite Hpar. by destruct (bool_decide (x = top)), (bool_decide (x = w)).
Qed.

Lemma odd_ind x a : Z.odd (ind x a) = bool_decide (x = a).
Proof. unfold ind. case_decide; [by rewrite bool_decide_true|by rewrite bool_decide_false]. Qed.

(** Pushing the other end of an unused edge. *)
Lemma push_step top below path ai ai' fl skipped u e rest a b :
  inv top below path ai fl →
  adj_of ai top = skipped ++ (u, e) :: rest →
  (∀ u' e', (u', e') ∈ skipped → used fl e') →
  fl !! e = Some (a, b, false) →
  adj_of ai' top = rest → (∀ x, x ≠ top → adj_of ai' x = adj_of ai x) →
  inv (if decide (top = a) then b else a) (top :: below) path ai'
      (<[e := (a, b, true)]> fl).
Proof.
  intros [Hfl Hbot Hiter Hpath (anc & es & ep & Hes & Hep & Hlast & Hnd & Hused & Hpar)]
         Hq Hskipped He Htop Hother.
  assert (HE : E !! e = Some (a, b)) by by apply (lookup_ends fl e a b false).
  assert (Hin : (u, e) ∈ adj_of adj0 top).
  { destruct (Hiter top) as (done & -> & _). rewrite Hq, !elem_of_app, elem_of_cons. auto. }
  assert (Hj : joins E e (if decide (top = a) then b else a) top).
  { destruct (Hadj top u e Hin) as (a' & b' & HE' & Hab). rewrite HE in HE'.
    injection HE' as <- <-. exists a, b. split; [done|].
    case_decide; [|naive_solver]. subst. tauto. }
  assert (Hmono : ∀ e', used fl e' → used (<[e := (a, b, true)]> fl) e').
  { intros e' He'. apply mark_used; auto. }
  assert (Hnot : ¬ used fl e).
  { intros (a' & b' & He'). congruence. }
  split.
  - by rewrite mark_ends.
  - done.
  - intros x. destruct (decide (x = top)) as [->|Hne].
    + destruct (Hiter top) as (done & Hdone & Hall). rewrite Hq in Hdone.
      exists (done ++ skipped ++ [(u, e)]). rewrite Htop. split.
      * rewrite Hdone, <- !app_assoc. done.
      * intros u' e'. rewrite !elem_of_app, list_elem_of_singleton.
        intros [?|[?|[= -> ->]]]; [eauto..|]. apply mark_used; auto.
    + destruct (Hiter x) as (done & Hdone & Hall). exists done.
      rewrite (Hother x Hne). split; [done|]. eauto.
  - intros x Hx u' e' Hin'. apply Hmono. by apply (Hpath x Hx u' e').
  - exists anc, (e :: es), ep. split_and!.
    + by constructor.
    + done.
    + done.
    + cbn [app]. apply NoDup_cons. split; [|done]. by rewrite <- Hused.
    + intros e'. rewrite mark_used by done. rewrite Hused. cbn [app].
      rewrite elem_of_cons. tauto.
    + intros x. rewrite mark_udeg by done. rewrite !Z.odd_sub, !odd_ind, Hpar.
      destruct (Hadj top u e Hin) as (a' & b' & HE' & Hab). rewrite HE in HE'.
      injection HE' as <- <-.
      destruct (decide (top = a)) as [->|Hne].
      * by destruct (bool_decide (x = a)), (bool_decide (x = b)), (bool_decide (x = anc)).
      * assert (top = b) as -> by naive_solver.
        by destruct (bool_decide (x = a)), (bool_decide (x = b)), (bool_decide (x = anc)).
Qed.

Lemma adj_of_insert (ai : gmap Z (list (Z * nat))) v q x :
  adj_of (<[v := q]> ai) x = if decide (x = v) then q else adj_of ai x.
Proof.
  unfold adj_of. destruct (decide (x = v)) as [->|Hne].
  - by rewrite lookup_insert_eq.
  - by rewrite lookup_insert_ne.
Qed.

(** The loop comes to an end, with a trail of all the edges it used. *)
Lemma hierholzer_ok fuel : ∀ top below path ai fl,
  inv top below path ai fl →
  (2 * unused_count fl + length (top :: below) ≤ fuel)%nat →
  ∃ path' fl', hierholzer fuel (top :: below) path ai fl = Some (Ret (path', fl')) ∧
               final path' fl'.
Proof.
  induction fuel as [|f IH]; intros top below path ai fl Hinv Hfuel; [cbn in Hfuel; lia|].
  cbn [hierholzer].
  assert (Hpop : ∀ ai', all_used fl top → adj_of ai' top = [] →
            (∀ x, x ≠ top → adj_of ai' x = adj_of ai x) →
            ∃ path' fl', hierholzer f below (path ++ [top]) ai' fl = Some (Ret (path', fl')) ∧
                         final path' fl').
  { intros ai' Hall Htop Hother.
    pose proof (pop_step top below path ai ai' fl Hinv Hall Htop Hother) as Hnext.
    destruct below as [|w rest].
    - exists (path ++ [top]), fl. split; [by destruct f|done].
    - apply IH; [done|]. cbn [length] in *. lia. }
  destruct (ai !! top) as [q|] eqn:Hq.
  - assert (Hq' : adj_of ai top = q) by (unfold adj_of; by rewrite Hq).
    destruct (next_edge_run top q fl) as [[-> Hall]|(skipped & u & e & rest & a & b & -> & Hsk & He & ->)].
    { intros u e Hin. destruct (inv_iter _ _ _ _ _ Hinv top) as (done & Hdone & _).
      destruct (Hadj top u e) as (a & b & HE & _).
      { rewrite Hdone, Hq', elem_of_app. by right. }
      destruct (lookup_flags fl e a b (inv_ends _ _ _ _ _ Hinv) HE) as [c Hc]. eauto. }
    + apply Hpop.
      * intros u e Hin. destruct (inv_iter _ _ _ _ _ Hinv top) as (done & Hdone & Hused).
        rewrite Hdone, Hq' in Hin. apply elem_of_app in Hin as [Hin|Hin]; eauto.
      * rewrite adj_of_insert. by rewrite decide_True.
      * intros x Hne. rewrite adj_of_insert. by rewrite decide_False.
    + apply IH.
      * apply (push_step top below path ai _ fl skipped u e rest a b); [done..| |].
        -- rewrite adj_of_insert. by rewrite decide_True.
        -- intros x Hne. rewrite adj_of_insert. by rewrite decide_False.
      * pose proof (mark_count fl e a b He). cbn [length] in *. lia.
  - assert (Hq' : adj_of ai top = []) by (unfold adj_of; by rewrite Hq).
    apply Hpop; [|done|done].
    intros u e Hin. destruct (inv_iter _ _ _ _ _ Hinv top) as (done & Hdone & Hused).
    rewrite Hdone, Hq', app_nil_r in Hin. eauto.
Qed.
End hierholzer.

(** *** The result *)

(** All edges lie in one connected component: any two vertices with
    edges are joined by a chain of edges. *)
Definition connected (g : Multigraph) : Prop :=
  ∀ x y, x ∈ nodes_with_edges g → y ∈ nodes_with_edges g →
         rtc (adjacent (ends g)) x y.

(** The vertex sequence traverses every edge exactly once. *)
Definition euler_trail (g : Multigraph) (path : list Z) : Prop :=
  ∃ es, trail (ends g) path es ∧ es ≡ₚ seq 0 (length (edges g)).

Lemma ends_reset (fl : list (Z * Z * bool)) : fst <$> ((λ e, (e.1, false)) <$> fl) = fst <$> fl.
Proof. rewrite <- list_fmap_compose. by apply list_fmap_ext. Qed.

Lemma inv_initial g start a0 :
  (∀ x, Z.odd (degree (ends g) x)
        = xorb (bool_decide (x = start)) (bool_decide (x = a0))) →
  inv (ends g) (adj g) start a0 start [] [] (adj g) ((λ e, (e.1, false)) <$> edges g).
Proof.
  intros Hpar. split.
  - apply ends_reset.
  - done.
  - intros x. exists []. split; [done|]. intros u e Hin. by apply elem_of_nil in Hin.
  - intros x Hx. by apply elem_of_nil in Hx.
  - exists a0, [], []. split_and!; [constructor|constructor|done|constructor| |].
    + intros e. split; [intros He; by apply used_reset in He|].
      intros He. by apply elem_of_nil in He.
    + intros x. by rewrite udeg_reset.
Qed.

Lemma final_connected g start a0 path fl :
  undirected g → final (ends g) (adj g) start a0 path fl →
  start ∈ nodes_with_edges g →
  (∀ e, (e < length fl)%nat → used fl e) ↔ connected g.
Proof.
  intros [_ Hadj Hends] [Hfl Hclosed (ep & Htrail & Hhead & _ & _ & Hused)] Hstart.
  assert (Hpath : ∀ x, x ∈ reverse path ↔ x ∈ path) by (intros x; apply elem_of_reverse).
  split.
  - intros Hall.
    assert (Hon : ∀ x, x ∈ nodes_with_edges g → x ∈ reverse path).
    { intros x (u & v & Hin & Hx)%nodes_with_edges_elem.
      apply list_elem_of_lookup in Hin as [e He].
      assert (Hlt : (e < length fl)%nat).
      { apply lookup_lt_Some in He. by rewrite <- Hfl, length_fmap in He. }
      apply Hall, Hused in Hlt.
      destruct (trail_ends _ _ _ e u v Htrail Hlt) as [Hu Hv].
      { exists u, v. split; [done|tauto]. }
      by destruct Hx as [->| ->]. }
    intros x y Hx Hy. apply (trail_connected _ _ _ _ _ Htrail); by apply Hon.
  - intros Hconn.
    assert (Hstep : ∀ x y, rtc (adjacent (ends g)) x y → x ∈ path → y ∈ path).
    { intros x y Hxy. induction Hxy as [x|x z y [e Hj] _ IH]; [done|]. intros Hx.
      apply IH. apply Hpath.
      assert (Hin : (z, e) ∈ adj_of (adj g) x).
      { destruct Hj as (u & v & He & Huv). destruct (Hends e u v He) as [H1 H2].
        by destruct Huv as [[-> ->]|[-> ->]]. }
      pose proof (Hclosed x Hx z e Hin) as Hue. apply Hused in Hue.
      by destruct (trail_ends _ _ _ e x z Htrail Hue Hj). }
    assert (Hs : start ∈ path).
    { apply Hpath. destruct (reverse path) as [|h l]; [done|].
      injection Hhead as ->. by left. }
    intros e He. destruct (lookup_lt_is_Some_2 fl e He) as [[[u v] b] Hb].
    assert (HE : ends g !! e = Some (u, v)) by by rewrite <- Hfl, list_lookup_fmap, Hb.
    assert (Hu : u ∈ path).
    { apply (Hstep start u); [|done]. apply Hconn; [done|].
      apply nodes_with_edges_elem. exists u, v. split; [|auto].
      by apply list_elem_of_lookup_2 in HE. }
    destruct (Hends e u v HE) as [Hin _]. by apply (Hclosed u Hu v e).
Qed.

Lemma final_euler g start a0 path fl :
  final (ends g) (adj g) start a0 path fl →
  (∀ e, (e < length fl)%nat → used fl e) →
  euler_trail g (reverse path).
Proof.
  intros [Hfl _ (ep & Htrail & _ & _ & Hnd & Hused)] Hall.
  assert (Hlen : length fl = length (edges g)).
  { apply (f_equal length) in Hfl. unfold ends in Hfl. by rewrite !length_fmap in Hfl. }
  exists ep. split; [done|]. apply NoDup_Permutation; [done|apply NoDup_seq|].
  intros e. rewrite <- Hused, elem_of_seq, <- Hlen. split.
  - intros (u & v & He). apply lookup_lt_Some in He. lia.
  - intros [_ He]. apply Hall. lia.
Qed.

Lemma odd_start g x : odd_degree g x → x ∈ nodes_with_edges g.
Proof.
  intros Hodd. apply odd_keys_elem in Hodd. rewrite odd_keys_vertices in Hodd.
  unfold odd_vertices in Hodd. apply list_elem_of_filter in Hodd as [_ Hin].
  by apply elem_of_elements in Hin.
Qed.

Section find_euler_correct.
Variable g : Multigraph.
Hypothesis g_und : undirected g.

(** The search proper, once the degrees have been checked. *)
Lemma search_ok fuel start a0 :
  (∀ x, Z.odd (degree (ends g) x)
        = xorb (bool_decide (x = start)) (bool_decide (x = a0))) →
  start ∈ nodes_with_edges g →
  (2 * length (edges g) + 1 ≤ fuel)%nat →
  ∃ path fl,
    hierholzer fuel [start] [] (adj g) ((λ e, (e.1, false)) <$> edges g)
    = Some (Ret (path, fl)) ∧
    (forallb snd fl = true ↔ connected g) ∧
    (forallb snd fl = true →
       euler_trail g (reverse path) ∧
       head (reverse path) = Some start ∧ last (reverse path) = Some a0).
Proof.
  intros Hpar Hstart Hfuel.
  destruct (hierholzer_ok (ends g) (adj g) start a0 (und_adj g g_und) (und_ends g g_und)
              fuel start [] [] (adj g) ((λ e, (e.1, false)) <$> edges g))
    as (path & fl & Hrun & Hfinal).
  { by apply inv_initial. }
  { pose proof (unused_count_le ((λ e, (e.1, false)) <$> edges g)) as Hle.
    rewrite length_fmap in Hle. cbn [length]. lia. }
  exists path, fl. split; [done|]. rewrite forallb_used. split.
  - by apply (final_connected g start a0 path fl).
  - intros Hall. split; [by apply (final_euler g start a0 path fl)|].
    destruct Hfinal as [_ _ (ep & _ & Hhead & Hlast & _)]. done.
Qed.
End find_euler_correct.

Lemma parity_none g start :
  odd_keys (degree_info g) = [] →
  ∀ x, Z.odd (degree (ends g) x)
       = xorb (bool_decide (x = start)) (bool_decide (x = start)).
Proof.
  intros Hodd x. rewrite xorb_nilpotent.
  destruct (Z.odd (degree (ends g) x)) eqn:Hx; [|done].
  apply odd_keys_elem in Hx. rewrite Hodd in Hx. by apply elem_of_nil in Hx.
Qed.

Lemma parity_two g o1 o2 :
  odd_keys (degree_info g) = [o1; o2] →
  o1 ≠ o2 ∧ odd_degree g o1 ∧ odd_degree g o2 ∧
  ∀ x, Z.odd (degree (ends g) x) = xorb (bool_decide (x = o1)) (bool_decide (x = o2)).
Proof.
  intros Hodd. pose proof (odd_keys_nodup g) as Hnd. rewrite Hodd in Hnd.
  apply NoDup_cons in Hnd as [Hne _]. rewrite list_elem_of_singleton in Hne.
  assert (Hin : ∀ x, odd_degree g x ↔ x = o1 ∨ x = o2).
  { intros x. rewrite <- odd_keys_elem, Hodd, !elem_of_cons, elem_of_nil. tauto. }
  split_and!; [done|apply Hin; auto..|].
  intros x. destruct (Z.odd (degree (ends g) x)) eqn:Hx.
  - apply Hin in Hx as [->| ->].
    + rewrite bool_decide_true by done. by rewrite bool_decide_false.
    + rewrite bool_decide_false by done. by rewrite bool_decide_true.
  - destruct (decide (x = o1)) as [->|H1].
    { assert (odd_degree g o1) as Ho by (apply Hin; auto). unfold odd_degree in Ho. congruence. }
    destruct (decide (x = o2)) as [->|H2].
    { assert (odd_degree g o2) as Ho by (apply Hin; auto). unfold odd_degree in Ho. congruence. }
    by rewrite !bool_decide_false.
Qed.

(** C4: for a graph built by the application in its undirected mode,
    whatever the order in which a set is iterated, and given fuel for
    two rounds of the loop per edge,
    [find_euler_undirected] returns [None] with a message exactly when
    the graph has no edges, when the number of vertices of odd degree
    is neither 0 nor 2, or when the edges do not all lie in one
    connected component; otherwise it returns a vertex sequence that
    traverses every edge exactly once, from one vertex of odd degree to
    the other when there are two, and back to where it starts when
    there are none. *)
Theorem find_euler_undirected_spec set_order g fuel :
  (∀ X, set_order X ≡ₚ elements X) → built g →
  (2 * length (edges g) + 1 ≤ fuel)%nat →
  ∃ r msg,
    find_euler_undirected set_order fuel g = Some (Ret (r, msg)) ∧
    (r = None ↔
       edges g = [] ∨
       ¬ (length (odd_vertices g) = 0%nat ∨ length (odd_vertices g) = 2%nat) ∨
       ¬ connected g) ∧
    (∀ path, r = Some path →
       euler_trail g path ∧
       (length (odd_vertices g) = 2%nat →
          ∃ x y, head path = Some x ∧ last path = Some y ∧ x ≠ y ∧
                 odd_degree g x ∧ odd_degree g y) ∧
       (length (odd_vertices g) = 0%nat → head path = last path)).
Proof.
  intros Horder Hbuilt Hfuel. pose proof (built_undirected g Hbuilt) as Hund.
  unfold find_euler_undirected.
  destruct (decide (nodes_with_edges g = ∅)) as [Hempty|Hnodes].
  { eexists _, _. split; [done|]. split; [|done].
    split; [|done]. intros _. left. by apply nodes_with_edges_empty. }
  assert (Hedges : edges g ≠ []) by by rewrite <- nodes_with_edges_empty.
  rewrite (und_flag g Hund).
  pose proof (Permutation_length (odd_keys_vertices g)) as Hlen. rewrite <- Hlen.
  destruct (bool_decide_reflect (length (odd_keys (degree_info g)) = 0%nat
                                 ∨ length (odd_keys (degree_info g)) = 2%nat)) as [Hcount|Hcount];
    cbn [negb].
  2:{ eexists _, _. split; [done|]. split; [|done]. split; [auto|done]. }
  assert (Hgo : ∀ start a0,
    (∀ x, Z.odd (degree (ends g) x)
          = xorb (bool_decide (x = start)) (bool_decide (x = a0))) →
    start ∈ nodes_with_edges g →
    ∃ r msg,
      match hierholzer fuel [start] [] (adj (copy_edge_usage g))
              (edges (copy_edge_usage g)) with
      | Some (Ret (path, edges0)) =>
          if forallb snd edges0
          then Some (Ret (Some (reverse path), "Euler path/circuit found."))
          else Some (Ret (None, "Graph is disconnected: some edges not reachable."))
      | Some (Raise e) => Some (Raise e)
      | None => None
      end = Some (Ret (r, msg)) ∧
      (r = None ↔ ¬ connected g) ∧
      (∀ path, r = Some path →
         euler_trail g path ∧ head path = Some start ∧ last path = Some a0)).
  { intros start a0 Hpar Hstart. cbn [adj edges copy_edge_usage].
    destruct (search_ok g Hund fuel start a0 Hpar Hstart Hfuel)
      as (path & fl & -> & Hconn & Hpath).
    destruct (forallb snd fl) eqn:Hall.
    - eexists _, _. split; [done|]. split.
      + split; [done|]. intros Hno. destruct Hno. by apply Hconn.
      + intros p [= <-]. by apply Hpath.
    - eexists _, _. split; [done|]. split; [|done].
      split; [|done]. intros _ Hc. apply Hconn in Hc. done. }
  destruct (odd_keys (degree_info g)) as [|o1 [|o2 [|o3 rest]]] eqn:Hodd;
    cbn [length] in Hcount; [|lia| |lia].
  - destruct (set_order (nodes_with_edges g)) as [|start rest] eqn:Hset.
    { exfalso. apply Hnodes. apply set_eq. intros x.
      rewrite <- elem_of_elements, <- Horder, Hset, elem_of_nil. set_solver. }
    cbn [head].
    assert (Hstart : start ∈ nodes_with_edges g).
    { apply elem_of_elements. rewrite <- Horder, Hset. by left. }
    destruct (Hgo start start (parity_none g start Hodd) Hstart)
      as (r & msg & -> & Hnone & Hpath).
    exists r, msg. split; [done|]. split.
    + rewrite Hnone. cbn [length]. split; [auto|]. intros [?|[Hc|?]]; [done| |done].
      destruct Hc. auto.
    + intros path Hr. destruct (Hpath path Hr) as (Heuler & Hhead & Hlast).
      split; [done|]. cbn [length]. split; [lia|]. intros _. by rewrite Hhead, Hlast.
  - destruct (parity_two g o1 o2 Hodd) as (Hne & Ho1 & Ho2 & Hpar).
    destruct (Hgo o1 o2 Hpar (odd_start g o1 Ho1)) as (r & msg & -> & Hnone & Hpath).
    exists r, msg. split; [done|]. split.
    + rewrite Hnone. cbn [length]. split; [auto|]. intros [?|[Hc|?]]; [done| |done].
      destruct Hc. auto.
    + intros path Hr. destruct (Hpath path Hr) as (Heuler & Hhead & Hlast).
      split; [done|]. cbn [length]. split; [|lia]. intros _. by exists o1, o2.
Qed.

Lemma load_built pairs : built (load pairs).
Proof.
  unfold load. generalize (new_graph false) built_new.
  induction pairs as [|p pairs IH]; intros g Hg; [done|].
  cbn [fold_left]. apply IH. by constructor.
Qed.

Lemma find_euler_undirected_spec_witness :
  ∃ r msg,
    find_euler_undirected elements 20 load_sample_path = Some (Ret (r, msg)) ∧
    (r = None ↔
       edges load_sample_path = [] ∨
       ¬ (length (odd_vertices load_sample_path) = 0%nat
          ∨ length (odd_vertices load_sample_path) = 2%nat) ∨
       ¬ connected load_sample_path) ∧
    (∀ path, r = Some path →
       euler_trail load_sample_path path ∧
       (length (odd_vertices load_sample_path) = 2%nat →
          ∃ x y, head path = Some x ∧ last path = Some y ∧ x ≠ y ∧
                 odd_degree load_sample_path x ∧ odd_degree load_sample_path y) ∧
       (length (odd_vertices load_sample_path) = 0%nat → head path = last path)).
Proof.
  apply (find_euler_undirected_spec elements load_sample_path 20).
  - reflexivity.
  - apply load_built.
  - vm_compute. lia.
Defined.

Example sample_circuit_found :
  find_euler_undirected (λ _, [0; 1; 2; 3]) 20 load_sample_circuit
  = Some (Ret (Some [0; 1; 2; 0; 3; 0], "Euler path/circuit found.")).
Proof. vm_compute. reflexivity. Qed.

Example sample_path_found :
  find_euler_undirected elements 20 load_sample_path
  = Some (Ret (Some [0; 1; 2; 3; 1; 4], "Euler path/circuit found.")).
Proof. vm_compute. reflexivity. Qed.

Example sample_odd :
  find_euler_undirected elements 20 (load [(0, 1); (0, 2); (0, 3)])
  = Some (Ret (None, "No Euler path/circuit: 4 vertices have odd degree.")).
Proof. vm_compute. reflexivity. Qed.

Example sample_disconnected :
  find_euler_undirected elements 20 (load [(0, 1); (1, 2); (2, 0); (5, 6); (6, 5)])
  = Some (Ret (None, "Graph is disconnected: some edges not reachable.")).
Proof. vm_compute. reflexivity. Qed.

(** *** The degree table *)

(** [sum(deg.values())] *)
Definition total (d : list (Z * Z)) : Z := foldr Z.add 0 d.*2.

Lemma incr_total d n : total (incr d n) = total d + 1.
Proof.
  unfold total. induction d as [|[k c] d IH]; cbn [incr]; [done|].
  case_decide; cbn in *; lia.
Qed.

Lemma degree_info_total g : total (degree_info g) = 2 * Z.of_nat (length (edges g)).
Proof.
  unfold degree_info.
  assert (Hgen : ∀ (l : list (Z * Z * bool)) d,
    total (fold_left (λ deg e, incr (incr deg e.1.1) e.1.2) l d)
    = total d + 2 * Z.of_nat (length l)).
  { induction l as [|e l IH]; intros d; cbn [fold_left length]; [lia|].
    rewrite IH, !incr_total. lia. }
  rewrite Hgen. unfold total. cbn. lia.
Qed.

Lemma odd_keys_parity d : ∃ h, total d = Z.of_nat (length (odd_keys d)) + 2 * h.
Proof.
  unfold total, odd_keys. induction d as [|[k c] d [h IH]]; [by exists 0|].
  rewrite filter_cons. cbn [fmap list_fmap snd foldr].
  change (list_fmap _ _ snd d) with (d.*2). rewrite IH. cbn [snd].
  case_decide as Hodd.
  - exists (h + c `div` 2). cbn [fmap list_fmap length].
    pose proof (Z.div_mod c 2 ltac:(lia)). lia.
  - exists (h + c `div` 2). pose proof (Z.div_mod c 2 ltac:(lia)).
    pose proof (Z.mod_pos_bound c 2 ltac:(lia)). lia.
Qed.

Lemma odd_keys_even g : Nat.Even (length (odd_keys (degree_info g))).
Proof.
  destruct (odd_keys_parity (degree_info g)) as [h Hh]. rewrite degree_info_total in Hh.
  exists (Z.to_nat (Z.of_nat (length (edges g)) - h)). lia.
Qed.

(** X12.  On an undirected graph the table of [degree_info] has one entry for
    each vertex with an edge, holding the number of edge ends there (a
    loop counts twice); its entries add up to twice the number of
    edges, so the vertices of odd degree are even in number, and the
    finder never reports an odd number of them. *)
Theorem degree_info_handshake (g : Multigraph) :
  directed g = false →
  NoDup (degree_info g).*1 ∧
  (∀ x, x ∈ (degree_info g).*1 ↔ x ∈ nodes_with_edges g) ∧
  (∀ x c, (x, c) ∈ degree_info g → c = degree (ends g) x) ∧
  total (degree_info g) = 2 * Z.of_nat (length (edges g)) ∧
  Nat.Even (length (odd_keys (degree_info g))) ∧
  ∀ set_order fuel,
    edges g ≠ [] →
    length (odd_keys (degree_info g)) ≠ 0%nat →
    length (odd_keys (degree_info g)) ≠ 2%nat →
    (4 ≤ length (odd_keys (degree_info g)))%nat ∧
    find_euler_undirected set_order fuel g
    = Some (Ret (None, "No Euler path/circuit: "
                       +:+ pretty (length (odd_keys (degree_info g)))
                       +:+ " vertices have odd degree.")).
Proof.
  intros Hflag. destruct (degree_info_count g) as [[Hnd Hpos] Hcount].
  split_and!.
  - done.
  - intros x. rewrite nodes_with_edges_elem, <- degree_pos, <- Hcount. split.
    + intros ([k c] & -> & Hin)%list_elem_of_fmap. cbn [fst].
      rewrite (count_elem _ _ _ Hnd Hin). by apply (Hpos k).
    + intros Hx. apply list_elem_of_fmap. exists (x, count (degree_info g) x).
      split; [done|]. by apply count_key.
  - intros x c Hin. by rewrite <- Hcount, (count_elem _ _ _ Hnd Hin).
  - apply degree_info_total.
  - apply odd_keys_even.
  - intros set_order fuel Hedges H0 H2. destruct (odd_keys_even g) as [h Hh]. split; [lia|].
    unfold find_euler_undirected. rewrite decide_False by by rewrite nodes_with_edges_empty.
    rewrite Hflag. rewrite bool_decide_false by lia. done.
Qed.

Lemma degree_info_handshake_witness :
  NoDup (degree_info (load [(0%Z, 1%Z); (2%Z, 3%Z)])).*1 ∧
  (∀ x, x ∈ (degree_info (load [(0%Z, 1%Z); (2%Z, 3%Z)])).*1 ↔ x ∈ nodes_with_edges (load [(0%Z, 1%Z); (2%Z, 3%Z)])) ∧
  (∀ x c, (x, c) ∈ degree_info (load [(0%Z, 1%Z); (2%Z, 3%Z)]) → c = degree (ends (load [(0%Z, 1%Z); (2%Z, 3%Z)])) x) ∧
  total (degree_info (load [(0%Z, 1%Z); (2%Z, 3%Z)])) = 2 * Z.of_nat (length (edges (load [(0%Z, 1%Z); (2%Z, 3%Z)]))) ∧
  Nat.Even (length (odd_keys (degree_info (load [(0%Z, 1%Z); (2%Z, 3%Z)])))) ∧
  ∀ set_order fuel,
    edges (load [(0%Z, 1%Z); (2%Z, 3%Z)]) ≠ [] →
    length (odd_keys (degree_info (load [(0%Z, 1%Z); (2%Z, 3%Z)]))) ≠ 0%nat →
    length (odd_keys (degree_info (load [(0%Z, 1%Z); (2%Z, 3%Z)]))) ≠ 2%nat →
    (4 ≤ length (odd_keys (degree_info (load [(0%Z, 1%Z); (2%Z, 3%Z)]))))%nat ∧
    find_euler_undirected set_order fuel (load [(0%Z, 1%Z); (2%Z, 3%Z)])
    = Some (Ret (None, "No Euler path/circuit: "
                       +:+ pretty (length (odd_keys (degree_info (load [(0%Z, 1%Z); (2%Z, 3%Z)]))))
                       +:+ " vertices have odd degree.")).
Proof. apply (degree_info_handshake (load [(0%Z, 1%Z); (2%Z, 3%Z)])). reflexivity. Defined.

End Euler.
